(** * libcomp: packet codec, encrypted connection, persistence core,
      data store and server data manager

    A shallow embedding of the parts of libcomp that the specification of
    the server core talks about, followed by the properties proved about
    them.  Every definition names the C++ function it is translated from.

    Conventions.
    - [uint32_t] and [uint16_t] values are integers in [Z]; every C++
      operation that can wrap is written with [wrap32] / [wrap16].
    - A C++ exception ([PACKET_EXCEPTION]) is the [Throw] case of [result].
    - State that C++ mutates through [this] or through a reference is passed
      in and returned explicitly. *)

From Stdlib Require Import ZArith Lia Strings.Byte Strings.Ascii.
From stdpp Require Import gmap strings pretty list fin_maps.

Local Open Scope Z_scope.

(* ===================================================================== *)
(** * Part I: definitions                                                 *)
(* ===================================================================== *)

(** ** Machine integers and bytes *)

Definition wrap32 (z : Z) : Z := z mod 2 ^ 32.
Definition wrap16 (z : Z) : Z := z mod 2 ^ 16.

Definition is_u32 (z : Z) : Prop := 0 <= z < 2 ^ 32.
Definition is_u16 (z : Z) : Prop := 0 <= z < 2 ^ 16.

Definition byte_val (b : byte) : Z := Z.of_N (Byte.to_N b).

Definition byte_of_Z (z : Z) : byte :=
  match Byte.of_N (Z.to_N (z mod 256)) with
  | Some b => b
  | None => Byte.x00
  end.

Abbreviation bytes := (list byte).

#[global] Instance byte_eq_dec : EqDecision byte := Byte.byte_eq_dec.

(** Little- and big-endian images of 16- and 32-bit values. *)
Definition u16le (v : Z) : bytes := [byte_of_Z v; byte_of_Z (v / 256)].
Definition u16be (v : Z) : bytes := [byte_of_Z (v / 256); byte_of_Z v].
Definition u32be (v : Z) : bytes :=
  [byte_of_Z (v / 16777216); byte_of_Z (v / 65536); byte_of_Z (v / 256);
   byte_of_Z v].

Definition le16 (b0 b1 : byte) : Z := byte_val b0 + 256 * byte_val b1.
Definition be32 (b0 b1 b2 b3 : byte) : Z :=
  16777216 * byte_val b0 + 65536 * byte_val b1 + 256 * byte_val b2
  + byte_val b3.

(** ** Exceptions *)

Inductive result (A : Type) : Type :=
| Ok (a : A)
| Throw (msg : string).
Arguments Ok {A} a.
Arguments Throw {A} msg.

#[global] Instance result_ret : MRet result := fun A a => Ok a.
#[global] Instance result_bind : MBind result := fun A B f m =>
  match m with
  | Ok a => f a
  | Throw msg => Throw msg
  end.

Definition is_Ok {A} (r : result A) : bool :=
  match r with Ok _ => true | Throw _ => false end.

(** ** Build constants

    [Constants.h] is not part of the sources at hand, so the constants it
    defines are parameters of the development.  [MAX_PACKET_SIZE_mod4] is
    the [static_assert] of the [ReadOnlyPacket] constructor. *)

Class Constants := {
  MAX_PACKET_SIZE : Z;
  BF_NET_KEY_BYTE_SIZE : Z;
  DH_KEY_HEX_SIZE : Z;
  DH_BASE_STRING : bytes;
  MAX_PACKET_SIZE_mod4 : MAX_PACKET_SIZE mod 4 = 0;
  MAX_PACKET_SIZE_range : 0 < MAX_PACKET_SIZE < 2 ^ 31;
  DH_KEY_HEX_SIZE_range : 0 < DH_KEY_HEX_SIZE < 2 ^ 16;
  BF_NET_KEY_BYTE_SIZE_range : 0 < BF_NET_KEY_BYTE_SIZE < 2 ^ 16;
  DH_BASE_STRING_range : (0 < length DH_BASE_STRING < 256)%nat
}.

(** The values libcomp is built with: 16 KiB packets, an 8 byte Blowfish
    key, 256 hexadecimal digits of Diffie-Hellman key, base ["2"]. *)
Program Definition libcomp_constants : Constants := {|
  MAX_PACKET_SIZE := 16384;
  BF_NET_KEY_BYTE_SIZE := 8;
  DH_KEY_HEX_SIZE := 256;
  DH_BASE_STRING := ["2"%byte]
|}.
Next Obligation. reflexivity. Defined.
Next Obligation. lia. Defined.
Next Obligation. lia. Defined.
Next Obligation. lia. Defined.
Next Obligation. simpl; lia. Defined.

(** ** ReadOnlyPacket.cpp *)

Module Packet.

(** A packet or a read-only view: [mData] is the storage seen from the
    view's data pointer, [mSize] the number of valid bytes, [mPosition] the
    cursor. *)
Record ReadOnlyPacket := mkPacket {
  mPosition : Z;
  mSize : Z;
  mData : bytes
}.

Definition set_position (p : ReadOnlyPacket) (pos : Z) : ReadOnlyPacket :=
  mkPacket pos (mSize p) (mData p).

(** The bytes a view exposes. *)
Definition contents (p : ReadOnlyPacket) : bytes :=
  take (Z.to_nat (mSize p)) (mData p).

(** A packet holding [bs], cursor at the start. *)
Definition of_bytes (bs : bytes) : ReadOnlyPacket :=
  mkPacket 0 (Z.of_nat (length bs)) bs.

Section WithConstants.
Context `{Constants}.

(** [ReadOnlyPacket::Seek] *)
Definition Seek (pos : Z) (p : ReadOnlyPacket) : result ReadOnlyPacket :=
  if MAX_PACKET_SIZE <? pos
  then Throw "Attempted to seek past the MAX_PACKET_SIZE"
  else Ok (set_position p pos).

(** [ReadOnlyPacket::Skip] *)
Definition Skip (sz : Z) (p : ReadOnlyPacket) : result ReadOnlyPacket :=
  if sz =? 0 then Ok p
  else if MAX_PACKET_SIZE <? wrap32 (mPosition p + sz)
  then Throw "Attempted to skip bytes in the ReadOnlypacket; however, doing so would exceed MAX_PACKET_SIZE"
  else Ok (set_position p (wrap32 (mPosition p + sz))).

(** [ReadOnlyPacket::Rewind()] *)
Definition Rewind0 (p : ReadOnlyPacket) : ReadOnlyPacket := set_position p 0.

(** [ReadOnlyPacket::Rewind(uint32_t)] *)
Definition Rewind (n : Z) (p : ReadOnlyPacket) : result ReadOnlyPacket :=
  if n =? 0 then Ok p
  else if n >? mPosition p
  then Throw "Attempted to rewind bytes in the ReadOnlypacket; however, doing so would rewind past the beginning of the ReadOnlypacket"
  else Ok (set_position p (mPosition p - n)).

(** [ReadOnlyPacket::Tell], [Left], [Size] *)
Definition Tell (p : ReadOnlyPacket) : Z := mPosition p.
Definition Left (p : ReadOnlyPacket) : Z := wrap32 (mSize p - mPosition p).
Definition Size (p : ReadOnlyPacket) : Z := mSize p.

(** [Packet::Clear]: forget the data and rewind. *)
Definition Clear (p : ReadOnlyPacket) : ReadOnlyPacket := mkPacket 0 0 (mData p).

(** The byte under offset [i] of the storage; reading outside the storage
    the model knows of yields 0. *)
Definition byte_at (p : ReadOnlyPacket) (i : Z) : byte :=
  default Byte.x00 (mData p !! Z.to_nat i).

(** [ReadOnlyPacket::PeekU16] followed by [le16toh]. *)
Definition PeekU16Little (p : ReadOnlyPacket) : result Z :=
  if wrap32 (mPosition p + 2) >? mSize p
  then Throw "Attempted to read 2 bytes from the ReadOnlypacket; however, this would read past the end of the ReadOnlypacket."
  else Ok (le16 (byte_at p (mPosition p)) (byte_at p (mPosition p + 1))).

(** [ReadOnlyPacket::ReadU16Little]: [ReadU16] checks the bound, copies
    the value and calls [Skip(2)]. *)
Definition ReadU16Little (p : ReadOnlyPacket) : result (Z * ReadOnlyPacket) :=
  v ← PeekU16Little p;
  p' ← Skip 2 p;
  Ok (v, p').

(** [ReadOnlyPacket::PeekU32Big] *)
Definition PeekU32Big (p : ReadOnlyPacket) : result Z :=
  if wrap32 (mPosition p + 4) >? mSize p
  then Throw "Attempted to read 4 bytes from the ReadOnlypacket; however, this would read past the end of the ReadOnlypacket."
  else Ok (be32 (byte_at p (mPosition p)) (byte_at p (mPosition p + 1))
                (byte_at p (mPosition p + 2)) (byte_at p (mPosition p + 3))).

(** [ReadOnlyPacket::ReadU32Big] *)
Definition ReadU32Big (p : ReadOnlyPacket) : result (Z * ReadOnlyPacket) :=
  v ← PeekU32Big p;
  p' ← Skip 4 p;
  Ok (v, p').

(** [ReadOnlyPacket::ReadArray(uint32_t)] *)
Definition ReadArray (sz : Z) (p : ReadOnlyPacket) : result (bytes * ReadOnlyPacket) :=
  if sz =? 0 then Ok ([], p)
  else if wrap32 (mPosition p + sz) >? mSize p
  then Throw "Attempted to read an array; however, doing so would read more data then is remaining in the ReadOnlypacket"
  else
    p' ← Skip sz p;
    Ok (take (Z.to_nat sz) (drop (Z.to_nat (mPosition p)) (mData p)), p').

(** [ReadOnlyPacket::ReadString32Big] with the default [trimNull = false].
    The string is kept as its bytes: [Convert::FromEncoding] is not part of
    the sources at hand and the handshake only compares and forwards the
    strings. *)
Definition ReadString32Big (p : ReadOnlyPacket) : result (bytes * ReadOnlyPacket) :=
  '(sz, p1) ← ReadU32Big p;
  ReadArray sz p1.

(** The sub-view constructor
    [ReadOnlyPacket(const ReadOnlyPacket& other, uint32_t start, uint32_t size)]. *)
Definition SubPacket (other : ReadOnlyPacket) (start size : Z) : result ReadOnlyPacket :=
  if wrap32 (start + size) >? mSize other
  then Throw "Attempted to copy part of a packet that does not exist."
  else Ok (mkPacket 0 size (drop (Z.to_nat start) (mData other))).

(** [ReadOnlyPacket::PeekU8] *)
Definition PeekU8 (p : ReadOnlyPacket) : result Z :=
  if wrap32 (mPosition p + 1) >? mSize p
  then Throw "Attempted to read 1 byte from the ReadOnlypacket; however, this would read past the end of the ReadOnlypacket."
  else Ok (byte_val (byte_at p (mPosition p))).

(** [ReadOnlyPacket::ReadU8] *)
Definition ReadU8 (p : ReadOnlyPacket) : result (Z * ReadOnlyPacket) :=
  v ← PeekU8 p;
  p' ← Skip 1 p;
  Ok (v, p').

(** The loop [while (Left() > 0 && ReadU8() != 0) sz++] of [ReadString]:
    the count and the packet when the loop is left.  The loop has no bound
    of its own; [None] says that the iterations counted by [fuel] are used
    up. *)
Fixpoint scan_string (fuel : nat) (sz : Z) (p : ReadOnlyPacket)
  : option (result (Z * ReadOnlyPacket)) :=
  match fuel with
  | O => None
  | S fuel' =>
    if Left p >? 0 then
      match ReadU8 p with
      | Throw e => Some (Throw e)
      | Ok (v, p') =>
        if negb (v =? 0) then scan_string fuel' (wrap32 (sz + 1)) p'
        else Some (Ok (sz, p'))
      end
    else Some (Ok (sz, p))
  end.

(** [ReadOnlyPacket::ReadString], up to the conversion: the buffer handed
    to [Convert::FromEncoding], which is not part of the sources at hand.
    The cursor a throwing read leaves behind is not modelled. *)
Definition ReadString (p : ReadOnlyPacket) : option (result (bytes * ReadOnlyPacket)) :=
  r ← scan_string (S (Z.to_nat (mSize p))) 0 p;
  Some ('(sz, p1) ← r;
        let sz := wrap32 (sz + 1) in
        p2 ← Rewind sz p1;
        ReadArray sz p2).

End WithConstants.
End Packet.

(** ** EncryptedConnection.cpp *)

Module EncryptedConnection.
Import Packet.

Inductive ConnectionStatus_t :=
| STATUS_NOT_CONNECTED
| STATUS_CONNECTING
| STATUS_CONNECTED
| STATUS_WAITING_ENCRYPTION
| STATUS_ENCRYPTED.

Inductive Role_t := ROLE_CLIENT | ROLE_SERVER.

(** The member function [mPacketParser] points to. *)
Inductive PacketParser :=
| ParseClientEncryptionStart_fn
| ParseServerEncryptionStart_fn
| ParseServerEncryptionFinish_fn
| ParsePacket_fn.

#[global] Instance ConnectionStatus_eq_dec : EqDecision ConnectionStatus_t.
Proof. solve_decision. Defined.

(** What the worker queue receives.  [conn] is the identity of the
    connection object behind the shared pointer [self]. *)
Inductive Message :=
| MessagePacket (conn : nat) (commandCode : Z) (command : ReadOnlyPacket)
| MessageEncrypted (conn : nat)
| MessageConnectionClosed (conn : nat).

(** The Diffie-Hellman and Blowfish primitives live in [Crypto.cpp] and
    [TcpConnection.cpp], which are not part of the sources at hand; they are
    parameters.  [DH] stands for [std::shared_ptr<Crypto::DiffieHellman>]
    (null included); generating the public value updates the key pair. *)
Class CryptoOps := {
  DH : Type;
  LoadDiffieHellman : bytes -> DH;
  GetDiffieHellmanPrime : DH -> bytes;
  GenerateDiffieHellmanPublic : DH -> DH * bytes;
  GenerateDiffieHellmanSharedData : DH -> bytes -> bytes;
  DecryptPacket : option bytes -> ReadOnlyPacket -> ReadOnlyPacket
}.

Section WithOps.
Context `{Constants} `{CryptoOps}.

(** The connection object.  [mMessageQueue] is the result of locking the
    weak pointer: [None] when the queue is gone.  [mOutgoing] collects the
    packets handed to [SendPacket], [mRequested] the byte counts handed to
    [RequestPacket], [mErrors] the messages handed to [SocketError].  The
    capture file is left out ([mCaptureFile == nullptr]). *)
Record Connection := mkConnection {
  mSelf : nat;
  mStatus : ConnectionStatus_t;
  mRole : Role_t;
  mPacketParser : option PacketParser;
  mEncryptionKey : option bytes;
  mDiffieHellman : DH;
  mMessageQueue : option (list Message);
  mOutgoing : list bytes;
  mRequested : list Z;
  mRequestOk : bool;
  mErrors : list string
}.

Definition set_status (s : ConnectionStatus_t) (c : Connection) : Connection :=
  mkConnection (mSelf c) s (mRole c) (mPacketParser c) (mEncryptionKey c)
    (mDiffieHellman c) (mMessageQueue c) (mOutgoing c) (mRequested c)
    (mRequestOk c) (mErrors c).

Definition set_parser (f : option PacketParser) (c : Connection) : Connection :=
  mkConnection (mSelf c) (mStatus c) (mRole c) f (mEncryptionKey c)
    (mDiffieHellman c) (mMessageQueue c) (mOutgoing c) (mRequested c)
    (mRequestOk c) (mErrors c).

(** [SetEncryptionKey] *)
Definition SetEncryptionKey (k : bytes) (c : Connection) : Connection :=
  mkConnection (mSelf c) (mStatus c) (mRole c) (mPacketParser c) (Some k)
    (mDiffieHellman c) (mMessageQueue c) (mOutgoing c) (mRequested c)
    (mRequestOk c) (mErrors c).

Definition set_dh (d : DH) (c : Connection) : Connection :=
  mkConnection (mSelf c) (mStatus c) (mRole c) (mPacketParser c)
    (mEncryptionKey c) d (mMessageQueue c) (mOutgoing c) (mRequested c)
    (mRequestOk c) (mErrors c).

Definition set_queue (q : option (list Message)) (c : Connection) : Connection :=
  mkConnection (mSelf c) (mStatus c) (mRole c) (mPacketParser c)
    (mEncryptionKey c) (mDiffieHellman c) q (mOutgoing c) (mRequested c)
    (mRequestOk c) (mErrors c).

(** [MessageQueue::Enqueue] on the locked queue. *)
Definition Enqueue (m : Message) (c : Connection) : Connection :=
  set_queue ((fun q => q ++ [m]) <$> mMessageQueue c) c.

(** [SendPacket] *)
Definition SendPacket (reply : bytes) (c : Connection) : Connection :=
  mkConnection (mSelf c) (mStatus c) (mRole c) (mPacketParser c)
    (mEncryptionKey c) (mDiffieHellman c) (mMessageQueue c)
    (mOutgoing c ++ [reply]) (mRequested c) (mRequestOk c) (mErrors c).

Definition log_error (msg : string) (c : Connection) : Connection :=
  mkConnection (mSelf c) (mStatus c) (mRole c) (mPacketParser c)
    (mEncryptionKey c) (mDiffieHellman c) (mMessageQueue c) (mOutgoing c)
    (mRequested c) (mRequestOk c) (mErrors c ++ [msg]).

(** Modelled from the spec: [TcpConnection::Close] is not part of the
    sources at hand.  Closing moves the connection to [not-connected] and
    reports whether it was connected before, so that one final
    [ConnectionClosed] is emitted. *)
Definition TcpConnection_Close (c : Connection) : bool * Connection :=
  (bool_decide (mStatus c <> STATUS_NOT_CONNECTED),
   set_status STATUS_NOT_CONNECTED c).

(** [EncryptedConnection::Close] *)
Definition Close (c : Connection) : bool * Connection :=
  let messageQueue := mMessageQueue c in
  let '(closed, c1) := TcpConnection_Close c in
  if closed && bool_decide (is_Some messageQueue)
  then (true, Enqueue (MessageConnectionClosed (mSelf c1)) c1)
  else (false, c1).

(** Modelled from the spec: [TcpConnection::SocketError] is not part of the
    sources at hand.  Any parse failure, bound violation or short read
    transitions the connection to [not-connected] and emits
    [ConnectionClosed]: the error is logged and the connection closed
    through the virtual [Close]. *)
Definition TcpConnection_SocketError (msg : string) (c : Connection) : Connection :=
  snd (Close (log_error msg c)).

(** [EncryptedConnection::SocketError] *)
Definition SocketError (msg : string) (c : Connection) : Connection :=
  set_parser None (TcpConnection_SocketError msg c).

(** *** Code that runs on a packet reference and the connection

    A computation may change the packet, change the connection, and raise a
    packet exception; the changes made before the exception stay. *)
Definition M (A : Type) : Type :=
  ReadOnlyPacket * Connection -> (ReadOnlyPacket * Connection) * result A.

#[local] Instance M_ret : MRet M := fun A a s => (s, Ok a).
#[local] Instance M_bind : MBind M := fun A B f m s =>
  match m s with
  | (s', Ok a) => f a s'
  | (s', Throw e) => (s', Throw e)
  end.

(** A reading member function of the packet. *)
Definition on_packet {A} (f : ReadOnlyPacket -> result (A * ReadOnlyPacket)) : M A :=
  fun s => match f (fst s) with
           | Ok (a, p') => ((p', snd s), Ok a)
           | Throw e => (s, Throw e)
           end.

(** A [const] or peeking member function of the packet. *)
Definition peek_packet {A} (f : ReadOnlyPacket -> result A) : M A :=
  fun s => (s, f (fst s)).

Definition with_packet (f : ReadOnlyPacket -> ReadOnlyPacket) : M unit :=
  fun s => ((f (fst s), snd s), Ok tt).

Definition on_conn (f : Connection -> Connection) : M unit :=
  fun s => ((fst s, f (snd s)), Ok tt).

Definition get_conn : M Connection := fun s => (s, Ok (snd s)).
Definition get_packet : M ReadOnlyPacket := fun s => (s, Ok (fst s)).

(** A packet exception raised by code working on a local copy. *)
Definition lift {A} (r : result A) : M A := fun s => (s, r).

(** Modelled from the spec: [TcpConnection::RequestPacket] is not part of
    the sources at hand.  It asks the reactor for [n] more bytes;
    [mRequestOk] says whether the reactor accepts the request. *)
Definition RequestPacket (n : Z) : M bool :=
  fun s =>
    let c := snd s in
    ((fst s,
      mkConnection (mSelf c) (mStatus c) (mRole c) (mPacketParser c)
        (mEncryptionKey c) (mDiffieHellman c) (mMessageQueue c) (mOutgoing c)
        (mRequested c ++ [n]) (mRequestOk c) (mErrors c)),
     Ok (mRequestOk c)).

Definition when (b : bool) (m : M unit) : M unit := if b then m else mret tt.

(** [EncryptedConnection::SendMessage], with the [Encrypted] allocator of
    [ConnectionEncrypted].  [shared_from_this] yields the connection
    itself, so the shared pointer test never fires. *)
Definition SendMessage (alloc : nat -> Message) : M unit :=
  c ← get_conn;
  let messageQueue := mMessageQueue c in
  errorFound ← (if bool_decide (messageQueue = None)
                then on_conn (SocketError "No message queue for packet.");; mret true
                else mret false) : M bool;
  when (negb errorFound) (on_conn (Enqueue (alloc (mSelf c))));;
  ok ← RequestPacket 8;
  when (negb ok) (on_conn (SocketError "Failed to request more data.")).

(** [EncryptedConnection::ConnectionEncrypted], no capture path
    configured. *)
Definition ConnectionEncrypted : M unit := SendMessage MessageEncrypted.

(** A length-prefixed string as [Packet::WriteString32Big] writes it. *)
Definition string32be (s : bytes) : bytes := u32be (Z.of_nat (length s)) ++ s.

Definition bytes_eqb (a b : bytes) : bool := bool_decide (a = b).

(** [EncryptedConnection::ParseClientEncryptionStart] *)
Definition ParseClientEncryptionStart : M unit :=
  packet ← get_packet;
  let needed := Z.of_nat (length DH_BASE_STRING) + 2 * DH_KEY_HEX_SIZE + 4 * 4 in
  if needed >? Size packet then
    ok ← RequestPacket (needed - Size packet);
    when (negb ok) (on_conn (SocketError "Failed to request more data."))
  else
    zero ← on_packet ReadU32Big;
    status ← (if negb (0 =? zero)
              then on_conn (SocketError "Failed to parse encryption data.");; mret false
              else mret true) : M bool;
    status ← (if (status : bool) then
                sz ← peek_packet PeekU32Big;
                if negb (Z.of_nat (length DH_BASE_STRING) =? sz)
                then on_conn (SocketError "Failed to parse encryption base.");; mret false
                else mret true
              else mret false) : M bool;
    base ← (if (status : bool) then on_packet ReadString32Big else mret []) : M bytes;
    status ← (if status && negb (bytes_eqb DH_BASE_STRING base)
              then on_conn (SocketError "Failed to parse encryption base (not DH_BASE_STRING).");; mret false
              else mret status) : M bool;
    status ← (if (status : bool) then
                sz ← peek_packet PeekU32Big;
                if negb (DH_KEY_HEX_SIZE =? sz)
                then on_conn (SocketError "Failed to parse encryption prime.");; mret false
                else mret true
              else mret false) : M bool;
    prime ← (if (status : bool) then on_packet ReadString32Big else mret []) : M bytes;
    status ← (if (status : bool) then
                sz ← peek_packet PeekU32Big;
                if negb (DH_KEY_HEX_SIZE =? sz)
                then on_conn (SocketError "Failed to parse encryption server public.");; mret false
                else mret true
              else mret false) : M bool;
    serverPublic ← (if (status : bool) then on_packet ReadString32Big else mret []) : M bytes;
    packet ← get_packet;
    if status && (0 =? Left packet) then
      on_conn (set_status STATUS_WAITING_ENCRYPTION);;
      let dh := LoadDiffieHellman prime in
      let '(dh, clientPublic) := GenerateDiffieHellmanPublic dh in
      on_conn (set_dh dh);;
      let sharedData := GenerateDiffieHellmanSharedData dh serverPublic in
      if negb (BF_NET_KEY_BYTE_SIZE =? Z.of_nat (length sharedData)) then
        with_packet Clear;;
        on_conn (SocketError "Failed to generate encryption client public and shared data.")
      else
        on_conn (SendPacket (string32be clientPublic));;
        on_conn (SetEncryptionKey sharedData);;
        on_conn (set_status STATUS_ENCRYPTED);;
        on_conn (set_parser (Some ParsePacket_fn));;
        with_packet Clear;;
        ConnectionEncrypted
    else
      with_packet Clear;;
      on_conn (SocketError "Read too much data for packet.").

(** [EncryptedConnection::ParseExtensionConnection] *)
Definition ParseExtensionConnection : M bool := mret false.

(** [String::RightJustified(n, '0')]: pad on the left up to [n]
    characters. *)
Definition RightJustified (n : Z) (fill : byte) (s : bytes) : bytes :=
  replicate (Z.to_nat n - length s) fill ++ s.

(** [EncryptedConnection::ParseServerEncryptionStart] *)
Definition ParseServerEncryptionStart : M unit :=
  packet ← get_packet;
  if 2 * 4 >? Size packet then
    ok ← RequestPacket (2 * 4 - Size packet);
    when (negb ok) (on_conn (SocketError "Failed to request more data."))
  else
    first ← on_packet ReadU32Big;
    second ← on_packet ReadU32Big;
    packet ← get_packet;
    if (0 =? Left packet) && (1 =? first) && (8 =? second) then
      on_conn (set_status STATUS_WAITING_ENCRYPTION);;
      c ← get_conn;
      let '(dh, serverPublic) := GenerateDiffieHellmanPublic (mDiffieHellman c) in
      on_conn (set_dh dh);;
      on_conn (SendPacket
                 (u32be 0 ++ string32be DH_BASE_STRING
                  ++ string32be (GetDiffieHellmanPrime (mDiffieHellman c))
                  ++ string32be (RightJustified DH_KEY_HEX_SIZE "0"%byte serverPublic)));;
      on_conn (set_parser (Some ParseServerEncryptionFinish_fn));;
      with_packet Clear;;
      ok ← RequestPacket 4;
      when (negb ok) (on_conn (SocketError "Failed to request more data."))
    else
      with_packet Rewind0;;
      ext ← ParseExtensionConnection;
      when (negb ext)
        (with_packet Clear;;
         on_conn (SocketError "Read too much data for packet.")).

(** [EncryptedConnection::ParseServerEncryptionFinish] *)
Definition ParseServerEncryptionFinish : M unit :=
  packet ← get_packet;
  more ← (if 4 >? Size packet then mret true
          else sz ← peek_packet PeekU32Big; mret (4 + sz >? Size packet));
  if more : bool then
    sz ← peek_packet PeekU32Big;
    ok ← RequestPacket (sz + 4 - Size packet);
    when (negb ok) (on_conn (SocketError "Failed to request more data."))
  else
    sz ← peek_packet PeekU32Big;
    status ← (if DH_KEY_HEX_SIZE <? sz
              then on_conn (SocketError "Failed to parse encryption client public.");; mret false
              else mret true) : M bool;
    clientPublic ← (if (status : bool) then on_packet ReadString32Big else mret []) : M bytes;
    packet ← get_packet;
    if status && (0 =? Left packet) then
      c ← get_conn;
      let sharedData := GenerateDiffieHellmanSharedData (mDiffieHellman c) clientPublic in
      if negb (BF_NET_KEY_BYTE_SIZE =? Z.of_nat (length sharedData)) then
        with_packet Clear;;
        on_conn (SocketError "Failed to generate shared data.")
      else
        on_conn (SetEncryptionKey sharedData);;
        on_conn (set_status STATUS_ENCRYPTED);;
        on_conn (set_parser (Some ParsePacket_fn));;
        with_packet Clear;;
        ConnectionEncrypted
    else
      when status
        (with_packet Clear;;
         on_conn (SocketError "Read too much data for packet.")).

(** [EncryptedConnection::DecompressPacket]: the base class does nothing. *)
Definition DecompressPacket (paddedSize realSize dataStart : Z) : M bool := mret true.

(** How the command loop of [ParsePacket] ends.  The C++ loop has no
    bound of its own; the model counts iterations and reports [OutOfFuel]
    when the count is used up ([ParsePacket_terminates] shows that it never
    is). *)
Inductive LoopExit :=
| Finished (errorFound : bool) (copy : ReadOnlyPacket)
| OutOfFuel.

(** The [while (!errorFound && copy.Left() > padding)] loop of
    [ParsePacket(packet, paddedSize, realSize)].  [copy] is the local
    read-only copy. *)
Fixpoint parse_commands (fuel : nat) (padding : Z) (copy : ReadOnlyPacket) : M LoopExit :=
  match fuel with
  | O => mret OutOfFuel
  | S fuel' =>
    if negb (Left copy >? padding) then mret (Finished false copy)
    else if Left copy <? 3 * 2 then
      on_conn (SocketError "Corrupt packet (not enough data for command header).");;
      mret (Finished true copy)
    else
      copy ← lift (Skip 2 copy);
      let commandStart := Tell copy in
      '(commandSize, copy) ← lift (ReadU16Little copy);
      '(commandCode, copy) ← lift (ReadU16Little copy);
      errorFound ← (if commandSize <? 2 * 2
                    then on_conn (SocketError "Corrupt packet (not enough data for command).");;
                         mret true
                    else mret false) : M bool;
      errorFound ← (if negb errorFound && (Left copy <? wrap32 (commandSize - 2 * 2))
                    then on_conn (SocketError "Corrupt packet (not enough data for command data).");;
                         mret true
                    else mret errorFound) : M bool;
      c ← get_conn;
      let messageQueue := mMessageQueue c in
      errorFound ← (if negb errorFound && bool_decide (messageQueue = None)
                    then on_conn (SocketError "No message queue for packet.");;
                         mret true
                    else mret errorFound) : M bool;
      if (errorFound : bool) then mret (Finished true copy)
      else
        command ← lift (SubPacket copy (wrap32 (commandStart + 2 * 2))
                                  (wrap32 (commandSize - 2 * 2)));
        on_conn (Enqueue (MessagePacket (mSelf c) commandCode command));;
        copy ← lift (Seek (wrap32 (commandStart + commandSize)) copy);
        parse_commands fuel' padding copy
  end.

(** [EncryptedConnection::ParsePacket(packet, paddedSize, realSize)].
    The result says how the command loop ended. *)
Definition ParsePacket3 (paddedSize realSize : Z) : M LoopExit :=
  c ← get_conn;
  with_packet (DecryptPacket (mEncryptionKey c));;
  let dataStart := 2 * 4 in
  ok ← DecompressPacket paddedSize realSize dataStart;
  packet ← get_packet;
  if negb ok then mret (Finished false packet)
  else
    let copy := packet in
    with_packet (fun _ => mkPacket 0 0 []);;
    copy ← lift (Seek dataStart copy);
    let padding := wrap32 (paddedSize - realSize) in
    exit ← parse_commands (S (Z.to_nat (Size copy))) padding copy;
    match exit with
    | OutOfFuel => mret OutOfFuel
    | Finished errorFound copy =>
      copy ← (if negb errorFound then lift (Skip padding copy) else mret copy);
      when (negb errorFound && negb (Left copy =? 0))
        (on_conn (SocketError "Corrupt packet has extra data."));;
      mret (Finished errorFound copy)
    end.

(** [EncryptedConnection::ParsePacket(packet)] *)
Definition ParsePacket : M unit :=
  c ← get_conn;
  if bool_decide (mStatus c = STATUS_ENCRYPTED) then
    packet ← get_packet;
    if 2 * 4 >? Size packet then
      ok ← RequestPacket (2 * 4 - Size packet);
      when (negb ok) (on_conn (SocketError "Failed to request more data."))
    else
      paddedSize ← on_packet ReadU32Big;
      realSize ← on_packet ReadU32Big;
      packet ← get_packet;
      if paddedSize + 2 * 4 >? Size packet then
        ok ← RequestPacket (paddedSize + 2 * 4 - Size packet);
        when (negb ok) (on_conn (SocketError "Failed to request more data."))
      else
        ParsePacket3 paddedSize realSize;;
        with_packet Clear;;
        ok ← RequestPacket (2 * 4);
        when (negb ok) (on_conn (SocketError "Failed to request more data."))
  else
    with_packet Clear;;
    on_conn (SocketError "Connection should be encrypted but isn't.").

Definition run_parser (f : PacketParser) : M unit :=
  match f with
  | ParseClientEncryptionStart_fn => ParseClientEncryptionStart
  | ParseServerEncryptionStart_fn => ParseServerEncryptionStart
  | ParseServerEncryptionFinish_fn => ParseServerEncryptionFinish
  | ParsePacket_fn => ParsePacket
  end.

(** [EncryptedConnection::PacketReceived]: an exception of the parser is
    logged and the connection killed with [SocketError()]. *)
Definition PacketReceived (packet : ReadOnlyPacket) (c : Connection)
  : ReadOnlyPacket * Connection :=
  match mPacketParser c with
  | None => (packet, c)
  | Some f =>
    match run_parser f (packet, c) with
    | (s, Ok _) => s
    | ((packet', c'), Throw _) => (packet', SocketError "" c')
    end
  end.

(** *** The handshake messages and the state they lead to *)

(** What the server sends in reply to the preamble. *)
Definition server_parameters (prime serverPublic : bytes) : bytes :=
  u32be 0 ++ string32be DH_BASE_STRING ++ string32be prime ++ string32be serverPublic.

(** The connection once the key [sharedData] is in place: key set, status
    [encrypted], packets parsed by [ParsePacket]. *)
Definition encrypted_with (sharedData : bytes) (c : Connection) : Connection :=
  set_parser (Some ParsePacket_fn)
    (set_status STATUS_ENCRYPTED (SetEncryptionKey sharedData c)).

(** *** Frames and commands *)

(** An inner command: the two leading bytes the parser skips, the command
    code and the payload. *)
Record Command := mkCommand {
  cmd_hint : Z;
  cmd_code : Z;
  cmd_payload : bytes
}.

(** The size field of a command counts itself, the code and the
    payload. *)
Definition command_size (cmd : Command) : Z := 4 + Z.of_nat (length (cmd_payload cmd)).

(** The bytes of a command on the wire, as [PreparePackets] lays them
    out. *)
Definition encode_command (cmd : Command) : bytes :=
  u16be (cmd_hint cmd) ++ u16le (command_size cmd) ++ u16le (cmd_code cmd)
  ++ cmd_payload cmd.

Definition encode_commands (cmds : list Command) : bytes :=
  concat (encode_command <$> cmds).

(** A command whose code and size fit their 16-bit fields. *)
Definition command_ok (cmd : Command) : Prop :=
  is_u16 (cmd_code cmd) /\ command_size cmd < 2 ^ 16.

(** The message [ParsePacket] enqueues for a command whose payload starts
    at offset [start] of the storage [data]: the connection, the code and a
    view of the payload. *)
Definition command_message (self : nat) (data : bytes) (start : nat) (cmd : Command)
  : Message :=
  MessagePacket self (cmd_code cmd)
    (mkPacket 0 (Z.of_nat (length (cmd_payload cmd))) (drop start data)).

(** The messages for the commands of a frame laid out from offset
    [start] on. *)
Fixpoint command_messages (self : nat) (data : bytes) (start : nat) (cmds : list Command)
  : list Message :=
  match cmds with
  | [] => []
  | cmd :: rest =>
    command_message self data (start + 6) cmd
    :: command_messages self data (start + length (encode_command cmd)) rest
  end.

(** [msg] carries the connection, the code of [cmd] and a view of exactly
    the payload of [cmd]. *)
Definition delivers (self : nat) (cmd : Command) (msg : Message) : Prop :=
  exists view,
    msg = MessagePacket self (cmd_code cmd) view /\
    mPosition view = 0 /\
    mSize view = command_size cmd - 4 /\
    contents view = cmd_payload cmd.

(** The connection after [msgs] went onto its queue one by one. *)
Definition EnqueueAll (msgs : list Message) (c : Connection) : Connection :=
  foldl (fun c m => Enqueue m c) c msgs.

(** What a message delivers, the payload view read out: connection, code
    and payload bytes of a packet message. *)
Definition delivered (m : Message) : option (nat * Z * bytes) :=
  match m with
  | MessagePacket self code view => Some (self, code, Packet.contents view)
  | _ => None
  end.

(** What closing a connection in state [c] adds to the queue. *)
Definition closing_messages (c : Connection) : list Message :=
  if bool_decide (mStatus c <> STATUS_NOT_CONNECTED)
  then [MessageConnectionClosed (mSelf c)] else [].


(** *** Outgoing packets *)

(** [EncryptedConnection::GetHeaderSize] *)
Definition GetHeaderSize : Z := 2 * 4.

(** The queue of packets waiting to be sent, and whether a combined packet
    is on its way ([mOutgoingPackets], [mSendingPacket]). *)
Record Outbox := mkOutbox {
  mSendingPacket : bool;
  mOutgoingPackets : list ReadOnlyPacket
}.

(** The [while] loop of [GetCombinedPackets]: the packets taken and the
    packets remaining in the queue. *)
Fixpoint combine_packets (totalSize : Z) (queue : list ReadOnlyPacket)
  : list ReadOnlyPacket * list ReadOnlyPacket :=
  match queue with
  | [] => ([], [])
  | nextPacket :: rest =>
    if totalSize <? MAX_PACKET_SIZE then
      let packetSize := wrap32 (Size nextPacket + 2 * 2) in
      if wrap32 (totalSize + packetSize) <? MAX_PACKET_SIZE then
        let '(packets, remaining) := combine_packets (wrap32 (totalSize + packetSize)) rest in
        (nextPacket :: packets, remaining)
      else ([], queue)
    else ([], queue)
  end.

(** [EncryptedConnection::GetCombinedPackets] *)
Definition GetCombinedPackets (o : Outbox) : list ReadOnlyPacket * Outbox :=
  if negb (mSendingPacket o) then
    let '(packets, remaining) := combine_packets GetHeaderSize (mOutgoingPackets o) in
    (packets, mkOutbox (negb (bool_decide (packets = []))) remaining)
  else ([], o).

(** The bytes a combined packet takes: the header and, for each packet,
    its two size fields and its data. *)
Definition combined_size (packets : list ReadOnlyPacket) : Z :=
  GetHeaderSize + foldr (fun p n => Size p + 4 + n) 0 packets.

Section Sending.

(** Modelled from the spec: the [Packet::Write...] functions are declared
    in [Packet.h] and defined in [Packet.cpp], which is not part of the
    sources at hand.  A write puts its bytes at the cursor and moves the
    cursor past them; on the packet [PreparePackets] builds the cursor is
    always at the end, so every write appends.  A write that would take
    the packet beyond [MAX_PACKET_SIZE] fails: [GrowPacket] throws a
    [PacketException] ([Packet.h]).  The specification calls this failure
    [PacketOverflow]; the message of the exception is not in the sources
    at hand. *)
Definition PacketOverflow : string := "PacketOverflow".

Definition append_bytes (bs : bytes) (p : ReadOnlyPacket) : result ReadOnlyPacket :=
  if MAX_PACKET_SIZE <? mSize p + Z.of_nat (length bs) then Throw PacketOverflow
  else Ok (mkPacket (mPosition p + Z.of_nat (length bs)) (mSize p + Z.of_nat (length bs))
                    (take (Z.to_nat (mSize p)) (mData p) ++ bs)).

Definition WriteBlank (count : Z) : ReadOnlyPacket -> result ReadOnlyPacket :=
  append_bytes (replicate (Z.to_nat count) Byte.x00).
Definition WriteU16Big (v : Z) : ReadOnlyPacket -> result ReadOnlyPacket :=
  append_bytes (u16be v).
Definition WriteU16Little (v : Z) : ReadOnlyPacket -> result ReadOnlyPacket :=
  append_bytes (u16le v).
Definition WriteArray (data : bytes) (sz : Z) : ReadOnlyPacket -> result ReadOnlyPacket :=
  append_bytes (take (Z.to_nat sz) data).

(** The encryption of an outgoing packet, [Crypto::EncryptPacket]. *)
Variable EncryptPacket : option bytes -> ReadOnlyPacket -> ReadOnlyPacket.

(** The loop of [PreparePackets] over the packets; an exception of a
    write ends it. *)
Fixpoint write_packets (packets : list ReadOnlyPacket) (finalPacket : ReadOnlyPacket)
  : result ReadOnlyPacket :=
  match packets with
  | [] => Ok finalPacket
  | packet :: rest =>
    finalPacket ← WriteU16Big (wrap16 (Size packet + 2)) finalPacket;
    finalPacket ← WriteU16Little (wrap16 (Size packet + 2)) finalPacket;
    finalPacket ← WriteArray (mData packet) (Size packet) finalPacket;
    write_packets rest finalPacket
  end.

(** [EncryptedConnection::PreparePackets]: the new value of [mOutgoing],
    or the exception of a write, which the function does not catch.
    [None] stands for [packets.front()] on an empty list, which is
    undefined. *)
Definition PreparePackets (status : ConnectionStatus_t) (key : option bytes)
    (packets : list ReadOnlyPacket) (mOutgoing : ReadOnlyPacket)
  : result (option ReadOnlyPacket) :=
  if bool_decide (status = STATUS_ENCRYPTED) then
    finalPacket ← WriteBlank (2 * 4) (mkPacket 0 0 []);
    finalPacket ← write_packets packets finalPacket;
    Ok (Some (EncryptPacket key finalPacket))
  else if bool_decide (status <> STATUS_NOT_CONNECTED) then Ok (head packets)
  else Ok (Some mOutgoing).

(** The command a packet of a code and a payload becomes in the frame. *)
Definition command_of (packet : ReadOnlyPacket) : Command :=
  mkCommand (Size packet + 2)
            (le16 (byte_at packet 0) (byte_at packet 1))
            (drop 2 (contents packet)).

End Sending.

End WithOps.
End EncryptedConnection.

(** ** PersistentObject.cpp: the identity cache *)

Module PersistentObject.

(** A [libobjgen::UUID] is its 128-bit value; the null UUID is 0.  The
    cache is keyed by [UUID::ToString], which renders distinct values as
    distinct strings, so the model keys the cache by the value. *)
Definition UUID := N.
Definition IsNull (u : UUID) : bool := (u =? 0)%N.

(** The members of a persistent object the cache code reads and writes. *)
Record Object := mkObject {
  mUUID : UUID;
  mDeleted : bool
}.

(** Objects are named by their address.  [objects] holds the objects that
    are alive; [sCached] maps a UUID to the address its weak pointer was
    made from. *)
Record State := mkState {
  objects : gmap nat Object;
  sCached : gmap UUID nat
}.

(** [std::weak_ptr::lock]: the object if it is still alive. *)
Definition lock (st : State) (a : nat) : option nat :=
  if bool_decide (is_Some (objects st !! a)) then Some a else None.

(** [PersistentObject::Register(self, pUuid)].  [random] is the value
    [libobjgen::UUID::Random()] yields if it is called. *)
Definition Register (self : nat) (pUuid : UUID) (random : UUID) (st : State)
  : bool * State :=
  match objects st !! self with
  | None => (false, st)
  | Some o =>
    if mDeleted o then (false, st)
    else
      let uuid := mUUID o in
      (* Unregister old UUID, keep if making a copy *)
      let cache1 :=
        if negb (IsNull pUuid) && negb (IsNull uuid) then
          match sCached st !! uuid with
          | Some a =>
            if bool_decide (lock st a = Some self)
            then delete uuid (sCached st) else sCached st
          | None => sCached st
          end
        else sCached st in
      let '(uuid, registered) :=
        if negb (IsNull pUuid) then (pUuid, false)
        else if IsNull uuid then (random, true)
        else (uuid, false) in
      let registered :=
        if negb registered && bool_decide (cache1 !! uuid = None)
        then true else registered in
      let objects1 := <[self := mkObject uuid (mDeleted o)]> (objects st) in
      if registered
      then (true, mkState objects1 (<[uuid := self]> cache1))
      else (false, mkState objects1 cache1)
  end.

(** [PersistentObject::Unregister] *)
Definition Unregister (self : nat) (st : State) : State :=
  match objects st !! self with
  | None => st
  | Some o =>
    mkState (<[self := mkObject (mUUID o) true]> (objects st))
            (delete (mUUID o) (sCached st))
  end.

(** [PersistentObject::~PersistentObject], run when the last shared
    pointer to the object goes away. *)
Definition Destroy (self : nat) (st : State) : State :=
  match objects st !! self with
  | None => st
  | Some o =>
    let cache1 :=
      if negb (IsNull (mUUID o)) && negb (mDeleted o)
      then delete (mUUID o) (sCached st) else sCached st in
    mkState (delete self (objects st)) cache1
  end.

(** [PersistentObject::GetObjectByUUID] *)
Definition GetObjectByUUID (uuid : UUID) (st : State) : option nat :=
  match sCached st !! uuid with
  | Some a => lock st a
  | None => None
  end.

(** The UUID under which a call [Register(self, pUuid)] tries to cache
    the object: the one passed in, or the object's own when null is
    passed. *)
Definition registering_uuid (o : Object) (pUuid : UUID) : UUID :=
  if IsNull pUuid then mUUID o else pUuid.

(** Whether a call of [Register] first drops the entry of the object's old
    UUID: a non-null UUID is passed, the object has a non-null UUID and is
    the instance cached under it. *)
Definition drops_old_entry (st : State) (self : nat) (o : Object) (pUuid : UUID) : bool :=
  negb (mDeleted o) && negb (IsNull pUuid) && negb (IsNull (mUUID o))
  && bool_decide (sCached st !! mUUID o = Some self).

End PersistentObject.

(** ** DataStore.cpp: search paths *)

Module DataStore.

(** The state of PhysFS.  [dirs] are the directories that exist on disk
    and [files] the (directory, virtual path) pairs found in them;
    [searchPath] is the list PhysFS searches first to last; [writeDir] is
    the write directory. *)
Record PhysFS := mkPhysFS {
  dirs : gset string;
  files : gset (string * string);
  searchPath : list string;
  writeDir : option string
}.

(** [PHYSFS_mount(dir, "/", appendToPath)]: fails on a missing directory,
    does nothing when the directory is mounted already, otherwise puts it
    at the end or at the front of the search path. *)
Definition PHYSFS_mount (dir : string) (appendToPath : bool) (fs : PhysFS)
  : bool * PhysFS :=
  if negb (bool_decide (dir ∈ dirs fs)) then (false, fs)
  else if bool_decide (dir ∈ searchPath fs) then (true, fs)
  else
    (true,
     mkPhysFS (dirs fs) (files fs)
       (if appendToPath then searchPath fs ++ [dir] else dir :: searchPath fs)
       (writeDir fs)).

(** [PHYSFS_setWriteDir] *)
Definition PHYSFS_setWriteDir (dir : string) (fs : PhysFS) : bool * PhysFS :=
  if negb (bool_decide (dir ∈ dirs fs)) then (false, fs)
  else (true, mkPhysFS (dirs fs) (files fs) (searchPath fs) (Some dir)).

(** Where PhysFS finds a virtual path when it opens it for reading: the
    first directory of the search path that holds it. *)
Definition resolve (path : string) (fs : PhysFS) : option string :=
  list_find (fun d => (d, path) ∈ files fs) (searchPath fs) ≫= fun r => Some r.2.

(** [DataStore::AddSearchPath(path, append)] *)
Definition AddSearchPath (path : string) (append : bool) (fs : PhysFS)
  : bool * PhysFS :=
  PHYSFS_mount path append fs.

(** The default of [append] in the declaration of [AddSearchPath].
    [DataStore.h] is not part of the sources at hand; the value is the one
    the comments of [DataStore.cpp] describe: [AddSearchPath] says
    "Prepend the path to the search path list" and [AddSearchPaths] says
    "Search order will be last to first path in this list". *)
Definition AddSearchPath_default_append : bool := false.

(** The loop of [DataStore::AddSearchPaths]. *)
Fixpoint add_each (append : bool) (paths : list string) (fs : PhysFS) : bool * PhysFS :=
  match paths with
  | [] => (true, fs)
  | path :: rest =>
    let '(ok, fs1) := AddSearchPath path append fs in
    if ok then add_each append rest fs1 else (false, fs1)
  end.

(** [DataStore::AddSearchPaths], for a given default of [append]. *)
Definition AddSearchPaths_with (append : bool) (paths : list string) (fs : PhysFS)
  : bool * PhysFS :=
  match last paths with
  | None => (false, fs)
  | Some lastPath =>
    let '(ok, fs1) := add_each append paths fs in
    if ok then PHYSFS_setWriteDir lastPath fs1 else (false, fs1)
  end.

Definition AddSearchPaths : list string -> PhysFS -> bool * PhysFS :=
  AddSearchPaths_with AddSearchPath_default_append.

End DataStore.

(** ** ServerDataManager.cpp *)

Module ServerDataManager.

(** *** Zone partials: spawns

    [objects::Spawn] objects are shared between the zone and partial
    definitions through [std::shared_ptr], and [ApplyZonePartial] changes
    them in place, so they live in a store addressed by pointer. *)
Record Spawn := mkSpawn {
  EnemyType : Z;
  Drops : list nat;
  DropSetIDs : list Z;
  Gifts : list nat;
  GiftSetIDs : list Z
}.

Abbreviation SpawnStore := (gmap nat Spawn).

(** The [Spawns] member of [objects::ServerZone] and of
    [objects::ServerZonePartial]: spawn key to spawn pointer. *)
Abbreviation SpawnMap := (gmap Z nat).

(** [existing->AppendDropSetIDs], [AppendDrops], [AppendGiftSetIDs] and
    [AppendGifts] for every element of the lists of [spawn], which the four
    [for] loops read from copies. *)
Definition append_lists (spawn existing : Spawn) : Spawn :=
  mkSpawn (EnemyType existing)
          (Drops existing ++ Drops spawn)
          (DropSetIDs existing ++ DropSetIDs spawn)
          (Gifts existing ++ Gifts spawn)
          (GiftSetIDs existing ++ GiftSetIDs spawn).

(** One iteration of the "Update spawns" loop of
    [ServerDataManager::ApplyZonePartial]. *)
Definition apply_spawn (st : SpawnMap * SpawnStore) (sPair : Z * nat)
  : SpawnMap * SpawnStore :=
  let '(zoneSpawns, store) := st in
  match store !! sPair.2 with
  | None => st
  | Some spawn =>
    if negb (EnemyType spawn =? 0) then
      (* Insert/update spawn *)
      (<[sPair.1 := sPair.2]> zoneSpawns, store)
    else
      match zoneSpawns !! sPair.1 with
      | Some existing =>
        (* Not redefining, append lists to existing *)
        (zoneSpawns, alter (append_lists spawn) existing store)
      | None => st
      end
  end.

(** The "Update spawns" loop over the entries of the partial in the order
    the container yields them. *)
Definition apply_spawns (entries : list (Z * nat)) (st : SpawnMap * SpawnStore)
  : SpawnMap * SpawnStore :=
  foldl apply_spawn st entries.

(** The part of [objects::ServerZone] / [objects::ServerZonePartial] that
    [ApplyZonePartial] merges without looking at positions.  NPCs and
    objects are merged by floating point distance and are not embedded;
    that step reads and writes the NPC and object lists only. *)
Record ZoneData := mkZoneData {
  ValidTeamTypes : gset Z;
  DropSetIDs_z : gset Z;
  GiftSetIDs_z : gset Z;
  SkillWhitelist : gset Z;
  SkillBlacklist : gset Z;
  PlasmaSpawns : gmap Z nat;
  Spawns : SpawnMap;
  SpawnGroups : gmap Z nat;
  SpawnLocationGroups : gmap Z nat;
  Spots : gmap Z nat;
  Triggers : list nat
}.

(** [ServerDataManager::ApplyZonePartial(zone, partial, positionReplace)]
    without the NPC and object steps.  A keyed "Set" loop over a map
    overwrites the zone's entries with the partial's, which is the union
    that prefers the partial. *)
Definition ApplyZonePartial (zone partial : ZoneData) (store : SpawnStore)
  : ZoneData * SpawnStore :=
  let '(spawns, store') :=
    apply_spawns (map_to_list (Spawns partial)) (Spawns zone, store) in
  (mkZoneData
     (ValidTeamTypes zone ∪ ValidTeamTypes partial)
     (DropSetIDs_z zone ∪ DropSetIDs_z partial)
     (GiftSetIDs_z zone ∪ GiftSetIDs_z partial)
     (SkillWhitelist zone ∪ SkillWhitelist partial)
     (SkillBlacklist zone ∪ SkillBlacklist partial)
     (PlasmaSpawns partial ∪ PlasmaSpawns zone)
     spawns
     (SpawnGroups partial ∪ SpawnGroups zone)
     (SpawnLocationGroups partial ∪ SpawnLocationGroups zone)
     (Spots partial ∪ Spots zone)
     (Triggers zone ++ Triggers partial),
   store').

(** *** Scripts *)

(** What evaluating a script file in a fresh engine yields: whether
    [Eval] succeeded, the global functions the root table then has, and
    what calling [define(script)] does: its integer result, if the call
    returned one, and the [Name] and [Type] it stored in [script]. *)
Record ScriptSource := mkScriptSource {
  evalOk : bool;
  rootFunctions : gset string;
  defineResult : option Z;
  definedName : string;
  definedType : string
}.

Record ServerScript := mkServerScript {
  Name : string;
  ScriptType : string;
  Path : string;
  Source : ScriptSource
}.

Record Scripts := mkScripts {
  mScripts : gmap string ServerScript;
  mAIScripts : gmap string ServerScript
}.

(** [String::ToLower] on the characters the type names are made of. *)
Definition lower_ascii (c : ascii) : ascii :=
  let n := nat_of_ascii c in
  if ((65 <=? n) && (n <=? 90))%nat then ascii_of_nat (n + 32) else c.

Fixpoint ToLower (s : string) : string :=
  match s with
  | EmptyString => EmptyString
  | String c s' => String (lower_ascii c) (ToLower s')
  end.

Definition IsEmpty (s : string) : bool := bool_decide (s = "").

Definition has_function (src : ScriptSource) (f : string) : bool :=
  bool_decide (f ∈ rootFunctions src).

(** The bucket a script of type [ty] is kept in: [mAIScripts] or
    [mScripts]. *)
Definition is_ai (ty : string) : bool := bool_decide (ToLower ty = "ai").

(** The "Check supported types here" chain of [LoadScript] for a script
    that is not an AI script. *)
Definition type_supported (src : ScriptSource) (type : string) : bool :=
  if bool_decide (type = "eventcondition") || bool_decide (type = "eventbranchlogic")
  then has_function src "check"
  else if bool_decide (type = "actiontransform") || bool_decide (type = "eventtransform")
  then has_function src "transform" && negb (has_function src "prepare")
  else if bool_decide (type = "actioncustom") then has_function src "run"
  else if bool_decide (type = "skilllogic") then has_function src "prepare"
  else if bool_decide (type = "webapp") then has_function src "prepare"
  else if bool_decide (type = "webgame") then has_function src "start"
  else false.

(** [ServerDataManager::LoadScript(path, source)] *)
Definition LoadScript (path : string) (source : ScriptSource) (m : Scripts)
  : bool * Scripts :=
  if negb (evalOk source) then (false, m)
  else if negb (has_function source "define") then (false, m)
  else
    let result := defineResult source in
    if bool_decide (result = None) || negb (bool_decide (result = Some 0))
       || IsEmpty (definedName source) || IsEmpty (definedType source)
    then (false, m)
    else
      let script :=
        mkServerScript (definedName source) (definedType source) path source in
      if bool_decide (ToLower (ScriptType script) = "ai") then
        if bool_decide (is_Some (mAIScripts m !! Name script)) then (false, m)
        else if negb (has_function source "prepare") then (false, m)
        else (true, mkScripts (mScripts m) (<[Name script := script]> (mAIScripts m)))
      else
        if bool_decide (is_Some (mScripts m !! Name script)) then (false, m)
        else if negb (type_supported source (ToLower (ScriptType script))) then (false, m)
        else (true, mkScripts (<[Name script := script]> (mScripts m)) (mAIScripts m)).

(** The loop of [ServerDataManager::LoadScripts] over the [.nut] files of
    the listing, each with what evaluating it yields: the first file that
    fails to load ends the load. *)
Fixpoint LoadScripts (files : list (string * ScriptSource)) (m : Scripts)
  : bool * Scripts :=
  match files with
  | [] => (true, m)
  | (path, source) :: rest =>
    let '(ok, m1) := LoadScript path source m in
    if ok then LoadScripts rest m1 else (false, m1)
  end.

(** The registry a script of type [ty] is indexed in. *)
Definition bucket (ty : string) (m : Scripts) : gmap string ServerScript :=
  if is_ai ty then mAIScripts m else mScripts m.

(** A script that passes every check of [LoadScript] other than the name
    collision check. *)
Definition script_valid (source : ScriptSource) : bool :=
  evalOk source && has_function source "define"
  && bool_decide (defineResult source = Some 0)
  && negb (IsEmpty (definedName source)) && negb (IsEmpty (definedType source))
  && (if is_ai (definedType source) then has_function source "prepare"
      else type_supported source (ToLower (definedType source))).

(** The scripts of [loaded] that [old] has no entry for, in the order the
    container yields them: the two "Return only ones that just loaded"
    loops of the four-argument [LoadScripts]. *)
Definition just_loaded (old loaded : gmap string ServerScript) : list ServerScript :=
  (map_to_list (filter (fun kv => old !! kv.1 = None) loaded)).*2.

(** [ServerDataManager::LoadScripts(pDataStore, path, success, store)]:
    the scripts returned, [success], and the registries afterwards. *)
Definition LoadScripts_store (files : list (string * ScriptSource)) (store : bool)
    (m : Scripts) : list ServerScript * bool * Scripts :=
  let scriptsOld := mScripts m in
  let aiScriptsOld := mAIScripts m in
  let '(success, m1) := LoadScripts files m in
  let scripts := just_loaded scriptsOld (mScripts m1)
                 ++ just_loaded aiScriptsOld (mAIScripts m1) in
  (scripts, success, if store then m1 else mkScripts scriptsOld aiScriptsOld).

(** The script a file registers when it loads. *)
Definition script_of (file : string * ScriptSource) : ServerScript :=
  mkServerScript (definedName file.2) (definedType file.2) file.1 file.2.

(** *** Zone partials: NPCs and objects *)

Section Placement.
(** The coordinates are [float]s; [near a b] stands for
    [fabs(a - b) < 10.f]. *)
Context {coord : Type} (near : coord -> coord -> bool).

(** What [ApplyZonePartial] reads of an [objects::ServerNPC] or
    [objects::ServerObject]. *)
Record ServerObject := mkServerObject {
  npc_ID : Z;
  npc_SpotID : Z;
  npc_X : coord;
  npc_Y : coord
}.

(** The predicate the two [remove_if] calls use: [oNPC] shares the spot of
    [npc], or both have no spot and are within 10 units in X and in Y. *)
Definition same_place (npc oNPC : ServerObject) : bool :=
  (negb (npc_SpotID npc =? 0) && (npc_SpotID oNPC =? npc_SpotID npc))
  || ((npc_SpotID npc =? 0) && (npc_SpotID oNPC =? 0)
      && near (npc_X oNPC) (npc_X npc) && near (npc_Y oNPC) (npc_Y npc)).

(** The NPC step of [ApplyZonePartial] (the object step is the same code
    on the object lists): the new value of the zone's list. *)
Definition merge_placed (positionReplace : bool) (npcs partialNPCs : list ServerObject)
  : list ServerObject :=
  let npcs :=
    if positionReplace
    then foldl (fun npcs npc => filter (fun oNPC => same_place npc oNPC = false) npcs)
               npcs partialNPCs
    else npcs in
  foldl (fun npcs npc => if negb (npc_ID npc =? 0) then npcs ++ [npc] else npcs)
        npcs partialNPCs.

End Placement.

(** *** Actions *)

(** [objects::Action::ActionType_t], as far as the code names its values;
    [OTHER_ACTION] stands for the rest. *)
Inductive ActionType_t :=
| ZONE_CHANGE | ZONE_INSTANCE | DELAY | SPAWN
| ADD_REMOVE_ITEMS | DISPLAY_MESSAGE | GRANT_SKILLS | GRANT_XP | PLAY_BGM
| PLAY_SOUND_EFFECT | SET_HOMEPOINT | SPECIAL_DIRECTION | STAGE_EFFECT
| UPDATE_COMP | UPDATE_FLAG | UPDATE_LNC | UPDATE_QUEST
| ADD_REMOVE_STATUS | CREATE_LOOT | RUN_SCRIPT | SET_NPC_STATE | START_EVENT
| UPDATE_POINTS | UPDATE_ZONE_FLAGS
| OTHER_ACTION (code : Z).

(** [objects::Action::SourceContext_t] *)
Inductive SourceContext_t := ENEMIES | SOURCE | OTHER_CONTEXT (code : Z).

(** An action with its type, its source context and the actions it holds:
    [GetActions()] of an [ActionDelay], [GetDefeatActions()] of an
    [ActionSpawn]; actions of other types hold none. *)
#[warnings="-register-all"] Inductive Action :=
| mkAction (GetActionType : ActionType_t) (GetSourceContext : SourceContext_t)
           (held : list Action).

Definition GetActionType (a : Action) : ActionType_t :=
  match a with mkAction ty _ _ => ty end.
Definition GetSourceContext (a : Action) : SourceContext_t :=
  match a with mkAction _ ctx _ => ctx end.

(** What the [switch] of [GetAllActions] and of [ValidateActions] descends
    into. *)
Definition nested_actions (a : Action) : list Action :=
  match a with
  | mkAction DELAY _ held => held
  | mkAction SPAWN _ held => held
  | mkAction _ _ _ => []
  end.

(** The number of actions in a list, nested ones included. *)
Fixpoint action_count (a : Action) : nat :=
  match a with
  | mkAction _ _ held => S (list_sum (action_count <$> held))
  end.

(** The [while (currentActions.size() > 0)] loop of [GetAllActions].  The
    loop ends because actions are nested finitely deep; the model counts
    its rounds and yields [None] when [fuel] is used up. *)
Fixpoint collect_actions (fuel : nat) (currentActions allActions : list Action)
  : option (list Action) :=
  match fuel with
  | O => None
  | S fuel' =>
    match currentActions with
    | [] => Some allActions
    | _ =>
      let newActions := concat (nested_actions <$> currentActions) in
      collect_actions fuel' newActions (allActions ++ currentActions)
    end
  end.

(** [ServerDataManager::GetAllActions(actions, actionType)]; [type_code]
    is the numeric value of an action type. *)
Definition GetAllActions (type_code : ActionType_t -> Z) (actions : list Action)
    (actionType : Z) : option (list Action) :=
  allActions ← collect_actions (S (list_sum (action_count <$> actions))) actions [];
  Some (if actionType >=? 0
        then filter (fun action => type_code (GetActionType action) = actionType) allActions
        else allActions).

(** The actions of a list with the ones nested in them, depth first. *)
Fixpoint flatten_action (a : Action) : list Action :=
  a :: match a with
       | mkAction DELAY _ held => concat (flatten_action <$> held)
       | mkAction SPAWN _ held => concat (flatten_action <$> held)
       | mkAction _ _ _ => []
       end.

(** The action types [ValidateActions] refuses in a context without a
    player. *)
Definition player_required (ty : ActionType_t) : bool :=
  match ty with
  | ADD_REMOVE_ITEMS | DISPLAY_MESSAGE | GRANT_SKILLS | GRANT_XP | PLAY_BGM
  | PLAY_SOUND_EFFECT | SET_HOMEPOINT | SPECIAL_DIRECTION | STAGE_EFFECT
  | UPDATE_COMP | UPDATE_FLAG | UPDATE_LNC | UPDATE_QUEST
  | ZONE_CHANGE | ZONE_INSTANCE => true
  | _ => false
  end.

Definition auto_source (ctx : SourceContext_t) : bool :=
  match ctx with ENEMIES | SOURCE => true | OTHER_CONTEXT _ => false end.

(** One round of the loop of [ServerDataManager::ValidateActions]; the
    warnings it logs are left out, and with them [inEvent]. *)
Fixpoint ValidateAction (autoContext : bool) (action : Action) : bool :=
  match action with
  | mkAction ty ctx held =>
    let autoCtx := autoContext && auto_source ctx in
    match ty with
    | DELAY | SPAWN => forallb (ValidateAction autoCtx) held
    | _ => if player_required ty then negb autoCtx else true
    end
  end.

(** [ServerDataManager::ValidateActions(actions, source, autoContext)] *)
Definition ValidateActions (actions : list Action) (autoContext : bool) : bool :=
  forallb (ValidateAction autoContext) actions.

(** An action [ValidateActions] refuses in an automatic context: a
    player-required action whose source is the enemies or the source entity,
    or a delay or spawn action of such a source that holds an action it
    refuses. *)
Inductive auto_offender : Action -> Prop :=
| offender_here ty ctx held :
    player_required ty = true -> auto_source ctx = true ->
    auto_offender (mkAction ty ctx held)
| offender_nested ty ctx held a :
    ty = DELAY \/ ty = SPAWN -> auto_source ctx = true ->
    a ∈ held -> auto_offender a ->
    auto_offender (mkAction ty ctx held).

(** *** Drop sets *)

(** [objects::DropSet::Type_t]: the code names [REDEFINE] and [APPEND];
    [NORMAL] stands for every other value. *)
Inductive DropSetType_t := NORMAL | APPEND | REDEFINE.

#[global] Instance DropSetType_eq_dec : EqDecision DropSetType_t.
Proof. solve_decision. Defined.

(** What the code reads of an [objects::DropSet]; a drop is a pointer to
    an [objects::ItemDrop]. *)
Record DropSet := mkDropSet {
  GetID : Z;
  GetType : DropSetType_t;
  GetGiftBoxID : Z;
  GetDrops : list nat
}.

(** [dropSet->SetDrops(drops)] and [dropSet->AppendDrops(drop)] *)
Definition SetDrops (drops : list nat) (dropSet : DropSet) : DropSet :=
  mkDropSet (GetID dropSet) (GetType dropSet) (GetGiftBoxID dropSet) drops.
Definition AppendDrops (drop : nat) (dropSet : DropSet) : DropSet :=
  SetDrops (GetDrops dropSet ++ [drop]) dropSet.

(** The four drop set members of [ServerDataManager]. *)
Record DropData := mkDropData {
  mDropSetData : gmap Z DropSet;
  mGiftDropSetLookup : gmap Z Z;
  mRedefineDropSetData : gmap Z DropSet;
  mPendingMergeDrops : gmap Z (list nat)
}.

(** [ServerDataManager::LoadObject<objects::DropSet>]; [loaded] is the
    drop set that [dropSet->Load(doc, *objNode)] read, [None] when it
    failed. *)
Definition LoadObject_DropSet (loaded : option DropSet) (st : DropData)
  : bool * DropData :=
  match loaded with
  | None => (false, st)
  | Some dropSet =>
    let id := GetID dropSet in
    match GetType dropSet with
    | REDEFINE =>
      (true, mkDropData (mDropSetData st) (mGiftDropSetLookup st)
                        (<[id := dropSet]> (mRedefineDropSetData st))
                        (mPendingMergeDrops st))
    | APPEND =>
      (true, mkDropData (mDropSetData st) (mGiftDropSetLookup st)
                        (mRedefineDropSetData st)
                        (foldl (fun pending drop =>
                                  <[id := default [] (pending !! id) ++ [drop]]> pending)
                               (mPendingMergeDrops st) (GetDrops dropSet)))
    | NORMAL =>
      let giftBoxID := GetGiftBoxID dropSet in
      if bool_decide (is_Some (mDropSetData st !! id)) then (false, st)
      else if negb (giftBoxID =? 0) then
        if bool_decide (is_Some (mGiftDropSetLookup st !! giftBoxID)) then (false, st)
        else (true, mkDropData (<[id := dropSet]> (mDropSetData st))
                               (<[giftBoxID := id]> (mGiftDropSetLookup st))
                               (mRedefineDropSetData st) (mPendingMergeDrops st))
      else (true, mkDropData (<[id := dropSet]> (mDropSetData st))
                             (mGiftDropSetLookup st)
                             (mRedefineDropSetData st) (mPendingMergeDrops st))
    end
  end.

(** One round of the "Redefine dropsets first" loop of
    [ApplyPendingDrops]. *)
Definition redefine_drops (id : Z) (redefined : DropSet) (data : gmap Z DropSet)
  : gmap Z DropSet :=
  match data !! id with
  | None => data
  | Some dropSet => <[id := SetDrops (GetDrops redefined) dropSet]> data
  end.

(** One round of its "Now append new drops" loop. *)
Definition append_drops (id : Z) (drops : list nat) (data : gmap Z DropSet)
  : gmap Z DropSet :=
  match data !! id with
  | Some dropSet =>
    <[id := foldl (fun dropSet drop => AppendDrops drop dropSet) dropSet drops]> data
  | None => data
  end.

(** [ServerDataManager::ApplyPendingDrops]; the messages it logs are left
    out. *)
Definition ApplyPendingDrops (st : DropData) : DropData :=
  let data1 := map_fold redefine_drops (mDropSetData st) (mRedefineDropSetData st) in
  let data2 := map_fold append_drops data1 (mPendingMergeDrops st) in
  mkDropData data2 (mGiftDropSetLookup st) ∅ ∅.

(** [LoadObject<objects::DropSet>] on each drop set of a list in turn, as
    long as it succeeds. *)
Fixpoint load_drop_sets (sets : list DropSet) (st : DropData) : bool * DropData :=
  match sets with
  | [] => (true, st)
  | dropSet :: rest =>
    let '(ok, st1) := LoadObject_DropSet (Some dropSet) st in
    if ok then load_drop_sets rest st1 else (false, st1)
  end.

(** The entries of type [ty] for the drop set [id] in a list. *)
Definition entries_of (ty : DropSetType_t) (id : Z) (sets : list DropSet)
  : list DropSet :=
  filter (fun dropSet => GetType dropSet = ty /\ GetID dropSet = id) sets.

(** *** Zone instances *)

(** What the code reads of an [objects::ServerZoneInstance]. *)
Record ServerZoneInstance := mkZoneInstance {
  GetInstanceID : Z;
  GetLobbyID : Z;
  GetZoneIDs : list Z;
  GetDynamicMapIDs : list Z
}.

(** [mZoneData] as far as the instance code looks at it: the dynamic map
    IDs each zone ID is loaded with.  The test is the one of the loop of
    [LoadObject<objects::ServerZoneInstance>], negated. *)
Definition zone_loaded (mZoneData : gmap Z (gset Z)) (zoneID dynamicMapID : Z) : bool :=
  match mZoneData !! zoneID with
  | Some maps => bool_decide (dynamicMapID ∈ maps)
  | None => false
  end.

(** [ServerDataManager::LoadObject<objects::ServerZoneInstance>]: the
    result and the new [mZoneInstanceData].  [loaded] is the instance that
    [inst->Load] read, [None] when it failed; [definitionManager] holds the
    zone IDs the definition manager knows, [None] for a null pointer.  The
    loop runs over the two lists in parallel, which have the same length
    when it is reached. *)
Definition LoadObject_ServerZoneInstance (loaded : option ServerZoneInstance)
    (definitionManager : option (gset Z)) (mZoneData : gmap Z (gset Z))
    (mZoneInstanceData : gmap Z ServerZoneInstance)
  : bool * gmap Z ServerZoneInstance :=
  match loaded with
  | None => (false, mZoneInstanceData)
  | Some inst =>
    let id := GetInstanceID inst in
    if match definitionManager with
       | Some zones => negb (bool_decide (GetLobbyID inst ∈ zones))
       | None => false
       end
    then (true, mZoneInstanceData)
    else if negb (length (GetZoneIDs inst) =? length (GetDynamicMapIDs inst))%nat
    then (false, mZoneInstanceData)
    else if negb (forallb (fun ids => zone_loaded mZoneData ids.1 ids.2)
                          (zip (GetZoneIDs inst) (GetDynamicMapIDs inst)))
    then (false, mZoneInstanceData)
    else if bool_decide (is_Some (mZoneInstanceData !! id))
    then (false, mZoneInstanceData)
    else (true, <[id := inst]> mZoneInstanceData)
  end.

(** The loop of [ExistsInInstance] from index [i] on.  [None] stands for
    [GetDynamicMapIDs(i)] asked for an index the list does not have. *)
Fixpoint exists_from (zoneIDs : list Z) (i : nat) (dynamicMapIDs : list Z)
    (zoneID dynamicMapID : Z) : option bool :=
  match zoneIDs with
  | [] => Some false
  | z :: rest =>
    if z =? zoneID
    then if dynamicMapID =? 0 then Some true
         else match dynamicMapIDs !! i with
              | None => None
              | Some d =>
                if d =? dynamicMapID then Some true
                else exists_from rest (S i) dynamicMapIDs zoneID dynamicMapID
              end
    else exists_from rest (S i) dynamicMapIDs zoneID dynamicMapID
  end.

(** [ServerDataManager::ExistsInInstance] *)
Definition ExistsInInstance (instanceID zoneID dynamicMapID : Z)
    (mZoneInstanceData : gmap Z ServerZoneInstance) : option bool :=
  match mZoneInstanceData !! instanceID with
  | Some instDef =>
    exists_from (GetZoneIDs instDef) 0 (GetDynamicMapIDs instDef) zoneID dynamicMapID
  | None => Some false
  end.

(** What [LoadObject<objects::ServerZoneInstance>] makes sure of for the
    instances it stores: an instance is stored under its ID, its two lists
    are parallel, and each of its zones is loaded. *)
Definition instances_ok (mZoneData : gmap Z (gset Z))
    (mZoneInstanceData : gmap Z ServerZoneInstance) : Prop :=
  forall id inst,
    mZoneInstanceData !! id = Some inst ->
    GetInstanceID inst = id /\
    length (GetZoneIDs inst) = length (GetDynamicMapIDs inst) /\
    Forall (fun ids => zone_loaded mZoneData ids.1 ids.2 = true)
           (zip (GetZoneIDs inst) (GetDynamicMapIDs inst)).

End ServerDataManager.

(** ** DatabaseQueryMariaDB.cpp *)

Module DatabaseQueryMariaDB.

(** *** Named parameters

    A [std::string] is a list of characters here. *)

(** The character class [[a-zA-Z0-9_]] of the expression [namedParam]. *)
Definition is_param_char (c : ascii) : bool :=
  let n := nat_of_ascii c in
  ((97 <=? n) && (n <=? 122) || (65 <=? n) && (n <=? 90)
   || (48 <=? n) && (n <=? 57) || (n =? 95))%nat.

(** The longest run of such characters at the start of [s], and the rest:
    what the greedy [+] of the expression takes. *)
Fixpoint word_prefix (s : list ascii) : list ascii * list ascii :=
  match s with
  | [] => ([], [])
  | c :: rest =>
    if is_param_char c
    then let '(name, suffix) := word_prefix rest in (c :: name, suffix)
    else ([], s)
  end.

(** [std::regex_search(s, match, namedParam)]: the leftmost match of a
    colon followed by one or more characters of the class.  The result is
    the text before the match, the match without its colon
    ([match.str().substr(1)]) and the text after it. *)
Fixpoint regex_search (s : list ascii)
  : option (list ascii * list ascii * list ascii) :=
  match s with
  | [] => None
  | c :: rest =>
    let later := (fun m : list ascii * list ascii * list ascii =>
                    (c :: m.1.1, m.1.2, m.2)) <$> regex_search rest in
    if Ascii.eqb c ":"
    then match word_prefix rest with
         | ([], _) => later
         | (name, suffix) => Some ([], name, suffix)
         end
    else later
  end.

(** [std::regex_replace(s, namedParam, "?", format_first_only)] *)
Definition regex_replace_first (s : list ascii) : list ascii :=
  match regex_search s with
  | Some (before, _, after) => before ++ "?"%char :: after
  | None => s
  end.

(** The [while (std::regex_search(...))] loop of [Prepare].  Every round
    makes the text shorter; the model counts the rounds and yields [None]
    when [fuel] is used up. *)
Fixpoint replace_named (fuel : nat) (transformed : list ascii)
    (mParamNames : list (list ascii)) : option (list (list ascii) * list ascii) :=
  match fuel with
  | O => None
  | S fuel' =>
    match regex_search transformed with
    | Some (_, name, _) =>
      replace_named fuel' (regex_replace_first transformed) (mParamNames ++ [name])
    | None => Some (mParamNames, transformed)
    end
  end.

(** The first part of [DatabaseQueryMariaDB::Prepare]: [mParamNames] and
    the text handed to [mysql_stmt_prepare]. *)
Definition named_parameters (query : list ascii)
  : option (list (list ascii) * list ascii) :=
  replace_named (S (length query)) query [].

(** A query text written with named parameters: [text0], then each
    parameter as a colon and its name, followed by its text. *)
Definition with_names (text0 : list ascii) (params : list (list ascii * list ascii))
  : list ascii :=
  text0 ++ concat ((fun p => ":"%char :: p.1 ++ p.2) <$> params).

(** The same with positional parameters. *)
Definition with_marks (text0 : list ascii) (params : list (list ascii * list ascii))
  : list ascii :=
  text0 ++ concat ((fun p => "?"%char :: p.2) <$> params).

(** A named parameter and the text behind it as [with_names] takes them:
    the name is a non-empty run of characters of the class, and the text
    neither goes on with such a character nor holds a match itself. *)
Definition param_ok (p : list ascii * list ascii) : Prop :=
  p.1 <> [] /\ Forall (fun c => is_param_char c = true) p.1 /\
  regex_search p.2 = None /\
  (head p.2 ≫= (fun c => if is_param_char c then Some c else None)) = None.

(** *** Binding *)

(** [MYSQL_NO_DATA] *)
Definition MYSQL_NO_DATA : Z := 100.

Section Binding.
(** The values of the [Bind] overloads. *)
Context {Value : Type}.

(** A [MYSQL_BIND] as far as the code fills it in; [memset] leaves type 0
    and no buffer. *)
Record MYSQL_BIND := mkBind {
  buffer_type : Z;
  buffer : option Value
}.

(** The members of a query the binding functions use.  [mStatement] is
    [None] for [nullptr] and holds [param_count] otherwise; [mDatabase]
    says whether the connection pointer is set. *)
Record Query := mkQuery {
  mDatabase : bool;
  mStatement : option nat;
  mStatus : Z;
  mParamNames : list (list ascii);
  mBindings : list MYSQL_BIND
}.

(** [DatabaseQueryMariaDB::IsValid] *)
Definition IsValid (q : Query) : bool :=
  mDatabase q && bool_decide (is_Some (mStatement q))
  && ((mStatus q =? 0) || (mStatus q =? MYSQL_NO_DATA)).

(** [DatabaseQueryMariaDB::GetNamedBindingIndex] *)
Definition GetNamedBindingIndex (name : list ascii) (q : Query) : nat * Query :=
  match list_find (fun n => n = name) (mParamNames q) with
  | Some (pos, _) => (pos, q)
  | None =>
    (length (mParamNames q),
     mkQuery (mDatabase q) (mStatement q) (-1) (mParamNames q) (mBindings q))
  end.

(** [DatabaseQueryMariaDB::PrepareBinding]: [None] for [nullptr], else the
    query with the binding at [index] given its type.  The code indexes
    [mBindings] unchecked; the list update leaves the list alone where the
    code would write outside the vector. *)
Definition PrepareBinding (index : nat) (type : Z) (q : Query) : option Query :=
  match mStatement q with
  | None => None
  | Some param_count =>
    if (param_count <=? index)%nat then None
    else
      let bindings :=
        match mBindings q with
        | [] => replicate param_count (mkBind 0 None)
        | _ => mBindings q
        end in
      Some (mkQuery (mDatabase q) (mStatement q) (mStatus q) (mParamNames q)
              (alter (fun b => mkBind type (buffer b)) index bindings))
  end.

(** [DatabaseQueryMariaDB::Bind(size_t index, T value)] for a string, a
    blob, a UUID, a number or a boolean: the same code but for the binding
    type it asks for and the buffer that holds the value.  (The overloads
    for a map of columns are stubs that return false.) *)
Definition Bind (index : nat) (type : Z) (value : Value) (q : Query)
  : bool * Query :=
  match PrepareBinding index type q with
  | None => (false, q)
  | Some q1 =>
    let q2 := mkQuery (mDatabase q1) (mStatement q1) (mStatus q1) (mParamNames q1)
                (alter (fun b => mkBind (buffer_type b) (Some value)) index
                       (mBindings q1)) in
    (IsValid q2, q2)
  end.

(** [DatabaseQueryMariaDB::Bind(const String& name, T value)]:
    [IsValid() && Bind(index, value)] for every type but [libobjgen::UUID],
    whose overload calls [Bind(index, value)] without asking [IsValid]
    ([guarded] is [false] for it). *)
Definition Bind_name (guarded : bool) (name : list ascii) (type : Z) (value : Value)
    (q : Query) : bool * Query :=
  let '(index, q1) := GetNamedBindingIndex name q in
  if guarded && negb (IsValid q1) then (false, q1)
  else Bind index type value q1.

End Binding.

End DatabaseQueryMariaDB.

(** ** DatabaseMariaDB.cpp: operational change-sets *)

Module DatabaseMariaDB.

Definition UUID := N.

(** The value of a [DatabaseBind]; the column it is tagged with is the key
    it is stored under.  Floating point values are kept as their bits. *)
Inductive DatabaseBind :=
| BindText (s : string)
| BindBlob (b : bytes)
| BindUUID (u : UUID)
| BindInt (z : Z)
| BindBigInt (z : Z)
| BindFloat (bits : Z)
| BindDouble (bits : Z)
| BindBool (b : bool).

#[global] Instance DatabaseBind_eq_dec : EqDecision DatabaseBind.
Proof. solve_decision. Defined.

(** *** The server

    A table maps the [UID] primary key to a row; a row maps column names
    to values. *)
Abbreviation Row := (gmap string DatabaseBind).
Abbreviation Table := (gmap UUID Row).
Abbreviation Database := (gmap string Table).

(** The statements the change-set code sends, placeholders filled in. *)
Inductive Statement :=
| SqlInsert (table : string) (uid : UUID) (values : list (string * DatabaseBind))
| SqlUpdate (table : string) (set : list (string * DatabaseBind))
            (uid : DatabaseBind) (where_ : list (string * DatabaseBind))
| SqlDelete (table : string) (uids : list UUID).

Definition update_row (set : list (string * DatabaseBind)) (row : Row) : Row :=
  foldl (fun r cv => <[cv.1 := cv.2]> r) row set.

Definition row_matches (where_ : list (string * DatabaseBind)) (row : Row) : bool :=
  forallb (fun cv => bool_decide (row !! cv.1 = Some cv.2)) where_.

(** What the server does with a statement: the new database and the
    affected row count, or [None] for an SQL error.  The connection is
    opened without [CLIENT_FOUND_ROWS], so an [UPDATE] counts the rows it
    changes. *)
Definition sql_execute (s : Statement) (db : Database) : option (Database * Z) :=
  match s with
  | SqlInsert t u values =>
    rows ← db !! t;
    match rows !! u with
    | Some _ => None
    | None => Some (<[t := <[u := update_row values ∅]> rows]> db, 1)
    end
  | SqlUpdate t set uid where_ =>
    rows ← db !! t;
    match uid with
    | BindUUID u =>
      match rows !! u with
      | Some row =>
        if row_matches where_ row then
          let row' := update_row set row in
          Some (<[t := <[u := row']> rows]> db,
                if bool_decide (row' = row) then 0 else 1)
        else Some (db, 0)
      | None => Some (db, 0)
      end
    | _ => Some (db, 0)
    end
  | SqlDelete t uids =>
    rows ← db !! t;
    Some (<[t := foldl (fun r u => delete u r) rows uids]> db,
          Z.of_nat (length (filter (fun u => is_Some (rows !! u)) uids)))
  end.

(** *** The client library

    A [MYSQL] connection: [server] is the committed database, [session]
    what this connection sees inside its transaction; [link_ok] says
    whether the server can be reached; [calls] records the transaction
    calls made. *)
Inductive ApiCall :=
| CallAutocommit (mode : bool)
| CallCommit
| CallRollback
| CallExecute (s : Statement).

Record MYSQL := mkMYSQL {
  server : Database;
  session : Database;
  autocommit : bool;
  link_ok : bool;
  calls : list ApiCall
}.

Definition log_call (a : ApiCall) (c : MYSQL) : MYSQL :=
  mkMYSQL (server c) (session c) (autocommit c) (link_ok c) (calls c ++ [a]).

(** [mysql_autocommit]: the first component is the C result, [true] for
    non-zero (failure).  Switching autocommit on commits what is
    pending. *)
Definition mysql_autocommit (mode : bool) (c : MYSQL) : bool * MYSQL :=
  let c := log_call (CallAutocommit mode) c in
  if negb (link_ok c) then (true, c)
  else if mode
  then (false, mkMYSQL (session c) (session c) true (link_ok c) (calls c))
  else (false, mkMYSQL (server c) (session c) false (link_ok c) (calls c)).

(** [mysql_commit] *)
Definition mysql_commit (c : MYSQL) : bool * MYSQL :=
  let c := log_call CallCommit c in
  if negb (link_ok c) then (true, c)
  else (false, mkMYSQL (session c) (session c) (autocommit c) (link_ok c) (calls c)).

(** [mysql_rollback] *)
Definition mysql_rollback (c : MYSQL) : bool * MYSQL :=
  let c := log_call CallRollback c in
  if negb (link_ok c) then (true, c)
  else (false, mkMYSQL (server c) (server c) (autocommit c) (link_ok c) (calls c)).

(** Running a statement on the connection: the affected row count, or
    [None] when the statement fails. *)
Definition run_statement (s : Statement) (c : MYSQL) : option Z * MYSQL :=
  let c := log_call (CallExecute s) c in
  if negb (link_ok c) then (None, c)
  else
    match sql_execute s (session c) with
    | None => (None, c)
    | Some (db, n) =>
      (Some n,
       mkMYSQL (if autocommit c then db else server c) db (autocommit c)
               (link_ok c) (calls c))
    end.

(** *** Prepared statements

    What the server keeps of a statement it prepared, for the statements
    of the form the explicit update sends:
    [UPDATE `table` SET `column` = ?, ... WHERE `column` = ? AND ...;]
    with one parameter marker for each column named, in the order of the
    text. *)
Record Prepared := mkPrepared {
  p_table : string;
  p_set : list string;
  p_where : list string
}.

Definition param_count (p : Prepared) : nat :=
  (length (p_set p) + length (p_where p))%nat.

Abbreviation chars := String.list_ascii_of_string.

(** The text behind [prefix], if the text starts with it. *)
Fixpoint strip_prefix (prefix s : list ascii) : option (list ascii) :=
  match prefix, s with
  | [], _ => Some s
  | p :: prefix', c :: s' => if Ascii.eqb p c then strip_prefix prefix' s' else None
  | _ :: _, [] => None
  end.

(** A quoted identifier, read from behind its opening backtick: the name
    and the text behind the closing backtick. *)
Fixpoint read_identifier (s : list ascii) : option (list ascii * list ascii) :=
  match s with
  | [] => None
  | c :: rest =>
    if Ascii.eqb c "`" then Some ([], rest)
    else '(name, rest') ← read_identifier rest; Some (c :: name, rest')
  end.

(** [`column` = ?] *)
Definition read_assignment (s : list ascii) : option (string * list ascii) :=
  s ← strip_prefix (chars "`") s;
  '(name, s) ← read_identifier s;
  s ← strip_prefix (chars " = ?") s;
  Some (String.string_of_list_ascii name, s).

(** One or more of them, [sep] between them. *)
Fixpoint read_assignments (fuel : nat) (sep s : list ascii)
  : option (list string * list ascii) :=
  match fuel with
  | O => None
  | S fuel' =>
    '(column, s) ← read_assignment s;
    match strip_prefix sep s with
    | Some s' =>
      '(columns, s'') ← read_assignments fuel' sep s';
      Some (column :: columns, s'')
    | None => Some ([column], s)
    end
  end.

(** The server reading the text of a statement; [None] is a syntax
    error. *)
Definition sql_parse (text : list ascii) : option Prepared :=
  s ← strip_prefix (chars "UPDATE `") text;
  '(table, s) ← read_identifier s;
  s ← strip_prefix (chars " SET ") s;
  '(set, s) ← read_assignments (length text) (chars ", ") s;
  s ← strip_prefix (chars " WHERE ") s;
  '(where_, s) ← read_assignments (length text) (chars " AND ") s;
  s ← strip_prefix (chars ";") s;
  if bool_decide (s = [])
  then Some (mkPrepared (String.string_of_list_ascii table) set where_)
  else None.

(** [mysql_stmt_prepare]: the statement the server prepared, or [None]
    when it reports an error: the server is out of reach, it cannot read
    the text, or it does not have the table. *)
Definition mysql_stmt_prepare (text : list ascii) (c : MYSQL) : option Prepared :=
  if negb (link_ok c) then None
  else
    p ← sql_parse text;
    if bool_decide (is_Some (session c !! p_table p)) then Some p else None.

(** *** DatabaseQuery

    A query that was prepared: the text [Prepare] was given, the names of
    its named parameters, the statement the server made of the text, and
    [q_params], the values bound to the parameter markers so far. *)
Record DatabaseQuery := mkQuery {
  q_sql : string;
  q_names : list (list ascii);
  q_statement : Prepared;
  q_params : list (option DatabaseBind)
}.

(** [DatabaseMariaDB::Prepare(query)], which hands the text to
    [DatabaseQueryMariaDB::Prepare]: the named parameters become question
    marks, each in its place, and the server prepares the text that
    results.  [None] stands for a query that is not valid.  The bindings
    are one for each parameter marker of the prepared statement, as
    [PrepareBinding] sets them up. *)
Definition Prepare (sql : string) (c : MYSQL) : option DatabaseQuery :=
  '(mParamNames, transformed) ← DatabaseQueryMariaDB.named_parameters (chars sql);
  statement ← mysql_stmt_prepare transformed c;
  Some (mkQuery sql mParamNames statement (replicate (param_count statement) None)).

(** [DatabaseQuery::Bind(index, value)]: fails outside the parameter
    markers of the statement. *)
Definition Bind (index : nat) (value : DatabaseBind) (q : DatabaseQuery)
  : bool * DatabaseQuery :=
  if bool_decide (index < length (q_params q))%nat
  then (true, mkQuery (q_sql q) (q_names q) (q_statement q)
                      (<[index := Some value]> (q_params q)))
  else (false, q).

(** The statement the server runs for a query: the prepared statement with
    the bound values in the places of its parameter markers, the first
    [length (p_set p)] of them in the [SET] clause and the others in the
    [WHERE] clause.  The server model covers conditions as the change-set
    code writes them, the [UID] first; a marker without a value makes the
    statement fail. *)
Definition statement_of (q : DatabaseQuery) : option Statement :=
  params ← mapM id (q_params q);
  let p := q_statement q in
  let n := length (p_set p) in
  match zip (p_where p) (drop n params) with
  | (column, uid) :: where_ =>
    if String.eqb column "UID"
    then Some (SqlUpdate (p_table p) (zip (p_set p) (take n params)) uid where_)
    else None
  | [] => None
  end.

(** [DatabaseQuery::Execute] followed by [AffectedRowCount]. *)
Definition Execute (q : DatabaseQuery) (c : MYSQL) : option Z * MYSQL :=
  match statement_of q with
  | None => (None, c)
  | Some s => run_statement s c
  end.

(** *** The change-set *)

(** The part of a persistent object the backend uses: its table (the name
    of its metadata), its UUID, whether [Save] succeeds, the bind values of
    all members and of the changed members, whether it was unregistered,
    and the UUID [Register] gives it when it has none. *)
Record DBObject := mkDBObject {
  o_table : string;
  o_uuid : UUID;
  o_save_ok : bool;
  o_values : list (string * DatabaseBind);
  o_dirty : list (string * DatabaseBind);
  o_deleted : bool;
  o_random : UUID
}.

(** [DBExplicitUpdate] *)
Record DBExplicitUpdate := mkExplicitUpdate {
  GetRecord : DBObject;
  GetExpectedValues : gmap string DatabaseBind;
  GetChanges : gmap string DatabaseBind
}.

(** [DBOperationalChange] with its [DBOperationType]. *)
Inductive DBOperationalChange :=
| DBOP_INSERT (obj : DBObject)
| DBOP_UPDATE (obj : DBObject)
| DBOP_DELETE (obj : DBObject)
| DBOP_EXPLICIT (update : DBExplicitUpdate).

Definition IsNull (u : UUID) : bool := (u =? 0)%N.

(** [DatabaseMariaDB::InsertSingleObject] *)
Definition InsertSingleObject (obj : DBObject) (c : MYSQL) : bool * MYSQL :=
  if negb (o_save_ok obj) then (false, c)
  else if IsNull (o_uuid obj) && o_deleted obj then (false, c)
  else
    let uuid := if IsNull (o_uuid obj) then o_random obj else o_uuid obj in
    match run_statement (SqlInsert (o_table obj) uuid (o_values obj)) c with
    | (None, c') => (false, c')
    | (Some _, c') => (true, c')
    end.

(** [DatabaseMariaDB::UpdateSingleObject] *)
Definition UpdateSingleObject (obj : DBObject) (c : MYSQL) : bool * MYSQL :=
  if negb (o_save_ok obj) then (false, c)
  else if IsNull (o_uuid obj) then (false, c)
  else if bool_decide (o_dirty obj = []) then (true, c)
  else
    match run_statement
            (SqlUpdate (o_table obj) (o_dirty obj) (BindUUID (o_uuid obj)) []) c with
    | (None, c') => (false, c')
    | (Some _, c') => (true, c')
    end.

(** [Database::DeleteSingleObject], which hands the object to
    [DatabaseMariaDB::DeleteObjects]. *)
Definition DeleteSingleObject (obj : DBObject) (c : MYSQL) : bool * MYSQL :=
  if IsNull (o_uuid obj) then (false, c)
  else
    match run_statement (SqlDelete (o_table obj) [o_uuid obj]) c with
    | (None, c') => (false, c')
    | (Some _, c') => (true, c')
    end.

(** [DatabaseMariaDB::LoadSingleObject] by [UID], as far as its result
    being null or not goes. *)
Definition LoadSingleObject (obj : DBObject) (c : MYSQL) : bool :=
  link_ok c && bool_decide (is_Some (session c !! o_table obj ≫= fun rows => rows !! o_uuid obj)).

(** [String("`%1` = :%2").Arg(column).Arg(idx)] *)
Definition clause (column : string) (idx : nat) : string :=
  "`" +:+ column +:+ "` = :" +:+ pretty idx.

(** [String::Join] *)
Fixpoint Join (l : list string) (sep : string) : string :=
  match l with
  | [] => ""
  | [s] => s
  | s :: rest => s +:+ sep +:+ Join rest sep
  end.

(** The first loop of [ProcessExplicitUpdate]: every changed column needs
    an expected value, or the function returns [false] ([None] here); the
    update clause takes the placeholders [idx], [idx + 1], ... *)
Fixpoint update_clause (expectedVals : gmap string DatabaseBind)
    (changedVals : list (string * DatabaseBind)) (idx : nat)
  : option (list string * nat) :=
  match changedVals with
  | [] => Some ([], idx)
  | cPair :: rest =>
    match expectedVals !! cPair.1 with
    | None => None
    | Some _ =>
      '(clauses, idx') ← update_clause expectedVals rest (S idx);
      Some (clause cPair.1 idx :: clauses, idx')
    end
  end.

(** The second loop: the where clause over the changed columns. *)
Fixpoint where_clause (changedVals : list (string * DatabaseBind)) (idx : nat)
  : list string * nat :=
  match changedVals with
  | [] => ([], idx)
  | cPair :: rest =>
    let '(clauses, idx') := where_clause rest (S idx) in
    (clause cPair.1 idx :: clauses, idx')
  end.

(** The third loop: [cPair.second->Bind(query, idx++)]. *)
Fixpoint bind_changes (changedVals : list (string * DatabaseBind)) (idx : nat)
    (q : DatabaseQuery) : option (DatabaseQuery * nat) :=
  match changedVals with
  | [] => Some (q, idx)
  | cPair :: rest =>
    let '(ok, q') := Bind idx cPair.2 q in
    if ok then bind_changes rest (S idx) q' else None
  end.

(** The last loop: [expectedVals[cPair.first]->Bind(query, idx++)]. *)
Fixpoint bind_expected (expectedVals : gmap string DatabaseBind)
    (changedVals : list (string * DatabaseBind)) (idx : nat)
    (q : DatabaseQuery) : option (DatabaseQuery * nat) :=
  match changedVals with
  | [] => Some (q, idx)
  | cPair :: rest =>
    match expectedVals !! cPair.1 with
    | None => None
    | Some v =>
      let '(ok, q') := Bind idx v q in
      if ok then bind_expected expectedVals rest (S idx) q' else None
    end
  end.

(** The query [ProcessExplicitUpdate] prepares and binds, if it gets as
    far as executing it. *)
Definition explicit_query (update : DBExplicitUpdate) (c : MYSQL)
  : option DatabaseQuery :=
  let obj := GetRecord update in
  let expectedVals := GetExpectedValues update in
  let changedVals := map_to_list (GetChanges update) in
  if bool_decide (length changedVals = 0)%nat then None
  else
    '(updateClause, idx) ← update_clause expectedVals changedVals 0;
    let uidIdx := idx in
    let '(whereClause, idx) := where_clause changedVals (S idx) in
    let sql :=
      "UPDATE `" +:+ o_table obj +:+ "` SET " +:+ Join updateClause ", "
      +:+ " WHERE `UID` = :" +:+ pretty uidIdx +:+ " AND "
      +:+ Join whereClause " AND " +:+ ";" in
    query ← Prepare sql c;
    '(query, idx) ← bind_changes changedVals 0 query;
    let '(ok, query) := Bind idx (BindUUID (o_uuid obj)) query in
    if negb ok then None
    else
      '(query, _) ← bind_expected expectedVals changedVals (S idx) query;
      Some query.

(** [DatabaseMariaDB::ProcessExplicitUpdate] *)
Definition ProcessExplicitUpdate (update : DBExplicitUpdate) (c : MYSQL)
  : bool * MYSQL :=
  match explicit_query update c with
  | None => (false, c)
  | Some query =>
    match Execute query c with
    | (None, c') => (false, c')
    | (Some affected, c') => (affected =? 1, c')
    end
  end.

(** The loop of [ProcessOperationalChangeSet] over the operations;
    [objs] collects the records of the explicit updates. *)
Fixpoint process_operations (ops : list DBOperationalChange) (objs : list DBObject)
    (c : MYSQL) : bool * list DBObject * MYSQL :=
  match ops with
  | [] => (true, objs, c)
  | op :: rest =>
    let '(result, objs, c) :=
      match op with
      | DBOP_INSERT obj => let '(r, c) := InsertSingleObject obj c in (r, objs, c)
      | DBOP_UPDATE obj => let '(r, c) := UpdateSingleObject obj c in (r, objs, c)
      | DBOP_DELETE obj => let '(r, c) := DeleteSingleObject obj c in (r, objs, c)
      | DBOP_EXPLICIT update =>
        let '(r, c) := ProcessExplicitUpdate update c in
        (r, objs ++ [GetRecord update], c)
      end in
    if result then process_operations rest objs c else (false, objs, c)
  end.

(** [DatabaseMariaDB::ProcessOperationalChangeSet]; [connection] is what
    [GetConnection(true)] returns. *)
Definition ProcessOperationalChangeSet (changes : list DBOperationalChange)
    (connection : option MYSQL) : bool * option MYSQL :=
  match connection with
  | None => (false, None)
  | Some c =>
    let '(failed, c) := mysql_autocommit false c in
    if failed then (false, Some c)
    else
      let '(result, objs, c) := process_operations changes [] c in
      let '(result, c) :=
        if result then let '(failed, c) := mysql_commit c in (negb failed, c)
        else let '(_, c) := mysql_rollback c in (false, c) in
      let '(failed, c) := mysql_autocommit true c in
      if failed then (false, Some c)
      else if result then (forallb (fun obj => LoadSingleObject obj c) objs, Some c)
      else (false, Some c)
  end.

(** *** What an explicit update asks of the server

    The expected values of the changed columns, in the order of the changed
    columns, if every changed column has one. *)
Fixpoint expected_for (expectedVals : gmap string DatabaseBind)
    (changedVals : list (string * DatabaseBind)) : option (list (string * DatabaseBind)) :=
  match changedVals with
  | [] => Some []
  | cPair :: rest =>
    v ← expectedVals !! cPair.1;
    vs ← expected_for expectedVals rest;
    Some ((cPair.1, v) :: vs)
  end.

(** [UPDATE t SET <new> WHERE UID = ? AND <expected>]: the changed columns
    with their new values, the UUID of the record, and the changed columns
    with their expected values. *)
Definition explicit_statement (update : DBExplicitUpdate) : option Statement :=
  let changedVals := map_to_list (GetChanges update) in
  where_ ← expected_for (GetExpectedValues update) changedVals;
  Some (SqlUpdate (o_table (GetRecord update)) changedVals
                  (BindUUID (o_uuid (GetRecord update))) where_).

(** Text without a colon, a run of characters a parameter name is made
    of, and text that does not go on with such a character. *)
Abbreviation plain := (Forall (fun ch : ascii => ch <> ":"%char)).
Abbreviation word :=
  (Forall (fun ch : ascii => DatabaseQueryMariaDB.is_param_char ch = true)).
Abbreviation no_word_ahead text :=
  (head text ≫= (fun ch => if DatabaseQueryMariaDB.is_param_char ch then Some ch else None)
   = None).

(** [`column` = ?]: a [clause] with a parameter marker for its named
    parameter, as the server gets it. *)
Definition marked (column : string) : string := "`" +:+ column +:+ "` = ?".

(** Names the text of a statement can carry as they are: no colon, which
    would start a named parameter, no backtick, which would end the quoted
    name, and no percent sign, which [String::Arg] could take for a
    placeholder of the format. *)
Definition name_ok (name : string) : Prop :=
  Forall (fun ch => ch <> ":"%char /\ ch <> "`"%char /\ ch <> "%"%char) (chars name).

Definition names_ok (update : DBExplicitUpdate) : Prop :=
  name_ok (o_table (GetRecord update)) /\
  forall column, is_Some (GetChanges update !! column) -> name_ok column.


(** *** The standard change-set *)

(** [metaObjectMap] of [DeleteObjects]: the objects of each table, in the
    order of the list. *)
Definition group_by_table (objs : list DBObject) : gmap string (list DBObject) :=
  foldl (fun metaObjectMap obj =>
           <[o_table obj := default [] (metaObjectMap !! o_table obj) ++ [obj]]>
             metaObjectMap)
        ∅ objs.

(** The loop of [DeleteObjects] over the tables: an object without a UUID
    ends it before the statement of its table is run. *)
Fixpoint delete_groups (groups : list (string * list DBObject)) (c : MYSQL)
  : bool * MYSQL :=
  match groups with
  | [] => (true, c)
  | mPair :: rest =>
    if existsb (fun obj => IsNull (o_uuid obj)) mPair.2 then (false, c)
    else
      match run_statement (SqlDelete mPair.1 (o_uuid <$> mPair.2)) c with
      | (None, c') => (false, c')
      | (Some _, c') => delete_groups rest c'
      end
  end.

(** [DatabaseMariaDB::DeleteObjects]; the tables are taken in the order
    the map yields them. *)
Definition DeleteObjects (objs : list DBObject) (c : MYSQL) : bool * MYSQL :=
  delete_groups (map_to_list (group_by_table objs)) c.





End DatabaseMariaDB.

(** ** DefinitionManager.cpp *)

Module DefinitionManager.

(** The test of one entry of [mDevilBoostLots] in [GetDevilBoostLotIDs],
    on [int32_t] values.  [None] stands for the two cases in which the
    remainder [count % pair.first] is undefined in C++: a divisor of zero,
    and the least value divided by -1. *)
Definition lot_applies (count first : Z) : option bool :=
  if (count <? 100) || (Z.rem first 100 =? 0)
  then
    if first =? count then Some true
    else if (first =? 0) || ((count =? - 2 ^ 31) && (first =? -1)) then None
    else Some (Z.rem count first =? 0)
  else Some false.

(** The loop of [GetDevilBoostLotIDs] over the entries. *)
Fixpoint collect_lots (count : Z) (pairs : list (Z * list Z))
    (directFound : bool) (results : list Z) : option (bool * list Z) :=
  match pairs with
  | [] => Some (directFound, results)
  | lot :: rest =>
    let directFound := directFound || (lot.1 =? count) in
    applies ← lot_applies count lot.1;
    collect_lots count rest directFound
                 (if applies : bool then results ++ lot.2 else results)
  end.

(** [DefinitionManager::GetDevilBoostLotIDs]; the entries are taken in the
    order the map yields them. *)
Definition GetDevilBoostLotIDs (mDevilBoostLots : gmap Z (list Z)) (count : Z)
  : option (list Z) :=
  '(directFound, results) ← collect_lots count (map_to_list mDevilBoostLots) false [];
  Some (if (count <? 100) && negb directFound then [] else results).

End DefinitionManager.

(** ** Sample data for the worked examples *)

Module Samples.

(** An AI script and an event condition script that both call themselves
    [guard]. *)
Definition ai_guard : ServerDataManager.ScriptSource :=
  ServerDataManager.mkScriptSource true {["define"; "prepare"]} (Some 0) "guard" "AI".

Definition condition_guard : ServerDataManager.ScriptSource :=
  ServerDataManager.mkScriptSource true {["define"; "check"]} (Some 0) "guard"
    "eventcondition".

Definition no_scripts : ServerDataManager.Scripts :=
  ServerDataManager.mkScripts ∅ ∅.

Definition guard_files : list (string * ServerDataManager.ScriptSource) :=
  [("/scripts/ai/guard.nut", ai_guard); ("/scripts/event/guard.nut", condition_guard)].

(** A zone with two spawns and a partial that redefines the first
    (enemy type 13) and extends the second (enemy type 0). *)
Definition spawn_store : ServerDataManager.SpawnStore :=
  {[ 100%nat := ServerDataManager.mkSpawn 11 [] [] [] [];
     101%nat := ServerDataManager.mkSpawn 12 [1%nat] [5] [] [];
     200%nat := ServerDataManager.mkSpawn 13 [] [] [] [];
     201%nat := ServerDataManager.mkSpawn 0 [2%nat] [6] [3%nat] [7] ]}.

Definition zone : ServerDataManager.ZoneData :=
  ServerDataManager.mkZoneData ∅ ∅ ∅ ∅ ∅ ∅ {[ 1 := 100%nat; 2 := 101%nat ]} ∅ ∅ ∅ [].

Definition zone_partial : ServerDataManager.ZoneData :=
  ServerDataManager.mkZoneData ∅ ∅ ∅ ∅ ∅ ∅ {[ 1 := 200%nat; 2 := 201%nat ]} ∅ ∅ ∅ [].

(** Two registered objects: object 1 under UUID 10, object 2 under
    UUID 20. *)
Definition two_objects : PersistentObject.State :=
  PersistentObject.mkState
    {[ 1%nat := PersistentObject.mkObject 10%N false;
       2%nat := PersistentObject.mkObject 20%N false ]}
    {[ 10%N := 1%nat; 20%N := 2%nat ]}.

(** A character row and two explicit updates of it: one that states what
    it expects of the column it changes, and one that also states an
    expectation about a column it leaves alone. *)
Definition character_row : DatabaseMariaDB.Row :=
  {[ "Hp" := DatabaseMariaDB.BindInt 100; "Mp" := DatabaseMariaDB.BindInt 5 ]}.

Definition character_db : DatabaseMariaDB.Database :=
  {[ "Character" := {[ 7%N := character_row ]} ]}.

Definition idle_connection : DatabaseMariaDB.MYSQL :=
  DatabaseMariaDB.mkMYSQL character_db character_db true true [].

Definition character : DatabaseMariaDB.DBObject :=
  DatabaseMariaDB.mkDBObject "Character" 7%N true [] [] false 0%N.

Definition lose_hp : DatabaseMariaDB.DBExplicitUpdate :=
  DatabaseMariaDB.mkExplicitUpdate character
    {[ "Hp" := DatabaseMariaDB.BindInt 100 ]} {[ "Hp" := DatabaseMariaDB.BindInt 80 ]}.

Definition lose_hp_wrong_mp : DatabaseMariaDB.DBExplicitUpdate :=
  DatabaseMariaDB.mkExplicitUpdate character
    {[ "Hp" := DatabaseMariaDB.BindInt 100; "Mp" := DatabaseMariaDB.BindInt 999 ]}
    {[ "Hp" := DatabaseMariaDB.BindInt 80 ]}.

(** A stand-in for the cryptography, enough to run the examples: the
    Diffie-Hellman state is the prime, every public value is 256 digits
    [7], the shared data are the first 8 bytes of the other side's public
    value, and packets arrive in the clear. *)
Definition crypto : EncryptedConnection.CryptoOps := {|
  EncryptedConnection.DH := bytes;
  EncryptedConnection.LoadDiffieHellman := fun prime => prime;
  EncryptedConnection.GetDiffieHellmanPrime := fun dh => dh;
  EncryptedConnection.GenerateDiffieHellmanPublic := fun dh => (dh, replicate 256 "7"%byte);
  EncryptedConnection.GenerateDiffieHellmanSharedData :=
    fun dh public => take 8 (public ++ replicate 8 "0"%byte);
  EncryptedConnection.DecryptPacket := fun key packet => packet
|}.

(** The same with a derivation that fails: no shared data. *)
Definition broken_crypto : EncryptedConnection.CryptoOps := {|
  EncryptedConnection.DH := bytes;
  EncryptedConnection.LoadDiffieHellman := fun prime => prime;
  EncryptedConnection.GetDiffieHellmanPrime := fun dh => dh;
  EncryptedConnection.GenerateDiffieHellmanPublic := fun dh => (dh, replicate 256 "7"%byte);
  EncryptedConnection.GenerateDiffieHellmanSharedData := fun dh public => [];
  EncryptedConnection.DecryptPacket := fun key packet => packet
|}.

(** Connection 7, waiting for the handshake to finish, with an empty
    message queue. *)
Definition connection (ops : EncryptedConnection.CryptoOps)
    (dh : @EncryptedConnection.DH ops) : @EncryptedConnection.Connection ops :=
  EncryptedConnection.mkConnection 7 EncryptedConnection.STATUS_WAITING_ENCRYPTION
    EncryptedConnection.ROLE_SERVER (Some EncryptedConnection.ParseServerEncryptionFinish_fn)
    None dh (Some []) [] [] true [].

Definition digits (d : byte) : bytes := replicate 256 d.

(** Connection 7 once encrypted, with an empty message queue. *)
Definition encrypted_connection : @EncryptedConnection.Connection crypto :=
  EncryptedConnection.encrypted_with (replicate 8 "0"%byte) (connection crypto []).

(** Two commands: 0x26 with two bytes of payload, 0x56 with one. *)
Definition two_commands : list EncryptedConnection.Command :=
  [EncryptedConnection.mkCommand 0 0x26 ["1"%byte; "2"%byte];
   EncryptedConnection.mkCommand 0 0x56 ["3"%byte]].

(** The frame of the two commands: sizes 16 and 15, the commands, one byte
    of padding. *)
Definition command_frame : Packet.ReadOnlyPacket :=
  Packet.of_bytes (u32be 16 ++ u32be 15
                   ++ EncryptedConnection.encode_commands two_commands
                   ++ [Byte.x00]).

(** A frame whose second command announces a size of three. *)
Definition short_command_frame : Packet.ReadOnlyPacket :=
  Packet.of_bytes (u32be 16 ++ u32be 14
                   ++ EncryptedConnection.encode_commands
                        [EncryptedConnection.mkCommand 0 0x26 ["1"%byte; "2"%byte]]
                   ++ (u16be 0 ++ u16le 3 ++ u16le 0x56)
                   ++ [Byte.x00; Byte.x00]).

(** Entries for drop set 7 in an order that puts changes before the set
    itself, and a redefinition for drop set 8, which is never loaded. *)
Definition drop_set_entries : list ServerDataManager.DropSet :=
  [ServerDataManager.mkDropSet 7 ServerDataManager.APPEND 0 [3%nat];
   ServerDataManager.mkDropSet 7 ServerDataManager.REDEFINE 0 [8%nat];
   ServerDataManager.mkDropSet 7 ServerDataManager.NORMAL 5 [1%nat; 2%nat];
   ServerDataManager.mkDropSet 7 ServerDataManager.REDEFINE 0 [9%nat];
   ServerDataManager.mkDropSet 8 ServerDataManager.REDEFINE 0 [6%nat];
   ServerDataManager.mkDropSet 7 ServerDataManager.APPEND 0 [4%nat; 5%nat]].

(** An update written with two named parameters. *)
Definition update_text0 : list ascii := String.list_ascii_of_string "UPDATE t SET a = ".
Definition update_params : list (list ascii * list ascii) :=
  [(String.list_ascii_of_string "a", String.list_ascii_of_string " WHERE b = ");
   (String.list_ascii_of_string "b", [])].

(** Its query once prepared, nothing bound yet; and a prepared query with
    three parameters of which the text names two, both [a]. *)
Definition update_query : @DatabaseQueryMariaDB.Query Z :=
  DatabaseQueryMariaDB.mkQuery true (Some 2%nat) 0
    [String.list_ascii_of_string "a"; String.list_ascii_of_string "b"] [].
Definition mixed_query : @DatabaseQueryMariaDB.Query Z :=
  DatabaseQueryMariaDB.mkQuery true (Some 3%nat) 0
    [String.list_ascii_of_string "a"; String.list_ascii_of_string "a"] [].


(** Zone 5 loaded with dynamic map 1, and instance 3 of that zone. *)
Definition loaded_zones : gmap Z (gset Z) := {[ 5 := {[ 1 ]} ]}.
Definition zone_instance : ServerDataManager.ServerZoneInstance :=
  ServerDataManager.mkZoneInstance 3 5 [5] [1].

End Samples.

(* ===================================================================== *)
(** * Part II: properties                                                 *)
(* ===================================================================== *)

(** ** Packet cursor *)

Section PacketCursor.
Context `{Constants}.
Import Packet.

Lemma wrap32_small z : 0 <= z < 2 ^ 32 -> wrap32 z = z.
Proof. intros Hz. unfold wrap32. apply Z.mod_small. exact Hz. Qed.

Lemma Seek_spec pos p :
  Seek pos p = if MAX_PACKET_SIZE <? pos
               then Throw "Attempted to seek past the MAX_PACKET_SIZE"
               else Ok (set_position p pos).
Proof. reflexivity. Qed.

Lemma Seek_ok pos p : pos <= MAX_PACKET_SIZE -> Seek pos p = Ok (set_position p pos).
Proof.
  intros Hle. unfold Seek.
  destruct (Z.ltb_spec MAX_PACKET_SIZE pos) as [Hlt|_]; [lia | reflexivity].
Qed.

Lemma Skip_ok sz p :
  0 < sz -> 0 <= mPosition p -> mPosition p + sz <= MAX_PACKET_SIZE ->
  Skip sz p = Ok (set_position p (mPosition p + sz)).
Proof.
  intros Hsz Hpos Hle. unfold Skip.
  pose proof MAX_PACKET_SIZE_range as Hmax.
  destruct (Z.eqb_spec sz 0) as [->|_]; [lia|].
  rewrite wrap32_small by lia.
  destruct (Z.ltb_spec MAX_PACKET_SIZE (mPosition p + sz)); [lia | reflexivity].
Qed.

(** C6, as it holds on the code: the cursor operations are bounded by
    [MAX_PACKET_SIZE] and by the start of the packet, not by the size of
    the packet.  [Seek(pos)] fails exactly when [pos] is past
    [MAX_PACKET_SIZE]; [Skip(sz)], for a move that stays within 32 bits,
    fails exactly when [sz] is not zero and the new position is past
    [MAX_PACKET_SIZE]; [Rewind(n)] fails exactly when the new position
    would be negative.  In every other case the position is set as
    requested and nothing else changes. *)
Theorem cursor_operations_bounds (p : ReadOnlyPacket) (pos sz n : Z) :
  is_u32 (mPosition p) -> is_u32 pos -> is_u32 sz -> is_u32 n ->
  mPosition p + sz < 2 ^ 32 ->
  (is_Ok (Seek pos p) = false <-> MAX_PACKET_SIZE < pos) /\
  (pos <= MAX_PACKET_SIZE -> Seek pos p = Ok (set_position p pos)) /\
  (is_Ok (Skip sz p) = false <-> sz <> 0 /\ MAX_PACKET_SIZE < mPosition p + sz) /\
  (sz = 0 \/ mPosition p + sz <= MAX_PACKET_SIZE ->
   Skip sz p = Ok (set_position p (mPosition p + sz))) /\
  (is_Ok (Rewind n p) = false <-> mPosition p - n < 0) /\
  (0 <= mPosition p - n -> Rewind n p = Ok (set_position p (mPosition p - n))).
Proof.
  unfold is_u32. intros Hp Hpos Hsz Hn Hsum.
  assert (Hid : set_position p (mPosition p) = p) by (destruct p; reflexivity).
  repeat split.
  - unfold Seek. destruct (Z.ltb_spec MAX_PACKET_SIZE pos); simpl; [lia | discriminate].
  - unfold Seek. destruct (Z.ltb_spec MAX_PACKET_SIZE pos); simpl; [reflexivity | lia].
  - apply Seek_ok; assumption.
  - revert H0. unfold Skip. destruct (Z.eqb_spec sz 0); simpl; [discriminate | auto].
  - revert H0. unfold Skip. destruct (Z.eqb_spec sz 0); simpl; [discriminate|].
    rewrite wrap32_small by lia.
    destruct (Z.ltb_spec MAX_PACKET_SIZE (mPosition p + sz)); simpl; [lia | discriminate].
  - intros [Hnz Hgt]. unfold Skip. destruct (Z.eqb_spec sz 0); [contradiction|].
    rewrite wrap32_small by lia.
    destruct (Z.ltb_spec MAX_PACKET_SIZE (mPosition p + sz)); simpl; [reflexivity | lia].
  - intros [->|Hle].
    + unfold Skip. simpl. rewrite Z.add_0_r, Hid. reflexivity.
    + unfold Skip. destruct (Z.eqb_spec sz 0) as [->|Hnz].
      * rewrite Z.add_0_r, Hid. reflexivity.
      * rewrite wrap32_small by lia.
        destruct (Z.ltb_spec MAX_PACKET_SIZE (mPosition p + sz)); [lia | reflexivity].
  - unfold Rewind. destruct (Z.eqb_spec n 0); simpl; [discriminate|].
    destruct (Z.gtb_spec n (mPosition p)); simpl; [lia | discriminate].
  - intros Hneg. unfold Rewind. destruct (Z.eqb_spec n 0); [lia|].
    destruct (Z.gtb_spec n (mPosition p)); simpl; [reflexivity | lia].
  - intros Hge. unfold Rewind. destruct (Z.eqb_spec n 0) as [->|Hnz].
    + rewrite Z.sub_0_r, Hid. reflexivity.
    + destruct (Z.gtb_spec n (mPosition p)); [lia | reflexivity].
Qed.

End PacketCursor.

(** C6 as stated fails: on a packet of four bytes [Seek(5)] and, from
    position 3, [Skip(2)] succeed although they leave the cursor at 5,
    outside the interval from 0 to the size 4. *)
Lemma cursor_past_size_counterexample :
  let p := Packet.of_bytes [x00; x00; x00; x00]%byte in
  Packet.mSize p = 4 /\
  @Packet.Seek libcomp_constants 5 p = Ok (Packet.mkPacket 5 4 (Packet.mData p)) /\
  @Packet.Skip libcomp_constants 2 (Packet.set_position p 3)
    = Ok (Packet.mkPacket 5 4 (Packet.mData p)) /\
  ~ (0 <= 5 <= Packet.mSize p).
Proof. cbv zeta. repeat split. simpl. lia. Qed.

Lemma cursor_operations_bounds_witness :
  let p := Packet.mkPacket 3 4 [x00; x00; x00; x00]%byte in
  (is_Ok (@Packet.Seek libcomp_constants 5 p) = false <-> 16384 < 5) /\
  (5 <= 16384 -> @Packet.Seek libcomp_constants 5 p = Ok (Packet.set_position p 5)) /\
  (is_Ok (@Packet.Skip libcomp_constants 2 p) = false <-> 2 <> 0 /\ 16384 < 3 + 2) /\
  (2 = 0 \/ 3 + 2 <= 16384 ->
   @Packet.Skip libcomp_constants 2 p = Ok (Packet.set_position p (3 + 2))) /\
  (is_Ok (Packet.Rewind 1 p) = false <-> 3 - 1 < 0) /\
  (0 <= 3 - 1 -> Packet.Rewind 1 p = Ok (Packet.set_position p (3 - 1))).
Proof.
  exact (@cursor_operations_bounds libcomp_constants
           (Packet.mkPacket 3 4 [x00; x00; x00; x00]%byte) 5 2 1
           ltac:(unfold is_u32; simpl; lia) ltac:(unfold is_u32; lia)
           ltac:(unfold is_u32; lia) ltac:(unfold is_u32; lia)
           ltac:(simpl; lia)).
Defined.

(** ** Data store search paths *)

Section SearchPaths.
Import DataStore.

Lemma rev_reverse {A} (l : list A) : rev l = reverse l.
Proof. unfold reverse. apply rev_alt. Qed.

Lemma add_each_prepend (paths : list string) (fs : PhysFS) :
  NoDup paths ->
  (forall d, d ∈ paths -> d ∈ dirs fs /\ d ∉ searchPath fs) ->
  add_each false paths fs
  = (true, mkPhysFS (dirs fs) (files fs) (rev paths ++ searchPath fs) (writeDir fs)).
Proof.
  revert fs. induction paths as [|d rest IH]; intros fs Hnd Hin.
  - destruct fs; reflexivity.
  - apply NoDup_cons in Hnd as [Hd Hnd].
    destruct (Hin d) as [Hdir Hnew]; [left|].
    simpl. unfold AddSearchPath, PHYSFS_mount.
    rewrite (bool_decide_eq_true_2 _ Hdir), (bool_decide_eq_false_2 _ Hnew). simpl.
    rewrite IH; simpl.
    + rewrite <- app_assoc. reflexivity.
    + exact Hnd.
    + intros d' Hd'. destruct (Hin d') as [Hdir' Hnew']; [right; exact Hd'|].
      split; [exact Hdir'|].
      intros [->|Hold]%elem_of_cons; [exact (Hd Hd') | exact (Hnew' Hold)].
Qed.

Lemma add_each_append (paths : list string) (fs : PhysFS) :
  NoDup paths ->
  (forall d, d ∈ paths -> d ∈ dirs fs /\ d ∉ searchPath fs) ->
  add_each true paths fs
  = (true, mkPhysFS (dirs fs) (files fs) (searchPath fs ++ paths) (writeDir fs)).
Proof.
  revert fs. induction paths as [|d rest IH]; intros fs Hnd Hin.
  - rewrite app_nil_r. destruct fs; reflexivity.
  - apply NoDup_cons in Hnd as [Hd Hnd].
    destruct (Hin d) as [Hdir Hnew]; [left|].
    simpl. unfold AddSearchPath, PHYSFS_mount.
    rewrite (bool_decide_eq_true_2 _ Hdir), (bool_decide_eq_false_2 _ Hnew). simpl.
    rewrite IH; simpl.
    + rewrite <- app_assoc. reflexivity.
    + exact Hnd.
    + intros d' Hd'. destruct (Hin d') as [Hdir' Hnew']; [right; exact Hd'|].
      split; [exact Hdir'|].
      intros [Hold| ->%list_elem_of_singleton]%elem_of_app;
        [exact (Hnew' Hold) | exact (Hd Hd')].
Qed.

(** Had [append] defaulted to [true], the search order would be the
    listed order. *)
Lemma AddSearchPaths_with_append (paths : list string) (lastPath : string) (fs : PhysFS) :
  searchPath fs = [] -> NoDup paths -> (forall d, d ∈ paths -> d ∈ dirs fs) ->
  last paths = Some lastPath ->
  AddSearchPaths_with true paths fs
  = (true, mkPhysFS (dirs fs) (files fs) paths (Some lastPath)).
Proof.
  intros Hempty Hnd Hdirs Hlast. unfold AddSearchPaths_with. rewrite Hlast.
  rewrite add_each_append; [|exact Hnd|].
  - rewrite Hempty. simpl. unfold PHYSFS_setWriteDir. simpl.
    rewrite bool_decide_eq_true_2; [reflexivity|].
    apply Hdirs. apply last_Some_elem_of. exact Hlast.
  - intros d Hd. split; [auto|]. rewrite Hempty. apply not_elem_of_nil.
Qed.

(** C8, as it holds on the code: after [AddSearchPaths] on a store with
    nothing mounted, for distinct existing directories, the search path is
    the listed paths in reverse, so that lookup goes from the last listed
    path to the first and a path listed later overrides a path listed
    earlier; the last listed path is the write directory. *)
Theorem AddSearchPaths_order (paths : list string) (lastPath : string) (fs : PhysFS) :
  searchPath fs = [] ->
  NoDup paths ->
  (forall d, d ∈ paths -> d ∈ dirs fs) ->
  last paths = Some lastPath ->
  exists fs',
    AddSearchPaths paths fs = (true, fs') /\
    searchPath fs' = rev paths /\
    writeDir fs' = Some lastPath /\
    (forall file, resolve file fs'
                  = list_find (fun d => (d, file) ∈ files fs) (rev paths)
                    ≫= fun r => Some r.2) /\
    (forall file i j di dj,
        paths !! i = Some di -> paths !! j = Some dj -> (i < j)%nat ->
        (dj, file) ∈ files fs -> resolve file fs' <> Some di).
Proof.
  intros Hempty Hnd Hdirs Hlast.
  exists (mkPhysFS (dirs fs) (files fs) (rev paths) (Some lastPath)).
  assert (Hrun : AddSearchPaths paths fs
                 = (true, mkPhysFS (dirs fs) (files fs) (rev paths) (Some lastPath))).
  { unfold AddSearchPaths, AddSearchPaths_with, AddSearchPath_default_append.
    rewrite Hlast. rewrite add_each_prepend; [|exact Hnd|].
    - rewrite Hempty, app_nil_r. unfold PHYSFS_setWriteDir. simpl.
      rewrite bool_decide_eq_true_2; [reflexivity|].
      apply Hdirs. apply last_Some_elem_of. exact Hlast.
    - intros d Hd. split; [auto|]. rewrite Hempty. apply not_elem_of_nil. }
  split; [exact Hrun|]. split; [reflexivity|]. split; [reflexivity|].
  split; [reflexivity|].
  intros file i j di dj Hi Hj Hij Hfile Hres.
  unfold resolve in Hres. simpl in Hres.
  destruct (list_find _ (rev paths)) as [[k d]|] eqn:Hfind; [|discriminate].
  simpl in Hres. injection Hres as ->.
  apply list_find_Some in Hfind as (Hk & _ & Hfirst).
  pose proof (lookup_lt_Some _ _ _ Hi) as Hilt.
  pose proof (lookup_lt_Some _ _ _ Hj) as Hjlt.
  assert (Hri : rev paths !! (length paths - S i)%nat = Some di).
  { rewrite rev_reverse, reverse_lookup by lia.
    replace (length paths - S (length paths - S i))%nat with i by lia. exact Hi. }
  assert (Hrj : rev paths !! (length paths - S j)%nat = Some dj).
  { rewrite rev_reverse, reverse_lookup by lia.
    replace (length paths - S (length paths - S j))%nat with j by lia. exact Hj. }
  assert (Hndr : NoDup (rev paths)).
  { rewrite rev_reverse, reverse_Permutation. exact Hnd. }
  assert (k = (length paths - S i)%nat) as -> by (eapply NoDup_lookup; eauto).
  apply (Hfirst (length paths - S j)%nat dj Hrj); [lia | exact Hfile].
Qed.

End SearchPaths.

(** C8 as stated fails: with the paths listed as [a] then [b], both
    holding [data.bin], the file is found in [b], the path listed last. *)
Lemma AddSearchPaths_lookup_counterexample :
  let fs := DataStore.mkPhysFS {["a"; "b"]} {[("a", "data.bin"); ("b", "data.bin")]} [] None in
  exists fs',
    DataStore.AddSearchPaths ["a"; "b"] fs = (true, fs') /\
    DataStore.searchPath fs' = ["b"; "a"] /\
    DataStore.resolve "data.bin" fs' = Some "b" /\
    DataStore.resolve "data.bin" fs' <> Some "a".
Proof.
  cbv zeta. eexists. split; [vm_compute; reflexivity|].
  split; [reflexivity|]. split; [vm_compute; reflexivity|]. vm_compute. discriminate.
Qed.

Lemma AddSearchPaths_order_witness :
  let fs := DataStore.mkPhysFS {["a"; "b"]} {[("a", "data.bin"); ("b", "data.bin")]} [] None in
  exists fs',
    DataStore.AddSearchPaths ["a"; "b"] fs = (true, fs') /\
    DataStore.searchPath fs' = rev ["a"; "b"] /\
    DataStore.writeDir fs' = Some "b" /\
    (forall file, DataStore.resolve file fs'
                  = list_find (fun d => (d, file) ∈ DataStore.files fs) (rev ["a"; "b"])
                    ≫= fun r => Some r.2) /\
    (forall file i j di dj,
        ["a"; "b"] !! i = Some di -> ["a"; "b"] !! j = Some dj -> (i < j)%nat ->
        (dj, file) ∈ DataStore.files fs -> DataStore.resolve file fs' <> Some di).
Proof.
  cbv zeta.
  apply (AddSearchPaths_order ["a"; "b"] "b").
  - reflexivity.
  - apply NoDup_cons. split; [|apply NoDup_singleton].
    intros Hin%list_elem_of_singleton. discriminate.
  - intros d Hd. simpl.
    apply elem_of_cons in Hd as [->|Hd].
    + apply elem_of_union_l, elem_of_singleton. reflexivity.
    + apply list_elem_of_singleton in Hd as ->.
      apply elem_of_union_r, elem_of_singleton. reflexivity.
  - reflexivity.
Defined.

(** ** Script registry *)

Section ScriptRegistry.
Import ServerDataManager.

(** A load that fails leaves the registries alone; a load that succeeds
    adds the script to its bucket under a name that was free there. *)
Lemma LoadScript_inv (path : string) (source : ScriptSource) (m m' : Scripts) (ok : bool) :
  LoadScript path source m = (ok, m') ->
  (ok = false /\ m' = m) \/
  (ok = true /\ script_valid source = true /\
   bucket (definedType source) m !! definedName source = None /\
   let script := mkServerScript (definedName source) (definedType source) path source in
   m' = if is_ai (definedType source)
        then mkScripts (mScripts m) (<[definedName source := script]> (mAIScripts m))
        else mkScripts (<[definedName source := script]> (mScripts m)) (mAIScripts m)).
Proof.
  unfold LoadScript, script_valid, bucket, is_ai. simpl.
  destruct (evalOk source); simpl; [|intros [= <- <-]; auto].
  destruct (has_function source "define"); simpl; [|intros [= <- <-]; auto].
  destruct (defineResult source) as [r|]; simpl; [|intros [= <- <-]; auto].
  destruct (bool_decide (Some r = Some 0)) eqn:Hr; simpl; [|intros [= <- <-]; auto].
  destruct (IsEmpty (definedName source)); simpl; [intros [= <- <-]; auto|].
  destruct (IsEmpty (definedType source)); simpl; [intros [= <- <-]; auto|].
  destruct (bool_decide (ToLower (definedType source) = "ai")); simpl.
  - destruct (mAIScripts m !! definedName source) as [old|] eqn:Hold; simpl.
    + intros [= <- <-]; auto.
    + destruct (has_function source "prepare"); simpl; intros [= <- <-]; auto.
  - destruct (mScripts m !! definedName source) as [old|] eqn:Hold; simpl.
    + intros [= <- <-]; auto.
    + destruct (type_supported source (ToLower (definedType source))); simpl;
        intros [= <- <-]; auto.
Qed.

(** A name collision fails the load and changes nothing. *)
Lemma LoadScript_collision (path : string) (source : ScriptSource) (m : Scripts) :
  is_Some (bucket (definedType source) m !! definedName source) ->
  LoadScript path source m = (false, m).
Proof.
  intros [old Hold].
  destruct (LoadScript path source m) as [ok m'] eqn:Hload.
  apply LoadScript_inv in Hload as [[-> ->]|(_ & _ & Hfree & _)]; [reflexivity|].
  rewrite Hold in Hfree. discriminate.
Qed.

(** Whether a script that is otherwise in order loads depends on its own
    bucket only. *)
Lemma LoadScript_valid (path : string) (source : ScriptSource) (m : Scripts) :
  script_valid source = true ->
  (LoadScript path source m).1 = true <->
  bucket (definedType source) m !! definedName source = None.
Proof.
  intros Hvalid. split.
  - destruct (LoadScript path source m) as [ok m'] eqn:Hload. simpl. intros ->.
    apply LoadScript_inv in Hload as [[[=] _]|(_ & _ & Hfree & _)]. exact Hfree.
  - revert Hvalid. unfold LoadScript, script_valid, bucket, is_ai.
    intros Hvalid Hfree.
    repeat (apply andb_prop in Hvalid as [Hvalid ?]).
    rewrite Hvalid. simpl. rewrite H3. simpl.
    apply bool_decide_eq_true_1 in H2 as ->. simpl.
    apply negb_true_iff in H1 as ->. apply negb_true_iff in H0 as ->. simpl.
    destruct (bool_decide (ToLower (definedType source) = "ai")).
    + rewrite Hfree, bool_decide_eq_false_2 by (intros [? ?]; discriminate).
      rewrite H. reflexivity.
    + rewrite Hfree, bool_decide_eq_false_2 by (intros [? ?]; discriminate).
      rewrite H. reflexivity.
Qed.

(** A successful load keeps every name that was registered. *)
Lemma LoadScript_keeps (path : string) (source : ScriptSource) (m m' : Scripts)
    (ok : bool) (ty name : string) :
  LoadScript path source m = (ok, m') ->
  is_Some (bucket ty m !! name) -> is_Some (bucket ty m' !! name).
Proof.
  intros Hload Hin.
  apply LoadScript_inv in Hload as [[_ ->]|(_ & _ & _ & ->)]; [exact Hin|].
  revert Hin. unfold bucket. destruct (is_ai (definedType source)), (is_ai ty); simpl;
    try exact (fun H => H);
    intros Hin; rewrite lookup_insert; case_decide; eauto.
Qed.

Lemma LoadScripts_keeps (files : list (string * ScriptSource)) (m m' : Scripts)
    (ty name : string) :
  LoadScripts files m = (true, m') ->
  is_Some (bucket ty m !! name) -> is_Some (bucket ty m' !! name).
Proof.
  revert m. induction files as [|[path source] rest IH]; intros m; simpl.
  - intros [= <-]. exact (fun H => H).
  - destruct (LoadScript path source m) as [ok m1] eqn:Hload.
    destruct ok; [|discriminate].
    intros Hrest Hin. apply (IH m1 Hrest). eapply LoadScript_keeps; eauto.
Qed.

(** Every file of a load that succeeded found its name free and left it
    registered. *)
Lemma LoadScripts_each (files : list (string * ScriptSource)) (m m' : Scripts)
    (i : nat) (path : string) (source : ScriptSource) :
  LoadScripts files m = (true, m') ->
  files !! i = Some (path, source) ->
  bucket (definedType source) m !! definedName source = None /\
  is_Some (bucket (definedType source) m' !! definedName source).
Proof.
  revert m i. induction files as [|[path0 source0] rest IH]; intros m i; simpl.
  - intros _ Hi. rewrite lookup_nil in Hi. discriminate.
  - destruct (LoadScript path0 source0 m) as [ok m1] eqn:Hload.
    destruct ok; [|discriminate]. intros Hrest Hi.
    destruct i as [|i]; simpl in Hi.
    + injection Hi as -> ->.
      pose proof Hload as Hinv.
      apply LoadScript_inv in Hinv as [[[=] _]|(_ & _ & Hfree & Hm1)].
      split; [exact Hfree|].
      apply (LoadScripts_keeps rest m1 m' _ _ Hrest).
      rewrite Hm1. unfold bucket.
      destruct (is_ai (definedType source)); simpl; rewrite lookup_insert_eq; eauto.
    + destruct (IH m1 i Hrest Hi) as [Hfree Hin]. split; [|exact Hin].
      destruct (bucket (definedType source) m !! definedName source) eqn:Hold;
        [|reflexivity].
      assert (is_Some (bucket (definedType source) m1 !! definedName source)) as [? Hc].
      { eapply LoadScript_keeps; eauto. }
      rewrite Hc in Hfree. discriminate.
Qed.

(** C9: when [LoadScripts] succeeds, any two of the loaded scripts that
    are kept in the same bucket have different names; loading one more
    script whose name is registered in its bucket fails and leaves the
    registries as they were; and a script that is otherwise in order loads
    exactly when its name is free in its own bucket, whatever the other
    bucket holds, so that scripts in different buckets may share a name. *)
Theorem script_names_unique_per_bucket
    (files : list (string * ScriptSource)) (m m' : Scripts)
    (path : string) (source : ScriptSource) :
  LoadScripts files m = (true, m') ->
  (forall i j pi si pj sj,
      (i < j)%nat -> files !! i = Some (pi, si) -> files !! j = Some (pj, sj) ->
      is_ai (definedType si) = is_ai (definedType sj) ->
      definedName si <> definedName sj) /\
  (is_Some (bucket (definedType source) m' !! definedName source) ->
   LoadScript path source m' = (false, m')) /\
  (script_valid source = true ->
   ((LoadScript path source m').1 = true <->
    bucket (definedType source) m' !! definedName source = None)).
Proof.
  intros Hall. split; [|split].
  - revert m Hall. induction files as [|[path0 source0] rest IH]; intros m Hall.
    + intros i j pi si pj sj _ Hi. rewrite lookup_nil in Hi. discriminate.
    + simpl in Hall.
      destruct (LoadScript path0 source0 m) as [ok m1] eqn:Hload.
      destruct ok; [|discriminate].
      intros i j pi si pj sj Hij Hi Hj Hbucket.
      destruct j as [|j]; [lia|]. simpl in Hj.
      destruct i as [|i]; simpl in Hi.
      * injection Hi as -> ->. intros Hname.
        destruct (LoadScripts_each rest m1 m' j pj sj Hall Hj) as [Hfree _].
        apply LoadScript_inv in Hload as [[[=] _]|(_ & _ & _ & Hm1)].
        revert Hfree. rewrite Hm1, <- Hname. unfold bucket. rewrite <- Hbucket.
        destruct (is_ai (definedType si)); simpl; rewrite lookup_insert_eq; discriminate.
      * apply (IH m1 Hall i j pi si pj sj); [lia | exact Hi | exact Hj | exact Hbucket].
  - apply LoadScript_collision.
  - apply LoadScript_valid.
Qed.

End ScriptRegistry.

(** An AI script and an event condition script of the same name load
    side by side. *)
Example guard_scripts_share_a_name :
  (ServerDataManager.LoadScripts Samples.guard_files Samples.no_scripts).1 = true.
Proof. vm_compute. reflexivity. Qed.

(** A second AI script of that name does not load, and neither does a
    custom action of that name, which shares [mScripts] with the event
    condition. *)
Example guard_scripts_collide :
  let m := (ServerDataManager.LoadScripts Samples.guard_files Samples.no_scripts).2 in
  ServerDataManager.LoadScript "/scripts/ai/guard2.nut" Samples.ai_guard m = (false, m) /\
  ServerDataManager.LoadScript "/scripts/custom/guard.nut"
    (ServerDataManager.mkScriptSource true {["define"; "run"]} (Some 0) "guard" "actioncustom") m
  = (false, m).
Proof. cbv zeta. split; apply LoadScript_collision; vm_compute; eauto. Qed.

Lemma script_names_unique_per_bucket_witness :
  let files := Samples.guard_files in
  let m := Samples.no_scripts in
  let m' := (ServerDataManager.LoadScripts files m).2 in
  let source := Samples.ai_guard in
  let path := "/scripts/ai/guard2.nut" in
  ServerDataManager.LoadScripts files m = (true, m') /\
  ((forall i j pi si pj sj,
      (i < j)%nat -> files !! i = Some (pi, si) -> files !! j = Some (pj, sj) ->
      ServerDataManager.is_ai (ServerDataManager.definedType si)
      = ServerDataManager.is_ai (ServerDataManager.definedType sj) ->
      ServerDataManager.definedName si <> ServerDataManager.definedName sj) /\
   (is_Some (ServerDataManager.bucket (ServerDataManager.definedType source) m'
             !! ServerDataManager.definedName source) ->
    ServerDataManager.LoadScript path source m' = (false, m')) /\
   (ServerDataManager.script_valid source = true ->
    ((ServerDataManager.LoadScript path source m').1 = true <->
     ServerDataManager.bucket (ServerDataManager.definedType source) m'
     !! ServerDataManager.definedName source = None))).
Proof.
  cbv zeta.
  assert (Hload : ServerDataManager.LoadScripts Samples.guard_files Samples.no_scripts
                  = (true, (ServerDataManager.LoadScripts Samples.guard_files
                              Samples.no_scripts).2)).
  { vm_compute. reflexivity. }
  split; [exact Hload|].
  exact (script_names_unique_per_bucket Samples.guard_files Samples.no_scripts _
           "/scripts/ai/guard2.nut" Samples.ai_guard Hload).
Defined.

(** ** Zone partials: spawns *)

Section ZonePartialSpawns.
Import ServerDataManager.

(** What the "Update spawns" loop leaves behind, for the entries of the
    partial in any order.  The zone's spawn objects are distinct per key
    and none of them is one of the partial's. *)
Lemma apply_spawns_spec (entries : list (Z * nat)) (zs : SpawnMap) (store : SpawnStore) :
  NoDup entries.*1 ->
  (forall k1 k2 p, zs !! k1 = Some p -> zs !! k2 = Some p -> k1 = k2) ->
  (forall k q k', (k, q) ∈ entries -> zs !! k' <> Some q) ->
  forall zs' store', apply_spawns entries (zs, store) = (zs', store') ->
  (forall k, k ∉ entries.*1 -> zs' !! k = zs !! k) /\
  (forall p, (forall k q, (k, q) ∈ entries -> zs !! k <> Some p) ->
             store' !! p = store !! p) /\
  (forall k q spawn,
      (k, q) ∈ entries -> store !! q = Some spawn ->
      (EnemyType spawn <> 0 -> zs' !! k = Some q) /\
      (EnemyType spawn = 0 ->
       zs' !! k = zs !! k /\
       forall p existing, zs !! k = Some p -> store !! p = Some existing ->
                          store' !! p = Some (append_lists spawn existing))).
Proof.
  intros Hnd Hinj Hown.
  induction entries as [|[k q] l IH] using rev_ind; intros zs' store' Hrun.
  - injection Hrun as <- <-. repeat split; try reflexivity.
    all: intros; exfalso; eapply not_elem_of_nil; eauto.
  - rewrite fmap_app in Hnd. apply NoDup_app in Hnd as (Hndl & Hfresh & _).
    assert (Hk : k ∉ l.*1).
    { intros Hin. apply (Hfresh k Hin). simpl. left. }
    unfold apply_spawns in Hrun. rewrite foldl_app in Hrun. simpl in Hrun.
    destruct (foldl apply_spawn (zs, store) l) as [zs1 st1] eqn:Hl.
    assert (Hownl : forall k0 q0 k', (k0, q0) ∈ l -> zs !! k' <> Some q0).
    { intros k0 q0 k' Hin. apply (Hown k0 q0 k'). apply elem_of_app. left. exact Hin. }
    destruct (IH Hndl Hownl zs1 st1 Hl) as (IH1 & IH2 & IH3).
    assert (Hq : st1 !! q = store !! q).
    { apply IH2. intros k0 q0 _. apply (Hown k q k0). apply elem_of_app. right. left. }
    assert (Hzk : zs1 !! k = zs !! k) by (apply IH1; exact Hk).
    assert (Hother : forall k0 q0, (k0, q0) ∈ l -> k0 <> k).
    { intros k0 q0 Hin ->. apply Hk. apply list_elem_of_fmap. exists (k, q0). auto. }
    assert (Hsplit : forall k0 q0, (k0, q0) ∈ l ++ [(k, q)] ->
                                   (k0, q0) ∈ l \/ (k0 = k /\ q0 = q)).
    { intros k0 q0 Hin. apply elem_of_app in Hin as [Hin|Hin]; [left; exact Hin|].
      apply list_elem_of_singleton in Hin. right. injection Hin as -> ->. auto. }
    assert (Hnotin : forall k0, k0 ∉ (l ++ [(k, q)]).*1 -> (k0 ∉ l.*1) /\ k0 <> k).
    { intros k0 Hn. rewrite fmap_app in Hn. split.
      - intros Hin. apply Hn. apply elem_of_app. left. exact Hin.
      - intros ->. apply Hn. apply elem_of_app. right. simpl. left. }
    unfold apply_spawn in Hrun. simpl in Hrun. rewrite Hq in Hrun.
    destruct (store !! q) as [spawn|] eqn:Hspawn.
    + destruct (Z.eqb_spec (EnemyType spawn) 0) as [Hzero|Hnz]; simpl in Hrun.
      * rewrite Hzk in Hrun.
        destruct (zs !! k) as [p|] eqn:Hp.
        -- injection Hrun as <- <-. split; [|split].
           ++ intros k0 [Hn _]%Hnotin. apply IH1. exact Hn.
           ++ intros p0 Hp0.
              assert (p0 <> p).
              { intros ->. apply (Hp0 k q); [|exact Hp]. apply elem_of_app. right. left. }
              rewrite lookup_alter_ne by congruence.
              apply IH2. intros k0 q0 Hin. apply (Hp0 k0 q0). apply elem_of_app. left. exact Hin.
           ++ intros k0 q0 spawn0 [Hin|[-> ->]]%Hsplit Hs0.
              ** destruct (IH3 k0 q0 spawn0 Hin Hs0) as [Hn Hz]. split; [exact Hn|].
                 intros Hz0. destruct (Hz Hz0) as [Hm Hst]. split; [exact Hm|].
                 intros p0 existing Hp0 He.
                 assert (p <> p0).
                 { intros ->. apply (Hother k0 q0 Hin). eapply Hinj; eauto. }
                 rewrite lookup_alter_ne by assumption. eapply Hst; eauto.
              ** rewrite Hspawn in Hs0. injection Hs0 as <-. split; [congruence|].
                 intros _. split; [congruence|].
                 intros p0 existing Hp0 He. rewrite Hp0 in Hp. injection Hp as ->.
                 rewrite lookup_alter_eq.
                 rewrite IH2; [rewrite He; reflexivity|].
                 intros k0 q0 Hin Hk0. apply (Hother k0 q0 Hin). eapply Hinj; eauto.
        -- injection Hrun as <- <-. split; [|split].
           ++ intros k0 [Hn _]%Hnotin. apply IH1. exact Hn.
           ++ intros p0 Hp0. apply IH2. intros k0 q0 Hin. apply (Hp0 k0 q0).
              apply elem_of_app. left. exact Hin.
           ++ intros k0 q0 spawn0 [Hin|[-> ->]]%Hsplit Hs0.
              ** apply IH3; assumption.
              ** rewrite Hspawn in Hs0. injection Hs0 as <-. split; [congruence|].
                 intros _. split; [congruence|].
                 intros p0 existing Hp0. rewrite Hp0 in Hp. discriminate.
      * injection Hrun as <- <-. split; [|split].
        -- intros k0 [Hn Hne]%Hnotin. rewrite lookup_insert_ne by congruence.
           apply IH1. exact Hn.
        -- intros p0 Hp0. apply IH2. intros k0 q0 Hin. apply (Hp0 k0 q0).
           apply elem_of_app. left. exact Hin.
        -- intros k0 q0 spawn0 [Hin|[-> ->]]%Hsplit Hs0.
           ++ pose proof (Hother k0 q0 Hin) as Hne.
              rewrite lookup_insert_ne by congruence. apply IH3; assumption.
           ++ rewrite Hspawn in Hs0. injection Hs0 as <-.
              split; [intros _; apply lookup_insert_eq | intros Hz; contradiction].
    + injection Hrun as <- <-. split; [|split].
      * intros k0 [Hn _]%Hnotin. apply IH1. exact Hn.
      * intros p0 Hp0. apply IH2. intros k0 q0 Hin. apply (Hp0 k0 q0).
        apply elem_of_app. left. exact Hin.
      * intros k0 q0 spawn0 [Hin|[-> ->]]%Hsplit Hs0.
        -- apply IH3; assumption.
        -- rewrite Hspawn in Hs0. discriminate.
Qed.

(** C7: applying a zone partial, an entry of the partial's spawns with a
    non-zero enemy type is stored in the zone under its key, replacing what
    was there; an entry with enemy type zero whose key is in the zone
    leaves the zone's spawn object under that key and appends the entry's
    drops, drop set IDs, gifts and gift set IDs to that object's lists.
    The zone's spawn objects are distinct per key and none of them belongs
    to the partial. *)
Theorem ApplyZonePartial_spawns (zone partial : ZoneData) (store : SpawnStore)
    (zone' : ZoneData) (store' : SpawnStore) :
  (forall k1 k2 p, Spawns zone !! k1 = Some p -> Spawns zone !! k2 = Some p -> k1 = k2) ->
  (forall k q k', Spawns partial !! k = Some q -> Spawns zone !! k' <> Some q) ->
  ApplyZonePartial zone partial store = (zone', store') ->
  forall k q spawn,
    Spawns partial !! k = Some q -> store !! q = Some spawn ->
    (EnemyType spawn <> 0 -> Spawns zone' !! k = Some q) /\
    (EnemyType spawn = 0 ->
     forall p existing,
       Spawns zone !! k = Some p -> store !! p = Some existing ->
       Spawns zone' !! k = Some p /\
       store' !! p = Some (append_lists spawn existing) /\
       Drops (append_lists spawn existing) = Drops existing ++ Drops spawn /\
       DropSetIDs (append_lists spawn existing) = DropSetIDs existing ++ DropSetIDs spawn /\
       Gifts (append_lists spawn existing) = Gifts existing ++ Gifts spawn /\
       GiftSetIDs (append_lists spawn existing) = GiftSetIDs existing ++ GiftSetIDs spawn /\
       EnemyType (append_lists spawn existing) = EnemyType existing).
Proof.
  intros Hinj Hown Hrun k q spawn Hk Hq.
  unfold ApplyZonePartial in Hrun.
  destruct (apply_spawns (map_to_list (Spawns partial)) (Spawns zone, store))
    as [zs1 st1] eqn:Hloop.
  injection Hrun as <- <-. simpl.
  destruct (apply_spawns_spec (map_to_list (Spawns partial)) (Spawns zone) store)
    with (zs' := zs1) (store' := st1) as (_ & _ & H3).
  - apply NoDup_fst_map_to_list.
  - exact Hinj.
  - intros k0 q0 k' Hin%elem_of_map_to_list. apply (Hown k0 q0 k' Hin).
  - exact Hloop.
  - destruct (H3 k q spawn) as [Hnz Hz]; [apply elem_of_map_to_list; exact Hk | exact Hq |].
    split; [exact Hnz|].
    intros Hzero p existing Hp He. destruct (Hz Hzero) as [Hm Hst].
    split; [rewrite Hm; exact Hp|].
    split; [eapply Hst; eauto|]. repeat split.
Qed.

End ZonePartialSpawns.

(** The sample partial applied to the sample zone: spawn 1 is now the
    partial's object, spawn 2 is still the zone's object, with the
    partial's lists appended. *)
Example sample_partial_applied :
  let r := ServerDataManager.ApplyZonePartial Samples.zone Samples.zone_partial
             Samples.spawn_store in
  ServerDataManager.Spawns r.1 !! 1 = Some 200%nat /\
  ServerDataManager.Spawns r.1 !! 2 = Some 101%nat /\
  r.2 !! 101%nat = Some (ServerDataManager.mkSpawn 12 [1%nat; 2%nat] [5; 6] [3%nat] [7]).
Proof. vm_compute. repeat split. Qed.

Lemma sample_zone_spawns_distinct :
  forall k1 k2 p,
    ServerDataManager.Spawns Samples.zone !! k1 = Some p ->
    ServerDataManager.Spawns Samples.zone !! k2 = Some p -> k1 = k2.
Proof.
  intros k1 k2 p. unfold Samples.zone. simpl.
  rewrite !lookup_insert, !lookup_singleton.
  repeat case_decide; intros; simplify_eq; reflexivity.
Qed.

Lemma sample_partial_owns_its_spawns :
  forall k q k',
    ServerDataManager.Spawns Samples.zone_partial !! k = Some q ->
    ServerDataManager.Spawns Samples.zone !! k' <> Some q.
Proof.
  intros k q k'. unfold Samples.zone, Samples.zone_partial. simpl.
  rewrite !lookup_insert, !lookup_singleton.
  repeat case_decide; intros; simplify_eq; discriminate.
Qed.

Lemma ApplyZonePartial_spawns_witness :
  let r := ServerDataManager.ApplyZonePartial Samples.zone Samples.zone_partial
             Samples.spawn_store in
  ServerDataManager.ApplyZonePartial Samples.zone Samples.zone_partial Samples.spawn_store
  = (r.1, r.2) /\
  forall k q spawn,
    ServerDataManager.Spawns Samples.zone_partial !! k = Some q ->
    Samples.spawn_store !! q = Some spawn ->
    (ServerDataManager.EnemyType spawn <> 0 ->
     ServerDataManager.Spawns r.1 !! k = Some q) /\
    (ServerDataManager.EnemyType spawn = 0 ->
     forall p existing,
       ServerDataManager.Spawns Samples.zone !! k = Some p ->
       Samples.spawn_store !! p = Some existing ->
       ServerDataManager.Spawns r.1 !! k = Some p /\
       r.2 !! p = Some (ServerDataManager.append_lists spawn existing) /\
       ServerDataManager.Drops (ServerDataManager.append_lists spawn existing)
       = ServerDataManager.Drops existing ++ ServerDataManager.Drops spawn /\
       ServerDataManager.DropSetIDs (ServerDataManager.append_lists spawn existing)
       = ServerDataManager.DropSetIDs existing ++ ServerDataManager.DropSetIDs spawn /\
       ServerDataManager.Gifts (ServerDataManager.append_lists spawn existing)
       = ServerDataManager.Gifts existing ++ ServerDataManager.Gifts spawn /\
       ServerDataManager.GiftSetIDs (ServerDataManager.append_lists spawn existing)
       = ServerDataManager.GiftSetIDs existing ++ ServerDataManager.GiftSetIDs spawn /\
       ServerDataManager.EnemyType (ServerDataManager.append_lists spawn existing)
       = ServerDataManager.EnemyType existing).
Proof.
  cbv zeta.
  assert (Hrun : ServerDataManager.ApplyZonePartial Samples.zone Samples.zone_partial
                   Samples.spawn_store
                 = ((ServerDataManager.ApplyZonePartial Samples.zone Samples.zone_partial
                       Samples.spawn_store).1,
                    (ServerDataManager.ApplyZonePartial Samples.zone Samples.zone_partial
                       Samples.spawn_store).2)).
  { apply surjective_pairing. }
  split; [exact Hrun|].
  exact (ApplyZonePartial_spawns Samples.zone Samples.zone_partial Samples.spawn_store _ _
           sample_zone_spawns_distinct sample_partial_owns_its_spawns Hrun).
Defined.

(** ** Identity cache *)

Section IdentityCache.
Import PersistentObject.

Lemma lock_alive (st : State) (a : nat) :
  is_Some (objects st !! a) -> lock st a = Some a.
Proof. intros Ha. unfold lock. rewrite bool_decide_eq_true_2; [reflexivity | exact Ha]. Qed.

Lemma lock_self (st : State) (a self : nat) :
  is_Some (objects st !! self) ->
  bool_decide (lock st a = Some self) = bool_decide (a = self).
Proof.
  intros Hself. apply bool_decide_ext. unfold lock. split.
  - case_bool_decide; [intros [= ->]; reflexivity | discriminate].
  - intros ->. rewrite bool_decide_eq_true_2; [reflexivity | exact Hself].
Qed.

(** [GetObjectByUUID] returns the cached instance while it is alive, and
    nothing else. *)
Lemma GetObjectByUUID_cached (st : State) (u : UUID) (a : nat) :
  GetObjectByUUID u st = Some a <->
  sCached st !! u = Some a /\ is_Some (objects st !! a).
Proof.
  unfold GetObjectByUUID, lock. split.
  - destruct (sCached st !! u) as [b|]; [|discriminate].
    case_bool_decide; [|discriminate]. intros [= ->]. auto.
  - intros [-> Ha]. rewrite bool_decide_eq_true_2; [reflexivity | exact Ha].
Qed.

(** C5, as it holds on the code: the cache maps a UUID to at most one
    instance, and [GetObjectByUUID] returns that instance while it is
    alive.  [Register] for a non-null UUID that is already cached for a
    different live instance returns [false], and that instance stays the
    one cached under the UUID.  The cache is left unchanged when the object
    registers under the UUID it already carries or is passed the null
    UUID; when a different non-null UUID is passed and the object is cached
    under its old one, the old entry is removed and nothing else. *)
Theorem Register_duplicate (st : State) (self other : nat) (o : Object)
    (pUuid random : UUID) :
  objects st !! self = Some o ->
  IsNull (registering_uuid o pUuid) = false ->
  sCached st !! registering_uuid o pUuid = Some other ->
  other <> self ->
  is_Some (objects st !! other) ->
  let st' := (Register self pUuid random st).2 in
  (Register self pUuid random st).1 = false /\
  GetObjectByUUID (registering_uuid o pUuid) st = Some other /\
  GetObjectByUUID (registering_uuid o pUuid) st' = Some other /\
  (forall a, GetObjectByUUID (registering_uuid o pUuid) st' = Some a -> a = other) /\
  sCached st' = (if drops_old_entry st self o pUuid
                 then delete (mUUID o) (sCached st) else sCached st) /\
  (IsNull pUuid = true \/ pUuid = mUUID o -> sCached st' = sCached st).
Proof.
  intros Hself Hnn Hdup Hne Hlive.
  assert (Hselflive : is_Some (objects st !! self)) by eauto.
  assert (Hrun : Register self pUuid random st
                 = (false,
                    if mDeleted o then st
                    else mkState (<[self := mkObject (registering_uuid o pUuid) (mDeleted o)]>
                                    (objects st))
                                 (if drops_old_entry st self o pUuid
                                  then delete (mUUID o) (sCached st) else sCached st))).
  { unfold Register, drops_old_entry. rewrite Hself.
    destruct (mDeleted o) eqn:Hdel; [reflexivity|]. simpl.
    unfold registering_uuid in *.
    destruct (IsNull pUuid) eqn:Hp; simpl.
    - rewrite Hnn. simpl. rewrite Hdup. simpl. reflexivity.
    - destruct (IsNull (mUUID o)) eqn:Ho; simpl.
      + rewrite Hdup. simpl. reflexivity.
      + destruct (sCached st !! mUUID o) as [a|] eqn:Hold.
        * rewrite (lock_self st a self Hselflive).
          destruct (decide (a = self)) as [->|Hna].
          -- rewrite (bool_decide_eq_true_2 (self = self) eq_refl).
             rewrite (bool_decide_eq_true_2 (Some self = Some self) eq_refl).
             assert (mUUID o <> pUuid) by congruence.
             rewrite lookup_delete_ne by assumption. rewrite Hdup. simpl. reflexivity.
          -- rewrite (bool_decide_eq_false_2 (a = self) Hna).
             rewrite (bool_decide_eq_false_2 (Some a = Some self)) by congruence.
             rewrite Hdup. simpl. reflexivity.
        * rewrite (bool_decide_eq_false_2 (None = Some self)) by discriminate.
          rewrite Hdup. simpl. reflexivity. }
  assert (Hget : GetObjectByUUID (registering_uuid o pUuid) st = Some other).
  { apply GetObjectByUUID_cached. auto. }
  assert (Hcache' : sCached (Register self pUuid random st).2
                    = (if drops_old_entry st self o pUuid
                       then delete (mUUID o) (sCached st) else sCached st)).
  { rewrite Hrun. simpl. unfold drops_old_entry.
    destruct (mDeleted o); reflexivity. }
  assert (Hkept : sCached (Register self pUuid random st).2 !! registering_uuid o pUuid
                  = Some other).
  { rewrite Hcache'. unfold drops_old_entry.
    destruct (negb (mDeleted o) && negb (IsNull pUuid) && negb (IsNull (mUUID o))
              && bool_decide (sCached st !! mUUID o = Some self)) eqn:Hd; [|exact Hdup].
    apply andb_prop in Hd as [_ Hd]. apply bool_decide_eq_true_1 in Hd.
    rewrite lookup_delete_ne; [exact Hdup | congruence]. }
  assert (Hlive' : is_Some (objects (Register self pUuid random st).2 !! other)).
  { rewrite Hrun. simpl. destruct (mDeleted o); [exact Hlive|]. simpl.
    rewrite lookup_insert_ne by congruence. exact Hlive. }
  cbv zeta. split; [rewrite Hrun; reflexivity|].
  split; [exact Hget|].
  split; [apply GetObjectByUUID_cached; auto|].
  split.
  { intros a [Ha _]%GetObjectByUUID_cached. congruence. }
  split; [exact Hcache'|].
  intros Hsame. rewrite Hcache'. unfold drops_old_entry.
  destruct Hsame as [Hnull| ->].
  - rewrite Hnull. simpl. rewrite andb_false_r. reflexivity.
  - unfold registering_uuid in Hdup.
    destruct (IsNull (mUUID o)); simpl; [rewrite andb_false_r; reflexivity|].
    rewrite bool_decide_eq_false_2 by congruence.
    rewrite andb_false_r. reflexivity.
Qed.

End IdentityCache.

(** C5 as stated fails: object 1 is cached under UUID 10 and object 2
    under UUID 20; [Register] of object 1 under UUID 20 returns [false] but
    does not leave the cache unchanged, the entry of UUID 10 is gone. *)
Lemma Register_duplicate_counterexample :
  let st := Samples.two_objects in
  let r := PersistentObject.Register 1%nat 20%N 99%N st in
  PersistentObject.GetObjectByUUID 20%N st = Some 2%nat /\
  PersistentObject.GetObjectByUUID 10%N st = Some 1%nat /\
  r.1 = false /\
  PersistentObject.sCached r.2 <> PersistentObject.sCached st /\
  PersistentObject.GetObjectByUUID 10%N r.2 = None.
Proof.
  cbv zeta. split; [vm_compute; reflexivity|]. split; [vm_compute; reflexivity|].
  split; [vm_compute; reflexivity|]. split; [|vm_compute; reflexivity].
  intros Heq.
  assert (Hl : PersistentObject.sCached
                 (PersistentObject.Register 1%nat 20%N 99%N Samples.two_objects).2 !! 10%N
               = PersistentObject.sCached Samples.two_objects !! 10%N)
    by (rewrite Heq; reflexivity).
  vm_compute in Hl. discriminate.
Qed.

Lemma Register_duplicate_witness :
  let st := Samples.two_objects in
  let o := PersistentObject.mkObject 10%N false in
  let st' := (PersistentObject.Register 1%nat 20%N 99%N st).2 in
  (PersistentObject.Register 1%nat 20%N 99%N st).1 = false /\
  PersistentObject.GetObjectByUUID (PersistentObject.registering_uuid o 20%N) st = Some 2%nat /\
  PersistentObject.GetObjectByUUID (PersistentObject.registering_uuid o 20%N) st' = Some 2%nat /\
  (forall a, PersistentObject.GetObjectByUUID (PersistentObject.registering_uuid o 20%N) st'
             = Some a -> a = 2%nat) /\
  PersistentObject.sCached st'
  = (if PersistentObject.drops_old_entry st 1%nat o 20%N
     then delete (PersistentObject.mUUID o) (PersistentObject.sCached st)
     else PersistentObject.sCached st) /\
  (PersistentObject.IsNull 20%N = true \/ 20%N = PersistentObject.mUUID o ->
   PersistentObject.sCached st' = PersistentObject.sCached st).
Proof.
  cbv zeta.
  apply (Register_duplicate Samples.two_objects 1%nat 2%nat
           (PersistentObject.mkObject 10%N false) 20%N 99%N).
  - vm_compute. reflexivity.
  - reflexivity.
  - vm_compute. reflexivity.
  - lia.
  - vm_compute. eauto.
Defined.

(** ** Reading from a packet *)

Section PacketReads.
Context `{Constants}.
Import Packet.

Lemma byte_val_of_Z (z : Z) : byte_val (byte_of_Z z) = z mod 256.
Proof.
  unfold byte_val, byte_of_Z.
  assert (Hr : 0 <= z mod 256 < 256) by (apply Z.mod_pos_bound; lia).
  destruct (Byte.of_N (Z.to_N (z mod 256))) as [b|] eqn:Hb.
  - apply Byte.to_of_N in Hb. rewrite Hb. apply Z2N.id. lia.
  - apply Byte.of_N_None_iff in Hb. lia.
Qed.

Lemma le16_u16le (v : Z) : 0 <= v < 2 ^ 16 -> le16 (byte_of_Z v) (byte_of_Z (v / 256)) = v.
Proof.
  intros Hv. unfold le16. rewrite !byte_val_of_Z.
  rewrite (Z.mod_small (v / 256)) by (split; [apply Z.div_pos; lia | apply Z.div_lt_upper_bound; lia]).
  pose proof (Z.div_mod v 256). lia.
Qed.

Lemma be32_u32be (v : Z) :
  0 <= v < 2 ^ 32 ->
  be32 (byte_of_Z (v / 16777216)) (byte_of_Z (v / 65536)) (byte_of_Z (v / 256)) (byte_of_Z v)
  = v.
Proof.
  intros Hv. unfold be32. rewrite !byte_val_of_Z.
  rewrite (Z.mod_small (v / 16777216))
    by (split; [apply Z.div_pos; lia | apply Z.div_lt_upper_bound; lia]).
  pose proof (Z.div_mod v 256 ltac:(lia)) as H0.
  pose proof (Z.div_mod (v / 256) 256 ltac:(lia)) as H1.
  pose proof (Z.div_mod (v / 65536) 256 ltac:(lia)) as H2.
  replace (v / 256 / 256) with (v / 65536) in H1 by (rewrite Z.div_div by lia; reflexivity).
  replace (v / 65536 / 256) with (v / 16777216) in H2 by (rewrite Z.div_div by lia; reflexivity).
  lia.
Qed.

(** The byte at the cursor and the ones after it, for a packet whose
    storage is [pre ++ bs ++ post] and whose cursor stands after [pre]. *)
Lemma byte_at_app (pre bs post : bytes) (pos size i : Z) (b : byte) :
  pos = Z.of_nat (length pre) -> 0 <= i -> bs !! Z.to_nat i = Some b ->
  byte_at (mkPacket pos size (pre ++ bs ++ post)) (pos + i) = b.
Proof.
  intros -> Hi Hb. unfold byte_at. simpl.
  replace (Z.to_nat (Z.of_nat (length pre) + i)) with (length pre + Z.to_nat i)%nat by lia.
  rewrite lookup_app_r by lia.
  replace (length pre + Z.to_nat i - length pre)%nat with (Z.to_nat i) by lia.
  rewrite lookup_app_l by (eapply lookup_lt_Some; eauto).
  rewrite Hb. reflexivity.
Qed.

Lemma byte_at_app_0 (pre bs post : bytes) (pos size : Z) (b : byte) :
  pos = Z.of_nat (length pre) -> bs !! 0%nat = Some b ->
  byte_at (mkPacket pos size (pre ++ bs ++ post)) pos = b.
Proof.
  intros Hpos Hb.
  pose proof (byte_at_app pre bs post pos size 0 b Hpos ltac:(lia) Hb) as Hx.
  rewrite Z.add_0_r in Hx. exact Hx.
Qed.

Lemma PeekU32Big_at (pre post : bytes) (v pos size : Z) :
  pos = Z.of_nat (length pre) -> 0 <= v < 2 ^ 32 ->
  pos + 4 <= size -> size < 2 ^ 32 ->
  PeekU32Big (mkPacket pos size (pre ++ u32be v ++ post)) = Ok v.
Proof.
  intros Hpos Hv Hfit Hsize. unfold PeekU32Big. simpl mPosition. simpl mSize.
  rewrite wrap32_small by lia.
  destruct (Z.gtb_spec (pos + 4) size); [lia|].
  rewrite (byte_at_app_0 pre (u32be v) post pos size _ Hpos eq_refl).
  rewrite (byte_at_app pre (u32be v) post pos size 1 _ Hpos ltac:(lia) eq_refl).
  rewrite (byte_at_app pre (u32be v) post pos size 2 _ Hpos ltac:(lia) eq_refl).
  rewrite (byte_at_app pre (u32be v) post pos size 3 _ Hpos ltac:(lia) eq_refl).
  rewrite be32_u32be by exact Hv. reflexivity.
Qed.

Lemma ReadU32Big_at (pre post : bytes) (v pos size : Z) :
  pos = Z.of_nat (length pre) -> 0 <= v < 2 ^ 32 ->
  pos + 4 <= size -> size <= MAX_PACKET_SIZE ->
  ReadU32Big (mkPacket pos size (pre ++ u32be v ++ post))
  = Ok (v, mkPacket (pos + 4) size (pre ++ u32be v ++ post)).
Proof.
  intros Hpos Hv Hfit Hsize. pose proof MAX_PACKET_SIZE_range.
  unfold ReadU32Big. rewrite PeekU32Big_at by (try assumption; lia).
  cbn [mbind result_bind]. rewrite Skip_ok by (simpl; lia). reflexivity.
Qed.

Lemma PeekU16Little_at (pre post : bytes) (v pos size : Z) :
  pos = Z.of_nat (length pre) -> 0 <= v < 2 ^ 16 ->
  pos + 2 <= size -> size < 2 ^ 32 ->
  PeekU16Little (mkPacket pos size (pre ++ u16le v ++ post)) = Ok v.
Proof.
  intros Hpos Hv Hfit Hsize. unfold PeekU16Little. simpl mPosition. simpl mSize.
  rewrite wrap32_small by lia.
  destruct (Z.gtb_spec (pos + 2) size); [lia|].
  rewrite (byte_at_app_0 pre (u16le v) post pos size _ Hpos eq_refl).
  rewrite (byte_at_app pre (u16le v) post pos size 1 _ Hpos ltac:(lia) eq_refl).
  rewrite le16_u16le by exact Hv. reflexivity.
Qed.

Lemma ReadU16Little_at (pre post : bytes) (v pos size : Z) :
  pos = Z.of_nat (length pre) -> 0 <= v < 2 ^ 16 ->
  pos + 2 <= size -> size <= MAX_PACKET_SIZE ->
  ReadU16Little (mkPacket pos size (pre ++ u16le v ++ post))
  = Ok (v, mkPacket (pos + 2) size (pre ++ u16le v ++ post)).
Proof.
  intros Hpos Hv Hfit Hsize. pose proof MAX_PACKET_SIZE_range.
  unfold ReadU16Little. rewrite PeekU16Little_at by (try assumption; lia).
  cbn [mbind result_bind]. rewrite Skip_ok by (simpl; lia). reflexivity.
Qed.

Lemma ReadArray_at (pre s post : bytes) (pos size : Z) :
  pos = Z.of_nat (length pre) ->
  pos + Z.of_nat (length s) <= size -> size <= MAX_PACKET_SIZE ->
  ReadArray (Z.of_nat (length s)) (mkPacket pos size (pre ++ s ++ post))
  = Ok (s, mkPacket (pos + Z.of_nat (length s)) size (pre ++ s ++ post)).
Proof.
  intros Hpos Hfit Hsize. pose proof MAX_PACKET_SIZE_range.
  unfold ReadArray. destruct (Z.eqb_spec (Z.of_nat (length s)) 0) as [Hz|Hnz].
  - destruct s; [|simpl in Hz; lia]. simpl. rewrite Z.add_0_r. reflexivity.
  - simpl mPosition. simpl mSize. rewrite wrap32_small by lia.
    destruct (Z.gtb_spec (pos + Z.of_nat (length s)) size); [lia|].
    rewrite Skip_ok by (simpl; lia). cbn [mbind result_bind]. simpl mPosition. simpl mData.
    rewrite Hpos, !Nat2Z.id, drop_app_length, take_app_length. reflexivity.
Qed.

Lemma ReadString32Big_at (pre s post : bytes) (pos size : Z) :
  pos = Z.of_nat (length pre) ->
  pos + 4 + Z.of_nat (length s) <= size -> size <= MAX_PACKET_SIZE ->
  ReadString32Big (mkPacket pos size (pre ++ EncryptedConnection.string32be s ++ post))
  = Ok (s, mkPacket (pos + 4 + Z.of_nat (length s)) size (pre ++ EncryptedConnection.string32be s ++ post)).
Proof.
  intros Hpos Hfit Hsize. pose proof MAX_PACKET_SIZE_range.
  unfold ReadString32Big, EncryptedConnection.string32be.
  rewrite <- (app_assoc (u32be _) s post).
  rewrite ReadU32Big_at by (try assumption; lia).
  cbn [mbind result_bind].
  rewrite (app_assoc pre (u32be _) (s ++ post)).
  rewrite ReadArray_at; [reflexivity | | lia | lia].
  rewrite length_app. simpl. lia.
Qed.

End PacketReads.

(** ** Handshake *)

Section Handshake.
Context `{Constants} `{EncryptedConnection.CryptoOps}.
Import Packet EncryptedConnection.
#[local] Existing Instance M_ret.
#[local] Existing Instance M_bind.

Lemma bind_mret {A B} (a : A) (k : A -> M B) s : (mret a ≫= k) s = k a s.
Proof. reflexivity. Qed.

Lemma bind_get_packet {B} (k : ReadOnlyPacket -> M B) p c :
  (get_packet ≫= k) (p, c) = k p (p, c).
Proof. reflexivity. Qed.

Lemma bind_get_conn {B} (k : Connection -> M B) p c :
  (get_conn ≫= k) (p, c) = k c (p, c).
Proof. reflexivity. Qed.

Lemma bind_on_conn {B} (f : Connection -> Connection) (k : unit -> M B) p c :
  (on_conn f ≫= k) (p, c) = k tt (p, f c).
Proof. reflexivity. Qed.

Lemma bind_with_packet {B} (f : ReadOnlyPacket -> ReadOnlyPacket) (k : unit -> M B) p c :
  (with_packet f ≫= k) (p, c) = k tt (f p, c).
Proof. reflexivity. Qed.

Lemma bind_peek_packet {A B} (f : ReadOnlyPacket -> result A) (k : A -> M B) p c a :
  f p = Ok a -> (peek_packet f ≫= k) (p, c) = k a (p, c).
Proof. intros Hf. unfold mbind, M_bind, peek_packet. simpl. rewrite Hf. reflexivity. Qed.

Lemma bind_on_packet {A B} (f : ReadOnlyPacket -> result (A * ReadOnlyPacket))
    (k : A -> M B) p c a p' :
  f p = Ok (a, p') -> (on_packet f ≫= k) (p, c) = k a (p', c).
Proof. intros Hf. unfold mbind, M_bind, on_packet. simpl. rewrite Hf. reflexivity. Qed.

Lemma bind_lift {A B} (r : result A) (k : A -> M B) s a :
  r = Ok a -> (lift r ≫= k) s = k a s.
Proof. intros ->. reflexivity. Qed.

Lemma bind_assoc {A B C} (m : M A) (f : A -> M B) (g : B -> M C) s :
  ((m ≫= f) ≫= g) s = (m ≫= fun x => f x ≫= g) s.
Proof.
  unfold mbind, M_bind. destruct (m s) as [s' [a|e]]; reflexivity.
Qed.

Lemma ParseServerEncryptionFinish_derive (c : Connection) (clientPublic : bytes) :
  Z.of_nat (length clientPublic) <= DH_KEY_HEX_SIZE ->
  4 + Z.of_nat (length clientPublic) <= MAX_PACKET_SIZE ->
  let sharedData := GenerateDiffieHellmanSharedData (mDiffieHellman c) clientPublic in
  ParseServerEncryptionFinish (of_bytes (string32be clientPublic), c)
  = if BF_NET_KEY_BYTE_SIZE =? Z.of_nat (length sharedData)
    then ConnectionEncrypted
           (mkPacket 0 0 (string32be clientPublic), encrypted_with sharedData c)
    else ((mkPacket 0 0 (string32be clientPublic),
           SocketError "Failed to generate shared data." c), Ok tt).
Proof.
  intros Hlen Hfit. cbv zeta.
  pose proof MAX_PACKET_SIZE_range as Hmax. pose proof DH_KEY_HEX_SIZE_range as Hkey.
  assert (Hsz : Z.of_nat (length (string32be clientPublic)) = 4 + Z.of_nat (length clientPublic)).
  { unfold string32be. rewrite length_app. simpl. lia. }
  assert (Hpeek : PeekU32Big (of_bytes (string32be clientPublic)) = Ok (Z.of_nat (length clientPublic))).
  { unfold of_bytes, string32be. 
    apply (PeekU32Big_at [] clientPublic (Z.of_nat (length clientPublic)) 0); simpl; try lia.
    all: rewrite length_app; simpl; lia. }
  assert (Hread : ReadString32Big (of_bytes (string32be clientPublic))
                  = Ok (clientPublic, mkPacket (4 + Z.of_nat (length clientPublic))
                                              (4 + Z.of_nat (length clientPublic))
                                              (string32be clientPublic))).
  { unfold of_bytes. rewrite Hsz.
    assert (Hr := ReadString32Big_at [] clientPublic [] 0 (4 + Z.of_nat (length clientPublic))).
    simpl in Hr. rewrite app_nil_r in Hr. apply Hr; lia. }
  unfold ParseServerEncryptionFinish.
  rewrite bind_get_packet.
  assert (Hsize : Size (of_bytes (string32be clientPublic)) = 4 + Z.of_nat (length clientPublic)).
  { unfold Size, of_bytes. simpl. exact Hsz. }
  rewrite Hsize.
  destruct (Z.gtb_spec 4 (4 + Z.of_nat (length clientPublic))) as [|_]; [lia|].
  rewrite bind_assoc, (bind_peek_packet _ _ _ _ _ Hpeek), bind_mret.
  destruct (Z.gtb_spec (4 + Z.of_nat (length clientPublic)) (4 + Z.of_nat (length clientPublic)))
    as [|_]; [lia|].
  rewrite (bind_peek_packet _ _ _ _ _ Hpeek).
  destruct (Z.ltb_spec DH_KEY_HEX_SIZE (Z.of_nat (length clientPublic))) as [|_]; [lia|].
  rewrite bind_mret.
  rewrite (bind_on_packet _ _ _ _ _ _ Hread).
  rewrite bind_get_packet.
  unfold Left. simpl mSize. simpl mPosition. rewrite Z.sub_diag.
  change (wrap32 0) with 0. change (true && (0 =? 0)) with true. cbv iota.
  rewrite bind_get_conn.
  destruct (BF_NET_KEY_BYTE_SIZE =? _); cbn [negb]; cbv iota.
  - rewrite !bind_on_conn, bind_with_packet. reflexivity.
  - rewrite bind_with_packet. reflexivity.
Qed.

Lemma length_string32be (s : bytes) :
  Z.of_nat (length (string32be s)) = 4 + Z.of_nat (length s).
Proof. unfold string32be. rewrite length_app. simpl. lia. Qed.

Lemma PeekU32Big_in (data pre post : bytes) (v pos size : Z) :
  data = pre ++ u32be v ++ post ->
  pos = Z.of_nat (length pre) -> 0 <= v < 2 ^ 32 ->
  pos + 4 <= size -> size < 2 ^ 32 ->
  PeekU32Big (mkPacket pos size data) = Ok v.
Proof. intros ->. apply PeekU32Big_at. Qed.

Lemma ReadU32Big_in (data pre post : bytes) (v pos size : Z) :
  data = pre ++ u32be v ++ post ->
  pos = Z.of_nat (length pre) -> 0 <= v < 2 ^ 32 ->
  pos + 4 <= size -> size <= MAX_PACKET_SIZE ->
  ReadU32Big (mkPacket pos size data) = Ok (v, mkPacket (pos + 4) size data).
Proof. intros ->. apply ReadU32Big_at. Qed.

Lemma ReadString32Big_in (data pre s post : bytes) (pos size : Z) :
  data = pre ++ string32be s ++ post ->
  pos = Z.of_nat (length pre) ->
  pos + 4 + Z.of_nat (length s) <= size -> size <= MAX_PACKET_SIZE ->
  ReadString32Big (mkPacket pos size data)
  = Ok (s, mkPacket (pos + 4 + Z.of_nat (length s)) size data).
Proof. intros ->. apply ReadString32Big_at. Qed.

Lemma ParseClientEncryptionStart_derive (c : Connection) (prime serverPublic : bytes) :
  Z.of_nat (length prime) = DH_KEY_HEX_SIZE ->
  Z.of_nat (length serverPublic) = DH_KEY_HEX_SIZE ->
  Z.of_nat (length DH_BASE_STRING) + 2 * DH_KEY_HEX_SIZE + 16 <= MAX_PACKET_SIZE ->
  let generated := GenerateDiffieHellmanPublic (LoadDiffieHellman prime) in
  let sharedData := GenerateDiffieHellmanSharedData generated.1 serverPublic in
  let c1 := set_dh generated.1 (set_status STATUS_WAITING_ENCRYPTION c) in
  ParseClientEncryptionStart (of_bytes (server_parameters prime serverPublic), c)
  = if BF_NET_KEY_BYTE_SIZE =? Z.of_nat (length sharedData)
    then ConnectionEncrypted
           (mkPacket 0 0 (server_parameters prime serverPublic),
            encrypted_with sharedData (SendPacket (string32be generated.2) c1))
    else ((mkPacket 0 0 (server_parameters prime serverPublic),
           SocketError "Failed to generate encryption client public and shared data." c1),
          Ok tt).
Proof.
  intros Hprime Hpublic Hfit. cbv zeta.
  pose proof MAX_PACKET_SIZE_range as Hmax. pose proof DH_KEY_HEX_SIZE_range as Hkey.
  set (base := DH_BASE_STRING) in *.
  set (lb := Z.of_nat (length base)) in *.
  assert (Hlb : 0 <= lb) by (unfold lb; lia).
  set (data := server_parameters prime serverPublic).
  assert (Hdata : data = u32be 0 ++ string32be base ++ string32be prime
                         ++ string32be serverPublic) by reflexivity.
  assert (Hsize : Z.of_nat (length data) = lb + 2 * DH_KEY_HEX_SIZE + 16).
  { rewrite Hdata, !length_app, !Nat2Z.inj_add, !length_string32be. simpl. unfold lb. lia. }
  set (size := lb + 2 * DH_KEY_HEX_SIZE + 16) in *.
  unfold ParseClientEncryptionStart, of_bytes. fold base. fold lb. rewrite Hsize.
  rewrite bind_get_packet. unfold Size. cbn [mSize].
  replace (lb + 2 * DH_KEY_HEX_SIZE + 4 * 4) with size by (unfold size; lia).
  destruct (Z.gtb_spec size size) as [|_]; [lia|].
  (* the reserved zero *)
  rewrite (bind_on_packet _ _ _ _ 0 (mkPacket 4 size data)).
  2:{ apply (ReadU32Big_in data [] (string32be base ++ string32be prime ++ string32be serverPublic) 0 0 size); [exact Hdata | reflexivity | lia | unfold size; lia | unfold size; lia]. }
  change (negb (0 =? 0)) with false. cbv iota. rewrite bind_mret.
  (* the base *)
  rewrite bind_assoc.
  rewrite (bind_peek_packet _ _ _ _ lb).
  2:{ apply (PeekU32Big_in data (u32be 0) (base ++ string32be prime ++ string32be serverPublic));
      [rewrite Hdata; unfold string32be; rewrite <- !app_assoc; reflexivity
      | reflexivity | unfold lb; lia | unfold size; lia | unfold size; lia]. }
  rewrite Z.eqb_refl. cbn [negb]. cbv iota. rewrite bind_mret.
  rewrite (bind_on_packet _ _ _ _ base (mkPacket (4 + 4 + lb) size data)).
  2:{ apply (ReadString32Big_in data (u32be 0) base (string32be prime ++ string32be serverPublic));
      [exact Hdata | reflexivity | fold lb; unfold size; lia | unfold size; lia]. }
  unfold bytes_eqb. rewrite (bool_decide_eq_true_2 (base = base) eq_refl).
  cbn [negb andb]. cbv iota. rewrite bind_mret.
  (* the prime *)
  rewrite bind_assoc.
  rewrite (bind_peek_packet _ _ _ _ DH_KEY_HEX_SIZE).
  2:{ apply (PeekU32Big_in data (u32be 0 ++ string32be base)
               (prime ++ string32be serverPublic));
      [rewrite Hdata, <- Hprime; unfold string32be; rewrite <- !app_assoc; reflexivity
      | rewrite length_app, Nat2Z.inj_add, length_string32be; simpl; fold lb; lia
      | lia | unfold size; lia | unfold size; lia]. }
  rewrite Z.eqb_refl. cbn [negb]. cbv iota. rewrite bind_mret.
  rewrite (bind_on_packet _ _ _ _ prime (mkPacket (4 + 4 + lb + 4 + DH_KEY_HEX_SIZE) size data)).
  2:{ rewrite <- Hprime.
      apply (ReadString32Big_in data (u32be 0 ++ string32be base) prime
               (string32be serverPublic));
      [rewrite Hdata, <- !app_assoc; reflexivity
      | rewrite length_app, Nat2Z.inj_add, length_string32be; simpl; fold lb; lia
      | unfold size; lia | unfold size; lia]. }
  (* the server public *)
  rewrite bind_assoc.
  rewrite (bind_peek_packet _ _ _ _ DH_KEY_HEX_SIZE).
  2:{ apply (PeekU32Big_in data (u32be 0 ++ string32be base ++ string32be prime) serverPublic);
      [rewrite Hdata, <- Hpublic; unfold string32be; rewrite <- !app_assoc; reflexivity
      | rewrite !length_app, !Nat2Z.inj_add, !length_string32be; simpl; fold lb; lia
      | lia | unfold size; lia | unfold size; lia]. }
  rewrite Z.eqb_refl. cbn [negb]. cbv iota. rewrite bind_mret.
  rewrite (bind_on_packet _ _ _ _ serverPublic (mkPacket size size data)).
  2:{ replace size with (4 + 4 + lb + 4 + DH_KEY_HEX_SIZE + 4 + Z.of_nat (length serverPublic)) at 2
        by (unfold size; lia).
      apply (ReadString32Big_in data (u32be 0 ++ string32be base ++ string32be prime)
               serverPublic []);
      [rewrite Hdata, app_nil_r, <- !app_assoc; reflexivity
      | rewrite !length_app, !Nat2Z.inj_add, !length_string32be; simpl; fold lb; lia
      | unfold size; lia | unfold size; lia]. }
  rewrite bind_get_packet.
  unfold Left. cbn [mSize mPosition]. rewrite Z.sub_diag.
  change (wrap32 0) with 0. change (true && (0 =? 0)) with true. cbv iota.
  rewrite bind_on_conn.
  destruct (GenerateDiffieHellmanPublic (LoadDiffieHellman prime)) as [dh clientPublic].
  cbn [fst snd]. rewrite bind_on_conn.
  destruct (BF_NET_KEY_BYTE_SIZE =? _); cbn [negb]; cbv iota.
  - rewrite !bind_on_conn, bind_with_packet. reflexivity.
  - rewrite bind_with_packet. reflexivity.
Qed.

Lemma SocketError_fields (msg : string) (c : Connection) :
  mStatus (SocketError msg c) = STATUS_NOT_CONNECTED /\
  mPacketParser (SocketError msg c) = None /\
  mEncryptionKey (SocketError msg c) = mEncryptionKey c /\
  mErrors (SocketError msg c) = mErrors c ++ [msg].
Proof.
  unfold SocketError, TcpConnection_SocketError, Close, TcpConnection_Close.
  simpl. destruct (_ && _); simpl; repeat split.
Qed.

(** With the message queue alive and the reactor taking requests, the
    callback announces the encryption and leaves the connection as it
    is. *)
Lemma ConnectionEncrypted_alive (p : ReadOnlyPacket) (c : Connection) (q : list Message) :
  mMessageQueue c = Some q -> mRequestOk c = true ->
  let c' := (ConnectionEncrypted (p, c)).1.2 in
  mStatus c' = mStatus c /\ mEncryptionKey c' = mEncryptionKey c /\
  mPacketParser c' = mPacketParser c /\
  mMessageQueue c' = Some (q ++ [MessageEncrypted (mSelf c)]).
Proof.
  intros Hq Hok. unfold ConnectionEncrypted, SendMessage.
  rewrite bind_get_conn, Hq.
  rewrite (bool_decide_eq_false_2 (Some q = None)) by discriminate.
  rewrite bind_mret. cbn [negb when]. rewrite bind_on_conn.
  unfold mbind, M_bind, RequestPacket. cbn [fst snd].
  unfold Enqueue. rewrite Hq. simpl. rewrite Hok. simpl. repeat split.
Qed.

(** C3: the shared secret is derived in two places, by the client from
    the parameters of the server and by the server from the public value of
    the client.  In both, shared data of exactly [BF_NET_KEY_BYTE_SIZE]
    bytes makes the connection set the encryption key, turn to the
    encrypted status and parse with [ParsePacket] from then on, and hand
    over to [ConnectionEncrypted]; shared data of any other length is a
    failure that ends in [SocketError]: the connection is dropped, without
    a key being set. *)
Theorem handshake_key_derivation (c : Connection) (prime serverPublic clientPublic : bytes) :
  Z.of_nat (length prime) = DH_KEY_HEX_SIZE ->
  Z.of_nat (length serverPublic) = DH_KEY_HEX_SIZE ->
  Z.of_nat (length clientPublic) <= DH_KEY_HEX_SIZE ->
  Z.of_nat (length DH_BASE_STRING) + 2 * DH_KEY_HEX_SIZE + 16 <= MAX_PACKET_SIZE ->
  let generated := GenerateDiffieHellmanPublic (LoadDiffieHellman prime) in
  let clientShared := GenerateDiffieHellmanSharedData generated.1 serverPublic in
  let serverShared := GenerateDiffieHellmanSharedData (mDiffieHellman c) clientPublic in
  let clientEnd :=
    ParseClientEncryptionStart (of_bytes (server_parameters prime serverPublic), c) in
  let serverEnd := ParseServerEncryptionFinish (of_bytes (string32be clientPublic), c) in
  (Z.of_nat (length clientShared) = BF_NET_KEY_BYTE_SIZE ->
   exists p c',
     clientEnd = ConnectionEncrypted (p, c') /\
     mEncryptionKey c' = Some clientShared /\ mStatus c' = STATUS_ENCRYPTED /\
     mPacketParser c' = Some ParsePacket_fn /\ mMessageQueue c' = mMessageQueue c /\
     mRequestOk c' = mRequestOk c /\
     (forall q, mMessageQueue c = Some q -> mRequestOk c = true ->
                mEncryptionKey clientEnd.1.2 = Some clientShared /\
                mStatus clientEnd.1.2 = STATUS_ENCRYPTED /\
                mPacketParser clientEnd.1.2 = Some ParsePacket_fn)) /\
  (Z.of_nat (length clientShared) <> BF_NET_KEY_BYTE_SIZE ->
   exists p c',
     clientEnd
     = ((p, SocketError "Failed to generate encryption client public and shared data." c'),
        Ok tt) /\
     mStatus clientEnd.1.2 = STATUS_NOT_CONNECTED /\
     mPacketParser clientEnd.1.2 = None /\
     mEncryptionKey clientEnd.1.2 = mEncryptionKey c) /\
  (Z.of_nat (length serverShared) = BF_NET_KEY_BYTE_SIZE ->
   exists p c',
     serverEnd = ConnectionEncrypted (p, c') /\
     mEncryptionKey c' = Some serverShared /\ mStatus c' = STATUS_ENCRYPTED /\
     mPacketParser c' = Some ParsePacket_fn /\ mMessageQueue c' = mMessageQueue c /\
     mRequestOk c' = mRequestOk c /\
     (forall q, mMessageQueue c = Some q -> mRequestOk c = true ->
                mEncryptionKey serverEnd.1.2 = Some serverShared /\
                mStatus serverEnd.1.2 = STATUS_ENCRYPTED /\
                mPacketParser serverEnd.1.2 = Some ParsePacket_fn)) /\
  (Z.of_nat (length serverShared) <> BF_NET_KEY_BYTE_SIZE ->
   exists p,
     serverEnd = ((p, SocketError "Failed to generate shared data." c), Ok tt) /\
     mStatus serverEnd.1.2 = STATUS_NOT_CONNECTED /\
     mPacketParser serverEnd.1.2 = None /\
     mEncryptionKey serverEnd.1.2 = mEncryptionKey c).
Proof.
  intros Hprime Hpublic Hclient Hfit. cbv zeta.
  pose proof DH_KEY_HEX_SIZE_range as Hkey.
  rewrite (ParseClientEncryptionStart_derive c prime serverPublic Hprime Hpublic Hfit).
  rewrite (ParseServerEncryptionFinish_derive c clientPublic Hclient) by lia.
  repeat split.
  - intros Hlen. rewrite <- Hlen, Z.eqb_refl.
    eexists _, _. split; [reflexivity|].
    do 5 (split; [reflexivity|]).
    intros q Hq Hok.
    match goal with
    | |- context [ConnectionEncrypted (?p, ?c')] =>
      destruct (ConnectionEncrypted_alive p c' q Hq Hok) as (Hs & Hk & Hp & _)
    end.
    cbv zeta in *. rewrite Hs, Hk, Hp. repeat split.
  - intros Hlen.
    destruct (Z.eqb_spec BF_NET_KEY_BYTE_SIZE
                (Z.of_nat (length (GenerateDiffieHellmanSharedData
                   (GenerateDiffieHellmanPublic (LoadDiffieHellman prime)).1 serverPublic))));
      [congruence|].
    eexists _, _. split; [reflexivity|]. cbn [fst snd].
    pose proof (SocketError_fields
                  "Failed to generate encryption client public and shared data."
                  (set_dh (GenerateDiffieHellmanPublic (LoadDiffieHellman prime)).1
                     (set_status STATUS_WAITING_ENCRYPTION c))) as (Hs & Hp & Hk & _).
    split; [exact Hs|]. split; [exact Hp|]. rewrite Hk. reflexivity.
  - intros Hlen. rewrite <- Hlen, Z.eqb_refl.
    eexists _, _. split; [reflexivity|].
    do 5 (split; [reflexivity|]).
    intros q Hq Hok.
    match goal with
    | |- context [ConnectionEncrypted (?p, ?c')] =>
      destruct (ConnectionEncrypted_alive p c' q Hq Hok) as (Hs & Hk & Hp & _)
    end.
    cbv zeta in *. rewrite Hs, Hk, Hp. repeat split.
  - intros Hlen.
    destruct (Z.eqb_spec BF_NET_KEY_BYTE_SIZE
                (Z.of_nat (length (GenerateDiffieHellmanSharedData (mDiffieHellman c)
                                     clientPublic)))); [congruence|].
    eexists. split; [reflexivity|]. cbn [fst snd].
    pose proof (SocketError_fields "Failed to generate shared data." c) as (Hs & Hp & Hk & _).
    split; [exact Hs|]. split; [exact Hp|]. rewrite Hk. reflexivity.
Qed.

End Handshake.

(** The sample handshake, server side: the client's public value arrives,
    the key is its first eight bytes, the connection is encrypted and says
    so on the queue. *)
Example sample_handshake_server :
  let r := EncryptedConnection.PacketReceived (H := libcomp_constants)
             (Packet.of_bytes (EncryptedConnection.string32be (Samples.digits "3")))
             (Samples.connection Samples.crypto (Samples.digits "1")) in
  EncryptedConnection.mStatus r.2 = EncryptedConnection.STATUS_ENCRYPTED /\
  EncryptedConnection.mEncryptionKey r.2 = Some (replicate 8 "3"%byte) /\
  EncryptedConnection.mPacketParser r.2 = Some EncryptedConnection.ParsePacket_fn /\
  EncryptedConnection.mMessageQueue r.2 = Some [EncryptedConnection.MessageEncrypted 7].
Proof. vm_compute. repeat split. Qed.

(** With a derivation that yields nothing the connection is closed. *)
Example sample_handshake_server_fails :
  let r := EncryptedConnection.PacketReceived (H := libcomp_constants)
             (Packet.of_bytes (EncryptedConnection.string32be (Samples.digits "3")))
             (Samples.connection Samples.broken_crypto (Samples.digits "1")) in
  EncryptedConnection.mStatus r.2 = EncryptedConnection.STATUS_NOT_CONNECTED /\
  EncryptedConnection.mEncryptionKey r.2 = None /\
  EncryptedConnection.mPacketParser r.2 = None /\
  EncryptedConnection.mMessageQueue r.2 = Some [EncryptedConnection.MessageConnectionClosed 7] /\
  EncryptedConnection.mErrors r.2 = ["Failed to generate shared data."].
Proof. vm_compute. repeat split. Qed.

Section HandshakeWitness.
Import Packet EncryptedConnection.
#[local] Existing Instance libcomp_constants.
#[local] Existing Instance Samples.crypto.

Lemma handshake_key_derivation_witness :
  let c := Samples.connection Samples.crypto (Samples.digits "1") in
  let prime := Samples.digits "1" in
  let serverPublic := Samples.digits "2" in
  let clientPublic := Samples.digits "3" in
  let generated := GenerateDiffieHellmanPublic (LoadDiffieHellman prime) in
  let clientShared := GenerateDiffieHellmanSharedData generated.1 serverPublic in
  let serverShared := GenerateDiffieHellmanSharedData (mDiffieHellman c) clientPublic in
  let clientEnd :=
    ParseClientEncryptionStart (of_bytes (server_parameters prime serverPublic), c) in
  let serverEnd := ParseServerEncryptionFinish (of_bytes (string32be clientPublic), c) in
  (Z.of_nat (length prime) = DH_KEY_HEX_SIZE /\
   Z.of_nat (length serverPublic) = DH_KEY_HEX_SIZE /\
   Z.of_nat (length clientPublic) <= DH_KEY_HEX_SIZE /\
   Z.of_nat (length DH_BASE_STRING) + 2 * DH_KEY_HEX_SIZE + 16 <= MAX_PACKET_SIZE /\
   Z.of_nat (length clientShared) = BF_NET_KEY_BYTE_SIZE /\
   Z.of_nat (length serverShared) = BF_NET_KEY_BYTE_SIZE) /\
  ((Z.of_nat (length clientShared) = BF_NET_KEY_BYTE_SIZE ->
    exists p c',
      clientEnd = ConnectionEncrypted (p, c') /\
      mEncryptionKey c' = Some clientShared /\ mStatus c' = STATUS_ENCRYPTED /\
      mPacketParser c' = Some ParsePacket_fn /\ mMessageQueue c' = mMessageQueue c /\
      mRequestOk c' = mRequestOk c /\
      (forall q, mMessageQueue c = Some q -> mRequestOk c = true ->
                 mEncryptionKey clientEnd.1.2 = Some clientShared /\
                 mStatus clientEnd.1.2 = STATUS_ENCRYPTED /\
                 mPacketParser clientEnd.1.2 = Some ParsePacket_fn)) /\
   (Z.of_nat (length clientShared) <> BF_NET_KEY_BYTE_SIZE ->
    exists p c',
      clientEnd
      = ((p, SocketError "Failed to generate encryption client public and shared data." c'),
         Ok tt) /\
      mStatus clientEnd.1.2 = STATUS_NOT_CONNECTED /\
      mPacketParser clientEnd.1.2 = None /\
      mEncryptionKey clientEnd.1.2 = mEncryptionKey c) /\
   (Z.of_nat (length serverShared) = BF_NET_KEY_BYTE_SIZE ->
    exists p c',
      serverEnd = ConnectionEncrypted (p, c') /\
      mEncryptionKey c' = Some serverShared /\ mStatus c' = STATUS_ENCRYPTED /\
      mPacketParser c' = Some ParsePacket_fn /\ mMessageQueue c' = mMessageQueue c /\
      mRequestOk c' = mRequestOk c /\
      (forall q, mMessageQueue c = Some q -> mRequestOk c = true ->
                 mEncryptionKey serverEnd.1.2 = Some serverShared /\
                 mStatus serverEnd.1.2 = STATUS_ENCRYPTED /\
                 mPacketParser serverEnd.1.2 = Some ParsePacket_fn)) /\
   (Z.of_nat (length serverShared) <> BF_NET_KEY_BYTE_SIZE ->
    exists p,
      serverEnd = ((p, SocketError "Failed to generate shared data." c), Ok tt) /\
      mStatus serverEnd.1.2 = STATUS_NOT_CONNECTED /\
      mPacketParser serverEnd.1.2 = None /\
      mEncryptionKey serverEnd.1.2 = mEncryptionKey c)).
Proof.
  cbv zeta. split.
  - repeat split; vm_compute; congruence.
  - apply (handshake_key_derivation
             (Samples.connection Samples.crypto (Samples.digits "1"))
             (Samples.digits "1") (Samples.digits "2") (Samples.digits "3")).
    + reflexivity.
    + reflexivity.
    + vm_compute. congruence.
    + vm_compute. congruence.
Defined.

End HandshakeWitness.

(** ** Frames of commands *)

Section FrameParsing.
Context `{Constants} `{EncryptedConnection.CryptoOps}.
Import Packet EncryptedConnection.
#[local] Existing Instance M_ret.
#[local] Existing Instance M_bind.

Lemma length_encode_command (cmd : Command) :
  Z.of_nat (length (encode_command cmd)) = 2 + command_size cmd.
Proof.
  unfold encode_command, command_size. rewrite !length_app. simpl. lia.
Qed.

Lemma ReadU16Little_in (data pre post : bytes) (v pos size : Z) :
  data = pre ++ u16le v ++ post ->
  pos = Z.of_nat (length pre) -> 0 <= v < 2 ^ 16 ->
  pos + 2 <= size -> size <= MAX_PACKET_SIZE ->
  ReadU16Little (mkPacket pos size data) = Ok (v, mkPacket (pos + 2) size data).
Proof. intros ->. apply ReadU16Little_at. Qed.

Lemma parse_commands_step (fuel : nat) (pre post : bytes) (cmd : Command)
    (size padding : Z) (p : ReadOnlyPacket) (c : Connection) (q : list Message) :
  command_ok cmd ->
  0 <= padding ->
  Z.of_nat (length pre) + Z.of_nat (length (encode_command cmd)) + padding <= size ->
  size <= MAX_PACKET_SIZE ->
  mMessageQueue c = Some q ->
  let data := pre ++ encode_command cmd ++ post in
  parse_commands (S fuel) padding (mkPacket (Z.of_nat (length pre)) size data) (p, c)
  = parse_commands fuel padding
      (mkPacket (Z.of_nat (length pre) + Z.of_nat (length (encode_command cmd))) size data)
      (p, Enqueue (command_message (mSelf c) data (length pre + 6) cmd) c).
Proof.
  intros [Hcode Hsize] Hpad Hfit Hmax Hq. cbv zeta.
  pose proof MAX_PACKET_SIZE_range as Hrange.
  pose proof (length_encode_command cmd) as Hlen.
  set (data := pre ++ encode_command cmd ++ post).
  set (pos := Z.of_nat (length pre)) in *.
  assert (Hcs : 4 <= command_size cmd) by (unfold command_size; lia).
  assert (Hpos0 : 0 <= pos) by (unfold pos; lia).
  cbn [parse_commands].
  unfold Left at 1. cbn [mSize mPosition]. rewrite wrap32_small by lia.
  destruct (Z.gtb_spec (size - pos) padding) as [_|]; [|lia]. cbn [negb]. cbv iota.
  unfold Left at 1. cbn [mSize mPosition]. rewrite wrap32_small by lia.
  destruct (Z.ltb_spec (size - pos) (3 * 2)) as [|_]; [lia|].
  rewrite (bind_lift _ _ _ (mkPacket (pos + 2) size data)).
  2:{ rewrite Skip_ok; [reflexivity | lia | simpl; lia | simpl; lia]. }
  rewrite (bind_lift _ _ _ (command_size cmd, mkPacket (pos + 2 + 2) size data)).
  2:{ apply (ReadU16Little_in data (pre ++ u16be (cmd_hint cmd))
               (u16le (cmd_code cmd) ++ cmd_payload cmd ++ post));
      [unfold data, encode_command; rewrite <- !app_assoc; reflexivity
      | rewrite length_app; simpl; lia | lia | lia | lia]. }
  rewrite (bind_lift _ _ _ (cmd_code cmd, mkPacket (pos + 2 + 2 + 2) size data)).
  2:{ apply (ReadU16Little_in data (pre ++ u16be (cmd_hint cmd) ++ u16le (command_size cmd))
               (cmd_payload cmd ++ post));
      [unfold data, encode_command; rewrite <- !app_assoc; reflexivity
      | rewrite !length_app; simpl; lia | exact Hcode | lia | lia]. }
  destruct (Z.ltb_spec (command_size cmd) (2 * 2)) as [|_]; [lia|].
  rewrite bind_mret. cbn [negb andb].
  unfold Left at 1. cbn [mSize mPosition].
  rewrite (wrap32_small (size - (pos + 2 + 2 + 2))) by lia.
  rewrite !(wrap32_small (command_size cmd - 2 * 2)) by lia.
  destruct (Z.ltb_spec (size - (pos + 2 + 2 + 2)) (command_size cmd - 2 * 2)) as [|_]; [lia|].
  rewrite bind_mret, bind_get_conn, Hq.
  rewrite (bool_decide_eq_false_2 (Some q = None)) by discriminate.
  cbn [negb andb]. rewrite bind_mret. cbv iota.
  unfold Tell. cbn [mPosition].
  rewrite (bind_lift _ _ _ (mkPacket 0 (Z.of_nat (length (cmd_payload cmd)))
                                     (drop (length pre + 6) data))).
  2:{ unfold SubPacket. cbn [mSize mData].
      rewrite (wrap32_small (pos + 2 + 2 * 2)) by lia.
      rewrite (wrap32_small (pos + 2 + 2 * 2 + (command_size cmd - 2 * 2))) by lia.
      destruct (Z.gtb_spec (pos + 2 + 2 * 2 + (command_size cmd - 2 * 2)) size); [lia|].
      f_equal. f_equal; [unfold command_size; lia|]. f_equal. unfold pos. lia. }
  rewrite bind_on_conn.
  rewrite (bind_lift _ _ _ (mkPacket (pos + Z.of_nat (length (encode_command cmd))) size data)).
  2:{ rewrite wrap32_small by lia. rewrite Seek_ok by lia. unfold set_position. cbn [mSize mData].
      f_equal. f_equal. lia. }
  reflexivity.
Qed.

Lemma encode_commands_cons (cmd : Command) (rest : list Command) :
  encode_commands (cmd :: rest) = encode_command cmd ++ encode_commands rest.
Proof. reflexivity. Qed.

Lemma length_encode_commands_cons (cmd : Command) (rest : list Command) :
  Z.of_nat (length (encode_commands (cmd :: rest)))
  = Z.of_nat (length (encode_command cmd)) + Z.of_nat (length (encode_commands rest)).
Proof. rewrite encode_commands_cons, length_app. lia. Qed.

(** Every command takes at least six bytes. *)
Lemma length_encode_commands_ge (cmds : list Command) :
  6 * Z.of_nat (length cmds) <= Z.of_nat (length (encode_commands cmds)).
Proof.
  induction cmds as [|cmd rest IH]; [simpl; lia|].
  rewrite length_encode_commands_cons, length_encode_command.
  unfold command_size. cbn [length]. lia.
Qed.

Lemma set_queue_Enqueue (qs : option (list Message)) (m : Message) (c : Connection) :
  set_queue qs (Enqueue m c) = set_queue qs c.
Proof. reflexivity. Qed.

(** The loop on a run of well-formed commands: one message each, in
    order, and on to what follows them. *)
Lemma parse_commands_run (cmds : list Command) :
  forall (fuel : nat) (pre post : bytes) (size padding : Z) (p : ReadOnlyPacket)
         (c : Connection) (q : list Message),
    Forall command_ok cmds ->
    0 <= padding ->
    Z.of_nat (length pre) + Z.of_nat (length (encode_commands cmds)) + padding <= size ->
    size <= MAX_PACKET_SIZE ->
    mMessageQueue c = Some q ->
    let data := pre ++ encode_commands cmds ++ post in
    parse_commands (length cmds + fuel) padding (mkPacket (Z.of_nat (length pre)) size data)
      (p, c)
    = parse_commands fuel padding
        (mkPacket (Z.of_nat (length pre) + Z.of_nat (length (encode_commands cmds))) size data)
        (p, set_queue (Some (q ++ command_messages (mSelf c) data (length pre) cmds)) c).
Proof.
  induction cmds as [|cmd rest IH]; intros fuel pre post size padding p c q Hok Hpad Hfit Hmax Hq;
    cbv zeta.
  - simpl. rewrite Z.add_0_r, app_nil_r.
    replace (set_queue (Some q) c) with c; [reflexivity|].
    destruct c; simpl in *; subst; reflexivity.
  - apply Forall_cons in Hok as [Hcmd Hrest].
    rewrite length_encode_commands_cons in Hfit.
    pose proof (length_encode_commands_ge rest) as Hge.
    assert (Hdata : pre ++ encode_commands (cmd :: rest) ++ post
                    = pre ++ encode_command cmd ++ (encode_commands rest ++ post)).
    { rewrite encode_commands_cons, <- !app_assoc. reflexivity. }
    rewrite Hdata.
    cbn [length Nat.add].
    rewrite (parse_commands_step _ pre (encode_commands rest ++ post) cmd size padding p c q
               Hcmd Hpad ltac:(lia) Hmax Hq).
    set (data := pre ++ encode_command cmd ++ encode_commands rest ++ post).
    set (msg := command_message (mSelf c) data (length pre + 6) cmd).
    assert (Hdata' : data = (pre ++ encode_command cmd) ++ encode_commands rest ++ post).
    { unfold data. rewrite <- !app_assoc. reflexivity. }
    replace (Z.of_nat (length pre) + Z.of_nat (length (encode_command cmd)))
      with (Z.of_nat (length (pre ++ encode_command cmd))) by (rewrite length_app; lia).
    rewrite Hdata'.
    rewrite (IH fuel (pre ++ encode_command cmd) post size padding p (Enqueue msg c)
               (q ++ [msg]) Hrest Hpad);
      [| rewrite length_app; lia | exact Hmax | unfold Enqueue; simpl; rewrite Hq; reflexivity].
    rewrite set_queue_Enqueue. rewrite <- Hdata'.
    rewrite length_encode_commands_cons.
    f_equal.
    + f_equal. rewrite length_app. lia.
    + f_equal. f_equal. f_equal. rewrite <- app_assoc. simpl. f_equal. f_equal.
      rewrite length_app. reflexivity.
Qed.

Lemma command_messages_deliver (self : nat) (cmds : list Command) :
  forall (pre post : bytes),
    Forall2 (delivers self) cmds
            (command_messages self (pre ++ encode_commands cmds ++ post) (length pre) cmds).
Proof.
  induction cmds as [|cmd rest IH]; intros pre post; [constructor|].
  assert (Hdata : pre ++ encode_commands (cmd :: rest) ++ post
                  = (pre ++ encode_command cmd) ++ encode_commands rest ++ post).
  { rewrite encode_commands_cons, <- !app_assoc. reflexivity. }
  cbn [command_messages]. constructor.
  - eexists. split; [reflexivity|]. split; [reflexivity|].
    split; [unfold command_size; simpl; lia|].
    unfold contents. cbn [mSize mData]. rewrite Nat2Z.id.
    assert (Hsplit : pre ++ encode_commands (cmd :: rest) ++ post
                     = (pre ++ u16be (cmd_hint cmd) ++ u16le (command_size cmd)
                            ++ u16le (cmd_code cmd))
                       ++ cmd_payload cmd ++ (encode_commands rest ++ post)).
    { rewrite encode_commands_cons. unfold encode_command.
      rewrite <- !app_assoc. reflexivity. }
    rewrite Hsplit.
    replace (length pre + 6)%nat
      with (length (pre ++ u16be (cmd_hint cmd) ++ u16le (command_size cmd)
                        ++ u16le (cmd_code cmd)))
      by (rewrite !length_app; simpl; lia).
    rewrite drop_app_length, take_app_length. reflexivity.
  - rewrite Hdata.
    replace (length pre + length (encode_command cmd))%nat
      with (length (pre ++ encode_command cmd)) by (rewrite length_app; reflexivity).
    apply IH.
Qed.

(** A header whose size field is below four: the connection is failed and
    the loop left, with nothing enqueued. *)
Lemma parse_commands_short_command (fuel : nat) (pre post : bytes)
    (hint commandSize code size padding : Z) (p : ReadOnlyPacket) (c : Connection) :
  0 <= commandSize < 4 -> is_u16 code -> 0 <= padding ->
  padding < size - Z.of_nat (length pre) -> 6 <= size - Z.of_nat (length pre) ->
  size <= MAX_PACKET_SIZE ->
  let data := pre ++ u16be hint ++ u16le commandSize ++ u16le code ++ post in
  parse_commands (S fuel) padding (mkPacket (Z.of_nat (length pre)) size data) (p, c)
  = ((p, SocketError "Corrupt packet (not enough data for command)." c),
     Ok (Finished true (mkPacket (Z.of_nat (length pre) + 6) size data))).
Proof.
  intros Hsize Hcode Hpad Hleft Hhead Hmax. cbv zeta.
  pose proof MAX_PACKET_SIZE_range as Hrange.
  set (data := pre ++ u16be hint ++ u16le commandSize ++ u16le code ++ post).
  set (pos := Z.of_nat (length pre)) in *.
  assert (Hpos0 : 0 <= pos) by (unfold pos; lia).
  cbn [parse_commands].
  unfold Left at 1. cbn [mSize mPosition]. rewrite wrap32_small by lia.
  destruct (Z.gtb_spec (size - pos) padding) as [_|]; [|lia]. cbn [negb]. cbv iota.
  unfold Left at 1. cbn [mSize mPosition]. rewrite wrap32_small by lia.
  destruct (Z.ltb_spec (size - pos) (3 * 2)) as [|_]; [lia|].
  rewrite (bind_lift _ _ _ (mkPacket (pos + 2) size data)).
  2:{ rewrite Skip_ok; [reflexivity | lia | simpl; lia | simpl; lia]. }
  rewrite (bind_lift _ _ _ (commandSize, mkPacket (pos + 2 + 2) size data)).
  2:{ apply (ReadU16Little_in data (pre ++ u16be hint) (u16le code ++ post));
      [unfold data; rewrite <- !app_assoc; reflexivity
      | rewrite length_app; simpl; lia | lia | lia | lia]. }
  rewrite (bind_lift _ _ _ (code, mkPacket (pos + 2 + 2 + 2) size data)).
  2:{ apply (ReadU16Little_in data (pre ++ u16be hint ++ u16le commandSize) post);
      [unfold data; rewrite <- !app_assoc; reflexivity
      | rewrite !length_app; simpl; lia | exact Hcode | lia | lia]. }
  destruct (Z.ltb_spec commandSize (2 * 2)) as [_|]; [|lia].
  rewrite bind_assoc, bind_on_conn, bind_mret.
  cbn [negb andb]. rewrite bind_mret, bind_get_conn. cbn [negb andb].
  rewrite bind_mret. cbv iota.
  unfold mret, M_ret. do 4 f_equal. lia.
Qed.

Lemma wrap32_nonneg (z : Z) : 0 <= wrap32 z.
Proof. unfold wrap32. apply Z.mod_pos_bound. lia. Qed.

Lemma EnqueueAll_Some (msgs : list Message) :
  forall (c : Connection) (q : list Message),
    mMessageQueue c = Some q -> EnqueueAll msgs c = set_queue (Some (q ++ msgs)) c.
Proof.
  induction msgs as [|m msgs IH]; intros c q Hq.
  - rewrite app_nil_r. destruct c; simpl in *; subst; reflexivity.
  - unfold EnqueueAll. cbn [foldl]. fold (EnqueueAll msgs (Enqueue m c)).
    rewrite (IH (Enqueue m c) (q ++ [m])).
    + rewrite set_queue_Enqueue, <- app_assoc. reflexivity.
    + unfold Enqueue. simpl. rewrite Hq. reflexivity.
Qed.

Lemma EnqueueAll_fields (msgs : list Message) (c : Connection) :
  mSelf (EnqueueAll msgs c) = mSelf c /\
  mStatus (EnqueueAll msgs c) = mStatus c /\
  mMessageQueue (EnqueueAll msgs c) = ((fun q => q ++ msgs) <$> mMessageQueue c).
Proof.
  revert c. induction msgs as [|m msgs IH]; intros c.
  - split; [reflexivity|]. split; [reflexivity|].
    simpl. destruct (mMessageQueue c); simpl; [rewrite app_nil_r|]; reflexivity.
  - unfold EnqueueAll. cbn [foldl]. fold (EnqueueAll msgs (Enqueue m c)).
    destruct (IH (Enqueue m c)) as (-> & -> & ->).
    split; [reflexivity|]. split; [reflexivity|].
    simpl. destruct (mMessageQueue c); simpl; [rewrite <- app_assoc|]; reflexivity.
Qed.

(** The queue after [SocketError]: the closing message, if the connection
    was not closed already. *)
Lemma SocketError_queue (msg : string) (c : Connection) :
  mMessageQueue (SocketError msg c)
  = ((fun q => q ++ closing_messages c) <$> mMessageQueue c).
Proof.
  unfold SocketError, TcpConnection_SocketError, Close, TcpConnection_Close, closing_messages.
  destruct c as [self status role parser key dh [q|] out req ok errs]; simpl;
    destruct (bool_decide _); simpl; rewrite ?app_nil_r; reflexivity.
Qed.

Lemma bind_run {A B} (m : M A) (k : A -> M B) s s' a :
  m s = (s', Ok a) -> (m ≫= k) s = k a s'.
Proof. intros Hm. unfold mbind, M_bind. rewrite Hm. reflexivity. Qed.

(** A decrypted frame made of the eight bytes of sizes, well-formed
    commands and the padding: the receiver puts one message per command on
    the queue, in the order of the frame, each with the connection, the
    command code and a view of the [commandSize - 4] bytes of payload; the
    connection is otherwise as it was and the frame is read to its end. *)
Theorem ParsePacket_enqueues_commands
    (packet : ReadOnlyPacket) (c : Connection) (paddedSize realSize : Z)
    (header pad rest : bytes) (cmds : list Command) (q : list Message) :
  let frame := DecryptPacket (mEncryptionKey c) packet in
  mData frame = header ++ encode_commands cmds ++ pad ++ rest ->
  mSize frame = Z.of_nat (length (header ++ encode_commands cmds ++ pad)) ->
  length header = 8%nat ->
  Z.of_nat (length pad) = wrap32 (paddedSize - realSize) ->
  Forall command_ok cmds ->
  mSize frame <= MAX_PACKET_SIZE ->
  mMessageQueue c = Some q ->
  exists msgs copy,
    ParsePacket3 paddedSize realSize (packet, c)
    = ((mkPacket 0 0 [], set_queue (Some (q ++ msgs)) c), Ok (Finished false copy)) /\
    Forall2 (delivers (mSelf c)) cmds msgs /\
    Left copy = 0.
Proof.
  cbv zeta. intros Hdata Hsz Hhdr Hpadlen Hok Hmax Hq.
  pose proof MAX_PACKET_SIZE_range as Hrange.
  pose proof (length_encode_commands_ge cmds) as Hge.
  set (frame := DecryptPacket (mEncryptionKey c) packet) in *.
  set (padding := wrap32 (paddedSize - realSize)) in *.
  set (size := mSize frame) in *.
  rewrite !length_app, Hhdr in Hsz.
  set (data := header ++ encode_commands cmds ++ pad ++ rest) in *.
  exists (command_messages (mSelf c) data 8 cmds), (mkPacket size size data).
  split; [|split].
  - unfold ParsePacket3.
    rewrite bind_get_conn, bind_with_packet. unfold DecompressPacket.
    rewrite bind_mret, bind_get_packet. cbn [negb]. cbv iota.
    rewrite bind_with_packet.
    fold frame.
    rewrite (bind_lift _ _ _ (mkPacket 8 size data)).
    2:{ rewrite Seek_ok by lia. unfold set_position. rewrite Hdata. reflexivity. }
    unfold Size. cbn [mSize]. fold padding.
    set (c' := set_queue (Some (q ++ command_messages (mSelf c) data 8 cmds)) c).
    set (stop := 8 + Z.of_nat (length (encode_commands cmds))).
    rewrite (bind_run _ _ _ (mkPacket 0 0 [], c') (Finished false (mkPacket stop size data))).
    2:{ replace (S (Z.to_nat size)) with (length cmds + S (Z.to_nat size - length cmds))%nat
          by lia.
        replace 8 with (Z.of_nat (length header)) by lia.
        unfold data.
        rewrite (parse_commands_run cmds _ header (pad ++ rest) size padding _ c q Hok);
          [| lia | lia | exact Hmax | exact Hq].
        fold data. rewrite Hhdr. change (Z.of_nat 8) with 8. fold c'. fold stop.
        cbn [parse_commands]. unfold Left. cbn [mSize mPosition].
        rewrite wrap32_small by (unfold stop; lia).
        destruct (Z.gtb_spec (size - stop) padding) as [|_]; [unfold stop in *; lia|].
        reflexivity. }
    cbn [negb]. cbv iota.
    rewrite (bind_lift _ _ _ (mkPacket size size data)).
    2:{ unfold Skip. destruct (Z.eqb_spec padding 0) as [Hz|Hnz].
        - do 2 f_equal. unfold stop. lia.
        - cbn [mPosition].
          rewrite wrap32_small by (unfold stop; lia).
          destruct (Z.ltb_spec MAX_PACKET_SIZE (stop + padding)); [unfold stop in *; lia|].
          unfold set_position. cbn [mSize mData]. do 2 f_equal. unfold stop. lia. }
    unfold Left. cbn [mSize mPosition]. rewrite Z.sub_diag.
    reflexivity.
  - replace 8%nat with (length header) by exact Hhdr. apply command_messages_deliver.
  - unfold Left. cbn [mSize mPosition]. rewrite Z.sub_diag. reflexivity.
Qed.

Lemma closing_messages_EnqueueAll (msgs : list Message) (c : Connection) :
  closing_messages (EnqueueAll msgs c) = closing_messages c.
Proof.
  unfold closing_messages.
  destruct (EnqueueAll_fields msgs c) as (-> & -> & _). reflexivity.
Qed.

(** A frame in which well-formed commands are followed by a command
    header whose size field is below four: the commands before it are
    delivered, then the connection is failed with the corrupt-packet error
    and parsing stops; the queue receives nothing for that command, only the
    notice that the connection closed. *)
Theorem ParsePacket_short_command_fails
    (packet : ReadOnlyPacket) (c : Connection) (paddedSize realSize : Z)
    (header rest junk : bytes) (cmds : list Command) (hint commandSize code : Z) :
  let frame := DecryptPacket (mEncryptionKey c) packet in
  let bad := u16be hint ++ u16le commandSize ++ u16le code in
  mData frame = header ++ encode_commands cmds ++ bad ++ rest ++ junk ->
  mSize frame = Z.of_nat (length (header ++ encode_commands cmds ++ bad ++ rest)) ->
  length header = 8%nat ->
  Forall command_ok cmds ->
  cmds = [] \/ is_Some (mMessageQueue c) ->
  0 <= commandSize < 4 ->
  is_u16 code ->
  wrap32 (paddedSize - realSize) < 6 + Z.of_nat (length rest) ->
  mSize frame <= MAX_PACKET_SIZE ->
  exists msgs copy,
    let sent := EnqueueAll msgs c in
    let failed := SocketError "Corrupt packet (not enough data for command)." sent in
    ParsePacket3 paddedSize realSize (packet, c)
    = ((mkPacket 0 0 [], failed), Ok (Finished true copy)) /\
    Forall2 (delivers (mSelf c)) cmds msgs /\
    mStatus failed = STATUS_NOT_CONNECTED /\
    mPacketParser failed = None /\
    mMessageQueue failed
    = ((fun q => q ++ msgs ++ closing_messages c) <$> mMessageQueue c).
Proof.
  cbv zeta. intros Hdata Hsz Hhdr Hok Hqueue Hsize Hcode Hpad Hmax.
  pose proof MAX_PACKET_SIZE_range as Hrange.
  pose proof (length_encode_commands_ge cmds) as Hge.
  pose proof (wrap32_nonneg (paddedSize - realSize)) as Hpad0.
  set (frame := DecryptPacket (mEncryptionKey c) packet) in *.
  set (padding := wrap32 (paddedSize - realSize)) in *.
  set (size := mSize frame) in *.
  rewrite !length_app, Hhdr in Hsz.
  change (length (u16be hint)) with 2%nat in Hsz.
  change (length (u16le commandSize)) with 2%nat in Hsz.
  change (length (u16le code)) with 2%nat in Hsz.
  set (data := header ++ encode_commands cmds
                 ++ (u16be hint ++ u16le commandSize ++ u16le code) ++ rest ++ junk) in *.
  set (msgs := command_messages (mSelf c) data 8 cmds).
  set (stop := 8 + Z.of_nat (length (encode_commands cmds))).
  exists msgs, (mkPacket (stop + 6) size data).
  split; [|split; [|split; [|split]]].
  - unfold ParsePacket3.
    rewrite bind_get_conn, bind_with_packet. unfold DecompressPacket.
    rewrite bind_mret, bind_get_packet. cbn [negb]. cbv iota.
    rewrite bind_with_packet.
    fold frame.
    rewrite (bind_lift _ _ _ (mkPacket 8 size data)).
    2:{ rewrite Seek_ok by lia. unfold set_position. rewrite Hdata. reflexivity. }
    unfold Size. cbn [mSize]. fold padding.
    rewrite (bind_run _ _ _
               (mkPacket 0 0 [],
                SocketError "Corrupt packet (not enough data for command)." (EnqueueAll msgs c))
               (Finished true (mkPacket (stop + 6) size data))).
    2:{ replace (S (Z.to_nat size)) with (length cmds + S (Z.to_nat size - length cmds))%nat
          by lia.
        assert (Hrun : parse_commands (length cmds + S (Z.to_nat size - length cmds)) padding
                         (mkPacket 8 size data) (mkPacket 0 0 [], c)
                       = parse_commands (S (Z.to_nat size - length cmds)) padding
                           (mkPacket stop size data) (mkPacket 0 0 [], EnqueueAll msgs c)).
        { destruct Hqueue as [Hnil|[q Hq]].
          - unfold msgs, stop. rewrite Hnil. reflexivity.
          - unfold msgs. rewrite (EnqueueAll_Some _ c q Hq).
            replace 8 with (Z.of_nat (length header)) by lia.
            replace 8%nat with (length header) by lia.
            unfold data.
            rewrite (parse_commands_run cmds _ header
                       ((u16be hint ++ u16le commandSize ++ u16le code) ++ rest ++ junk)
                       size padding _ c q Hok);
              [| lia | lia | exact Hmax | exact Hq].
            unfold stop. rewrite Hhdr. reflexivity. }
        rewrite Hrun.
        assert (Hshape : data = (header ++ encode_commands cmds)
                                ++ u16be hint ++ u16le commandSize ++ u16le code
                                ++ (rest ++ junk)).
        { unfold data. rewrite <- !app_assoc. reflexivity. }
        replace stop with (Z.of_nat (length (header ++ encode_commands cmds)))
          by (unfold stop; rewrite length_app; lia).
        rewrite Hshape.
        apply parse_commands_short_command;
          [exact Hsize | exact Hcode | lia | rewrite length_app; lia
          | rewrite length_app; lia | exact Hmax]. }
    reflexivity.
  - unfold msgs. replace 8%nat with (length header) by exact Hhdr.
    apply command_messages_deliver.
  - apply SocketError_fields.
  - apply SocketError_fields.
  - rewrite SocketError_queue, closing_messages_EnqueueAll.
    destruct (EnqueueAll_fields msgs c) as (_ & _ & ->).
    destruct (mMessageQueue c); simpl; [rewrite <- app_assoc|]; reflexivity.
Qed.

End FrameParsing.

Section FrameWitness.
Import Packet EncryptedConnection.
#[local] Existing Instance libcomp_constants.
#[local] Existing Instance Samples.crypto.

(** The frame of the two commands 0x26 and 0x56: two messages, in that
    order, and the frame read to its end. *)
Example sample_frame_messages :
  let r := ParsePacket3 16 15 (Samples.command_frame, Samples.encrypted_connection) in
  delivered <$> default [] (mMessageQueue r.1.2)
  = [Some (7%nat, 0x26, ["1"%byte; "2"%byte]); Some (7%nat, 0x56, ["3"%byte])] /\
  mStatus r.1.2 = STATUS_ENCRYPTED /\
  mErrors r.1.2 = [] /\
  r.2 = Ok (Finished false (mkPacket 24 24 (mData Samples.command_frame))).
Proof. vm_compute. repeat split. Qed.

(** The frame whose second command announces three bytes: the first
    command is delivered, then the connection is closed. *)
Example sample_short_command :
  let r := ParsePacket3 16 14 (Samples.short_command_frame, Samples.encrypted_connection) in
  default [] (mMessageQueue r.1.2)
  = [MessagePacket 7 0x26 (mkPacket 0 2 (drop 14 (mData Samples.short_command_frame)));
     MessageConnectionClosed 7] /\
  mStatus r.1.2 = STATUS_NOT_CONNECTED /\
  mPacketParser r.1.2 = None /\
  mErrors r.1.2 = ["Corrupt packet (not enough data for command)."] /\
  r.2 = Ok (Finished true (mkPacket 22 24 (mData Samples.short_command_frame))).
Proof. vm_compute. repeat split. Qed.

Lemma ParsePacket_enqueues_commands_witness :
  let c := Samples.encrypted_connection in
  let frame := DecryptPacket (mEncryptionKey c) Samples.command_frame in
  let header := u32be 16 ++ u32be 15 in
  let pad := [Byte.x00] in
  let cmds := Samples.two_commands in
  (mData frame = header ++ encode_commands cmds ++ pad ++ [] /\
   mSize frame = Z.of_nat (length (header ++ encode_commands cmds ++ pad)) /\
   length header = 8%nat /\
   Z.of_nat (length pad) = wrap32 (16 - 15) /\
   Forall command_ok cmds /\
   mSize frame <= MAX_PACKET_SIZE /\
   mMessageQueue c = Some []) /\
  exists msgs copy,
    ParsePacket3 16 15 (Samples.command_frame, c)
    = ((mkPacket 0 0 [], set_queue (Some ([] ++ msgs)) c), Ok (Finished false copy)) /\
    Forall2 (delivers (mSelf c)) cmds msgs /\
    Left copy = 0.
Proof.
  cbv zeta.
  assert (Hok : Forall command_ok Samples.two_commands).
  { repeat constructor; vm_compute; congruence. }
  split.
  - split; [reflexivity|]. split; [reflexivity|]. split; [reflexivity|].
    split; [reflexivity|]. split; [exact Hok|]. split; [vm_compute; congruence|reflexivity].
  - apply (ParsePacket_enqueues_commands Samples.command_frame Samples.encrypted_connection
             16 15 (u32be 16 ++ u32be 15) [Byte.x00] [] Samples.two_commands []).
    + reflexivity.
    + reflexivity.
    + reflexivity.
    + reflexivity.
    + exact Hok.
    + vm_compute. congruence.
    + reflexivity.
Defined.

Lemma ParsePacket_short_command_fails_witness :
  let c := Samples.encrypted_connection in
  let frame := DecryptPacket (mEncryptionKey c) Samples.short_command_frame in
  let header := u32be 16 ++ u32be 14 in
  let cmds := [mkCommand 0 0x26 ["1"%byte; "2"%byte]] in
  let bad := u16be 0 ++ u16le 3 ++ u16le 0x56 in
  let rest := [Byte.x00; Byte.x00] in
  (mData frame = header ++ encode_commands cmds ++ bad ++ rest ++ [] /\
   mSize frame = Z.of_nat (length (header ++ encode_commands cmds ++ bad ++ rest)) /\
   length header = 8%nat /\
   Forall command_ok cmds /\
   (cmds = [] \/ is_Some (mMessageQueue c)) /\
   0 <= 3 < 4 /\
   is_u16 0x56 /\
   wrap32 (16 - 14) < 6 + Z.of_nat (length rest) /\
   mSize frame <= MAX_PACKET_SIZE) /\
  exists msgs copy,
    let sent := EnqueueAll msgs c in
    let failed := SocketError "Corrupt packet (not enough data for command)." sent in
    ParsePacket3 16 14 (Samples.short_command_frame, c)
    = ((mkPacket 0 0 [], failed), Ok (Finished true copy)) /\
    Forall2 (delivers (mSelf c)) cmds msgs /\
    mStatus failed = STATUS_NOT_CONNECTED /\
    mPacketParser failed = None /\
    mMessageQueue failed
    = ((fun q => q ++ msgs ++ closing_messages c) <$> mMessageQueue c).
Proof.
  cbv zeta.
  assert (Hok : Forall command_ok [mkCommand 0 0x26 ["1"%byte; "2"%byte]]).
  { repeat constructor; vm_compute; congruence. }
  assert (Hq : is_Some (mMessageQueue Samples.encrypted_connection)).
  { exists []. reflexivity. }
  assert (Hcode : is_u16 0x56) by (vm_compute; split; congruence).
  split.
  - split; [reflexivity|]. split; [reflexivity|]. split; [reflexivity|].
    split; [exact Hok|]. split; [right; exact Hq|]. split; [lia|].
    split; [exact Hcode|]. split; [reflexivity | vm_compute; congruence].
  - apply (ParsePacket_short_command_fails Samples.short_command_frame
             Samples.encrypted_connection 16 14 (u32be 16 ++ u32be 14)
             [Byte.x00; Byte.x00] [] [mkCommand 0 0x26 ["1"%byte; "2"%byte]] 0 3 0x56).
    + reflexivity.
    + reflexivity.
    + reflexivity.
    + exact Hok.
    + right. exact Hq.
    + lia.
    + exact Hcode.
    + reflexivity.
    + vm_compute. congruence.
Defined.

End FrameWitness.

(** ** The command loop on arbitrary frames *)

Section LoopTotal.
Context `{Constants} `{EncryptedConnection.CryptoOps}.
Import Packet EncryptedConnection.
#[local] Existing Instance M_ret.
#[local] Existing Instance M_bind.








End LoopTotal.

Section LoopTotalWitness.
Import Packet EncryptedConnection.
#[local] Existing Instance libcomp_constants.
#[local] Existing Instance Samples.crypto.


End LoopTotalWitness.

(** ** The handshake on malformed messages *)

Section HandshakeEdges.
Context `{Constants} `{EncryptedConnection.CryptoOps}.
Import Packet EncryptedConnection.
#[local] Existing Instance M_ret.
#[local] Existing Instance M_bind.

(** A 32-bit read inside the view: the four bytes at the cursor, cursor
    moved by four. *)
Lemma ReadU32Big_inside (pos size : Z) (data : bytes) :
  0 <= pos -> pos + 4 <= size -> size <= MAX_PACKET_SIZE ->
  ReadU32Big (mkPacket pos size data)
  = Ok (be32 (byte_at (mkPacket pos size data) pos)
             (byte_at (mkPacket pos size data) (pos + 1))
             (byte_at (mkPacket pos size data) (pos + 2))
             (byte_at (mkPacket pos size data) (pos + 3)),
        mkPacket (pos + 4) size data).
Proof.
  intros Hpos Hfit Hmax. pose proof MAX_PACKET_SIZE_range as Hrange.
  unfold ReadU32Big, PeekU32Big. cbn [mPosition mSize].
  rewrite wrap32_small by lia.
  destruct (Z.gtb_spec (pos + 4) size); [lia|].
  cbn [mbind result_bind].
  rewrite Skip_ok; [reflexivity | lia | simpl; lia | simpl; lia].
Qed.

(** The server takes the first message for the preamble only if it is the
    two words 1 and 8 and nothing more: then it sends its parameters, waits
    for the client's public value and asks for its four size bytes.  Any
    other message of eight bytes or more fails the connection; nothing is
    sent. *)
Theorem ParseServerEncryptionStart_preamble (p : ReadOnlyPacket) (c : Connection) :
  mPosition p = 0 -> 8 <= mSize p <= MAX_PACKET_SIZE ->
  let first := be32 (byte_at p 0) (byte_at p 1) (byte_at p 2) (byte_at p 3) in
  let second := be32 (byte_at p 4) (byte_at p 5) (byte_at p 6) (byte_at p 7) in
  let generated := GenerateDiffieHellmanPublic (mDiffieHellman c) in
  let reply := server_parameters (GetDiffieHellmanPrime (mDiffieHellman c))
                 (RightJustified DH_KEY_HEX_SIZE "0"%byte generated.2) in
  let waiting :=
    mkConnection (mSelf c) STATUS_WAITING_ENCRYPTION (mRole c)
      (Some ParseServerEncryptionFinish_fn) (mEncryptionKey c) generated.1
      (mMessageQueue c) (mOutgoing c ++ [reply]) (mRequested c ++ [4])
      (mRequestOk c) (mErrors c) in
  ParseServerEncryptionStart (p, c)
  = if bool_decide (mSize p = 8 /\ first = 1 /\ second = 8)
    then ((mkPacket 0 0 (mData p),
           if mRequestOk c then waiting
           else SocketError "Failed to request more data." waiting), Ok tt)
    else ((mkPacket 0 0 (mData p), SocketError "Read too much data for packet." c), Ok tt).
Proof.
  intros Hpos Hsize. cbv zeta.
  pose proof MAX_PACKET_SIZE_range as Hrange.
  destruct p as [pos size data]. cbn [mPosition mSize mData] in *. subst pos.
  unfold ParseServerEncryptionStart.
  rewrite bind_get_packet. unfold Size. cbn [mSize].
  destruct (Z.gtb_spec (2 * 4) size) as [|_]; [lia|].
  rewrite (bind_on_packet _ _ _ _ _ _ (ReadU32Big_inside 0 size data ltac:(lia) ltac:(lia) ltac:(lia))).
  rewrite (bind_on_packet _ _ _ _ _ _ (ReadU32Big_inside (0 + 4) size data ltac:(lia) ltac:(lia) ltac:(lia))).
  rewrite bind_get_packet.
  unfold Left. cbn [mSize mPosition]. rewrite wrap32_small by lia.
  unfold byte_at. cbn [mData]. change (0 + 4) with 4. change (0 + 1) with 1.
  change (0 + 2) with 2. change (0 + 3) with 3. change (4 + 1) with 5.
  change (4 + 2) with 6. change (4 + 3) with 7. change (4 + 4) with 8.
  set (first := be32 _ _ _ _). set (second := be32 _ _ _ _).
  destruct (Z.eqb_spec 0 (size - 8)) as [Hleft|Hleft];
    [destruct (Z.eqb_spec 1 first) as [Hfirst|Hfirst];
      [destruct (Z.eqb_spec 8 second) as [Hsecond|Hsecond]|]|];
    cbn [andb]; cbv iota.
  - rewrite (bool_decide_eq_true_2 (size = 8 /\ first = 1 /\ second = 8)) by lia.
    rewrite bind_on_conn, bind_get_conn.
    destruct (GenerateDiffieHellmanPublic _) as [dh serverPublic] eqn:Hgen.
    cbn [set_status mDiffieHellman fst snd].
    rewrite bind_on_conn, bind_on_conn, bind_on_conn, bind_with_packet.
    unfold RequestPacket, mbind, M_bind, when, on_conn, Clear, set_parser, SendPacket,
      set_dh, set_status, server_parameters.
    cbn. destruct (mRequestOk c); reflexivity.
  - rewrite (bool_decide_eq_false_2 (size = 8 /\ first = 1 /\ second = 8)) by lia.
    reflexivity.
  - rewrite (bool_decide_eq_false_2 (size = 8 /\ first = 1 /\ second = 8)) by lia.
    reflexivity.
  - rewrite (bool_decide_eq_false_2 (size = 8 /\ first = 1 /\ second = 8)) by lia.
    reflexivity.
Qed.

(** With fewer than the four size bytes in hand, the parser of the client's
    public value does not ask for more: peeking at the size raises the packet
    exception, and [PacketReceived] closes the connection for it. *)
Theorem ParseServerEncryptionFinish_short (p : ReadOnlyPacket) (c : Connection) :
  mPacketParser c = Some ParseServerEncryptionFinish_fn ->
  0 <= mPosition p <= MAX_PACKET_SIZE -> mSize p < 4 ->
  PacketReceived p c = (p, SocketError "" c) /\
  mStatus (PacketReceived p c).2 = STATUS_NOT_CONNECTED /\
  mPacketParser (PacketReceived p c).2 = None /\
  mRequested (PacketReceived p c).2 = mRequested c.
Proof.
  intros Hparser Hpos Hsize.
  pose proof MAX_PACKET_SIZE_range as Hrange.
  assert (Hrun : PacketReceived p c = (p, SocketError "" c)).
  { unfold PacketReceived. rewrite Hparser. cbn [run_parser].
    unfold ParseServerEncryptionFinish.
    rewrite bind_get_packet. unfold Size.
    destruct (Z.gtb_spec 4 (mSize p)) as [_|]; [|lia].
    rewrite bind_mret.
    unfold mbind at 1, M_bind at 1, peek_packet. cbn [fst snd].
    unfold PeekU32Big. rewrite wrap32_small by lia.
    destruct (Z.gtb_spec (mPosition p + 4) (mSize p)) as [_|]; [|lia].
    reflexivity. }
  rewrite Hrun. cbn [snd].
  split; [reflexivity|].
  destruct (SocketError_fields "" c) as (Hs & Hp & _).
  split; [exact Hs|]. split; [exact Hp|].
  unfold SocketError, TcpConnection_SocketError, Close, TcpConnection_Close.
  simpl. destruct (_ && _); reflexivity.
Qed.

End HandshakeEdges.

Section HandshakeEdgesWitness.
Import Packet EncryptedConnection.
#[local] Existing Instance libcomp_constants.
#[local] Existing Instance Samples.crypto.

Lemma ParseServerEncryptionStart_preamble_witness :
  let p := of_bytes (u32be 1 ++ u32be 8) in
  let c := Samples.connection Samples.crypto (Samples.digits "1") in
  (mPosition p = 0 /\ 8 <= mSize p <= MAX_PACKET_SIZE) /\
  let first := be32 (byte_at p 0) (byte_at p 1) (byte_at p 2) (byte_at p 3) in
  let second := be32 (byte_at p 4) (byte_at p 5) (byte_at p 6) (byte_at p 7) in
  let generated := GenerateDiffieHellmanPublic (mDiffieHellman c) in
  let reply := server_parameters (GetDiffieHellmanPrime (mDiffieHellman c))
                 (RightJustified DH_KEY_HEX_SIZE "0"%byte generated.2) in
  let waiting :=
    mkConnection (mSelf c) STATUS_WAITING_ENCRYPTION (mRole c)
      (Some ParseServerEncryptionFinish_fn) (mEncryptionKey c) generated.1
      (mMessageQueue c) (mOutgoing c ++ [reply]) (mRequested c ++ [4])
      (mRequestOk c) (mErrors c) in
  ParseServerEncryptionStart (p, c)
  = if bool_decide (mSize p = 8 /\ first = 1 /\ second = 8)
    then ((mkPacket 0 0 (mData p),
           if mRequestOk c then waiting
           else SocketError "Failed to request more data." waiting), Ok tt)
    else ((mkPacket 0 0 (mData p), SocketError "Read too much data for packet." c), Ok tt).
Proof.
  cbv zeta.
  assert (Hsize : 8 <= mSize (of_bytes (u32be 1 ++ u32be 8)) <= MAX_PACKET_SIZE).
  { vm_compute. split; congruence. }
  split; [split; [reflexivity | exact Hsize]|].
  exact (ParseServerEncryptionStart_preamble (of_bytes (u32be 1 ++ u32be 8))
           (Samples.connection Samples.crypto (Samples.digits "1")) eq_refl Hsize).
Defined.

Lemma ParseServerEncryptionFinish_short_witness :
  let p := of_bytes [Byte.x00; Byte.x00; Byte.x01] in
  let c := Samples.connection Samples.crypto (Samples.digits "1") in
  (mPacketParser c = Some ParseServerEncryptionFinish_fn /\
   0 <= mPosition p <= MAX_PACKET_SIZE /\ mSize p < 4) /\
  PacketReceived p c = (p, SocketError "" c) /\
  mStatus (PacketReceived p c).2 = STATUS_NOT_CONNECTED /\
  mPacketParser (PacketReceived p c).2 = None /\
  mRequested (PacketReceived p c).2 = mRequested c.
Proof.
  cbv zeta.
  assert (Hpos : 0 <= mPosition (of_bytes [Byte.x00; Byte.x00; Byte.x01]) <= MAX_PACKET_SIZE).
  { vm_compute. split; congruence. }
  assert (Hsize : mSize (of_bytes [Byte.x00; Byte.x00; Byte.x01]) < 4) by reflexivity.
  split; [split; [reflexivity | split; [exact Hpos | exact Hsize]]|].
  exact (ParseServerEncryptionFinish_short (of_bytes [Byte.x00; Byte.x00; Byte.x01])
           (Samples.connection Samples.crypto (Samples.digits "1")) eq_refl Hpos Hsize).
Defined.

End HandshakeEdgesWitness.

(** ** Combining outgoing packets *)

Section Combined.
Context `{Constants}.
Import Packet EncryptedConnection.

Lemma MAX_PACKET_SIZE_le : MAX_PACKET_SIZE <= 2 ^ 31 - 4.
Proof.
  pose proof MAX_PACKET_SIZE_range as Hrange.
  pose proof MAX_PACKET_SIZE_mod4 as Hmod4.
  pose proof (Z.div_mod MAX_PACKET_SIZE 4 ltac:(lia)) as Hdiv.
  rewrite Hmod4 in Hdiv. lia.
Qed.

Lemma combine_packets_spec (queue : list ReadOnlyPacket) :
  forall (totalSize : Z) (packets remaining : list ReadOnlyPacket),
    0 <= totalSize ->
    Forall (fun p => 0 <= Size p <= MAX_PACKET_SIZE) queue ->
    combine_packets totalSize queue = (packets, remaining) ->
    queue = packets ++ remaining /\
    (packets <> [] ->
     totalSize + foldr (fun p n => Size p + 4 + n) 0 packets < MAX_PACKET_SIZE) /\
    match remaining with
    | [] => True
    | nextPacket :: _ =>
      MAX_PACKET_SIZE
      <= totalSize + foldr (fun p n => Size p + 4 + n) 0 packets + Size nextPacket + 4
    end.
Proof.
  pose proof MAX_PACKET_SIZE_range as Hrange.
  pose proof MAX_PACKET_SIZE_le as Hle4.
  induction queue as [|nextPacket rest IH]; intros totalSize packets remaining Htotal Hsizes Hrun.
  - simpl in Hrun. injection Hrun as <- <-. split; [reflexivity|]. split; [congruence|exact I].
  - apply Forall_cons in Hsizes as [Hnext Hrest].
    cbn [combine_packets] in Hrun.
    destruct (Z.ltb_spec totalSize MAX_PACKET_SIZE) as [Hroom|Hfull].
    + rewrite (wrap32_small (Size nextPacket + 2 * 2)) in Hrun by lia.
      rewrite !(wrap32_small (totalSize + (Size nextPacket + 2 * 2))) in Hrun by lia.
      destruct (Z.ltb_spec (totalSize + (Size nextPacket + 2 * 2)) MAX_PACKET_SIZE) as [Hfits|Hnot].
      * destruct (combine_packets _ rest) as [packets' remaining'] eqn:Hrec.
        injection Hrun as <- <-.
        assert (Htotal' : 0 <= totalSize + (Size nextPacket + 2 * 2)) by lia.
        destruct (IH _ _ _ Htotal' Hrest Hrec) as (Hq & Hbound & Hnextleft).
        split; [rewrite Hq; reflexivity|].
        split.
        -- intros _. cbn [foldr].
           destruct packets' as [|p' packets']; [simpl; lia|].
           specialize (Hbound ltac:(discriminate)). lia.
        -- destruct remaining' as [|n' remaining']; [exact I|]. cbn [foldr]. lia.
      * injection Hrun as <- <-. split; [reflexivity|]. split; [congruence|].
        cbn [foldr]. lia.
    + injection Hrun as <- <-. split; [reflexivity|]. split; [congruence|].
      cbn [foldr]. lia.
Qed.

(** A packet of [MAX_PACKET_SIZE - 12] bytes or more at the head of the
    queue is never taken. *)
Lemma GetCombinedPackets_oversized (nextPacket : ReadOnlyPacket)
    (rest : list ReadOnlyPacket) :
  0 <= Size nextPacket ->
  MAX_PACKET_SIZE - 12 <= Size nextPacket <= MAX_PACKET_SIZE ->
  GetCombinedPackets (mkOutbox false (nextPacket :: rest))
  = ([], mkOutbox false (nextPacket :: rest)).
Proof.
  intros Hsize0 Hsize. pose proof MAX_PACKET_SIZE_range as Hrange.
  pose proof MAX_PACKET_SIZE_le as Hle4.
  unfold GetCombinedPackets. cbn [mSendingPacket negb mOutgoingPackets combine_packets].
  unfold GetHeaderSize.
  rewrite (wrap32_small (Size nextPacket + 2 * 2)) by lia.
  rewrite !(wrap32_small (2 * 4 + (Size nextPacket + 2 * 2))) by lia.
  destruct (Z.ltb_spec (2 * 4) MAX_PACKET_SIZE);
    [destruct (Z.ltb_spec (2 * 4 + (Size nextPacket + 2 * 2)) MAX_PACKET_SIZE); [lia|]|];
    reflexivity.
Qed.

(** [GetCombinedPackets] takes packets off the front of the queue, in
    order, and leaves the rest: nothing is lost or reordered.  What it takes
    fits, with the header and the size fields, strictly below
    [MAX_PACKET_SIZE], and it takes as much as fits: the packet remaining at the
    head of the queue would reach the limit.  The connection is marked as
    sending exactly when something was taken; while it is sending, nothing
    is taken.  A packet of [MAX_PACKET_SIZE - 12] bytes or more at the head
    of the queue is never taken: the call returns nothing and leaves the
    queue as it is, whatever follows the packet. *)
Theorem GetCombinedPackets_prefix (o : Outbox) :
  Forall (fun p => 0 <= Size p <= MAX_PACKET_SIZE) (mOutgoingPackets o) ->
  let packets := (GetCombinedPackets o).1 in
  let o' := (GetCombinedPackets o).2 in
  (mSendingPacket o = true -> packets = [] /\ o' = o) /\
  (mSendingPacket o = false ->
   mOutgoingPackets o = packets ++ mOutgoingPackets o' /\
   mSendingPacket o' = negb (bool_decide (packets = [])) /\
   (packets <> [] -> combined_size packets < MAX_PACKET_SIZE) /\
   match mOutgoingPackets o' with
   | [] => True
   | nextPacket :: _ => MAX_PACKET_SIZE <= combined_size packets + Size nextPacket + 4
   end /\
   (forall nextPacket rest,
      mOutgoingPackets o = nextPacket :: rest ->
      MAX_PACKET_SIZE - 12 <= Size nextPacket ->
      packets = [] /\ o' = o)).
Proof.
  intros Hsizes. cbv zeta. unfold GetCombinedPackets.
  destruct (mSendingPacket o) eqn:Hsending; cbn [negb].
  - split; [intros _; split; reflexivity | discriminate].
  - split; [discriminate|]. intros _.
    destruct (combine_packets GetHeaderSize (mOutgoingPackets o)) as [packets remaining] eqn:Hrun.
    cbn [fst snd mOutgoingPackets mSendingPacket].
    assert (Hheader : 0 <= GetHeaderSize) by (unfold GetHeaderSize; lia).
    destruct (combine_packets_spec _ _ _ _ Hheader Hsizes Hrun) as (Hq & Hbound & Hnext).
    split; [exact Hq|]. split; [reflexivity|]. split; [exact Hbound|].
    split; [exact Hnext|].
    intros nextPacket rest Hqueue Hbig.
    rewrite Hqueue in Hsizes. apply Forall_cons in Hsizes as [Hnextsize _].
    pose proof (GetCombinedPackets_oversized nextPacket rest ltac:(lia) ltac:(lia)) as Hover.
    unfold GetCombinedPackets in Hover.
    cbn [mSendingPacket negb mOutgoingPackets] in Hover.
    rewrite <- Hqueue, Hrun in Hover. injection Hover as -> ->.
    split; [reflexivity|]. destruct o; cbn in *; congruence.
Qed.

End Combined.

Section CombinedWitness.
Import Packet EncryptedConnection.
#[local] Existing Instance libcomp_constants.

Lemma GetCombinedPackets_prefix_witness :
  let o := mkOutbox false [Samples.command_frame; Samples.short_command_frame] in
  Forall (fun p => 0 <= Size p <= MAX_PACKET_SIZE) (mOutgoingPackets o) /\
  let packets := (GetCombinedPackets o).1 in
  let o' := (GetCombinedPackets o).2 in
  (mSendingPacket o = true -> packets = [] /\ o' = o) /\
  (mSendingPacket o = false ->
   mOutgoingPackets o = packets ++ mOutgoingPackets o' /\
   mSendingPacket o' = negb (bool_decide (packets = [])) /\
   (packets <> [] -> combined_size packets < MAX_PACKET_SIZE) /\
   match mOutgoingPackets o' with
   | [] => True
   | nextPacket :: _ => MAX_PACKET_SIZE <= combined_size packets + Size nextPacket + 4
   end /\
   (forall nextPacket rest,
      mOutgoingPackets o = nextPacket :: rest ->
      MAX_PACKET_SIZE - 12 <= Size nextPacket ->
      packets = [] /\ o' = o)).
Proof.
  cbv zeta.
  assert (Hsizes : Forall (fun p => 0 <= Size p <= MAX_PACKET_SIZE)
                     [Samples.command_frame; Samples.short_command_frame]).
  { repeat constructor; vm_compute; congruence. }
  split; [exact Hsizes|].
  exact (GetCombinedPackets_prefix
           (mkOutbox false [Samples.command_frame; Samples.short_command_frame]) Hsizes).
Defined.

End CombinedWitness.

(** ** Framing outgoing packets *)

Section Sender.
Context `{Constants} `{EncryptedConnection.CryptoOps}.
Import Packet EncryptedConnection.
Variable EncryptPacket : option bytes -> ReadOnlyPacket -> ReadOnlyPacket.

Lemma byte_of_Z_val (b : byte) (k : Z) : byte_of_Z (byte_val b + 256 * k) = b.
Proof.
  unfold byte_of_Z, byte_val.
  pose proof (Byte.to_N_bounded b) as Hb.
  replace ((Z.of_N (Byte.to_N b) + 256 * k) mod 256) with (Z.of_N (Byte.to_N b)).
  - rewrite N2Z.id, Byte.of_to_N. reflexivity.
  - rewrite (Z.mul_comm 256 k), Z.mod_add by lia. rewrite Z.mod_small by lia. reflexivity.
Qed.

Lemma u16le_le16 (b0 b1 : byte) : u16le (le16 b0 b1) = [b0; b1].
Proof.
  unfold u16le, le16. f_equal; [apply byte_of_Z_val|]. f_equal.
  pose proof (Byte.to_N_bounded b0) as Hb0.
  replace ((byte_val b0 + 256 * byte_val b1) / 256) with (byte_val b1 + 256 * 0).
  - apply byte_of_Z_val.
  - unfold byte_val in *. rewrite (Z.mul_comm 256 (Z.of_N (Byte.to_N b1))), Z.div_add by lia.
    rewrite Z.div_small by lia. lia.
Qed.

(** A packet of at least two bytes, written out as [PreparePackets] does,
    is the encoding of its command. *)
Lemma packet_encoding (packet : ReadOnlyPacket) :
  2 <= Size packet -> Size packet + 2 < 2 ^ 16 ->
  Size packet <= Z.of_nat (length (mData packet)) ->
  u16be (wrap16 (Size packet + 2)) ++ u16le (wrap16 (Size packet + 2))
  ++ take (Z.to_nat (Size packet)) (mData packet)
  = encode_command (command_of packet) /\ command_ok (command_of packet).
Proof.
  intros Hcode Hfit Hdata. unfold Size in *.
  assert (Hlen : length (contents packet) = Z.to_nat (mSize packet)).
  { unfold contents. rewrite length_take. lia. }
  assert (Hsplit : contents packet
                   = [byte_at packet 0; byte_at packet 1] ++ drop 2 (contents packet)).
  { unfold byte_at, contents in *.
    destruct (take (Z.to_nat (mSize packet)) (mData packet)) as [|b0 [|b1 l]] eqn:Htake;
      [simpl in Hlen; lia | simpl in Hlen; lia |].
    assert (Hb0 : mData packet !! 0%nat = Some b0).
    { rewrite <- (lookup_take_lt (mData packet) (Z.to_nat (mSize packet)) 0) by lia.
      rewrite Htake. reflexivity. }
    assert (Hb1 : mData packet !! 1%nat = Some b1).
    { rewrite <- (lookup_take_lt (mData packet) (Z.to_nat (mSize packet)) 1) by lia.
      rewrite Htake. reflexivity. }
    change (Z.to_nat 0) with 0%nat. change (Z.to_nat 1) with 1%nat.
    rewrite Hb0, Hb1. reflexivity. }
  assert (Hsize : command_size (command_of packet) = mSize packet + 2).
  { unfold command_size, command_of. cbn [cmd_payload]. rewrite length_drop, Hlen.
    unfold Size. lia. }
  split.
  - unfold encode_command. rewrite Hsize.
    unfold wrap16. rewrite Z.mod_small by lia.
    unfold command_of at 1 2. cbn [cmd_hint cmd_code cmd_payload]. unfold Size.
    rewrite u16le_le16.
    fold (contents packet). rewrite Hsplit at 1. reflexivity.
  - split; [|rewrite Hsize; lia].
    unfold command_of, is_u16, le16, byte_val. cbn [cmd_code].
    pose proof (Byte.to_N_bounded (byte_at packet 0)).
    pose proof (Byte.to_N_bounded (byte_at packet 1)). lia.
Qed.

Lemma append_bytes_full (bs more : bytes) :
  append_bytes more (mkPacket (Z.of_nat (length bs)) (Z.of_nat (length bs)) bs)
  = if MAX_PACKET_SIZE <? Z.of_nat (length (bs ++ more)) then Throw PacketOverflow
    else Ok (mkPacket (Z.of_nat (length (bs ++ more))) (Z.of_nat (length (bs ++ more)))
                      (bs ++ more)).
Proof.
  unfold append_bytes. cbn [mPosition mSize mData].
  rewrite Nat2Z.id, firstn_all, length_app, Nat2Z.inj_add.
  destruct (MAX_PACKET_SIZE <? _); reflexivity.
Qed.

Lemma write_packets_cons (packet : ReadOnlyPacket) (rest : list ReadOnlyPacket)
    (finalPacket : ReadOnlyPacket) :
  write_packets (packet :: rest) finalPacket
  = ((WriteU16Big (wrap16 (Size packet + 2)) finalPacket
        ≫= WriteU16Little (wrap16 (Size packet + 2)))
       ≫= WriteArray (mData packet) (Size packet))
      ≫= write_packets rest.
Proof.
  cbn [write_packets].
  destruct (WriteU16Big _ finalPacket) as [p1|]; [|reflexivity]. cbn.
  destruct (WriteU16Little _ p1) as [p2|]; [|reflexivity]. cbn.
  destruct (WriteArray _ _ p2) as [p3|]; reflexivity.
Qed.

Lemma length_encode_commands (packets : list ReadOnlyPacket) :
  Forall (fun p => 2 <= Size p /\ Size p + 2 < 2 ^ 16 /\
                   Size p <= Z.of_nat (length (mData p))) packets ->
  Z.of_nat (length (encode_commands (command_of <$> packets)))
  = foldr (fun p n => Size p + 4 + n) 0 packets.
Proof.
  induction 1 as [|packet rest (Hcode & Hfit & Hdata) _ IH]; [reflexivity|].
  destruct (packet_encoding packet Hcode Hfit Hdata) as [Henc _].
  rewrite fmap_cons. unfold encode_commands in *. rewrite fmap_cons. cbn [concat foldr].
  rewrite length_app, Nat2Z.inj_add, IH, <- Henc.
  rewrite !length_app, length_take. unfold u16be, u16le. cbn [length]. lia.
Qed.

(** The loop writes the commands of the packets behind what the packet
    holds, as long as they fit; the first write that would go beyond
    [MAX_PACKET_SIZE] ends it with the exception. *)
Lemma write_packets_spec (packets : list ReadOnlyPacket) :
  forall bs : bytes,
    Forall (fun p => 2 <= Size p /\ Size p + 2 < 2 ^ 16 /\
                     Size p <= Z.of_nat (length (mData p))) packets ->
    Z.of_nat (length bs) <= MAX_PACKET_SIZE ->
    let bs' := bs ++ encode_commands (command_of <$> packets) in
    write_packets packets (mkPacket (Z.of_nat (length bs)) (Z.of_nat (length bs)) bs)
    = if MAX_PACKET_SIZE <? Z.of_nat (length bs') then Throw PacketOverflow
      else Ok (mkPacket (Z.of_nat (length bs')) (Z.of_nat (length bs')) bs').
Proof.
  induction packets as [|packet rest IH]; intros bs Hok Hfits; cbv zeta.
  - cbn. rewrite app_nil_r.
    destruct (Z.ltb_spec MAX_PACKET_SIZE (Z.of_nat (length bs))); [lia | reflexivity].
  - pose proof (length_encode_commands _ Hok) as Htotal.
    apply Forall_cons in Hok as [(Hcode & Hfit & Hdata) Hrest].
    pose proof (length_encode_commands _ Hrest) as Hlater.
    assert (Hpos : 0 <= Z.of_nat (length (encode_commands (command_of <$> rest)))) by lia.
    cbn [foldr] in Htotal. rewrite <- Hlater in Htotal.
    destruct (packet_encoding packet Hcode Hfit Hdata) as [Henc _].
    assert (Hbytes : ((bs ++ u16be (wrap16 (Size packet + 2)))
                      ++ u16le (wrap16 (Size packet + 2)))
                     ++ take (Z.to_nat (Size packet)) (mData packet)
                     = bs ++ encode_command (command_of packet)).
    { rewrite <- !app_assoc, Henc. reflexivity. }
    assert (Hlen : Z.of_nat (length (bs ++ encode_command (command_of packet)))
                   = Z.of_nat (length bs) + Size packet + 4).
    { rewrite <- Hbytes, !length_app, length_take. unfold u16be, u16le. cbn [length]. lia. }
    assert (Hall : Z.of_nat (length (bs ++ encode_commands (command_of <$> packet :: rest)))
                   = Z.of_nat (length bs) + Size packet + 4
                     + Z.of_nat (length (encode_commands (command_of <$> rest)))).
    { rewrite length_app. lia. }
    rewrite write_packets_cons.
    unfold WriteArray, WriteU16Little, WriteU16Big.
    rewrite append_bytes_full.
    destruct (Z.ltb_spec MAX_PACKET_SIZE
                (Z.of_nat (length (bs ++ u16be (wrap16 (Size packet + 2))))))
      as [Hover1|Hfit1].
    { rewrite length_app in Hover1. unfold u16be in Hover1. cbn [length] in Hover1.
      destruct (Z.ltb_spec MAX_PACKET_SIZE
                  (Z.of_nat (length (bs ++ encode_commands (command_of <$> packet :: rest)))));
        [reflexivity | lia]. }
    cbn [mbind result_bind]. rewrite append_bytes_full.
    destruct (Z.ltb_spec MAX_PACKET_SIZE
                (Z.of_nat (length ((bs ++ u16be (wrap16 (Size packet + 2)))
                                   ++ u16le (wrap16 (Size packet + 2))))))
      as [Hover2|Hfit2].
    { rewrite !length_app in Hover2. unfold u16be, u16le in Hover2. cbn [length] in Hover2.
      destruct (Z.ltb_spec MAX_PACKET_SIZE
                  (Z.of_nat (length (bs ++ encode_commands (command_of <$> packet :: rest)))));
        [reflexivity | lia]. }
    cbn [mbind result_bind]. rewrite append_bytes_full, Hbytes.
    destruct (Z.ltb_spec MAX_PACKET_SIZE
                (Z.of_nat (length (bs ++ encode_command (command_of packet)))))
      as [Hover3|Hfit3].
    { destruct (Z.ltb_spec MAX_PACKET_SIZE
                  (Z.of_nat (length (bs ++ encode_commands (command_of <$> packet :: rest)))));
        [reflexivity | lia]. }
    cbn [mbind result_bind].
    rewrite (IH (bs ++ encode_command (command_of packet)) Hrest Hfit3).
    rewrite fmap_cons. unfold encode_commands. rewrite fmap_cons. cbn [concat].
    rewrite <- !app_assoc. reflexivity.
Qed.

(** What [PreparePackets] hands to the encryption on an encrypted
    connection: eight blank bytes for the sizes, then each packet as a
    command whose two size fields hold the packet size plus two, whose code
    is the first two bytes of the packet and whose payload is the rest.  For
    packets of at least two bytes whose size field fits 16 bits this is the
    layout [ParsePacket] reads, every command well-formed.  The frame is
    built when the header and the packets with their size fields take no
    more than [MAX_PACKET_SIZE] bytes, which holds for the packets
    [GetCombinedPackets] takes when it takes any; beyond that a write
    fails and [PreparePackets] ends with its exception.  On a connection
    that is connected but not encrypted the first packet goes out as it
    is; on one that is not connected nothing changes. *)
Theorem PreparePackets_frame (status : ConnectionStatus_t) (key : option bytes)
    (packets : list ReadOnlyPacket) (mOutgoing : ReadOnlyPacket) :
  Forall (fun p => 2 <= Size p /\ Size p + 2 < 2 ^ 16 /\
                   Size p <= Z.of_nat (length (mData p))) packets ->
  let frame := replicate 8 Byte.x00 ++ encode_commands (command_of <$> packets) in
  Z.of_nat (length frame) = combined_size packets /\
  PreparePackets EncryptPacket status key packets mOutgoing
  = (if bool_decide (status = STATUS_ENCRYPTED)
     then if MAX_PACKET_SIZE <? combined_size packets then Throw PacketOverflow
          else Ok (Some (EncryptPacket key (mkPacket (Z.of_nat (length frame))
                                                     (Z.of_nat (length frame)) frame)))
     else if bool_decide (status = STATUS_NOT_CONNECTED) then Ok (Some mOutgoing)
     else Ok (head packets)) /\
  Forall command_ok (command_of <$> packets) /\
  Forall2 (fun p cmd => cmd_code cmd = le16 (byte_at p 0) (byte_at p 1) /\
                        cmd_payload cmd = drop 2 (contents p) /\
                        command_size cmd = Size p + 2)
          packets (command_of <$> packets).
Proof.
  intros Hok. cbv zeta.
  assert (Hframe : Z.of_nat (length (replicate 8 Byte.x00
                                     ++ encode_commands (command_of <$> packets)))
                   = combined_size packets).
  { rewrite length_app, Nat2Z.inj_add, (length_encode_commands _ Hok).
    unfold combined_size, GetHeaderSize. rewrite length_replicate. lia. }
  split; [exact Hframe|]. split; [|split].
  - unfold PreparePackets.
    case_bool_decide as Henc.
    + unfold WriteBlank. change (Z.to_nat (2 * 4)) with 8%nat.
      change (mkPacket 0 0 []) with (mkPacket (Z.of_nat (length (@nil byte)))
                                              (Z.of_nat (length (@nil byte))) []).
      rewrite append_bytes_full. cbn [app].
      destruct (Z.ltb_spec MAX_PACKET_SIZE (Z.of_nat (length (replicate 8 Byte.x00))))
        as [Hover|Hfits].
      * rewrite <- Hframe, length_app.
        destruct (Z.ltb_spec MAX_PACKET_SIZE
                    (Z.of_nat (length (replicate 8 Byte.x00)
                               + length (encode_commands (command_of <$> packets)))));
          [reflexivity | lia].
      * cbn [mbind result_bind].
        rewrite (write_packets_spec packets (replicate 8 Byte.x00) Hok Hfits).
        cbv zeta. rewrite <- Hframe.
        destruct (MAX_PACKET_SIZE <? _); reflexivity.
    + repeat case_bool_decide; try reflexivity; congruence.
  - apply Forall_fmap. eapply Forall_impl; [exact Hok|].
    intros p (Hcode & Hfit & Hdata). apply packet_encoding; assumption.
  - apply Forall2_fmap_r, Forall_Forall2_diag.
    eapply Forall_impl; [exact Hok|].
    intros p (Hcode & Hfit & Hdata). split; [reflexivity|]. split; [reflexivity|].
    unfold command_size, command_of. cbn [cmd_payload]. unfold contents.
    rewrite length_drop, length_take. unfold Size in *. lia.
Qed.

End Sender.

Section SenderWitness.
Import Packet EncryptedConnection.
#[local] Existing Instance libcomp_constants.
#[local] Existing Instance Samples.crypto.

Lemma PreparePackets_frame_witness :
  let packets := [of_bytes (u16le 0x26 ++ ["1"%byte; "2"%byte]); of_bytes (u16le 0x56)] in
  let EncryptPacket := fun (_ : option bytes) (p : ReadOnlyPacket) => p in
  Forall (fun p => 2 <= Size p /\ Size p + 2 < 2 ^ 16 /\
                   Size p <= Z.of_nat (length (mData p))) packets /\
  let frame := replicate 8 Byte.x00 ++ encode_commands (command_of <$> packets) in
  Z.of_nat (length frame) = combined_size packets /\
  PreparePackets EncryptPacket STATUS_ENCRYPTED None packets (mkPacket 0 0 [])
  = (if bool_decide (STATUS_ENCRYPTED = STATUS_ENCRYPTED)
     then if MAX_PACKET_SIZE <? combined_size packets then Throw PacketOverflow
          else Ok (Some (EncryptPacket None (mkPacket (Z.of_nat (length frame))
                                                      (Z.of_nat (length frame)) frame)))
     else if bool_decide (STATUS_ENCRYPTED = STATUS_NOT_CONNECTED)
          then Ok (Some (mkPacket 0 0 []))
          else Ok (head packets)) /\
  Forall command_ok (command_of <$> packets) /\
  Forall2 (fun p cmd => cmd_code cmd = le16 (byte_at p 0) (byte_at p 1) /\
                        cmd_payload cmd = drop 2 (contents p) /\
                        command_size cmd = Size p + 2)
          packets (command_of <$> packets).
Proof.
  cbv zeta.
  assert (Hok : Forall (fun p => 2 <= Size p /\ Size p + 2 < 2 ^ 16 /\
                                 Size p <= Z.of_nat (length (mData p)))
                  [of_bytes (u16le 0x26 ++ ["1"%byte; "2"%byte]); of_bytes (u16le 0x56)]).
  { repeat constructor; vm_compute; congruence. }
  split; [exact Hok|].
  exact (PreparePackets_frame (fun _ p => p) STATUS_ENCRYPTED None
           [of_bytes (u16le 0x26 ++ ["1"%byte; "2"%byte]); of_bytes (u16le 0x56)]
           (mkPacket 0 0 []) Hok).
Defined.

(** Two packets of 9000 bytes do not fit one frame: the write of the
    second one fails. *)
Example PreparePackets_overflow :
  let packet := of_bytes (replicate (Z.to_nat 9000) Byte.x00) in
  combined_size [packet; packet] = 18016 /\
  PreparePackets (fun _ p => p) STATUS_ENCRYPTED None [packet; packet] (mkPacket 0 0 [])
  = Throw PacketOverflow /\
  is_Ok (PreparePackets (fun _ p => p) STATUS_ENCRYPTED None [packet] (mkPacket 0 0 []))
  = true.
Proof. vm_compute. repeat split. Qed.

End SenderWitness.

(** ** Null-terminated strings *)

Section NullTerminated.
Context `{Constants}.
Import Packet.

Lemma byte_val_zero (b : byte) : byte_val b = 0 <-> b = Byte.x00.
Proof.
  unfold byte_val. split.
  - intros Hb. assert (Hn : Byte.to_N b = 0%N) by lia.
    pose proof (Byte.of_to_N b) as Hof. rewrite Hn in Hof. cbn in Hof. congruence.
  - intros ->. reflexivity.
Qed.

Lemma ReadU8_inside (pos size : Z) (data : bytes) (b : byte) :
  0 <= pos -> pos + 1 <= size -> size <= MAX_PACKET_SIZE ->
  data !! Z.to_nat pos = Some b ->
  ReadU8 (mkPacket pos size data) = Ok (byte_val b, mkPacket (pos + 1) size data).
Proof.
  intros Hpos Hfit Hmax Hb. pose proof MAX_PACKET_SIZE_range as Hrange.
  unfold ReadU8, PeekU8, byte_at. cbn [mPosition mSize mData].
  rewrite wrap32_small by lia.
  destruct (Z.gtb_spec (pos + 1) size); [lia|].
  cbn [mbind result_bind]. rewrite Hb. cbn [default].
  rewrite Skip_ok; [reflexivity | lia | simpl; lia | simpl; lia].
Qed.

(** The scan over bytes that are not null. *)
Lemma scan_string_skip (str : bytes) :
  forall (fuel : nat) (pre post : bytes) (size sz : Z),
    Forall (fun b => b <> Byte.x00) str ->
    Z.of_nat (length pre) + Z.of_nat (length str) <= size ->
    size <= MAX_PACKET_SIZE ->
    0 <= sz -> sz + Z.of_nat (length str) < 2 ^ 32 ->
    let data := pre ++ str ++ post in
    scan_string (length str + fuel) sz (mkPacket (Z.of_nat (length pre)) size data)
    = scan_string fuel (sz + Z.of_nat (length str))
        (mkPacket (Z.of_nat (length pre) + Z.of_nat (length str)) size data).
Proof.
  pose proof MAX_PACKET_SIZE_range as Hrange.
  induction str as [|b str IH]; intros fuel pre post size sz Hnz Hfit Hmax Hsz Hsz'; cbv zeta.
  - cbn. rewrite !Z.add_0_r. reflexivity.
  - apply Forall_cons in Hnz as [Hb Hnz].
    cbn [length] in *. cbn [Nat.add scan_string].
    unfold Left. cbn [mSize mPosition]. rewrite wrap32_small by lia.
    destruct (Z.gtb_spec (size - Z.of_nat (length pre)) 0) as [_|]; [|lia].
    rewrite (ReadU8_inside _ _ _ b); [| lia | lia | lia |].
    2:{ rewrite Nat2Z.id, lookup_app_r by lia.
        replace (length pre - length pre)%nat with 0%nat by lia. reflexivity. }
    destruct (Z.eqb_spec (byte_val b) 0) as [Hzero|_];
      [apply byte_val_zero in Hzero; contradiction|].
    cbn [negb]. rewrite wrap32_small by lia.
    assert (Hdata : pre ++ (b :: str) ++ post = (pre ++ [b]) ++ str ++ post).
    { rewrite <- app_assoc. reflexivity. }
    rewrite Hdata.
    replace (Z.of_nat (length pre) + 1) with (Z.of_nat (length (pre ++ [b])))
      by (rewrite length_app; simpl; lia).
    rewrite (IH fuel (pre ++ [b]) post size (sz + 1) Hnz);
      [| rewrite length_app; simpl; lia | lia | lia | lia].
    rewrite length_app. cbn [length]. f_equal; [lia|]. f_equal. lia.
Qed.

(** A string that ends in a null byte inside the packet: [ReadString]
    returns its bytes with the terminator and leaves the cursor behind the
    terminator. *)
Theorem ReadString_terminated (pre str post : bytes) (size : Z) :
  Forall (fun b => b <> Byte.x00) str ->
  Z.of_nat (length pre) + Z.of_nat (length str) + 1 <= size ->
  size <= MAX_PACKET_SIZE ->
  let data := pre ++ str ++ [Byte.x00] ++ post in
  ReadString (mkPacket (Z.of_nat (length pre)) size data)
  = Some (Ok (str ++ [Byte.x00],
              mkPacket (Z.of_nat (length pre) + Z.of_nat (length str) + 1) size data)).
Proof.
  intros Hnz Hfit Hmax. cbv zeta.
  pose proof MAX_PACKET_SIZE_range as Hrange.
  set (data := pre ++ str ++ [Byte.x00] ++ post).
  set (pos := Z.of_nat (length pre)) in *.
  set (n := Z.of_nat (length str)) in *.
  assert (Hpos : 0 <= pos) by (unfold pos; lia).
  assert (Hn : 0 <= n) by (unfold n; lia).
  unfold ReadString. cbn [mSize].
  replace (S (Z.to_nat size)) with (length str + S (Z.to_nat size - length str))%nat by lia.
  unfold data, pos.
  rewrite (scan_string_skip str _ pre ([Byte.x00] ++ post) size 0 Hnz);
    [| lia | lia | lia | lia].
  fold data. fold pos. fold n. rewrite Z.add_0_l.
  cbn [scan_string].
  unfold Left. cbn [mSize mPosition]. rewrite wrap32_small by lia.
  destruct (Z.gtb_spec (size - (pos + n)) 0) as [_|]; [|lia].
  rewrite (ReadU8_inside _ _ _ Byte.x00); [| lia | lia | lia |].
  2:{ unfold data, pos, n. rewrite <- Nat2Z.inj_add, Nat2Z.id.
      rewrite lookup_app_r by lia. rewrite lookup_app_r by lia.
      replace (length pre + length str - length pre - length str)%nat with 0%nat by lia.
      reflexivity. }
  change (byte_val Byte.x00) with 0. cbn [Z.eqb negb].
  cbn [mbind option_bind mret option_ret result_bind].
  rewrite (wrap32_small (n + 1)) by lia.
  unfold Rewind. cbn [mPosition].
  destruct (Z.eqb_spec (n + 1) 0); [lia|].
  destruct (Z.gtb_spec (n + 1) (pos + n + 1)); [lia|].
  unfold set_position. cbn [mSize mData].
  unfold ReadArray. cbn [mPosition mSize mData].
  destruct (Z.eqb_spec (n + 1) 0); [lia|].
  cbn [mbind result_bind mPosition mSize mData].
  rewrite wrap32_small by lia.
  destruct (Z.gtb_spec (pos + n + 1 - (n + 1) + (n + 1)) size); [lia|].
  rewrite Skip_ok; [| lia | simpl; lia | simpl; lia].
  cbn [mbind result_bind]. unfold set_position. cbn [mPosition mSize mData].
  f_equal. f_equal. f_equal.
  - replace (pos + n + 1 - (n + 1)) with pos by lia.
    unfold data, pos, n. rewrite Nat2Z.id, drop_app_length.
    replace (Z.to_nat (Z.of_nat (length str) + 1)) with (length (str ++ [Byte.x00]))
      by (rewrite length_app; simpl; lia).
    rewrite (app_assoc str [Byte.x00] post). apply take_app_length.
  - f_equal. lia.
Qed.

(** A string that runs to the end of the packet without a null byte: the
    scan stops at the end, and [Rewind(++sz)] goes back one byte too far.
    With the cursor at the start of the packet that raises the packet
    exception; anywhere else [ReadString] returns the byte before the string
    followed by the string, and leaves the cursor at the end. *)
Theorem ReadString_unterminated (pre str post : bytes) (b : byte) :
  Forall (fun b => b <> Byte.x00) str ->
  Z.of_nat (length pre) + 1 + Z.of_nat (length str) <= MAX_PACKET_SIZE ->
  ReadString (mkPacket 0 (Z.of_nat (length str)) (str ++ post))
  = Some (Throw "Attempted to rewind bytes in the ReadOnlypacket; however, doing so would rewind past the beginning of the ReadOnlypacket") /\
  (let size := Z.of_nat (length pre) + 1 + Z.of_nat (length str) in
   let data := (pre ++ [b]) ++ str ++ post in
   ReadString (mkPacket (Z.of_nat (length pre) + 1) size data)
   = Some (Ok (b :: str, mkPacket size size data))).
Proof.
  intros Hnz Hmax. pose proof MAX_PACKET_SIZE_range as Hrange.
  set (n := Z.of_nat (length str)) in *.
  assert (Hn : 0 <= n) by (unfold n; lia).
  split.
  - set (size := n). assert (Hsize : size = n) by reflexivity.
    assert (Hmax' : size <= MAX_PACKET_SIZE) by lia. clearbody size.
    unfold ReadString. cbn [mSize].
    replace (S (Z.to_nat size)) with (length str + 1)%nat by lia.
    pose proof (scan_string_skip str 1 [] post size 0 Hnz) as Hscan.
    cbn [length app] in Hscan. change (Z.of_nat 0) with 0 in Hscan.
    rewrite Hscan by (fold n; lia). fold n. rewrite !Z.add_0_l.
    cbn [scan_string]. unfold Left. cbn [mSize mPosition].
    rewrite wrap32_small by lia.
    destruct (Z.gtb_spec (size - n) 0); [lia|].
    cbn [mbind option_bind mret option_ret result_bind].
    rewrite (wrap32_small (n + 1)) by lia.
    unfold Rewind. cbn [mPosition].
    destruct (Z.eqb_spec (n + 1) 0); [lia|].
    destruct (Z.gtb_spec (n + 1) n); [|lia].
    reflexivity.
  - cbv zeta. set (size := Z.of_nat (length pre) + 1 + n).
    assert (Hsize : size = Z.of_nat (length pre) + 1 + n) by reflexivity.
    assert (Hmax' : size <= MAX_PACKET_SIZE) by lia. clearbody size.
    set (data := (pre ++ [b]) ++ str ++ post).
    assert (Hpos : Z.of_nat (length (pre ++ [b])) = Z.of_nat (length pre) + 1)
      by (rewrite length_app; simpl; lia).
    unfold ReadString. cbn [mSize].
    replace (S (Z.to_nat size)) with (length str + S (Z.to_nat size - length str))%nat by lia.
    rewrite <- Hpos. unfold data.
    rewrite (scan_string_skip str _ (pre ++ [b]) post size 0 Hnz);
      [| fold n; lia | lia | lia | fold n; lia].
    fold data. fold n. rewrite Hpos, Z.add_0_l.
    cbn [scan_string]. unfold Left. cbn [mSize mPosition].
    rewrite wrap32_small by lia.
    destruct (Z.gtb_spec (size - (Z.of_nat (length pre) + 1 + n)) 0); [lia|].
    cbn [mbind option_bind mret option_ret result_bind].
    rewrite (wrap32_small (n + 1)) by lia.
    unfold Rewind. cbn [mPosition].
    destruct (Z.eqb_spec (n + 1) 0); [lia|].
    destruct (Z.gtb_spec (n + 1) (Z.of_nat (length pre) + 1 + n)); [lia|].
    unfold set_position. cbn [mSize mData].
    unfold ReadArray. cbn [mPosition mSize mData].
    destruct (Z.eqb_spec (n + 1) 0); [lia|].
    cbn [mbind result_bind mPosition mSize mData].
    rewrite wrap32_small by lia.
    destruct (Z.gtb_spec (Z.of_nat (length pre) + 1 + n - (n + 1) + (n + 1)) size); [lia|].
    rewrite Skip_ok; [| lia | simpl; lia | simpl; lia].
    cbn [mbind result_bind]. unfold set_position. cbn [mPosition mSize mData].
    f_equal. f_equal. f_equal.
    + replace (Z.of_nat (length pre) + 1 + n - (n + 1)) with (Z.of_nat (length pre)) by lia.
      unfold data, n. rewrite Nat2Z.id.
      rewrite <- !app_assoc. rewrite drop_app_length.
      replace (Z.to_nat (Z.of_nat (length str) + 1)) with (length ([b] ++ str))
        by (simpl; lia).
      rewrite (app_assoc [b] str post). apply take_app_length.
    + f_equal. lia.
Qed.

End NullTerminated.

Section NullTerminatedWitness.
Import Packet.
#[local] Existing Instance libcomp_constants.

(** ["ab\0"] read from the start, and ["ab"] without terminator read from
    offset one of ["xab"]. *)
Lemma ReadString_terminated_witness :
  let pre : bytes := [] in
  let str := ["a"%byte; "b"%byte] in
  let post : bytes := ["c"%byte] in
  (Forall (fun b => b <> Byte.x00) str /\
   Z.of_nat (length pre) + Z.of_nat (length str) + 1 <= 3 /\ 3 <= MAX_PACKET_SIZE) /\
  let data := pre ++ str ++ [Byte.x00] ++ post in
  ReadString (mkPacket (Z.of_nat (length pre)) 3 data)
  = Some (Ok (str ++ [Byte.x00],
              mkPacket (Z.of_nat (length pre) + Z.of_nat (length str) + 1) 3 data)).
Proof.
  cbv zeta.
  assert (Hnz : Forall (fun b => b <> Byte.x00) ["a"%byte; "b"%byte]).
  { repeat constructor; discriminate. }
  assert (Hfit : Z.of_nat (length (@nil byte)) + Z.of_nat (length ["a"%byte; "b"%byte]) + 1 <= 3).
  { vm_compute. congruence. }
  assert (Hmax : 3 <= MAX_PACKET_SIZE) by (vm_compute; congruence).
  split; [split; [exact Hnz | split; [exact Hfit | exact Hmax]]|].
  exact (ReadString_terminated [] ["a"%byte; "b"%byte] ["c"%byte] 3 Hnz Hfit Hmax).
Defined.

Lemma ReadString_unterminated_witness :
  let pre : bytes := [] in
  let str := ["a"%byte; "b"%byte] in
  let post : bytes := [] in
  let b := "x"%byte in
  (Forall (fun b => b <> Byte.x00) str /\
   Z.of_nat (length pre) + 1 + Z.of_nat (length str) <= MAX_PACKET_SIZE) /\
  ReadString (mkPacket 0 (Z.of_nat (length str)) (str ++ post))
  = Some (Throw "Attempted to rewind bytes in the ReadOnlypacket; however, doing so would rewind past the beginning of the ReadOnlypacket") /\
  (let size := Z.of_nat (length pre) + 1 + Z.of_nat (length str) in
   let data := (pre ++ [b]) ++ str ++ post in
   ReadString (mkPacket (Z.of_nat (length pre) + 1) size data)
   = Some (Ok (b :: str, mkPacket size size data))).
Proof.
  cbv zeta.
  assert (Hnz : Forall (fun b => b <> Byte.x00) ["a"%byte; "b"%byte]).
  { repeat constructor; discriminate. }
  assert (Hmax : Z.of_nat (length (@nil byte)) + 1 + Z.of_nat (length ["a"%byte; "b"%byte])
                 <= MAX_PACKET_SIZE).
  { vm_compute. congruence. }
  split; [split; [exact Hnz | exact Hmax]|].
  exact (ReadString_unterminated [] ["a"%byte; "b"%byte] [] "x"%byte Hnz Hmax).
Defined.

End NullTerminatedWitness.

(** ** The life of a cache entry *)

Section CacheLife.
Import PersistentObject.

(** What a successful [Register] does: the object carries the UUID passed
    in, or keeps its own, or takes the random one when it has none; it is
    then the instance [GetObjectByUUID] returns for that UUID; entries under
    other UUIDs, the object's old one apart, are as before. *)
Lemma Register_success (self : nat) (pUuid random : UUID) (st st' : State) :
  Register self pUuid random st = (true, st') ->
  exists o,
    objects st !! self = Some o /\ mDeleted o = false /\
    let uuid := if negb (IsNull pUuid) then pUuid
                else if IsNull (mUUID o) then random else mUUID o in
    objects st' = <[self := mkObject uuid false]> (objects st) /\
    sCached st' !! uuid = Some self /\
    (forall u, u <> uuid -> u <> mUUID o -> sCached st' !! u = sCached st !! u).
Proof.
  unfold Register. destruct (objects st !! self) as [o|] eqn:Hself; [|discriminate].
  destruct (mDeleted o) eqn:Hdel; [discriminate|].
  intros Hreg. exists o. split; [reflexivity|]. split; [exact Hdel|]. cbv zeta.
  set (cache1 := if negb (IsNull pUuid) && negb (IsNull (mUUID o))
                 then match sCached st !! mUUID o with
                      | Some a => if bool_decide (lock st a = Some self)
                                  then delete (mUUID o) (sCached st) else sCached st
                      | None => sCached st
                      end
                 else sCached st) in Hreg.
  assert (Hcache1 : forall u, u <> mUUID o -> cache1 !! u = sCached st !! u).
  { intros u Hu. unfold cache1. destruct (_ && _); [|reflexivity].
    destruct (sCached st !! mUUID o); [|reflexivity].
    case_bool_decide; [|reflexivity]. rewrite lookup_delete_ne by congruence. reflexivity. }
  destruct (negb (IsNull pUuid)) eqn:Hp.
  - cbn [negb andb] in Hreg.
    case_bool_decide as Hfree; [|discriminate].
    injection Hreg as <-. cbn [objects sCached].
    split; [reflexivity|]. split; [apply lookup_insert_eq|].
    intros u Hu Hold. rewrite lookup_insert_ne by congruence. apply Hcache1, Hold.
  - destruct (IsNull (mUUID o)) eqn:Hown.
    + cbn [negb andb] in Hreg. injection Hreg as <-. cbn [objects sCached].
      split; [reflexivity|]. split; [apply lookup_insert_eq|].
      intros u Hu Hold. rewrite lookup_insert_ne by congruence. apply Hcache1, Hold.
    + cbn [negb andb] in Hreg.
      case_bool_decide as Hfree; [|discriminate].
      injection Hreg as <-. cbn [objects sCached].
      split; [reflexivity|]. split; [apply lookup_insert_eq|].
      intros u Hu Hold. rewrite lookup_insert_ne by congruence. apply Hcache1, Hold.
Qed.

(** From registration to removal: after a successful [Register] the
    object is what [GetObjectByUUID] returns for its UUID; after
    [Unregister] the UUID yields nothing, and the object, now marked
    deleted, is refused by every later [Register], which changes nothing. *)
Theorem Register_lookup_Unregister (self : nat) (pUuid random : UUID) (st st' : State) :
  Register self pUuid random st = (true, st') ->
  exists o',
    objects st' !! self = Some o' /\
    GetObjectByUUID (mUUID o') st' = Some self /\
    GetObjectByUUID (mUUID o') (Unregister self st') = None /\
    forall pUuid' random',
      Register self pUuid' random' (Unregister self st') = (false, Unregister self st').
Proof.
  intros Hreg.
  destruct (Register_success self pUuid random st st' Hreg)
    as (o & Hself & Hdel & Hobjs & Hcached & _).
  cbv zeta in Hobjs, Hcached.
  set (uuid := if negb (IsNull pUuid) then pUuid
               else if IsNull (mUUID o) then random else mUUID o) in *.
  assert (Hself' : objects st' !! self = Some (mkObject uuid false)).
  { rewrite Hobjs. apply lookup_insert_eq. }
  exists (mkObject uuid false). cbn [mUUID].
  split; [exact Hself'|].
  split; [apply GetObjectByUUID_cached; split; [exact Hcached | rewrite Hself'; eauto]|].
  split.
  - unfold GetObjectByUUID, Unregister. rewrite Hself'. cbn [sCached mUUID].
    rewrite lookup_delete_eq. reflexivity.
  - intros pUuid' random'. unfold Register at 1, Unregister at 1.
    rewrite Hself'. cbn [objects mUUID]. rewrite lookup_insert_eq. reflexivity.
Qed.

(** A [Register] that is refused as a duplicate has already given the
    object the UUID, and neither [Unregister] nor the destructor look at
    whom the cache entry belongs to.  So when [b] is refused under the UUID
    of the cached instance [a], unregistering or destroying [b] removes the
    entry of [a]: [a] is alive and no longer found. *)
Theorem duplicate_evicts_owner (a b : nat) (oa ob : Object) (U random : UUID) (st : State) :
  a <> b ->
  objects st !! a = Some oa -> objects st !! b = Some ob ->
  mDeleted ob = false -> IsNull U = false ->
  sCached st !! U = Some a ->
  let st1 := (Register b U random st).2 in
  (Register b U random st).1 = false /\
  GetObjectByUUID U st1 = Some a /\
  GetObjectByUUID U (Destroy b st1) = None /\
  GetObjectByUUID U (Unregister b st1) = None /\
  objects (Destroy b st1) !! a = Some oa /\
  objects (Unregister b st1) !! a = Some oa.
Proof.
  intros Hab Ha Hb Hdel HU Hcached. cbv zeta.
  assert (Hreg : Register b U random st
                 = (false, mkState (<[b := mkObject U false]> (objects st))
                                   (if negb (IsNull (mUUID ob))
                                       && bool_decide (sCached st !! mUUID ob = Some b)
                                    then delete (mUUID ob) (sCached st) else sCached st))).
  { unfold Register. rewrite Hb, Hdel, HU. cbn [negb andb].
    assert (HneU : sCached st !! mUUID ob = Some b -> mUUID ob <> U) by congruence.
    destruct (IsNull (mUUID ob)) eqn:Hown; cbn [negb andb].
    - rewrite bool_decide_eq_false_2 by congruence. reflexivity.
    - destruct (sCached st !! mUUID ob) as [x|] eqn:Hx.
      + rewrite (lock_self st x b) by (rewrite Hb; eauto).
        destruct (decide (x = b)) as [->|Hxb].
        * rewrite (bool_decide_eq_true_2 (b = b)) by reflexivity.
          rewrite (bool_decide_eq_true_2 (Some b = Some b)) by reflexivity.
          rewrite bool_decide_eq_false_2; [reflexivity|].
          rewrite lookup_delete_ne by (apply HneU; reflexivity). congruence.
        * rewrite (bool_decide_eq_false_2 (x = b)) by exact Hxb.
          rewrite (bool_decide_eq_false_2 (Some x = Some b)) by congruence.
          rewrite bool_decide_eq_false_2 by congruence. reflexivity.
      + rewrite (bool_decide_eq_false_2 (None = Some b)) by discriminate.
        rewrite bool_decide_eq_false_2 by congruence. reflexivity. }
  rewrite Hreg. cbn [fst snd].
  set (cache1 := if _ && _ then _ else _).
  assert (Hc1 : cache1 !! U = Some a).
  { unfold cache1. destruct (negb _ && _) eqn:Hcond; [|exact Hcached].
    apply andb_true_iff in Hcond as [_ Hcond]. apply bool_decide_eq_true_1 in Hcond.
    rewrite lookup_delete_ne by congruence. exact Hcached. }
  split; [reflexivity|].
  split.
  { apply GetObjectByUUID_cached. cbn [sCached objects]. split; [exact Hc1|].
    rewrite lookup_insert_ne by congruence. rewrite Ha. eauto. }
  split.
  { unfold GetObjectByUUID, Destroy. cbn [objects sCached].
    rewrite lookup_insert_eq. cbn [mUUID mDeleted objects sCached]. rewrite HU.
    cbn [negb andb sCached]. rewrite lookup_delete_eq. reflexivity. }
  split.
  { unfold GetObjectByUUID, Unregister. cbn [objects sCached].
    rewrite lookup_insert_eq. cbn [mUUID sCached]. rewrite lookup_delete_eq. reflexivity. }
  split.
  { unfold Destroy. cbn [objects sCached]. rewrite lookup_insert_eq. cbn [objects].
    rewrite lookup_delete_ne by congruence. rewrite lookup_insert_ne by congruence.
    exact Ha. }
  { unfold Unregister. cbn [objects sCached]. rewrite lookup_insert_eq. cbn [objects].
    rewrite lookup_insert_ne by congruence. rewrite lookup_insert_ne by congruence.
    exact Ha. }
Qed.

End CacheLife.

(** Object 3, not yet registered, beside the two registered objects; and
    object 1 asking for the UUID of object 2. *)
Lemma Register_lookup_Unregister_witness :
  let st := PersistentObject.mkState
              (<[3%nat := PersistentObject.mkObject 0%N false]>
                 (PersistentObject.objects Samples.two_objects))
              (PersistentObject.sCached Samples.two_objects) in
  let st' := (PersistentObject.Register 3%nat 0%N 99%N st).2 in
  PersistentObject.Register 3%nat 0%N 99%N st = (true, st') /\
  exists o',
    PersistentObject.objects st' !! 3%nat = Some o' /\
    PersistentObject.GetObjectByUUID (PersistentObject.mUUID o') st' = Some 3%nat /\
    PersistentObject.GetObjectByUUID (PersistentObject.mUUID o')
      (PersistentObject.Unregister 3%nat st') = None /\
    forall pUuid' random',
      PersistentObject.Register 3%nat pUuid' random' (PersistentObject.Unregister 3%nat st')
      = (false, PersistentObject.Unregister 3%nat st').
Proof.
  cbv zeta.
  assert (Hreg : PersistentObject.Register 3%nat 0%N 99%N
                   (PersistentObject.mkState
                      (<[3%nat := PersistentObject.mkObject 0%N false]>
                         (PersistentObject.objects Samples.two_objects))
                      (PersistentObject.sCached Samples.two_objects))
                 = (true,
                    (PersistentObject.Register 3%nat 0%N 99%N
                       (PersistentObject.mkState
                          (<[3%nat := PersistentObject.mkObject 0%N false]>
                             (PersistentObject.objects Samples.two_objects))
                          (PersistentObject.sCached Samples.two_objects))).2)).
  { vm_compute. reflexivity. }
  split; [exact Hreg|].
  exact (Register_lookup_Unregister 3%nat 0%N 99%N _ _ Hreg).
Defined.

Lemma duplicate_evicts_owner_witness :
  let st := Samples.two_objects in
  let oa := PersistentObject.mkObject 20%N false in
  let st1 := (PersistentObject.Register 1%nat 20%N 99%N st).2 in
  (PersistentObject.Register 1%nat 20%N 99%N st).1 = false /\
  PersistentObject.GetObjectByUUID 20%N st1 = Some 2%nat /\
  PersistentObject.GetObjectByUUID 20%N (PersistentObject.Destroy 1%nat st1) = None /\
  PersistentObject.GetObjectByUUID 20%N (PersistentObject.Unregister 1%nat st1) = None /\
  PersistentObject.objects (PersistentObject.Destroy 1%nat st1) !! 2%nat = Some oa /\
  PersistentObject.objects (PersistentObject.Unregister 1%nat st1) !! 2%nat = Some oa.
Proof.
  cbv zeta.
  apply (duplicate_evicts_owner 2%nat 1%nat (PersistentObject.mkObject 20%N false)
           (PersistentObject.mkObject 10%N false) 20%N 99%N Samples.two_objects).
  - lia.
  - vm_compute. reflexivity.
  - vm_compute. reflexivity.
  - reflexivity.
  - reflexivity.
  - vm_compute. reflexivity.
Defined.

(** ** Loading scripts without keeping them *)

Section ScriptDryRun.
Import ServerDataManager.

Lemma just_loaded_same (m : gmap string ServerScript) : just_loaded m m = [].
Proof.
  unfold just_loaded.
  replace (filter (fun kv : string * ServerScript => m !! kv.1 = None) m)
    with (∅ : gmap string ServerScript); [rewrite map_to_list_empty; reflexivity|].
  symmetry. apply map_empty_filter_2. intros k v Hk Hnone. cbn in Hnone. congruence.
Qed.

Lemma just_loaded_insert (old m : gmap string ServerScript) (k : string) (v : ServerScript) :
  m !! k = None -> old !! k = None ->
  just_loaded old (<[k := v]> m) ≡ₚ v :: just_loaded old m.
Proof.
  intros Hm Hold. unfold just_loaded.
  rewrite map_filter_insert_True by exact Hold.
  rewrite map_to_list_insert; [reflexivity|].
  rewrite map_lookup_filter_None. left. exact Hm.
Qed.

(** A run of [LoadScripts]: the files up to the first that fails are
    loaded, and the registries gain their scripts. *)
Lemma LoadScripts_trace (files : list (string * ScriptSource)) :
  forall (m m1 : Scripts) (ok : bool) (oldScripts oldAI : gmap string ServerScript),
    LoadScripts files m = (ok, m1) ->
    (forall k, mScripts m !! k = None -> oldScripts !! k = None) ->
    (forall k, mAIScripts m !! k = None -> oldAI !! k = None) ->
    exists loaded rest,
      files = loaded ++ rest /\
      LoadScripts loaded m = (true, m1) /\
      (ok = true -> rest = []) /\
      (ok = false -> exists f rest', rest = f :: rest' /\ LoadScript f.1 f.2 m1 = (false, m1)) /\
      just_loaded oldScripts (mScripts m1) ++ just_loaded oldAI (mAIScripts m1)
      ≡ₚ (just_loaded oldScripts (mScripts m) ++ just_loaded oldAI (mAIScripts m))
         ++ (script_of <$> loaded).
Proof.
  induction files as [|[path source] rest IH]; intros m m1 ok oldScripts oldAI Hrun Hs Ha.
  - cbn in Hrun. injection Hrun as <- <-. exists [], [].
    split; [reflexivity|]. split; [reflexivity|]. split; [reflexivity|].
    split; [discriminate|]. cbn. rewrite app_nil_r. reflexivity.
  - cbn [LoadScripts] in Hrun.
    destruct (LoadScript path source m) as [ok1 m2] eqn:Hload.
    destruct ok1.
    + destruct (LoadScript_inv _ _ _ _ _ Hload) as [[[=] _]|(_ & _ & Hfree & Hm2)].
      cbv zeta in Hm2. unfold bucket in Hfree.
      fold (script_of (path, source)) in Hm2.
      destruct (IH m2 m1 ok oldScripts oldAI Hrun) as (loaded & rest' & -> & Hl & Hok & Hfail & Hperm).
      { intros k Hk. apply Hs. subst m2. destruct (is_ai _); cbn [mScripts] in Hk; [exact Hk|].
        apply lookup_insert_None in Hk as [Hk _]. exact Hk. }
      { intros k Hk. apply Ha. subst m2. destruct (is_ai _); cbn [mAIScripts] in Hk; [|exact Hk].
        apply lookup_insert_None in Hk as [Hk _]. exact Hk. }
      exists ((path, source) :: loaded), rest'.
      split; [reflexivity|].
      split; [cbn [LoadScripts]; rewrite Hload; exact Hl|].
      split; [exact Hok|]. split; [exact Hfail|].
      rewrite Hperm. rewrite fmap_cons.
      subst m2. destruct (is_ai (definedType source)); cbn [mScripts mAIScripts].
      * rewrite (just_loaded_insert oldAI (mAIScripts m) _ _ Hfree (Ha _ Hfree)).
        rewrite <- !app_assoc. apply Permutation_app_head.
        rewrite <- Permutation_middle. reflexivity.
      * rewrite (just_loaded_insert oldScripts (mScripts m) _ _ Hfree (Hs _ Hfree)).
        cbn [app]. rewrite <- !Permutation_middle. reflexivity.
    + injection Hrun as <- <-.
      destruct (LoadScript_inv _ _ _ _ _ Hload) as [[_ ->]|([=] & _)].
      exists [], ((path, source) :: rest).
      split; [reflexivity|]. split; [reflexivity|]. split; [discriminate|].
      split; [intros _; eexists _, _; split; [reflexivity | exact Hload]|].
      cbn. rewrite app_nil_r. reflexivity.
Qed.

(** The four-argument [LoadScripts] returns the scripts of the files that
    loaded, one for each file up to the first that fails, and reports
    success exactly when no file failed.  With [store] the registries keep
    these scripts, also when a later file failed; without [store] the
    registries are as they were before the call. *)
Theorem LoadScripts_store_spec (files : list (string * ScriptSource)) (store : bool)
    (m : Scripts) :
  let r := LoadScripts_store files store m in
  exists loaded rest m1,
    files = loaded ++ rest /\
    LoadScripts loaded m = (true, m1) /\
    r.1.1 ≡ₚ script_of <$> loaded /\
    (r.1.2 = true -> rest = []) /\
    (r.1.2 = false ->
     exists f rest', rest = f :: rest' /\ LoadScript f.1 f.2 m1 = (false, m1)) /\
    r.2 = (if store then m1 else m).
Proof.
  cbv zeta. unfold LoadScripts_store.
  destruct (LoadScripts files m) as [ok m1] eqn:Hrun. cbn [fst snd].
  destruct (LoadScripts_trace files m m1 ok (mScripts m) (mAIScripts m) Hrun
              (fun _ H => H) (fun _ H => H))
    as (loaded & rest & Hfiles & Hl & Hok & Hfail & Hperm).
  rewrite !just_loaded_same in Hperm. cbn [app] in Hperm.
  exists loaded, rest, m1.
  split; [exact Hfiles|]. split; [exact Hl|]. split; [exact Hperm|].
  split; [exact Hok|]. split; [exact Hfail|].
  destruct store; [reflexivity|]. destruct m; reflexivity.
Qed.

End ScriptDryRun.

(** ** NPCs and objects of a zone partial *)

Section PlacedObjects.
Import ServerDataManager.
Context {coord : Type} (near : coord -> coord -> bool).

Lemma filter_all {A} (P : A -> Prop) `{forall x, Decision (P x)} (l : list A) :
  (forall x, P x) -> filter P l = l.
Proof.
  intros HP. induction l as [|x l IH]; [reflexivity|].
  rewrite filter_cons_True by apply HP. rewrite IH. reflexivity.
Qed.

Lemma remove_all_spec (partialNPCs : list (@ServerObject coord)) :
  forall npcs,
    foldl (fun (npcs : list ServerObject) npc =>
             filter (fun oNPC => same_place near npc oNPC = false) npcs)
          npcs partialNPCs
    = filter (fun oNPC => Forall (fun npc => same_place near npc oNPC = false) partialNPCs)
             npcs.
Proof.
  induction partialNPCs as [|npc rest IH]; intros npcs; cbn [foldl].
  - symmetry. apply filter_all. intros; constructor.
  - rewrite IH. rewrite list_filter_filter. apply list_filter_iff.
    intros oNPC. rewrite Forall_cons. tauto.
Qed.

Lemma append_defined_spec (partialNPCs : list (@ServerObject coord)) :
  forall npcs,
    foldl (fun (npcs : list ServerObject) npc =>
             if negb (npc_ID npc =? 0) then npcs ++ [npc] else npcs)
          npcs partialNPCs
    = npcs ++ filter (fun npc => npc_ID npc <> 0) partialNPCs.
Proof.
  induction partialNPCs as [|npc rest IH]; intros npcs; cbn [foldl].
  - rewrite filter_nil, app_nil_r. reflexivity.
  - rewrite IH. destruct (Z.eqb_spec (npc_ID npc) 0) as [Hz|Hnz]; cbn [negb].
    + rewrite filter_cons_False by (intros Hn; apply Hn, Hz). reflexivity.
    + rewrite filter_cons_True by exact Hnz. rewrite <- app_assoc. reflexivity.
Qed.

(** The zone's NPCs (and objects) after a partial was applied with
    [positionReplace]: the NPCs of the zone that share a place with no NPC
    of the partial, in their order, followed by the NPCs of the partial
    that have an ID, in their order.  An NPC of the partial with ID 0 only
    removes, and the NPCs of the partial never remove one another.  Without
    [positionReplace] the zone keeps all its NPCs. *)
Theorem merge_placed_spec (positionReplace : bool)
    (npcs partialNPCs : list (@ServerObject coord)) :
  merge_placed near positionReplace npcs partialNPCs
  = (if positionReplace
     then filter (fun oNPC => Forall (fun npc => same_place near npc oNPC = false) partialNPCs)
                 npcs
     else npcs)
    ++ filter (fun npc => npc_ID npc <> 0) partialNPCs.
Proof.
  unfold merge_placed. rewrite append_defined_spec.
  destruct positionReplace; [rewrite remove_all_spec|]; reflexivity.
Qed.

End PlacedObjects.

(** ** Nested actions *)

Section NestedActions.
Import ServerDataManager.

(** Induction over actions and the actions they hold. *)
Lemma Action_nested_ind (P : Action -> Prop) :
  (forall ty ctx held, Forall P held -> P (mkAction ty ctx held)) ->
  forall a, P a.
Proof.
  intros Hstep. fix IH 1. intros [ty ctx held]. apply Hstep.
  induction held as [|a rest IHrest]; constructor; [apply IH | exact IHrest].
Qed.

Lemma flatten_action_eq (a : Action) :
  flatten_action a = a :: concat (flatten_action <$> nested_actions a).
Proof. destruct a as [[] ctx held]; reflexivity. Qed.

Lemma nested_count (a : Action) :
  (list_sum (action_count <$> nested_actions a) < action_count a)%nat.
Proof.
  destruct a as [ty ctx held].
  change (action_count (mkAction ty ctx held))
    with (S (list_sum (action_count <$> held))).
  destruct ty; cbn [nested_actions]; rewrite ?fmap_nil;
    change (list_sum []) with 0%nat; lia.
Qed.

Lemma list_sum_step (x : nat) (l : list nat) :
  list_sum (x :: l) = (x + list_sum l)%nat.
Proof. reflexivity. Qed.

Lemma nested_count_all (l : list Action) :
  (list_sum (action_count <$> concat (nested_actions <$> l)) + length l
   <= list_sum (action_count <$> l))%nat.
Proof.
  induction l as [|a l IH]; [cbn; lia|].
  rewrite !fmap_cons. cbn [concat length].
  rewrite fmap_app, list_sum_app, list_sum_step. pose proof (nested_count a). lia.
Qed.

(** Depth first and level by level list the same actions. *)
Lemma flatten_levels (l : list Action) :
  concat (flatten_action <$> l)
  ≡ₚ l ++ concat (flatten_action <$> concat (nested_actions <$> l)).
Proof.
  induction l as [|a l IH]; [reflexivity|].
  rewrite !fmap_cons. cbn [concat]. rewrite flatten_action_eq at 1.
  rewrite fmap_app, concat_app. cbn [app].
  apply Permutation_skip. rewrite IH.
  rewrite !app_assoc. apply Permutation_app_tail. apply Permutation_app_comm.
Qed.

Lemma collect_actions_spec (fuel : nat) :
  forall currentActions allActions,
    (list_sum (action_count <$> currentActions) < fuel)%nat ->
    exists found,
      collect_actions fuel currentActions allActions = Some (allActions ++ found) /\
      found ≡ₚ concat (flatten_action <$> currentActions) /\
      take (length currentActions) found = currentActions.
Proof.
  induction fuel as [|fuel IH]; intros currentActions allActions Hfuel; [lia|].
  destruct currentActions as [|a rest] eqn:Hcur.
  - exists []. cbn. rewrite app_nil_r. auto.
  - assert (Hrun0 : collect_actions (S fuel) currentActions allActions
                    = collect_actions fuel (concat (nested_actions <$> currentActions))
                                      (allActions ++ currentActions))
      by (rewrite Hcur; reflexivity).
    rewrite <- Hcur in *. rewrite Hrun0.
    pose proof (nested_count_all currentActions) as Hcount.
    assert (Hlen : (0 < length currentActions)%nat) by (rewrite Hcur; cbn; lia).
    destruct (IH (concat (nested_actions <$> currentActions)) (allActions ++ currentActions))
      as (found & Hrun & Hperm & _); [lia|].
    exists (currentActions ++ found).
    split; [rewrite Hrun, <- app_assoc; reflexivity|].
    split; [rewrite Hperm; symmetry; apply flatten_levels|].
    rewrite take_app_length. reflexivity.
Qed.

(** [GetAllActions] returns every action of the list and every action
    nested in one of them through delay and spawn actions, each once; the
    actions of the list itself come first, in their order.  With an action
    type of zero or more, it returns those of that type among them. *)
Theorem GetAllActions_complete (type_code : ActionType_t -> Z) (actions : list Action) :
  exists allActions,
    allActions ≡ₚ concat (flatten_action <$> actions) /\
    take (length actions) allActions = actions /\
    forall actionType,
      GetAllActions type_code actions actionType
      = Some (if actionType >=? 0
              then filter (fun action => type_code (GetActionType action) = actionType)
                          allActions
              else allActions).
Proof.
  destruct (collect_actions_spec (S (list_sum (action_count <$> actions))) actions [])
    as (found & Hrun & Hperm & Htake); [lia|].
  exists found. split; [exact Hperm|]. split; [exact Htake|].
  intros actionType. unfold GetAllActions. rewrite Hrun. reflexivity.
Qed.

Lemma forallb_Forall {A} (f : A -> bool) (l : list A) :
  forallb f l = true <-> Forall (fun x => f x = true) l.
Proof.
  rewrite forallb_forall, Forall_forall.
  split; intros H x Hx; apply H, list_elem_of_In, Hx.
Qed.

Lemma forallb_exists {A} (f : A -> bool) (l : list A) :
  forallb f l = false <-> exists x, x ∈ l /\ f x = false.
Proof.
  induction l as [|h t IH]; cbn [forallb].
  - split; [discriminate | intros (x & Hin & _); inversion Hin].
  - destruct (f h) eqn:Hh; cbn [andb].
    + rewrite IH. split; intros (x & Hin & Hx).
      * exists x. split; [right; exact Hin | exact Hx].
      * inversion Hin; subst; [congruence | eauto].
    + split; [intros _; exists h; split; [left | exact Hh] | reflexivity].
Qed.

Lemma ValidateAction_no_context (a : Action) : ValidateAction false a = true.
Proof.
  induction a as [ty ctx held IH] using Action_nested_ind.
  destruct ty; cbn; try reflexivity; apply forallb_Forall; exact IH.
Qed.

Lemma ValidateAction_offender (a : Action) :
  ValidateAction true a = false <-> auto_offender a.
Proof.
  induction a as [ty ctx held IH] using Action_nested_ind.
  rewrite Forall_forall in IH.
  assert (Hheld : forallb (ValidateAction true) held = false <->
                  exists a, a ∈ held /\ auto_offender a).
  { rewrite forallb_exists. split; intros (a & Hin & Ha); exists a;
      (split; [exact Hin | apply (IH a Hin); exact Ha]). }
  split.
  - intros Hfalse. cbn [ValidateAction] in Hfalse.
    destruct (auto_source ctx) eqn:Hctx.
    + destruct ty; cbn in Hfalse; try discriminate;
        try (apply offender_here; [reflexivity | exact Hctx]);
        apply Hheld in Hfalse as (a & Hin & Hoff);
        eapply offender_nested; eauto.
    + exfalso. destruct ty; cbn in Hfalse; try discriminate;
        (enough (Hall : forallb (ValidateAction false) held = true) by congruence);
        apply forallb_Forall, Forall_forall; intros x _; apply ValidateAction_no_context.
  - intros Hoff.
    inversion Hoff as [ty' ctx' held' Hreq Hctx|ty' ctx' held' a Hty Hctx Hin Ha]; subst.
    + cbn [ValidateAction]. rewrite Hctx. destruct ty; cbn in *; congruence.
    + cbn [ValidateAction]. rewrite Hctx. cbn [andb].
      destruct Hty as [-> | ->]; apply Hheld; eauto.
Qed.

(** Outside an automatic context [ValidateActions] accepts every list of
    actions, however they nest.  In an automatic context it refuses a list
    exactly when it holds an offender: a player-required action of an
    automatic source, reached through delay and spawn actions of automatic
    sources only. *)
Theorem ValidateActions_spec (actions : list Action) :
  ValidateActions actions false = true /\
  (ValidateActions actions true = false <-> exists a, a ∈ actions /\ auto_offender a).
Proof.
  split.
  - apply forallb_Forall, Forall_forall. intros a _. apply ValidateAction_no_context.
  - unfold ValidateActions. rewrite forallb_exists.
    split; intros (a & Hin & Ha); exists a;
      (split; [exact Hin | apply ValidateAction_offender; exact Ha]).
Qed.

End NestedActions.

(** ** Drop sets and their pending changes *)

Section PendingDrops.
Import ServerDataManager.

Lemma append_all (dropSet : DropSet) (drops : list nat) :
  foldl (fun dropSet drop => AppendDrops drop dropSet) dropSet drops
  = SetDrops (GetDrops dropSet ++ drops) dropSet.
Proof.
  revert dropSet. induction drops as [|d drops IH]; intros dropSet; cbn [foldl].
  - rewrite app_nil_r. destruct dropSet; reflexivity.
  - rewrite IH. unfold AppendDrops, SetDrops. cbn [GetID GetType GetGiftBoxID GetDrops].
    rewrite <- app_assoc. reflexivity.
Qed.

Lemma redefine_all (redefine data : gmap Z DropSet) (id : Z) :
  map_fold redefine_drops data redefine !! id
  = (fun dropSet =>
       match redefine !! id with
       | Some redefined => SetDrops (GetDrops redefined) dropSet
       | None => dropSet
       end) <$> data !! id.
Proof.
  revert id. apply (map_fold_weak_ind
    (fun r m => forall id, r !! id
       = (fun dropSet => match m !! id with
                         | Some redefined => SetDrops (GetDrops redefined) dropSet
                         | None => dropSet
                         end) <$> data !! id)).
  - intros id. rewrite lookup_empty. destruct (data !! id); reflexivity.
  - intros i x m r Hfresh IH id. unfold redefine_drops.
    destruct (decide (id = i)) as [->|Hne].
    + rewrite lookup_insert_eq. pose proof (IH i) as Hi. rewrite Hfresh in Hi.
      destruct (r !! i) as [ds|] eqn:Hr.
      * rewrite lookup_insert_eq. destruct (data !! i) as [ds0|]; cbn in *; congruence.
      * rewrite Hr. destruct (data !! i); cbn in *; congruence.
    + rewrite lookup_insert_ne by congruence.
      destruct (r !! i); [rewrite lookup_insert_ne by congruence|]; apply IH.
Qed.

Lemma append_pending (pending : gmap Z (list nat)) (data : gmap Z DropSet) (id : Z) :
  map_fold append_drops data pending !! id
  = (fun dropSet => SetDrops (GetDrops dropSet ++ default [] (pending !! id)) dropSet)
      <$> data !! id.
Proof.
  revert id. apply (map_fold_weak_ind
    (fun r m => forall id, r !! id
       = (fun dropSet => SetDrops (GetDrops dropSet ++ default [] (m !! id)) dropSet)
           <$> data !! id)).
  - intros id. rewrite lookup_empty. cbn [default]. destruct (data !! id) as [ds|]; cbn; [|reflexivity].
    rewrite app_nil_r. destruct ds; reflexivity.
  - intros i x m r Hfresh IH id. unfold append_drops.
    destruct (decide (id = i)) as [->|Hne].
    + rewrite lookup_insert_eq. pose proof (IH i) as Hi. rewrite Hfresh in Hi.
      cbn [default] in Hi.
      destruct (r !! i) as [ds|] eqn:Hr.
      * rewrite lookup_insert_eq, append_all.
        destruct (data !! i) as [ds0|]; cbn in *; [|congruence].
        injection Hi as ->. unfold SetDrops. cbn. rewrite app_nil_r. reflexivity.
      * rewrite Hr. destruct (data !! i); cbn in *; congruence.
    + rewrite lookup_insert_ne by congruence.
      destruct (r !! i); [rewrite lookup_insert_ne by congruence|]; apply IH.
Qed.

Lemma ApplyPendingDrops_lookup (st : DropData) (id : Z) :
  mDropSetData (ApplyPendingDrops st) !! id
  = (fun dropSet =>
       SetDrops (match mRedefineDropSetData st !! id with
                 | Some redefined => GetDrops redefined
                 | None => GetDrops dropSet
                 end ++ default [] (mPendingMergeDrops st !! id)) dropSet)
      <$> mDropSetData st !! id.
Proof.
  unfold ApplyPendingDrops. cbn [mDropSetData].
  rewrite append_pending, redefine_all.
  destruct (mDropSetData st !! id) as [ds|]; cbn; [|reflexivity].
  destruct (mRedefineDropSetData st !! id); reflexivity.
Qed.

(** After [ApplyPendingDrops] a loaded drop set has the drops of its
    redefinition, if one is pending, or else its own, followed by the drops
    pending for it; its other fields, the drop sets loaded and the gift box
    lookup are as before.  Redefinitions and drops pending for an ID that
    is not loaded are discarded with the rest: both pending tables are
    empty afterwards, so applying again changes nothing. *)
Theorem ApplyPendingDrops_spec (st : DropData) :
  let st' := ApplyPendingDrops st in
  (forall id,
     mDropSetData st' !! id
     = (fun dropSet =>
          SetDrops (match mRedefineDropSetData st !! id with
                    | Some redefined => GetDrops redefined
                    | None => GetDrops dropSet
                    end ++ default [] (mPendingMergeDrops st !! id)) dropSet)
         <$> mDropSetData st !! id) /\
  mGiftDropSetLookup st' = mGiftDropSetLookup st /\
  mRedefineDropSetData st' = ∅ /\
  mPendingMergeDrops st' = ∅ /\
  ApplyPendingDrops st' = st'.
Proof.
  cbv zeta. split; [intros id; apply ApplyPendingDrops_lookup|].
  split; [reflexivity|]. split; [reflexivity|]. split; [reflexivity|].
  unfold ApplyPendingDrops.
  cbn [mDropSetData mGiftDropSetLookup mRedefineDropSetData mPendingMergeDrops].
  rewrite !map_fold_empty. reflexivity.
Qed.

Lemma pending_push (id : Z) (drops : list nat) :
  forall (pending : gmap Z (list nat)) (i : Z),
    default [] (foldl (fun pending drop =>
                         <[id := default [] (pending !! id) ++ [drop]]> pending)
                      pending drops !! i)
    = default [] (pending !! i) ++ (if decide (i = id) then drops else []).
Proof.
  induction drops as [|d drops IH]; intros pending i; cbn [foldl].
  - destruct (decide (i = id)); rewrite app_nil_r; reflexivity.
  - rewrite IH. destruct (decide (i = id)) as [->|Hne].
    + rewrite lookup_insert_eq. simpl. rewrite <- app_assoc. reflexivity.
    + rewrite lookup_insert_ne by congruence. reflexivity.
Qed.

Lemma entries_of_cons (ty : DropSetType_t) (id : Z) (s : DropSet) (sets : list DropSet) :
  entries_of ty id (s :: sets)
  = if decide (GetType s = ty /\ GetID s = id)
    then s :: entries_of ty id sets else entries_of ty id sets.
Proof. unfold entries_of. rewrite filter_cons. reflexivity. Qed.

(** What a run of successful loads leaves in the three tables. *)
Lemma load_drop_sets_tables (sets : list DropSet) :
  forall st st',
    load_drop_sets sets st = (true, st') ->
    forall id,
      (mDropSetData st' !! id
       = match mDropSetData st !! id with
         | Some dropSet => Some dropSet
         | None => head (entries_of NORMAL id sets)
         end) /\
      (mRedefineDropSetData st' !! id
       = match last (entries_of REDEFINE id sets) with
         | Some redefined => Some redefined
         | None => mRedefineDropSetData st !! id
         end) /\
      default [] (mPendingMergeDrops st' !! id)
      = default [] (mPendingMergeDrops st !! id)
        ++ concat (GetDrops <$> entries_of APPEND id sets).
Proof.
  induction sets as [|s sets IH]; intros st st' Hload id.
  - injection Hload as <-. cbn. rewrite app_nil_r.
    destruct (mDropSetData st !! id); auto.
  - cbn [load_drop_sets] in Hload.
    destruct (LoadObject_DropSet (Some s) st) as [ok st1] eqn:Hone.
    destruct ok; [|discriminate].
    destruct (IH st1 st' Hload id) as (Hdata & Hredef & Hpend).
    rewrite Hdata, Hredef, Hpend. clear Hdata Hredef Hpend.
    rewrite !entries_of_cons.
    unfold LoadObject_DropSet in Hone. cbv zeta in Hone.
    destruct (GetType s) eqn:Hty.
    + (* NORMAL *)
      assert (Hst1 : mDropSetData st !! GetID s = None /\
                     mDropSetData st1 = <[GetID s := s]> (mDropSetData st) /\
                     mRedefineDropSetData st1 = mRedefineDropSetData st /\
                     mPendingMergeDrops st1 = mPendingMergeDrops st).
      { case_bool_decide as Hdup; [discriminate|].
        assert (Hnone : mDropSetData st !! GetID s = None).
        { destruct (mDropSetData st !! GetID s) eqn:E; [exfalso; apply Hdup; eauto | reflexivity]. }
        destruct (negb (GetGiftBoxID s =? 0)).
        - case_bool_decide; [discriminate|]. injection Hone as <-. auto.
        - injection Hone as <-. auto. }
      destruct Hst1 as (Hfree & -> & -> & ->).
      rewrite (decide_False (P := _ = REDEFINE /\ _)) by (intros [? _]; discriminate).
      rewrite (decide_False (P := _ = APPEND /\ _)) by (intros [? _]; discriminate).
      split; [|split; reflexivity].
      destruct (decide (GetID s = id)) as [<-|Hne].
      * rewrite lookup_insert_eq, Hfree.
        rewrite decide_True by auto. reflexivity.
      * rewrite lookup_insert_ne by congruence.
        rewrite decide_False by (intros [_ ?]; congruence). reflexivity.
    + (* APPEND *)
      injection Hone as <-. cbn [mDropSetData mRedefineDropSetData mPendingMergeDrops].
      rewrite (decide_False (P := _ = NORMAL /\ _)) by (intros [? _]; discriminate).
      rewrite (decide_False (P := _ = REDEFINE /\ _)) by (intros [? _]; discriminate).
      split; [reflexivity|]. split; [reflexivity|].
      rewrite pending_push, <- app_assoc. f_equal.
      destruct (decide (id = GetID s)) as [->|Hne].
      * rewrite decide_True by auto. reflexivity.
      * rewrite decide_False by (intros [_ ?]; congruence). reflexivity.
    + (* REDEFINE *)
      injection Hone as <-. cbn [mDropSetData mRedefineDropSetData mPendingMergeDrops].
      rewrite (decide_False (P := _ = NORMAL /\ _)) by (intros [? _]; discriminate).
      rewrite (decide_False (P := _ = APPEND /\ _)) by (intros [? _]; discriminate).
      split; [reflexivity|]. split; [|reflexivity].
      destruct (decide (GetID s = id)) as [<-|Hne].
      * rewrite decide_True by auto. rewrite last_cons, lookup_insert_eq.
        destruct (last (entries_of REDEFINE (GetID s) sets)); reflexivity.
      * rewrite decide_False by (intros [_ ?]; congruence).
        rewrite lookup_insert_ne by congruence. reflexivity.
Qed.

(** The drop sets after loading: when every entry of [sets] loads, in any
    order, and the pending changes are applied, the drop set of an ID is
    its one entry of the plain type, with the drops of the last [REDEFINE]
    entry for the ID if there is one, or else its own, followed by the
    drops of all [APPEND] entries for the ID in load order.  An ID without
    an entry of the plain type has no drop set, whatever was appended or
    redefined for it. *)
Theorem drop_sets_after_loading (sets : list DropSet) (st : DropData) (id : Z) :
  load_drop_sets sets (mkDropData ∅ ∅ ∅ ∅) = (true, st) ->
  mDropSetData (ApplyPendingDrops st) !! id
  = (fun dropSet =>
       SetDrops (match last (entries_of REDEFINE id sets) with
                 | Some redefined => GetDrops redefined
                 | None => GetDrops dropSet
                 end ++ concat (GetDrops <$> entries_of APPEND id sets)) dropSet)
      <$> head (entries_of NORMAL id sets).
Proof.
  intros Hload.
  destruct (load_drop_sets_tables sets _ _ Hload id) as (Hdata & Hredef & Hpend).
  cbn [mDropSetData mRedefineDropSetData mPendingMergeDrops] in *.
  rewrite lookup_empty in Hdata. rewrite lookup_empty in Hredef.
  rewrite lookup_empty in Hpend. simpl in Hpend.
  rewrite ApplyPendingDrops_lookup, Hdata, Hredef, Hpend.
  destruct (head (entries_of NORMAL id sets)); [|reflexivity].
  destruct (last (entries_of REDEFINE id sets)); reflexivity.
Qed.

End PendingDrops.

(** Drop set 7 ends with the drops of its last redefinition and the
    appended drops; drop set 8 does not exist. *)
Lemma drop_sets_after_loading_witness :
  let st := (ServerDataManager.load_drop_sets Samples.drop_set_entries
               (ServerDataManager.mkDropData ∅ ∅ ∅ ∅)).2 in
  ServerDataManager.load_drop_sets Samples.drop_set_entries
    (ServerDataManager.mkDropData ∅ ∅ ∅ ∅) = (true, st) /\
  ServerDataManager.mDropSetData (ServerDataManager.ApplyPendingDrops st) !! 7
  = Some (ServerDataManager.mkDropSet 7 ServerDataManager.NORMAL 5
            [9%nat; 3%nat; 4%nat; 5%nat]) /\
  ServerDataManager.mDropSetData (ServerDataManager.ApplyPendingDrops st) !! 8 = None.
Proof.
  cbv zeta.
  assert (Hload : ServerDataManager.load_drop_sets Samples.drop_set_entries
                    (ServerDataManager.mkDropData ∅ ∅ ∅ ∅)
                  = (true, (ServerDataManager.load_drop_sets Samples.drop_set_entries
                              (ServerDataManager.mkDropData ∅ ∅ ∅ ∅)).2))
    by (vm_compute; reflexivity).
  split; [exact Hload|]. split.
  - rewrite (drop_sets_after_loading Samples.drop_set_entries _ 7 Hload). reflexivity.
  - rewrite (drop_sets_after_loading Samples.drop_set_entries _ 8 Hload). reflexivity.
Defined.

(** ** Named parameters of a query *)

Section NamedParameters.
Import DatabaseQueryMariaDB.

Lemma word_prefix_spec (s : list ascii) :
  s = (word_prefix s).1 ++ (word_prefix s).2 /\
  Forall (fun c => is_param_char c = true) (word_prefix s).1 /\
  (head (word_prefix s).2 ≫= (fun c => if is_param_char c then Some c else None)) = None.
Proof.
  induction s as [|c s (IH1 & IH2 & IH3)]; [cbn; auto|].
  cbn [word_prefix]. destruct (is_param_char c) eqn:Hc.
  - destruct (word_prefix s) as [name suffix]. cbn [fst snd] in *.
    split; [cbn; congruence|]. split; [constructor; assumption | exact IH3].
  - cbn. rewrite Hc. auto.
Qed.

Lemma word_prefix_app (name text : list ascii) :
  Forall (fun c => is_param_char c = true) name ->
  (head text ≫= (fun c => if is_param_char c then Some c else None)) = None ->
  word_prefix (name ++ text) = (name, text).
Proof.
  intros Hname Htext. induction Hname as [|c name Hc _ IH].
  - destruct text as [|c text]; [reflexivity|]. cbn in *.
    destruct (is_param_char c); [discriminate | reflexivity].
  - cbn. rewrite Hc, IH. reflexivity.
Qed.

(** What a successful search found. *)
Lemma regex_search_Some (s before name after : list ascii) :
  regex_search s = Some (before, name, after) ->
  s = before ++ ":"%char :: name ++ after /\
  name <> [] /\ Forall (fun c => is_param_char c = true) name /\
  regex_search before = None.
Proof.
  revert before. induction s as [|c s IH]; intros before Hfind; [discriminate|].
  cbn [regex_search] in Hfind. cbv zeta in Hfind.
  assert (Hlater : (fun m : list ascii * list ascii * list ascii =>
                      (c :: m.1.1, m.1.2, m.2)) <$> regex_search s
                   = Some (before, name, after) ->
                   (Ascii.eqb c ":" = true -> (word_prefix s).1 = []) ->
                   c :: s = before ++ ":"%char :: name ++ after /\
                   name <> [] /\ Forall (fun c => is_param_char c = true) name /\
                   regex_search before = None).
  { intros Hl Hcolon. destruct (regex_search s) as [[[b n] a]|] eqn:Hs; [|discriminate].
    cbn in Hl. injection Hl as <- <- <-.
    destruct (IH b eq_refl) as (-> & Hn & Hall & Hnone).
    split; [reflexivity|]. split; [exact Hn|]. split; [exact Hall|].
    cbn [regex_search]. cbv zeta. rewrite Hnone. cbn [fmap option_fmap option_map].
    destruct (Ascii.eqb c ":") eqn:Hc; [|reflexivity].
    specialize (Hcolon eq_refl).
    destruct b as [|b0 b]; [reflexivity|].
    cbn [app word_prefix] in Hcolon |- *.
    destruct (is_param_char b0); [|reflexivity].
    destruct (word_prefix (b ++ ":"%char :: n ++ a)); discriminate. }
  destruct (Ascii.eqb c ":") eqn:Hc.
  - pose proof (word_prefix_spec s) as (Hs & Hall & _).
    destruct (word_prefix s) as [[|n0 n] suffix] eqn:Hw; cbn [fst snd] in Hs, Hall.
    + apply Hlater; [exact Hfind | reflexivity].
    + injection Hfind as <- <- <-. cbn [fst snd] in *.
      apply Ascii.eqb_eq in Hc as ->.
      split; [simpl; f_equal; exact Hs|]. split; [discriminate|].
      split; [exact Hall | reflexivity].
  - apply Hlater; [exact Hfind | discriminate].
Qed.

(** Text without a match, then a named parameter: the search finds it. *)
Lemma regex_search_first (text0 name text rest : list ascii) :
  regex_search text0 = None ->
  name <> [] -> Forall (fun c => is_param_char c = true) name ->
  (head (text ++ rest) ≫= (fun c => if is_param_char c then Some c else None)) = None ->
  regex_search (text0 ++ ":"%char :: name ++ text ++ rest)
  = Some (text0, name, text ++ rest).
Proof.
  intros Hnone Hne Hall Hhead.
  assert (Hhere : regex_search (":"%char :: name ++ text ++ rest)
                  = Some ([], name, text ++ rest)).
  { cbn [regex_search]. cbv zeta. change (Ascii.eqb ":" ":") with true. cbv iota.
    rewrite (word_prefix_app name (text ++ rest) Hall Hhead).
    destruct name; [congruence | reflexivity]. }
  induction text0 as [|c text0 IH]; [exact Hhere|].
  cbn [regex_search] in Hnone. cbv zeta in Hnone.
  assert (Hrest : regex_search text0 = None).
  { destruct (regex_search text0); [|reflexivity].
    destruct (Ascii.eqb c ":"); [destruct (word_prefix text0) as [[|] ?]|]; discriminate. }
  cbn [app regex_search]. cbv zeta. rewrite (IH Hrest).
  cbn [fmap option_fmap option_map fst snd].
  destruct (Ascii.eqb c ":") eqn:Hc; [|reflexivity].
  rewrite Hrest in Hnone. cbn [fmap option_fmap option_map] in Hnone.
  destruct text0 as [|t0 text0].
  - cbn [app word_prefix]. change (is_param_char ":") with false. reflexivity.
  - cbn [app word_prefix] in Hnone |- *.
    destruct (is_param_char t0); [|reflexivity].
    destruct (word_prefix text0) as [n s]. discriminate.
Qed.

(** A placeholder between two texts without a match makes no match. *)
Lemma regex_search_mark (text0 text : list ascii) :
  regex_search text0 = None -> regex_search text = None ->
  regex_search (text0 ++ "?"%char :: text) = None.
Proof.
  intros Hnone Htext.
  induction text0 as [|c text0 IH].
  - cbn [app regex_search]. cbv zeta. rewrite Htext. reflexivity.
  - cbn [regex_search] in Hnone. cbv zeta in Hnone.
    assert (Hrest : regex_search text0 = None).
    { destruct (regex_search text0); [|reflexivity].
      destruct (Ascii.eqb c ":"); [destruct (word_prefix text0) as [[|] ?]|]; discriminate. }
    cbn [app regex_search]. cbv zeta. rewrite (IH Hrest).
    cbn [fmap option_fmap option_map].
    destruct (Ascii.eqb c ":") eqn:Hc; [|reflexivity].
    rewrite Hrest in Hnone. cbn [fmap option_fmap option_map] in Hnone.
    destruct text0 as [|t0 text0].
    + cbn [app word_prefix]. change (is_param_char "?") with false. reflexivity.
    + cbn [app word_prefix] in Hnone |- *.
      destruct (is_param_char t0); [|reflexivity].
      destruct (word_prefix text0) as [n s]. discriminate.
Qed.

Lemma replace_named_total (fuel : nat) :
  forall transformed names,
    (length transformed < fuel)%nat ->
    exists found result,
      replace_named fuel transformed names = Some (names ++ found, result) /\
      regex_search result = None /\
      Forall (fun name => name <> [] /\ Forall (fun c => is_param_char c = true) name) found /\
      (length result + list_sum (length <$> found) = length transformed)%nat.
Proof.
  induction fuel as [|fuel IH]; intros transformed names Hfuel; [lia|].
  cbn [replace_named]. unfold regex_replace_first.
  destruct (regex_search transformed) as [[[before name] after]|] eqn:Hfind.
  - destruct (regex_search_Some _ _ _ _ Hfind) as (Heq & Hne & Hall & _).
    assert (Hlen : length transformed
                   = (length before + 1 + length name + length after)%nat).
    { rewrite Heq, length_app. cbn [length]. rewrite length_app. lia. }
    assert (Hname : (0 < length name)%nat) by (destruct name; [congruence | cbn; lia]).
    destruct (IH (before ++ "?"%char :: after) (names ++ [name]))
      as (found & result & Hrun & Hnone & Hfound & Hsum).
    { rewrite length_app. cbn [length]. lia. }
    exists (name :: found), result.
    split; [rewrite Hrun, <- app_assoc; reflexivity|].
    split; [exact Hnone|]. split; [constructor; auto|].
    rewrite length_app in Hsum. cbn [length] in Hsum.
    rewrite fmap_cons. change (list_sum (?x :: ?l)) with (x + list_sum l)%nat.
    cbn [list_sum foldr]. unfold list_sum in *. cbn [foldr]. lia.
  - exists [], transformed. rewrite app_nil_r. cbn. auto with lia.
Qed.

(** [Prepare] always comes out of its loop, and the text it hands to the
    server holds no named parameter any more.  Every name it recorded is a
    non-empty run of letters, digits and underscores, and the text got
    shorter by the length of the names: each colon became a question mark. *)
Theorem named_parameters_all_replaced (query : list ascii) :
  exists mParamNames transformed,
    named_parameters query = Some (mParamNames, transformed) /\
    regex_search transformed = None /\
    Forall (fun name => name <> [] /\ Forall (fun c => is_param_char c = true) name)
           mParamNames /\
    (length transformed + list_sum (length <$> mParamNames) = length query)%nat.
Proof.
  destruct (replace_named_total (S (length query)) query [])
    as (found & result & Hrun & Hrest); [lia|].
  exists found, result. split; [exact Hrun | exact Hrest].
Qed.

Lemma with_names_cons (text0 : list ascii) (p : list ascii * list ascii)
    (params : list (list ascii * list ascii)) :
  with_names text0 (p :: params)
  = text0 ++ ":"%char :: p.1 ++ p.2 ++ concat ((fun p => ":"%char :: p.1 ++ p.2) <$> params).
Proof.
  unfold with_names. rewrite fmap_cons. cbn [concat app].
  rewrite <- app_assoc. reflexivity.
Qed.

Lemma replace_named_with_names (params : list (list ascii * list ascii)) :
  forall fuel text0 names,
    (length params < fuel)%nat ->
    regex_search text0 = None ->
    Forall param_ok params ->
    replace_named fuel (with_names text0 params) names
    = Some (names ++ params.*1, with_marks text0 params).
Proof.
  induction params as [|p params IH]; intros fuel text0 names Hfuel Hnone Hok.
  - destruct fuel as [|fuel]; [cbn in Hfuel; lia|].
    unfold with_names, with_marks. cbn [fmap list_fmap concat]. rewrite !app_nil_r.
    cbn [replace_named]. rewrite Hnone. reflexivity.
  - destruct fuel as [|fuel]; [cbn in Hfuel; lia|].
    apply Forall_cons in Hok as [(Hne & Hall & Hp & Hhead) Hok].
    assert (Hnext : head (p.2 ++ concat ((fun p => ":"%char :: p.1 ++ p.2) <$> params))
                    ≫= (fun c => if is_param_char c then Some c else None) = None).
    { destruct (p.2) as [|c t]; [|exact Hhead].
      destruct params as [|p' params]; [reflexivity|]. reflexivity. }
    cbn [replace_named]. unfold regex_replace_first.
    rewrite with_names_cons.
    rewrite (regex_search_first text0 p.1 p.2 _ Hnone Hne Hall Hnext).
    replace (text0 ++ "?"%char :: p.2 ++ concat ((fun p => ":"%char :: p.1 ++ p.2) <$> params))
      with (with_names (text0 ++ "?"%char :: p.2) params)
      by (unfold with_names; rewrite <- app_assoc; reflexivity).
    rewrite IH; [| cbn [length] in Hfuel; lia | apply regex_search_mark; assumption | exact Hok].
    rewrite fmap_cons, <- app_assoc. cbn [app].
    unfold with_marks. rewrite fmap_cons. cbn [concat].
    rewrite <- app_assoc. reflexivity.
Qed.

(** A query written with named parameters, each name a non-empty run of
    letters, digits and underscores followed by text that does not go on
    with such a character and holds no colon before one: [Prepare] records
    the names in the order they occur and hands the server the same text
    with a question mark for every parameter. *)
Theorem named_parameters_in_order (text0 : list ascii)
    (params : list (list ascii * list ascii)) :
  regex_search text0 = None ->
  Forall param_ok params ->
  named_parameters (with_names text0 params)
  = Some (params.*1, with_marks text0 params).
Proof.
  intros Hnone Hok. unfold named_parameters.
  assert (Hfuel : (length params < S (length (with_names text0 params)))%nat).
  { clear. unfold with_names. rewrite length_app.
    induction params as [|p params IH]; [cbn; lia|].
    rewrite fmap_cons. cbn [concat length]. rewrite length_app. cbn [length]. lia. }
  rewrite (replace_named_with_names params _ text0 [] Hfuel Hnone Hok). reflexivity.
Qed.

End NamedParameters.

Section NamedBinding.
Import DatabaseQueryMariaDB.
Context {Value : Type}.
Implicit Types q : @Query Value.

Lemma IsValid_status q :
  IsValid q = true -> mStatus q = 0 \/ mStatus q = MYSQL_NO_DATA.
Proof.
  unfold IsValid. intros H. apply andb_true_iff in H as [_ H].
  apply orb_true_iff in H as [H|H]; apply Z.eqb_eq in H; auto.
Qed.

Lemma IsValid_fields q q' :
  mDatabase q' = mDatabase q -> mStatement q' = mStatement q ->
  mStatus q' = mStatus q -> IsValid q' = IsValid q.
Proof. unfold IsValid. intros -> -> ->. reflexivity. Qed.

Lemma GetNamedBindingIndex_unknown q (name : list ascii) :
  name ∉ mParamNames q ->
  GetNamedBindingIndex name q
  = (length (mParamNames q),
     mkQuery (mDatabase q) (mStatement q) (-1) (mParamNames q) (mBindings q)).
Proof.
  intros Hnot. unfold GetNamedBindingIndex.
  destruct (list_find (fun n => n = name) (mParamNames q)) as [[pos n]|] eqn:Hfind;
    [|reflexivity].
  apply list_find_Some in Hfind as (Hpos & -> & _).
  exfalso. apply Hnot. eapply list_elem_of_lookup_2, Hpos.
Qed.

Lemma Bind_status (index : nat) (type : Z) (value : Value) q :
  mStatus (Bind index type value q).2 = mStatus q /\
  mDatabase (Bind index type value q).2 = mDatabase q /\
  mStatement (Bind index type value q).2 = mStatement q /\
  mParamNames (Bind index type value q).2 = mParamNames q /\
  (IsValid q = false -> (Bind index type value q).1 = false).
Proof.
  unfold Bind, PrepareBinding.
  destruct (mStatement q) as [param_count|] eqn:Hst; [|cbn; rewrite Hst; auto].
  destruct (param_count <=? index)%nat; [cbn; rewrite Hst; auto|].
  cbn [fst snd mStatus mDatabase mStatement mParamNames].
  repeat (split; [try reflexivity; try exact Hst|]).
  unfold IsValid. cbn [mStatus mDatabase mStatement]. rewrite Hst. auto.
Qed.

(** A name the query does not have: the guarded [Bind] overloads return
    false, bind nothing and set the status to -1, which makes the query
    invalid.  No [Bind] mends that: on a query of status -1 every [Bind], by
    name or by index, returns false and leaves the status at -1. *)
Theorem Bind_unknown_name (name : list ascii) (type : Z) (value : Value) q :
  name ∉ mParamNames q ->
  let r := Bind_name true name type value q in
  r.1 = false /\ mBindings r.2 = mBindings q /\
  mStatus r.2 = -1 /\ IsValid r.2 = false /\
  forall q', mStatus q' = -1 ->
    (forall index type' value', (Bind index type' value' q').1 = false /\
                                mStatus (Bind index type' value' q').2 = -1) /\
    (forall guarded name' type' value',
        (Bind_name guarded name' type' value' q').1 = false /\
        mStatus (Bind_name guarded name' type' value' q').2 = -1).
Proof.
  intros Hnot. cbv zeta. unfold Bind_name at 1 2 3 4.
  rewrite (GetNamedBindingIndex_unknown q name Hnot).
  set (q1 := mkQuery (mDatabase q) (mStatement q) (-1) (mParamNames q) (mBindings q)).
  assert (Hinvalid : forall q', mStatus q' = -1 -> IsValid q' = false).
  { intros q' Hs. unfold IsValid. rewrite Hs. cbn. apply andb_false_r. }
  rewrite (Hinvalid q1 eq_refl). cbn [andb negb fst snd].
  split; [reflexivity|]. split; [reflexivity|]. split; [reflexivity|].
  split; [apply Hinvalid; reflexivity|].
  intros q' Hq'. split.
  - intros index type' value'.
    destruct (Bind_status index type' value' q') as (Hs & _ & _ & _ & Hfalse).
    split; [apply Hfalse, Hinvalid, Hq' | rewrite Hs; exact Hq'].
  - intros guarded name' type' value'. unfold Bind_name.
    destruct (GetNamedBindingIndex name' q') as [index q1'] eqn:Hidx.
    assert (Hq1' : mStatus q1' = -1).
    { unfold GetNamedBindingIndex in Hidx.
      destruct (list_find (fun n => n = name') (mParamNames q')) as [[pos n]|];
        injection Hidx as <- <-; [exact Hq'|reflexivity]. }
    rewrite (Hinvalid q1' Hq1'). cbn [negb].
    destruct guarded; cbn [andb fst snd]; [split; [reflexivity | exact Hq1']|].
    destruct (Bind_status index type' value' q1') as (Hs & _ & _ & _ & Hfalse).
    split; [apply Hfalse, Hinvalid, Hq1' | rewrite Hs; exact Hq1'].
Qed.

(** Binding by name on a valid query binds the first parameter of that
    name and no other: a name that occurs twice in the text has its second
    placeholder left as it was.  The first binding of a query sets up one
    blank binding for each parameter of the statement. *)
Theorem Bind_name_first (guarded : bool) (name : list ascii) (type : Z) (value : Value)
    q (param_count pos : nat) :
  IsValid q = true ->
  mStatement q = Some param_count ->
  mBindings q = [] \/ length (mBindings q) = param_count ->
  mParamNames q !! pos = Some name ->
  (forall i, (i < pos)%nat -> mParamNames q !! i <> Some name) ->
  (pos < param_count)%nat ->
  let r := Bind_name guarded name type value q in
  r.1 = true /\ IsValid r.2 = true /\
  mBindings r.2
  = <[pos := mkBind type (Some value)]>
      (match mBindings q with
       | [] => replicate param_count (mkBind 0 None)
       | _ => mBindings q
       end).
Proof.
  intros Hvalid Hst Hlen Hpos Hfirst Hin. cbv zeta.
  assert (Hidx : GetNamedBindingIndex name q = (pos, q)).
  { unfold GetNamedBindingIndex.
    destruct (list_find (fun n => n = name) (mParamNames q)) as [[i n]|] eqn:Hfind.
    - apply list_find_Some in Hfind as (Hi & -> & Hbefore).
      destruct (Nat.lt_trichotomy i pos) as [Hlt|[->|Hgt]]; [|reflexivity|].
      + exfalso. exact (Hfirst i Hlt Hi).
      + exfalso. exact (Hbefore pos name Hpos Hgt eq_refl).
    - exfalso. apply list_find_None in Hfind. rewrite Forall_forall in Hfind.
      apply (Hfind name); [eapply list_elem_of_lookup_2, Hpos | reflexivity]. }
  unfold Bind_name. rewrite Hidx, Hvalid. cbn [negb]. rewrite andb_false_r.
  unfold Bind, PrepareBinding. rewrite Hst.
  destruct (Nat.leb_spec param_count pos) as [Hle|_]; [lia|].
  set (bindings := match mBindings q with
                   | [] => replicate param_count (mkBind 0 None)
                   | _ => mBindings q
                   end).
  assert (Hsize : length bindings = param_count).
  { unfold bindings. destruct Hlen as [-> | Hlen]; [apply length_replicate|].
    destruct (mBindings q); [apply length_replicate | exact Hlen]. }
  cbn [fst snd mBindings mDatabase mStatement mStatus mParamNames].
  split; [rewrite <- Hvalid; apply IsValid_fields; cbn; auto|].
  split; [rewrite <- Hvalid; apply IsValid_fields; cbn; auto|].
  destruct (lookup_lt_is_Some_2 bindings pos ltac:(lia)) as [b Hb].
  apply list_eq. intros i. destruct (decide (i = pos)) as [->|Hne].
  - rewrite !list_lookup_alter_eq, Hb, list_lookup_insert_eq by lia. reflexivity.
  - rewrite !list_lookup_alter_ne, list_lookup_insert_ne by congruence. reflexivity.
Qed.

(** The overload for a [libobjgen::UUID] does not ask [IsValid] before it
    binds.  For a name the query does not have, it binds the value at the
    position behind the recorded names when the statement has a parameter
    there, as happens in a text that mixes question marks with names; it
    still returns false. *)
Theorem Bind_name_unguarded (name : list ascii) (type : Z) (value : Value) q
    (param_count : nat) :
  name ∉ mParamNames q ->
  mStatement q = Some param_count ->
  mBindings q = [] \/ length (mBindings q) = param_count ->
  (length (mParamNames q) < param_count)%nat ->
  let r := Bind_name false name type value q in
  r.1 = false /\
  mBindings r.2
  = <[length (mParamNames q) := mkBind type (Some value)]>
      (match mBindings q with
       | [] => replicate param_count (mkBind 0 None)
       | _ => mBindings q
       end) /\
  mBindings (Bind_name true name type value q).2 = mBindings q.
Proof.
  intros Hnot Hst Hlen Hin. cbv zeta. unfold Bind_name.
  rewrite (GetNamedBindingIndex_unknown q name Hnot).
  set (q1 := mkQuery (mDatabase q) (mStatement q) (-1) (mParamNames q) (mBindings q)).
  assert (Hinvalid : forall q', mStatus q' = -1 -> IsValid q' = false).
  { intros q' Hs. unfold IsValid. rewrite Hs. cbn. apply andb_false_r. }
  rewrite (Hinvalid q1 eq_refl). cbn [andb negb fst snd].
  destruct (Bind_status (length (mParamNames q)) type value q1) as (Hs & _ & _ & _ & Hfalse).
  split; [apply Hfalse, Hinvalid; reflexivity|]. split; [|reflexivity].
  unfold Bind, PrepareBinding. cbn [q1 mStatement mBindings]. rewrite Hst.
  destruct (Nat.leb_spec param_count (length (mParamNames q))) as [Hle|_]; [lia|].
  set (bindings := match mBindings q with
                   | [] => replicate param_count (mkBind 0 None)
                   | _ => mBindings q
                   end).
  assert (Hsize : length bindings = param_count).
  { unfold bindings. destruct Hlen as [-> | Hlen]; [apply length_replicate|].
    destruct (mBindings q); [apply length_replicate | exact Hlen]. }
  cbn [fst snd mBindings].
  destruct (lookup_lt_is_Some_2 bindings (length (mParamNames q)) ltac:(lia)) as [b Hb].
  apply list_eq. intros i. destruct (decide (i = length (mParamNames q))) as [->|Hne].
  - rewrite !list_lookup_alter_eq, Hb, list_lookup_insert_eq by lia. reflexivity.
  - rewrite !list_lookup_alter_ne, list_lookup_insert_ne by congruence. reflexivity.
Qed.

End NamedBinding.

Lemma named_parameters_in_order_witness :
  DatabaseQueryMariaDB.named_parameters
    (String.list_ascii_of_string "UPDATE t SET a = :a WHERE b = :b")
  = Some ([String.list_ascii_of_string "a"; String.list_ascii_of_string "b"],
          String.list_ascii_of_string "UPDATE t SET a = ? WHERE b = ?").
Proof.
  apply (named_parameters_in_order Samples.update_text0 Samples.update_params).
  - reflexivity.
  - repeat constructor; discriminate.
Defined.

(** Binding the name [c], which the update does not have. *)
Lemma Bind_unknown_name_witness :
  let r := DatabaseQueryMariaDB.Bind_name true (String.list_ascii_of_string "c") 3 7
             Samples.update_query in
  r.1 = false /\
  DatabaseQueryMariaDB.mBindings r.2 = [] /\
  DatabaseQueryMariaDB.mStatus r.2 = -1 /\
  DatabaseQueryMariaDB.IsValid r.2 = false.
Proof.
  destruct (Bind_unknown_name (String.list_ascii_of_string "c") 3 7 Samples.update_query)
    as (H1 & H2 & H3 & H4 & _).
  - intros Hin. vm_compute in Hin.
    inversion Hin as [|? ? ? Hin']; subst. inversion Hin' as [|? ? ? Hin'']; subst.
    inversion Hin''.
  - cbv zeta. auto.
Defined.

(** Binding [b] on the fresh update query. *)
Lemma Bind_name_first_witness :
  let r := DatabaseQueryMariaDB.Bind_name true (String.list_ascii_of_string "b") 3 7
             Samples.update_query in
  r.1 = true /\ DatabaseQueryMariaDB.IsValid r.2 = true /\
  DatabaseQueryMariaDB.mBindings r.2
  = [DatabaseQueryMariaDB.mkBind 0 None; DatabaseQueryMariaDB.mkBind 3 (Some 7)].
Proof.
  apply (Bind_name_first true (String.list_ascii_of_string "b") 3 7 Samples.update_query
           2%nat 1%nat).
  - reflexivity.
  - reflexivity.
  - left. reflexivity.
  - reflexivity.
  - intros i Hi. destruct i as [|i]; [discriminate | lia].
  - lia.
Defined.

(** A UUID bound under the unknown name [c] lands at the third
    parameter. *)
Lemma Bind_name_unguarded_witness :
  let r := DatabaseQueryMariaDB.Bind_name false (String.list_ascii_of_string "c") 253 7
             Samples.mixed_query in
  r.1 = false /\
  DatabaseQueryMariaDB.mBindings r.2
  = [DatabaseQueryMariaDB.mkBind 0 None; DatabaseQueryMariaDB.mkBind 0 None;
     DatabaseQueryMariaDB.mkBind 253 (Some 7)] /\
  DatabaseQueryMariaDB.mBindings
    (DatabaseQueryMariaDB.Bind_name true (String.list_ascii_of_string "c") 253 7
       Samples.mixed_query).2 = [].
Proof.
  apply (Bind_name_unguarded (String.list_ascii_of_string "c") 253 7 Samples.mixed_query 3%nat).
  - intros Hin. vm_compute in Hin.
    inversion Hin as [|? ? ? Hin']; subst. inversion Hin' as [|? ? ? Hin'']; subst.
    inversion Hin''.
  - reflexivity.
  - left. reflexivity.
  - cbn. lia.
Defined.

(** ** Explicit updates *)

Section StatementText.
Import DatabaseQueryMariaDB DatabaseMariaDB.

Lemma chars_app (a b : string) : chars (a +:+ b) = chars a ++ chars b.
Proof. induction a as [|ch a IH]; [reflexivity|]. simpl. f_equal. exact IH. Qed.

Lemma Join_cons (s s' : string) (rest : list string) (sep : string) :
  Join (s :: s' :: rest) sep = s +:+ sep +:+ Join (s' :: rest) sep.
Proof. reflexivity. Qed.

(** *** Decimal numbers are parameter names *)

Lemma pretty_N_char_word (d : N) : is_param_char (pretty_N_char d) = true.
Proof. unfold pretty_N_char. repeat case_match; reflexivity. Qed.

Lemma pretty_N_go_word (x : N) :
  forall s, word (chars s) -> s <> "" ->
            word (chars (pretty_N_go x s)) /\ pretty_N_go x s <> "".
Proof.
  induction (N.lt_wf_0 x) as [x _ IH]. intros s Hs Hne.
  destruct (decide (x = 0%N)) as [->|Hx].
  - rewrite pretty_N_go_0. auto.
  - rewrite pretty_N_go_step by lia.
    apply IH; [apply N.div_lt; lia | | discriminate].
    cbn. constructor; [apply pretty_N_char_word | exact Hs].
Qed.

Lemma pretty_nat_word (idx : nat) :
  chars (pretty idx) <> [] /\ word (chars (pretty idx)).
Proof.
  assert (Hgo : word (chars (pretty idx)) /\ pretty idx <> "").
  { unfold pretty, pretty_nat, pretty, pretty_N.
    case_decide as Hx; [split; [repeat constructor | discriminate]|].
    rewrite pretty_N_go_step by lia.
    apply pretty_N_go_word; [|discriminate].
    cbn. constructor; [apply pretty_N_char_word | constructor]. }
  destruct Hgo as [Hword Hne]. split; [|exact Hword].
  destruct (pretty idx); [congruence | discriminate].
Qed.

(** *** Replacing the named parameters of the clauses *)

Lemma regex_search_plain (text : list ascii) : plain text -> regex_search text = None.
Proof.
  induction 1 as [|ch text Hch _ IH]; [reflexivity|].
  cbn [regex_search]. cbv zeta. rewrite IH. cbn [fmap option_fmap option_map].
  destruct (Ascii.eqb ch ":") eqn:Heq; [|reflexivity].
  apply Ascii.eqb_eq in Heq. contradiction.
Qed.

Lemma replace_named_step (fuel : nat) (text0 name text : list ascii)
    (names : list (list ascii)) :
  plain text0 -> name <> [] -> word name -> no_word_ahead text ->
  replace_named (S fuel) (text0 ++ ":"%char :: name ++ text) names
  = replace_named fuel (text0 ++ "?"%char :: text) (names ++ [name]).
Proof.
  intros Hplain Hne Hword Hahead.
  pose proof (regex_search_first text0 name text [] (regex_search_plain _ Hplain)
                Hne Hword) as Hfind.
  rewrite app_nil_r in Hfind. specialize (Hfind Hahead).
  cbn [replace_named]. unfold regex_replace_first. rewrite Hfind. reflexivity.
Qed.

Lemma replace_named_more_fuel (fuel fuel' : nat) :
  forall text names r,
    replace_named fuel text names = Some r -> (fuel <= fuel')%nat ->
    replace_named fuel' text names = Some r.
Proof.
  revert fuel'. induction fuel as [|fuel IH]; intros fuel' text names r; [discriminate|].
  destruct fuel' as [|fuel']; [lia|]. cbn [replace_named].
  destruct (regex_search text) as [[[? ?] ?]|]; [|auto].
  intros Hrun Hle. apply IH; [exact Hrun | lia].
Qed.

(** The loop of [Prepare] has fuel enough for every text: a run that ends
    with some fuel ends the same way with the fuel [Prepare] gives it. *)
Lemma replace_named_fuel (fuel : nat) (text : list ascii) (names : list (list ascii))
    (r : list (list ascii) * list ascii) :
  replace_named fuel text names = Some r ->
  replace_named (S (length text)) text names = Some r.
Proof.
  intros Hrun.
  destruct (replace_named_total (S (length text)) text names)
    as (found & result & Hfull & _); [lia|].
  pose proof (replace_named_more_fuel _ (fuel + S (length text)) _ _ _ Hrun
                ltac:(lia)) as H1.
  pose proof (replace_named_more_fuel _ (fuel + S (length text)) _ _ _ Hfull
                ltac:(lia)) as H2.
  rewrite Hfull. congruence.
Qed.

Lemma where_clause_cons (cPair : string * DatabaseBind)
    (rest : list (string * DatabaseBind)) (idx : nat) :
  (where_clause (cPair :: rest) idx).1
  = clause cPair.1 idx :: (where_clause rest (S idx)).1.
Proof. cbn [where_clause]. destruct (where_clause rest (S idx)). reflexivity. Qed.

Lemma chars_clause (column : string) (idx : nat) :
  chars (clause column idx)
  = ("`"%char :: chars column ++ chars "` = ") ++ ":"%char :: chars (pretty idx).
Proof.
  unfold clause. rewrite !chars_app. cbn. rewrite <- !app_assoc. reflexivity.
Qed.

Lemma chars_marked (column : string) :
  chars (marked column) = ("`"%char :: chars column ++ chars "` = ") ++ ["?"%char].
Proof.
  unfold marked. rewrite !chars_app. cbn. rewrite <- !app_assoc. reflexivity.
Qed.

Lemma plain_marked (column : string) : name_ok column -> plain (chars (marked column)).
Proof.
  intros Hname. rewrite chars_marked. cbn.
  constructor; [discriminate|]. rewrite <- app_assoc. apply Forall_app. split.
  - eapply Forall_impl; [exact Hname|]. intros ch [Hch _]. exact Hch.
  - cbn. repeat (constructor; [discriminate|]). constructor.
Qed.

Lemma plain_Join_marked (columns : list string) (sep : string) :
  Forall name_ok columns -> plain (chars sep) ->
  plain (chars (Join (marked <$> columns) sep)).
Proof.
  intros Hnames Hsep. induction Hnames as [|column columns Hname Hnames IH].
  - constructor.
  - destruct columns as [|column' columns].
    + apply plain_marked. exact Hname.
    + rewrite !fmap_cons, Join_cons, !chars_app. rewrite <- !fmap_cons.
      apply Forall_app. split; [apply plain_marked; exact Hname|].
      apply Forall_app. split; [exact Hsep | exact IH].
Qed.

(** The loop of [Prepare] on the clauses of some columns, joined by [sep]:
    one round for each clause puts a parameter marker for its named
    parameter. *)
Lemma replace_named_clauses (sep : string) (ch0 : ascii) (sep' : list ascii) :
  chars sep = ch0 :: sep' -> is_param_char ch0 = false -> plain (chars sep) ->
  forall (l : list (string * DatabaseBind)) (idx fuel : nat)
         (text0 rest : list ascii) (names : list (list ascii)),
    l <> [] -> Forall (fun cv => name_ok cv.1) l ->
    plain text0 -> no_word_ahead rest ->
    exists names',
      replace_named (length l + fuel)
        (text0 ++ chars (Join (where_clause l idx).1 sep) ++ rest) names
      = replace_named fuel
          (text0 ++ chars (Join (marked <$> l.*1) sep) ++ rest) names'.
Proof.
  intros Hsep Hch0 Hplain_sep l.
  induction l as [|cv l IH]; intros idx fuel text0 rest names Hne Hnames Hplain Hrest;
    [congruence|].
  apply Forall_cons in Hnames as [Hname Hnames].
  destruct (pretty_nat_word idx) as [Hdigits Hword].
  assert (Hplain0 : plain (text0 ++ "`"%char :: chars cv.1 ++ chars "` = ")).
  { apply Forall_app. split; [exact Hplain|].
    constructor; [discriminate|]. apply Forall_app. split.
    - eapply Forall_impl; [exact Hname|]. intros ch [Hch _]. exact Hch.
    - cbn. repeat (constructor; [discriminate|]). constructor. }
  rewrite where_clause_cons.
  destruct l as [|cv' l].
  - cbn [where_clause fst fmap list_fmap Join length Nat.add].
    rewrite chars_clause, chars_marked. rewrite <- !app_assoc.
    rewrite (app_assoc text0). cbn [app].
    rewrite (replace_named_step fuel _ _ rest names Hplain0 Hdigits Hword Hrest).
    eexists. rewrite <- app_assoc. reflexivity.
  - rewrite where_clause_cons, Join_cons, <- where_clause_cons.
    rewrite !fmap_cons, Join_cons, <- !fmap_cons.
    rewrite !chars_app, chars_clause, chars_marked. rewrite <- !app_assoc.
    rewrite (app_assoc text0). cbn [app length Nat.add].
    rewrite (replace_named_step _ _ _ _ names Hplain0 Hdigits Hword)
      by (rewrite Hsep; cbn; rewrite Hch0; reflexivity).
    destruct (IH (S idx) fuel
                 ((text0 ++ "`"%char :: chars cv.1 ++ chars "` = ")
                  ++ "?"%char :: chars sep)
                 rest (names ++ [chars (pretty idx)]))
      as [names' Hrun]; [discriminate | exact Hnames | | exact Hrest |].
    { apply Forall_app. split; [exact Hplain0|].
      constructor; [discriminate | exact Hplain_sep]. }
    exists names'.
    rewrite <- !app_assoc in Hrun. cbn [app length Nat.add] in Hrun.
    rewrite <- !app_assoc in Hrun.
    rewrite <- !app_assoc. cbn [app]. rewrite <- !app_assoc. exact Hrun.
Qed.

End StatementText.

Section StatementParsing.
Import DatabaseQueryMariaDB DatabaseMariaDB.

Lemma strip_prefix_app (prefix s : list ascii) :
  strip_prefix prefix (prefix ++ s) = Some s.
Proof.
  induction prefix as [|p prefix IH]; [reflexivity|].
  cbn. rewrite Ascii.eqb_refl. exact IH.
Qed.

Lemma read_identifier_app (name rest : list ascii) :
  Forall (fun ch => ch <> "`"%char) name ->
  read_identifier (name ++ "`"%char :: rest) = Some (name, rest).
Proof.
  induction 1 as [|ch name Hch _ IH]; [reflexivity|].
  cbn [app read_identifier].
  destruct (Ascii.eqb ch "`") eqn:Heq; [apply Ascii.eqb_eq in Heq; contradiction|].
  rewrite IH. reflexivity.
Qed.

Lemma name_ok_quoted (name : string) :
  name_ok name -> Forall (fun ch => ch <> "`"%char) (chars name).
Proof. intros Hname. eapply Forall_impl; [exact Hname|]. intros ch (_ & Hch & _). exact Hch. Qed.

Lemma name_ok_plain (name : string) : name_ok name -> plain (chars name).
Proof. intros Hname. eapply Forall_impl; [exact Hname|]. intros ch [Hch _]. exact Hch. Qed.

Lemma read_assignment_marked (column : string) (rest : list ascii) :
  name_ok column ->
  read_assignment (chars (marked column) ++ rest) = Some (column, rest).
Proof.
  intros Hname. unfold read_assignment, marked. rewrite !chars_app, <- !app_assoc.
  rewrite strip_prefix_app. cbn [mbind option_bind].
  change (chars "` = ?") with ("`"%char :: chars " = ?"). cbn [app].
  rewrite (read_identifier_app _ _ (name_ok_quoted _ Hname)). cbn [mbind option_bind].
  rewrite strip_prefix_app. cbn [mbind option_bind].
  rewrite String.string_of_list_ascii_of_string. reflexivity.
Qed.

Lemma length_Join_marked (columns : list string) (sep : string) :
  (length columns <= length (chars (Join (marked <$> columns) sep)))%nat.
Proof.
  induction columns as [|column columns IH]; [cbn; lia|].
  destruct columns as [|column' columns].
  - cbn [fmap list_fmap Join]. rewrite chars_marked. cbn [app length]. lia.
  - rewrite !fmap_cons, Join_cons, <- !fmap_cons, !chars_app, !length_app.
    rewrite chars_marked. cbn [app length] in *. lia.
Qed.

(** The server reads back the columns of clauses joined by [sep], when
    the text behind them does not go on with [sep]. *)
Lemma read_assignments_marked (sep : string) (rest : list ascii) :
  strip_prefix (chars sep) rest = None ->
  forall (columns : list string) (fuel : nat),
    columns <> [] -> Forall name_ok columns -> (length columns <= fuel)%nat ->
    read_assignments fuel (chars sep) (chars (Join (marked <$> columns) sep) ++ rest)
    = Some (columns, rest).
Proof.
  intros Hrest columns.
  induction columns as [|column columns IH]; intros fuel Hne Hnames Hfuel; [congruence|].
  apply Forall_cons in Hnames as [Hname Hnames].
  destruct fuel as [|fuel]; [cbn in Hfuel; lia|]. cbn [length] in Hfuel.
  cbn [read_assignments].
  destruct columns as [|column' columns].
  - cbn [fmap list_fmap Join].
    rewrite (read_assignment_marked _ _ Hname). cbn [mbind option_bind].
    rewrite Hrest. reflexivity.
  - rewrite !fmap_cons, Join_cons, <- !fmap_cons, !chars_app, <- !app_assoc.
    rewrite (read_assignment_marked _ _ Hname). cbn [mbind option_bind].
    rewrite strip_prefix_app.
    rewrite IH; [reflexivity | discriminate | exact Hnames | lia].
Qed.

(** The text of an update as the server gets it, read back. *)
Lemma sql_parse_update (table : string) (set where_ : list string) :
  name_ok table -> set <> [] -> where_ <> [] ->
  Forall name_ok set -> Forall name_ok where_ ->
  sql_parse (chars "UPDATE `" ++ chars table ++ chars "` SET "
             ++ chars (Join (marked <$> set) ", ") ++ chars " WHERE "
             ++ chars (Join (marked <$> where_) " AND ") ++ chars ";")
  = Some (mkPrepared table set where_).
Proof.
  intros Htable Hset Hwhere Hnames_set Hnames_where. unfold sql_parse.
  set (text := _ ++ _).
  assert (Hlen : (length set <= length text /\ length where_ <= length text)%nat).
  { unfold text. rewrite !length_app.
    pose proof (length_Join_marked set ", ").
    pose proof (length_Join_marked where_ " AND "). lia. }
  destruct Hlen as [Hlen_set Hlen_where].
  revert Hlen_set Hlen_where. generalize (length text). intros fuel Hfuel_set Hfuel_where. unfold text. clear text.
  rewrite strip_prefix_app. cbn [mbind option_bind].
  change (chars "` SET ") with ("`"%char :: chars " SET "). cbn [app].
  rewrite (read_identifier_app _ _ (name_ok_quoted _ Htable)). cbn [mbind option_bind].
  rewrite strip_prefix_app. cbn [mbind option_bind].
  rewrite (read_assignments_marked ", "); [|reflexivity|assumption..].
  cbn [mbind option_bind].
  rewrite strip_prefix_app. cbn [mbind option_bind].
  rewrite (read_assignments_marked " AND "); [|reflexivity|assumption..].
  cbn [mbind option_bind]. cbn [strip_prefix chars app].
  rewrite String.string_of_list_ascii_of_string. reflexivity.
Qed.

Lemma name_ok_UID : name_ok "UID".
Proof. repeat (constructor; [repeat split; discriminate|]). constructor. Qed.

(** The text [ProcessExplicitUpdate] hands to [Prepare], with every
    clause given its parameter marker. *)
Lemma named_parameters_explicit (table : string) (l : list (string * DatabaseBind))
    (idx uidIdx : nat) :
  name_ok table -> l <> [] -> Forall (fun cv => name_ok cv.1) l ->
  exists mParamNames,
    named_parameters
      (chars ("UPDATE `" +:+ table +:+ "` SET " +:+ Join (where_clause l idx).1 ", "
              +:+ " WHERE `UID` = :" +:+ pretty uidIdx +:+ " AND "
              +:+ Join (where_clause l (S uidIdx)).1 " AND " +:+ ";"))
    = Some (mParamNames,
            chars "UPDATE `" ++ chars table ++ chars "` SET "
            ++ chars (Join (marked <$> l.*1) ", ") ++ chars " WHERE "
            ++ chars (Join (marked <$> "UID" :: l.*1) " AND ") ++ chars ";").
Proof.
  intros Htable Hne Hnames.
  set (uid := ("UID", BindUUID 0%N) : string * DatabaseBind).
  assert (Htext :
    chars ("UPDATE `" +:+ table +:+ "` SET " +:+ Join (where_clause l idx).1 ", "
           +:+ " WHERE `UID` = :" +:+ pretty uidIdx +:+ " AND "
           +:+ Join (where_clause l (S uidIdx)).1 " AND " +:+ ";")
    = (chars "UPDATE `" ++ chars table ++ chars "` SET ")
      ++ chars (Join (where_clause l idx).1 ", ")
      ++ chars " WHERE "
      ++ chars (Join (clause "UID" uidIdx :: (where_clause l (S uidIdx)).1) " AND ")
      ++ chars ";").
  { destruct l as [|cv l]; [congruence|].
    rewrite (where_clause_cons cv l (S uidIdx)), Join_cons, <- where_clause_cons.
    rewrite !chars_app. unfold clause. rewrite !chars_app.
    cbn [String.list_ascii_of_string app]. rewrite <- !app_assoc.
    cbn [String.list_ascii_of_string app]. reflexivity. }
  assert (Hplain0 : plain (chars "UPDATE `" ++ chars table ++ chars "` SET ")).
  { apply Forall_app. split; [cbn; repeat (constructor; [discriminate|]); constructor|].
    apply Forall_app. split; [apply name_ok_plain; exact Htable|].
    cbn. repeat (constructor; [discriminate|]). constructor. }
  assert (Hplain1 : plain (chars (Join (marked <$> l.*1) ", "))).
  { apply plain_Join_marked; [apply Forall_fmap; exact Hnames|].
    cbn. repeat (constructor; [discriminate|]). constructor. }
  assert (Hplain2 : plain (chars (Join (marked <$> "UID" :: l.*1) " AND "))).
  { apply plain_Join_marked.
    - constructor; [exact name_ok_UID | apply Forall_fmap; exact Hnames].
    - cbn. repeat (constructor; [discriminate|]). constructor. }
  unfold named_parameters.
  destruct (replace_named_clauses ", " ","%char [" "%char] eq_refl eq_refl
              ltac:(cbn; repeat (constructor; [discriminate|]); constructor)
              l idx (length (uid :: l) + 1)%nat
              (chars "UPDATE `" ++ chars table ++ chars "` SET ")
              (chars " WHERE "
               ++ chars (Join (clause "UID" uidIdx :: (where_clause l (S uidIdx)).1) " AND ")
               ++ chars ";")
              [] Hne Hnames Hplain0 eq_refl) as [names1 Hrun1].
  destruct (replace_named_clauses " AND " " "%char (chars "AND ") eq_refl eq_refl
              ltac:(cbn; repeat (constructor; [discriminate|]); constructor)
              (uid :: l) uidIdx 1%nat
              ((chars "UPDATE `" ++ chars table ++ chars "` SET ")
               ++ chars (Join (marked <$> l.*1) ", ") ++ chars " WHERE ")
              (chars ";") names1 ltac:(discriminate)
              ltac:(constructor; [exact name_ok_UID | exact Hnames]))
    as [names2 Hrun2].
  { apply Forall_app. split; [exact Hplain0|].
    apply Forall_app. split; [exact Hplain1|].
    cbn. repeat (constructor; [discriminate|]). constructor. }
  { reflexivity. }
  exists names2. rewrite Htext. eapply replace_named_fuel.
  rewrite Hrun1.
  rewrite where_clause_cons in Hrun2. cbn [fst uid] in Hrun2.
  rewrite <- !app_assoc in Hrun2. rewrite <- !app_assoc.
  rewrite Hrun2. cbn [replace_named].
  rewrite regex_search_plain; [reflexivity|].
  repeat (apply Forall_app; split); try assumption;
    cbn; repeat (constructor; [discriminate|]); try constructor.
  apply name_ok_plain; exact Htable.
Qed.

End StatementParsing.

Section ExplicitUpdate.
Import DatabaseMariaDB.

Lemma expected_for_length e l w : expected_for e l = Some w -> length w = length l.
Proof.
  revert w. induction l as [|cv l IH]; simpl; intros w.
  - intros [= <-]. reflexivity.
  - destruct (e !! cv.1) as [v|]; simpl; [|discriminate].
    destruct (expected_for e l) as [vs|]; simpl; [|discriminate].
    intros [= <-]. simpl. f_equal. apply IH. reflexivity.
Qed.

Lemma expected_for_fst e l w : expected_for e l = Some w -> w.*1 = l.*1.
Proof.
  revert w. induction l as [|cv l IH]; simpl; intros w.
  - intros [= <-]. reflexivity.
  - destruct (e !! cv.1) as [v|]; simpl; [|discriminate].
    destruct (expected_for e l) as [vs|]; simpl; [|discriminate].
    intros [= <-]. simpl. f_equal. apply IH. reflexivity.
Qed.

(** The where clause pairs every changed column with its expected
    value. *)
Lemma expected_for_lookup e l w :
  expected_for e l = Some w ->
  Forall2 (fun cv cw => cw.1 = cv.1 /\ e !! cv.1 = Some cw.2) l w.
Proof.
  revert w. induction l as [|cv l IH]; simpl; intros w.
  - intros [= <-]. constructor.
  - destruct (e !! cv.1) as [v|] eqn:Hv; simpl; [|discriminate].
    destruct (expected_for e l) as [vs|]; simpl; [|discriminate].
    intros [= <-]. constructor; [simpl; auto | apply IH; reflexivity].
Qed.

(** A changed column without an expected value. *)
Lemma expected_for_None e l :
  expected_for e l = None <-> exists cv, cv ∈ l /\ e !! cv.1 = None.
Proof.
  induction l as [|cv l IH]; simpl.
  - split; [discriminate|]. intros (cv & Hin & _). apply elem_of_nil in Hin as [].
  - destruct (e !! cv.1) as [v|] eqn:Hv; simpl.
    + destruct (expected_for e l) as [vs|]; simpl.
      * split; [discriminate|]. intros (cv' & Hin & Hnone).
        apply elem_of_cons in Hin as [->|Hin]; [congruence|].
        destruct IH as [_ IH]. discriminate IH. eauto.
      * split; [|reflexivity]. intros _. destruct IH as [IH _].
        destruct (IH eq_refl) as (cv' & Hin & Hnone). exists cv'. split; [right|]; auto.
    + split; [|reflexivity]. intros _. exists cv. split; [left | exact Hv].
Qed.

(** Expected values of columns that are not changed play no part. *)
Lemma expected_for_ext e1 e2 l :
  (forall cv, cv ∈ l -> e1 !! cv.1 = e2 !! cv.1) ->
  expected_for e1 l = expected_for e2 l.
Proof.
  induction l as [|cv l IH]; simpl; intros Hagree; [reflexivity|].
  rewrite (Hagree cv) by left. rewrite IH; [reflexivity|].
  intros cv' Hin. apply Hagree. right. exact Hin.
Qed.

Lemma update_clause_spec e l idx :
  match expected_for e l with
  | Some _ => exists clauses, update_clause e l idx = Some (clauses, (idx + length l)%nat)
  | None => update_clause e l idx = None
  end.
Proof.
  revert idx. induction l as [|cv l IH]; simpl; intros idx.
  - exists []. rewrite Nat.add_0_r. reflexivity.
  - destruct (e !! cv.1) as [v|]; simpl; [|reflexivity].
    specialize (IH (S idx)).
    destruct (expected_for e l) as [vs|]; simpl.
    + destruct IH as [cl ->]. simpl. eexists. f_equal. f_equal. lia.
    + rewrite IH. reflexivity.
Qed.

Lemma where_clause_spec l idx :
  exists clauses, where_clause l idx = (clauses, (idx + length l)%nat).
Proof.
  revert idx. induction l as [|cv l IH]; simpl; intros idx.
  - exists []. rewrite Nat.add_0_r. reflexivity.
  - destruct (IH (S idx)) as [cl ->]. eexists. f_equal. lia.
Qed.

(** With an expected value for every changed column the update clause
    is made of the same clauses as the where clause. *)
Lemma update_clause_where e l w idx :
  expected_for e l = Some w ->
  update_clause e l idx = Some ((where_clause l idx).1, (idx + length l)%nat).
Proof.
  revert w idx. induction l as [|cv l IH]; intros w idx; simpl.
  - intros _. rewrite Nat.add_0_r. reflexivity.
  - destruct (e !! cv.1) as [v|]; simpl; [|discriminate].
    destruct (expected_for e l) as [vs|] eqn:Hvs; simpl; [|discriminate].
    intros _. rewrite (IH vs (S idx) eq_refl). simpl.
    destruct (where_clause l (S idx)). simpl. do 2 f_equal. lia.
Qed.

Lemma update_clause_ext e1 e2 l idx :
  (forall cv, cv ∈ l -> e1 !! cv.1 = e2 !! cv.1) ->
  update_clause e1 l idx = update_clause e2 l idx.
Proof.
  revert idx. induction l as [|cv l IH]; simpl; intros idx Hagree; [reflexivity|].
  rewrite (Hagree cv) by left. rewrite IH; [reflexivity|].
  intros cv' Hin. apply Hagree. right. exact Hin.
Qed.

Lemma bind_expected_ext e1 e2 l idx q :
  (forall cv, cv ∈ l -> e1 !! cv.1 = e2 !! cv.1) ->
  bind_expected e1 l idx q = bind_expected e2 l idx q.
Proof.
  revert idx q. induction l as [|cv l IH]; simpl; intros idx q Hagree; [reflexivity|].
  rewrite (Hagree cv) by left. destruct (e2 !! cv.1) as [v|]; [|reflexivity].
  destruct (Bind idx v q) as [[] q']; [|reflexivity].
  apply IH. intros cv' Hin. apply Hagree. right. exact Hin.
Qed.

(** Expected values of columns that are not changed play no part in the
    query. *)
Lemma explicit_query_ext record e1 e2 changes c :
  (forall col, is_Some (changes !! col) -> e1 !! col = e2 !! col) ->
  explicit_query (mkExplicitUpdate record e1 changes) c
  = explicit_query (mkExplicitUpdate record e2 changes) c.
Proof.
  intros Hagree. unfold explicit_query. cbn [GetRecord GetExpectedValues GetChanges].
  assert (Hl : forall cv, cv ∈ map_to_list changes -> e1 !! cv.1 = e2 !! cv.1).
  { intros [col v] Hin%elem_of_map_to_list. apply Hagree. eauto. }
  case_bool_decide; [reflexivity|].
  rewrite (update_clause_ext e1 e2 _ _ Hl).
  destruct (update_clause e2 (map_to_list changes) 0) as [[updateClause idx]|];
    [|reflexivity].
  cbn [mbind option_bind]. destruct (where_clause _ _) as [whereClause idx'].
  destruct (Prepare _ c) as [query|]; [|reflexivity]. cbn [mbind option_bind].
  destruct (bind_changes _ 0 query) as [[query' idx'']|]; [|reflexivity].
  cbn [mbind option_bind]. destruct (Bind idx'' _ query') as [ok query''].
  destruct (negb ok); [reflexivity|].
  rewrite (bind_expected_ext e1 e2 _ _ _ Hl). reflexivity.
Qed.

(** Binding the next free position. *)
Lemma Bind_next sql names st (done : list DatabaseBind) (k : nat) (v : DatabaseBind) :
  Bind (length done) v (mkQuery sql names st ((Some <$> done) ++ replicate (S k) None))
  = (true, mkQuery sql names st ((Some <$> (done ++ [v])) ++ replicate k None)).
Proof.
  unfold Bind. simpl.
  rewrite bool_decide_eq_true_2.
  - f_equal. f_equal.
    rewrite insert_app_r_alt by (rewrite length_fmap; lia).
    rewrite length_fmap, Nat.sub_diag. simpl.
    rewrite fmap_app, <- app_assoc. reflexivity.
  - rewrite length_app, length_fmap. simpl. lia.
Qed.

Lemma bind_changes_spec sql names st (l : list (string * DatabaseBind))
    (done : list DatabaseBind) (k : nat) :
  bind_changes l (length done)
    (mkQuery sql names st ((Some <$> done) ++ replicate (length l + k) None))
  = Some (mkQuery sql names st ((Some <$> (done ++ l.*2)) ++ replicate k None),
          (length done + length l)%nat).
Proof.
  revert done. induction l as [|cv l IH]; intros done.
  - simpl. rewrite app_nil_r, Nat.add_0_r. reflexivity.
  - cbn [bind_changes length Nat.add]. rewrite Bind_next.
    replace (S (length done)) with (length (done ++ [cv.2])) by (rewrite length_app; simpl; lia).
    rewrite IH. rewrite <- app_assoc. simpl. f_equal. f_equal.
    rewrite length_app. simpl. lia.
Qed.

Lemma bind_expected_spec sql names st e (l w : list (string * DatabaseBind))
    (done : list DatabaseBind) (k : nat) :
  expected_for e l = Some w ->
  bind_expected e l (length done)
    (mkQuery sql names st ((Some <$> done) ++ replicate (length l + k) None))
  = Some (mkQuery sql names st ((Some <$> (done ++ w.*2)) ++ replicate k None),
          (length done + length l)%nat).
Proof.
  revert done w. induction l as [|cv l IH]; intros done w.
  - simpl. intros [= <-]. simpl. rewrite app_nil_r, Nat.add_0_r. reflexivity.
  - cbn [bind_expected expected_for length Nat.add].
    destruct (e !! cv.1) as [v|]; [|discriminate]. cbn [mbind option_bind].
    destruct (expected_for e l) as [vs|] eqn:Hvs; [|discriminate]. cbn [mbind option_bind].
    intros [= <-]. rewrite Bind_next.
    replace (S (length done)) with (length (done ++ [v])) by (rewrite length_app; simpl; lia).
    rewrite (IH _ vs eq_refl). rewrite <- app_assoc. simpl. f_equal. f_equal.
    rewrite length_app. simpl. lia.
Qed.

Lemma mapM_id_Some {A} (l : list A) : mapM id (Some <$> l) = Some l.
Proof.
  apply mapM_Some. apply Forall2_fmap_l. apply Forall_Forall2_diag.
  apply Forall_true. reflexivity.
Qed.

(** The statement behind a query prepared from the text of an explicit
    update, its parameter markers holding the new values, the UUID and the
    expected values. *)
Lemma statement_of_bound sql names t (l w : list (string * DatabaseBind))
    (uid : DatabaseBind) :
  w.*1 = l.*1 ->
  statement_of (mkQuery sql names (mkPrepared t l.*1 ("UID" :: l.*1))
                        (Some <$> ((l.*2 ++ [uid]) ++ w.*2)))
  = Some (SqlUpdate t l uid w).
Proof.
  intros Hw. unfold statement_of. cbn [q_params q_statement p_set p_where p_table].
  rewrite mapM_id_Some. cbn [mbind option_bind].
  rewrite <- app_assoc.
  replace (length l.*1) with (length l.*2) by (rewrite !length_fmap; reflexivity).
  rewrite drop_app_length, take_app_length. cbn [app zip zip_with].
  change (String.eqb "UID" "UID") with true. cbv iota.
  rewrite <- Hw at 2. rewrite !zip_fst_snd. reflexivity.
Qed.

(** [Prepare] on the text of an explicit update: the server is asked for
    the statement with the changed columns in its [SET] clause and the
    [UID] and the changed columns in its [WHERE] clause. *)
Lemma Prepare_explicit (table : string) (l : list (string * DatabaseBind))
    (idx uidIdx : nat) (c : MYSQL) :
  name_ok table -> l <> [] -> Forall (fun cv => name_ok cv.1) l ->
  exists sql mParamNames,
    Prepare ("UPDATE `" +:+ table +:+ "` SET " +:+ Join (where_clause l idx).1 ", "
             +:+ " WHERE `UID` = :" +:+ pretty uidIdx +:+ " AND "
             +:+ Join (where_clause l (S uidIdx)).1 " AND " +:+ ";") c
    = if link_ok c && bool_decide (is_Some (session c !! table))
      then Some (mkQuery sql mParamNames (mkPrepared table l.*1 ("UID" :: l.*1))
                         (replicate (length l + S (length l)) None))
      else None.
Proof.
  intros Htable Hne Hnames. unfold Prepare.
  destruct (named_parameters_explicit table l idx uidIdx Htable Hne Hnames)
    as [mParamNames ->].
  cbn [mbind option_bind]. unfold mysql_stmt_prepare.
  rewrite sql_parse_update;
    [| exact Htable | destruct l; [congruence | discriminate] | discriminate
     | apply Forall_fmap; exact Hnames
     | constructor; [exact name_ok_UID | apply Forall_fmap; exact Hnames]].
  eexists _, mParamNames.
  destruct (link_ok c); [|reflexivity]. cbn [negb andb mbind option_bind p_table].
  case_bool_decide; [|reflexivity].
  cbn [mbind option_bind]. unfold param_count.
  cbn [p_set p_where length]. rewrite !length_fmap. reflexivity.
Qed.

(** [ProcessExplicitUpdate] in one piece: it fails without touching the
    server when nothing is changed, when a changed column has no expected
    value or when the statement cannot be prepared; otherwise it runs the
    statement of the update and succeeds when one row was affected. *)
Lemma ProcessExplicitUpdate_spec (update : DBExplicitUpdate) (c : MYSQL) :
  names_ok update ->
  ProcessExplicitUpdate update c =
  if bool_decide (map_to_list (GetChanges update) = []) then (false, c)
  else
    match explicit_statement update with
    | None => (false, c)
    | Some s =>
      if link_ok c && bool_decide (is_Some (session c !! o_table (GetRecord update)))
      then match run_statement s c with
           | (None, c') => (false, c')
           | (Some n, c') => (n =? 1, c')
           end
      else (false, c)
    end.
Proof.
  intros [Htable Hcolumns].
  assert (Hnames : Forall (fun cv => name_ok cv.1) (map_to_list (GetChanges update))).
  { apply Forall_forall. intros [col v] Hin%elem_of_map_to_list.
    apply Hcolumns. eauto. }
  clear Hcolumns.
  unfold ProcessExplicitUpdate, explicit_query, explicit_statement.
  remember (map_to_list (GetChanges update)) as l eqn:Hl. clear Hl.
  remember (GetExpectedValues update) as e eqn:He. clear He.
  destruct (decide (l = [])) as [->|Hne]; [reflexivity|].
  rewrite (bool_decide_eq_false_2 (length l = 0%nat)) by (destruct l; simpl; congruence).
  rewrite (bool_decide_eq_false_2 (l = [])) by exact Hne.
  pose proof (update_clause_spec e l 0) as Huc.
  destruct (expected_for e l) as [w|] eqn:Hw; cbn [mbind option_bind].
  2:{ rewrite Huc. reflexivity. }
  clear Huc. rewrite (update_clause_where e l w 0 Hw). cbn [mbind option_bind Nat.add].
  destruct (where_clause l (S (length l))) as [whereClause idx'] eqn:Hwhere.
  replace whereClause with (where_clause l (S (length l))).1 by (rewrite Hwhere; reflexivity).
  destruct (Prepare_explicit (o_table (GetRecord update)) l 0 (length l) c
              Htable Hne Hnames) as (sql & mParamNames & ->).
  destruct (link_ok c && bool_decide (is_Some (session c !! o_table (GetRecord update))));
    [|reflexivity].
  cbn [mbind option_bind].
  change (replicate (length l + S (length l)) None)
    with ((Some <$> ([] : list DatabaseBind))
          ++ replicate (length l + S (length l)) (@None DatabaseBind)).
  change 0%nat with (length ([] : list DatabaseBind)) at 1.
  rewrite bind_changes_spec. cbn [mbind option_bind app length Nat.add].
  replace (length l) with (length l.*2) at 1 by apply length_fmap.
  rewrite Bind_next. cbn [negb].
  replace (S (length l)) with (length (l.*2 ++ [BindUUID (o_uuid (GetRecord update))]))
    by (rewrite length_app, length_fmap; simpl; lia).
  replace (replicate (length l) None) with (replicate (length l + 0) (@None DatabaseBind))
    by (f_equal; lia).
  rewrite (bind_expected_spec _ _ _ e l w _ 0 Hw). cbn [mbind option_bind].
  unfold Execute. simpl replicate. rewrite app_nil_r.
  rewrite statement_of_bound by (eapply expected_for_fst; eauto).
  reflexivity.
Qed.

(** A changed column without an expected value: the function returns
    before it prepares anything. *)
Lemma ProcessExplicitUpdate_missing (update : DBExplicitUpdate) (c : MYSQL) :
  expected_for (GetExpectedValues update) (map_to_list (GetChanges update)) = None ->
  ProcessExplicitUpdate update c = (false, c).
Proof.
  intros Hmiss. unfold ProcessExplicitUpdate, explicit_query.
  case_bool_decide; [reflexivity|].
  pose proof (update_clause_spec (GetExpectedValues update)
                (map_to_list (GetChanges update)) 0) as Huc.
  rewrite Hmiss in Huc. rewrite Huc. reflexivity.
Qed.


(** The expected values of the changed columns, column by column. *)
Lemma expected_for_Forall2 e l w :
  Forall2 (fun cv cw => cw.1 = cv.1 /\ e !! cv.1 = Some cw.2) l w ->
  expected_for e l = Some w.
Proof.
  induction 1 as [|cv [col v] l w [Hcol Hv] _ IH]; [reflexivity|].
  cbn [fst snd] in Hcol, Hv. subst col.
  cbn [expected_for]. rewrite Hv, IH. reflexivity.
Qed.

Lemma map_to_list_nil {A} (m : gmap string A) : m <> ∅ -> map_to_list m <> [].
Proof. intros Hne Hnil. apply Hne. apply map_to_list_empty_iff. exact Hnil. Qed.

End ExplicitUpdate.

Section ExplicitUpdateClaims.
Import DatabaseMariaDB.

(** C10: the where clause of an explicit update is built from the
    expected values of the changed columns only.  Two sets of expected
    values that agree on the changed columns give the same outcome, so an
    expected value for a column that is not changed is never checked; a
    changed column without an expected value makes the update fail with the
    connection untouched, no statement having been run.  When every changed
    column has its expected value, the text the code writes and prepares
    makes the server run the [UPDATE] whose where clause pairs the UUID
    with exactly the changed columns and their expected values, and the
    update succeeds when that statement affects one row; so an update that
    succeeds has run this statement with one row affected; this for names
    of the table and of the changed columns that hold no backtick,
    colon or percent sign, so that the text carries them as they are. *)
Theorem explicit_update_where_clause (record : DBObject)
    (expected1 expected2 changes : gmap string DatabaseBind) (c : MYSQL) :
  (forall col, is_Some (changes !! col) -> expected1 !! col = expected2 !! col) ->
  ProcessExplicitUpdate (mkExplicitUpdate record expected1 changes) c
  = ProcessExplicitUpdate (mkExplicitUpdate record expected2 changes) c /\
  ((exists col, is_Some (changes !! col) /\ expected1 !! col = None) ->
   ProcessExplicitUpdate (mkExplicitUpdate record expected1 changes) c = (false, c)) /\
  (names_ok (mkExplicitUpdate record expected1 changes) ->
   (forall where_,
       changes <> ∅ ->
       Forall2 (fun cv cw => cw.1 = cv.1 /\ expected1 !! cv.1 = Some cw.2)
               (map_to_list changes) where_ ->
       link_ok c = true -> is_Some (session c !! o_table record) ->
       ProcessExplicitUpdate (mkExplicitUpdate record expected1 changes) c
       = match run_statement (SqlUpdate (o_table record) (map_to_list changes)
                                        (BindUUID (o_uuid record)) where_) c with
         | (None, c') => (false, c')
         | (Some n, c') => (n =? 1, c')
         end) /\
   (forall c',
       ProcessExplicitUpdate (mkExplicitUpdate record expected1 changes) c = (true, c') ->
       exists where_,
         Forall2 (fun cv cw => cw.1 = cv.1 /\ expected1 !! cv.1 = Some cw.2)
                 (map_to_list changes) where_ /\
         run_statement (SqlUpdate (o_table record) (map_to_list changes)
                                  (BindUUID (o_uuid record)) where_) c
         = (Some 1, c'))).
Proof.
  intros Hagree. split; [|split; [|intros Hnames; split]].
  - unfold ProcessExplicitUpdate.
    rewrite (explicit_query_ext record expected1 expected2 changes c Hagree).
    reflexivity.
  - intros (col & [v Hcol] & Hnone).
    apply ProcessExplicitUpdate_missing. cbn [GetExpectedValues GetChanges].
    apply expected_for_None. exists (col, v). split; [|exact Hnone].
    apply elem_of_map_to_list. exact Hcol.
  - intros where_ Hne Hwhere Hlink Htable.
    rewrite (ProcessExplicitUpdate_spec _ _ Hnames). unfold explicit_statement. simpl.
    rewrite (bool_decide_eq_false_2 _ (map_to_list_nil _ Hne)).
    rewrite (expected_for_Forall2 _ _ _ Hwhere). simpl.
    rewrite Hlink, (bool_decide_eq_true_2 _ Htable). reflexivity.
  - intros c'. rewrite (ProcessExplicitUpdate_spec _ _ Hnames).
    unfold explicit_statement. simpl.
    case_bool_decide; [discriminate|].
    destruct (expected_for expected1 (map_to_list changes)) as [w|] eqn:Hw;
      simpl; [|discriminate].
    destruct (link_ok c && _); [|discriminate].
    destruct (run_statement _ c) as [[n|] c2] eqn:Hrun; [|discriminate].
    intros [= Hn <-]. apply Z.eqb_eq in Hn as ->.
    exists w. split; [apply expected_for_lookup; exact Hw | exact Hrun].
Qed.

End ExplicitUpdateClaims.

(** The update that expects [Hp = 100] succeeds on the sample row, and so
    does the one that also carries a wrong expectation about [Mp], a column
    it does not change: both prepare the same text and run the same
    statement. *)
Example unchanged_column_not_checked :
  (DatabaseMariaDB.ProcessExplicitUpdate Samples.lose_hp Samples.idle_connection).1 = true /\
  DatabaseMariaDB.ProcessExplicitUpdate Samples.lose_hp_wrong_mp Samples.idle_connection
  = DatabaseMariaDB.ProcessExplicitUpdate Samples.lose_hp Samples.idle_connection /\
  DatabaseMariaDB.q_sql
    <$> DatabaseMariaDB.explicit_query Samples.lose_hp_wrong_mp Samples.idle_connection
  = Some "UPDATE `Character` SET `Hp` = :0 WHERE `UID` = :1 AND `Hp` = :2;" /\
  DatabaseMariaDB.statement_of
    <$> DatabaseMariaDB.explicit_query Samples.lose_hp_wrong_mp Samples.idle_connection
  = Some (Some (DatabaseMariaDB.SqlUpdate "Character"
                  [("Hp", DatabaseMariaDB.BindInt 80)] (DatabaseMariaDB.BindUUID 7%N)
                  [("Hp", DatabaseMariaDB.BindInt 100)])).
Proof. vm_compute. repeat split. Qed.

Lemma explicit_update_where_clause_witness :
  let record := Samples.character in
  let expected1 := DatabaseMariaDB.GetExpectedValues Samples.lose_hp_wrong_mp in
  let expected2 := DatabaseMariaDB.GetExpectedValues Samples.lose_hp in
  let changes := DatabaseMariaDB.GetChanges Samples.lose_hp in
  let c := Samples.idle_connection in
  (forall col, is_Some (changes !! col) -> expected1 !! col = expected2 !! col) /\
  DatabaseMariaDB.names_ok (DatabaseMariaDB.mkExplicitUpdate record expected1 changes) /\
  DatabaseMariaDB.ProcessExplicitUpdate
    (DatabaseMariaDB.mkExplicitUpdate record expected1 changes) c
  = DatabaseMariaDB.ProcessExplicitUpdate
      (DatabaseMariaDB.mkExplicitUpdate record expected2 changes) c /\
  ((exists col, is_Some (changes !! col) /\ expected1 !! col = None) ->
   DatabaseMariaDB.ProcessExplicitUpdate
     (DatabaseMariaDB.mkExplicitUpdate record expected1 changes) c = (false, c)) /\
  (DatabaseMariaDB.names_ok (DatabaseMariaDB.mkExplicitUpdate record expected1 changes) ->
   (forall where_,
       changes <> ∅ ->
       Forall2 (fun cv cw => cw.1 = cv.1 /\ expected1 !! cv.1 = Some cw.2)
               (map_to_list changes) where_ ->
       DatabaseMariaDB.link_ok c = true ->
       is_Some (DatabaseMariaDB.session c !! DatabaseMariaDB.o_table record) ->
       DatabaseMariaDB.ProcessExplicitUpdate
         (DatabaseMariaDB.mkExplicitUpdate record expected1 changes) c
       = match DatabaseMariaDB.run_statement
                 (DatabaseMariaDB.SqlUpdate (DatabaseMariaDB.o_table record)
                    (map_to_list changes)
                    (DatabaseMariaDB.BindUUID (DatabaseMariaDB.o_uuid record)) where_) c with
         | (None, c') => (false, c')
         | (Some n, c') => (n =? 1, c')
         end) /\
   (forall c',
       DatabaseMariaDB.ProcessExplicitUpdate
         (DatabaseMariaDB.mkExplicitUpdate record expected1 changes) c = (true, c') ->
       exists where_,
         Forall2 (fun cv cw => cw.1 = cv.1 /\ expected1 !! cv.1 = Some cw.2)
                 (map_to_list changes) where_ /\
         DatabaseMariaDB.run_statement
           (DatabaseMariaDB.SqlUpdate (DatabaseMariaDB.o_table record) (map_to_list changes)
              (DatabaseMariaDB.BindUUID (DatabaseMariaDB.o_uuid record)) where_) c
         = (Some 1, c'))).
Proof.
  cbv zeta.
  assert (Hagree : forall col,
             is_Some (DatabaseMariaDB.GetChanges Samples.lose_hp !! col) ->
             DatabaseMariaDB.GetExpectedValues Samples.lose_hp_wrong_mp !! col
             = DatabaseMariaDB.GetExpectedValues Samples.lose_hp !! col).
  { intros col [v Hcol]. simpl in *.
    apply lookup_singleton_Some in Hcol as [<- _].
    vm_compute. reflexivity. }
  split; [exact Hagree|]. split.
  { split.
    - simpl. unfold DatabaseMariaDB.name_ok. simpl.
      repeat (constructor; [repeat split; discriminate|]). constructor.
    - intros col [v Hcol]. simpl in *.
      apply lookup_singleton_Some in Hcol as [<- _].
      unfold DatabaseMariaDB.name_ok. simpl.
      repeat (constructor; [repeat split; discriminate|]). constructor. }
  exact (explicit_update_where_clause Samples.character
           (DatabaseMariaDB.GetExpectedValues Samples.lose_hp_wrong_mp)
           (DatabaseMariaDB.GetExpectedValues Samples.lose_hp)
           (DatabaseMariaDB.GetChanges Samples.lose_hp) Samples.idle_connection
           Hagree).
Defined.

(** ** Operational change-sets *)

Section OperationalChangeSet.
Import DatabaseMariaDB.












End OperationalChangeSet.

(** Two workers run the same explicit update: the first commits, the
    second finds no row to change and its change-set is rolled back. *)
Example explicit_update_contention :
  let first := DatabaseMariaDB.ProcessOperationalChangeSet
                 [DatabaseMariaDB.DBOP_EXPLICIT Samples.lose_hp]
                 (Some Samples.idle_connection) in
  let second := DatabaseMariaDB.ProcessOperationalChangeSet
                  [DatabaseMariaDB.DBOP_EXPLICIT Samples.lose_hp] first.2 in
  first.1 = true /\ second.1 = false /\
  (DatabaseMariaDB.server <$> second.2) = (DatabaseMariaDB.server <$> first.2) /\
  (first.2 ≫= fun c => DatabaseMariaDB.server c !! "Character" ≫= fun t => t !! 7%N
               ≫= fun row => row !! "Hp")
  = Some (DatabaseMariaDB.BindInt 80).
Proof. vm_compute. repeat split. Qed.


(** ** The standard change-set *)

Section StandardChangeSet.
Import DatabaseMariaDB.




(** A one-object delete through [DeleteObjects] is what
    [DeleteSingleObject] does. *)
Lemma DeleteObjects_single (obj : DBObject) (c : MYSQL) :
  DeleteObjects [obj] c = DeleteSingleObject obj c.
Proof.
  unfold DeleteObjects, group_by_table, DeleteSingleObject. cbn [foldl].
  rewrite lookup_empty. cbn [default app]. rewrite insert_empty, map_to_list_singleton.
  cbn [delete_groups existsb fst snd]. rewrite orb_false_r.
  destruct (IsNull (o_uuid obj)); [reflexivity|].
  cbn [fmap list_fmap].
  destruct (run_statement _ c) as [[n|] c1]; reflexivity.
Qed.


End StandardChangeSet.


(** ** Demon boost lots *)

Section DevilBoostLots.
Import DefinitionManager.

Lemma rem_zero_divide (a b : Z) : b <> 0 -> (Z.rem a b =? 0) = true <-> (b | a).
Proof. intros Hb. rewrite Z.eqb_eq. apply Z.rem_divide. exact Hb. Qed.

Lemma lot_applies_divides (count first : Z) :
  first <> 0 \/ count = 0 ->
  ~ (count = - 2 ^ 31 /\ first = -1) ->
  exists applies,
    lot_applies count first = Some applies /\
    (applies = true <-> (count < 100 \/ (100 | first)) /\ (first | count)).
Proof.
  intros Hzero Hmin. unfold lot_applies.
  pose proof (rem_zero_divide first 100 ltac:(lia)) as H100.
  destruct (Z.ltb_spec count 100) as [Hlt|Hge]; cbn [orb].
  - destruct (Z.eqb_spec first count) as [->|Hne].
    + exists true. split; [reflexivity|]. split; [|reflexivity].
      intros _. split; [left; lia | reflexivity].
    + destruct (Z.eqb_spec first 0) as [->|Hf]; cbn [orb]; [lia|].
      assert (Hdef : (count =? - 2 ^ 31) && (first =? -1) = false).
      { apply andb_false_iff.
        destruct (Z.eqb_spec count (- 2 ^ 31)); [|auto].
        destruct (Z.eqb_spec first (-1)); [exfalso; apply Hmin; auto | auto]. }
      rewrite Hdef. eexists. split; [reflexivity|].
      rewrite (rem_zero_divide count first Hf). intuition.
  - destruct (Z.rem first 100 =? 0) eqn:Hr.
    + destruct (Z.eqb_spec first count) as [->|Hne].
      * exists true. split; [reflexivity|]. split; [|reflexivity].
        intros _. split; [right; apply H100; reflexivity | reflexivity].
      * destruct (Z.eqb_spec first 0) as [->|Hf]; cbn [orb]; [lia|].
        destruct (Z.eqb_spec count (- 2 ^ 31)) as [Hc|Hc]; [lia|]. cbn [andb].
        eexists. split; [reflexivity|].
        rewrite (rem_zero_divide count first Hf). intuition.
    + exists false. split; [reflexivity|]. split; [discriminate|].
      intros [[?|Hd] _]; [lia|]. apply H100 in Hd. congruence.
Qed.

Lemma collect_lots_spec (count : Z) (pairs : list (Z * list Z)) :
  forall directFound results,
    Forall (fun lot => (lot.1 <> 0 \/ count = 0) /\
                        ~ (count = - 2 ^ 31 /\ lot.1 = -1)) pairs ->
    exists found,
      collect_lots count pairs directFound results
      = Some (directFound || bool_decide (count ∈ pairs.*1), results ++ found) /\
      forall id, id ∈ found <->
        exists lot, lot ∈ pairs /\ id ∈ lot.2 /\
                     (count < 100 \/ (100 | lot.1)) /\ (lot.1 | count).
Proof.
  induction pairs as [|lot pairs IH]; intros directFound results Hok.
  - exists []. cbn [collect_lots fmap list_fmap]. rewrite app_nil_r.
    rewrite bool_decide_eq_false_2 by (intros H; inversion H). rewrite orb_false_r.
    split; [reflexivity|]. intros id. split; [intros H; inversion H|].
    intros (lot & H & _). inversion H.
  - apply Forall_cons in Hok as [[Hz Hm] Hok].
    cbn [collect_lots].
    destruct (lot_applies_divides count lot.1 Hz Hm) as (applies & -> & Happlies).
    cbn [mbind option_bind].
    destruct (IH (directFound || (lot.1 =? count))
                 (if applies then results ++ lot.2 else results) Hok)
      as (found & Hrun & Hfound).
    rewrite Hrun.
    exists ((if applies then lot.2 else []) ++ found).
    split.
    + f_equal. f_equal.
      * rewrite fmap_cons, <- orb_assoc. f_equal.
        destruct (Z.eqb_spec lot.1 count) as [Heq|Hne]; cbn [orb].
        -- symmetry. apply bool_decide_eq_true. rewrite <- Heq. left.
        -- apply bool_decide_ext. rewrite elem_of_cons. intuition congruence.
      * destruct applies; rewrite <- ?app_assoc; reflexivity.
    + intros id. rewrite elem_of_app, Hfound. split.
      * intros [Hhere|(p & Hp & Hrest)].
        -- destruct applies; [|inversion Hhere].
           exists lot. split; [left|]. split; [exact Hhere | apply Happlies; reflexivity].
        -- exists p. split; [right; exact Hp | exact Hrest].
      * intros (p & Hp & Hid & Happ). apply elem_of_cons in Hp as [->|Hp].
        -- left. apply Happlies in Happ as ->. exact Hid.
        -- right. exists p. auto.
Qed.

(** The lots [GetDevilBoostLotIDs] returns for [count], when no lot has
    the key zero (or [count] is zero) so that every remainder it takes is
    defined: the stack IDs of every lot whose key divides [count], where for
    a count below 100 the count itself must be a key, and from 100 on only
    keys that are multiples of 100 are taken.  So a count below 100 that is
    a key also collects the lots of its proper divisors. *)
Theorem GetDevilBoostLotIDs_spec (mDevilBoostLots : gmap Z (list Z)) (count : Z) :
  mDevilBoostLots !! 0 = None \/ count = 0 ->
  - 2 ^ 31 < count \/ mDevilBoostLots !! (-1) = None ->
  exists results,
    GetDevilBoostLotIDs mDevilBoostLots count = Some results /\
    forall id, id ∈ results <->
      exists first stackIDs,
        mDevilBoostLots !! first = Some stackIDs /\ id ∈ stackIDs /\
        (first | count) /\
        (if count <? 100 then is_Some (mDevilBoostLots !! count) else (100 | first)).
Proof.
  intros Hzero Hmin. unfold GetDevilBoostLotIDs.
  destruct (collect_lots_spec count (map_to_list mDevilBoostLots) false [])
    as (found & Hrun & Hfound).
  { apply Forall_forall. intros [first stackIDs] Hin.
    apply elem_of_map_to_list in Hin. cbn [fst]. split.
    - destruct Hzero as [Hz|Hz]; [left; congruence | right; exact Hz].
    - intros [Hc Hf]. destruct Hmin as [Hm|Hm]; [lia | congruence]. }
  rewrite Hrun. cbn [mbind option_bind orb app].
  assert (Hdirect : bool_decide (count ∈ (map_to_list mDevilBoostLots).*1) = true
                    <-> is_Some (mDevilBoostLots !! count)).
  { rewrite bool_decide_eq_true, list_elem_of_fmap. split.
    - intros ([k v] & -> & Hin). apply elem_of_map_to_list in Hin. eauto.
    - intros [v Hv]. exists (count, v). split; [reflexivity|].
      apply elem_of_map_to_list. exact Hv. }
  eexists. split; [reflexivity|]. intros id.
  destruct (Z.ltb_spec count 100) as [Hlt|Hge]; cbn [andb].
  - destruct (bool_decide (count ∈ (map_to_list mDevilBoostLots).*1)) eqn:Hd; cbn [negb].
    + rewrite Hfound. split.
      * intros ([first stackIDs] & Hin & Hid & _ & Hdiv).
        apply elem_of_map_to_list in Hin. exists first, stackIDs.
        split; [exact Hin|]. split; [exact Hid|]. split; [exact Hdiv|].
        apply Hdirect. reflexivity.
      * intros (first & stackIDs & Hin & Hid & Hdiv & _).
        exists (first, stackIDs). split; [apply elem_of_map_to_list; exact Hin|].
        split; [exact Hid|]. split; [left; exact Hlt | exact Hdiv].
    + split; [intros H; inversion H|].
      intros (first & stackIDs & _ & _ & _ & Hsome).
      apply Hdirect in Hsome. congruence.
  - rewrite Hfound. split.
    + intros ([first stackIDs] & Hin & Hid & [Hlt|H100] & Hdiv); [lia|].
      apply elem_of_map_to_list in Hin. exists first, stackIDs. auto.
    + intros (first & stackIDs & Hin & Hid & Hdiv & H100).
      exists (first, stackIDs). split; [apply elem_of_map_to_list; exact Hin|].
      split; [exact Hid|]. split; [right; exact H100 | exact Hdiv].
Qed.

End DevilBoostLots.

(** Lots for 10, 50 and 200: a count of 50 is a key and takes the lot of
    10 with its own. *)
Lemma GetDevilBoostLotIDs_spec_witness :
  let lots : gmap Z (list Z) := {[ 10 := [1]; 50 := [2]; 200 := [3] ]} in
  exists results,
    DefinitionManager.GetDevilBoostLotIDs lots 50 = Some results /\
    forall id, id ∈ results <->
      exists first stackIDs,
        lots !! first = Some stackIDs /\ id ∈ stackIDs /\
        (first | 50) /\ is_Some (lots !! 50).
Proof.
  cbv zeta.
  apply (GetDevilBoostLotIDs_spec {[ 10 := [1]; 50 := [2]; 200 := [3] ]} 50).
  - left. reflexivity.
  - left. lia.
Defined.

(** ** Zone instances *)

Section ZoneInstances.
Import ServerDataManager.

Lemma instances_ok_empty (mZoneData : gmap Z (gset Z)) : instances_ok mZoneData ∅.
Proof. intros id inst H. rewrite lookup_empty in H. discriminate. Qed.

(** Loading keeps the stored instances sound: whatever is loaded, and
    whether it is accepted or not, every stored instance is still stored
    under its own ID, has as many dynamic map IDs as zone IDs, and names
    only zones that are loaded.  The instances stored before stay; an
    instance that is refused leaves the store as it was. *)
Theorem LoadObject_ServerZoneInstance_sound (loaded : option ServerZoneInstance)
    (definitionManager : option (gset Z)) (mZoneData : gmap Z (gset Z))
    (mZoneInstanceData : gmap Z ServerZoneInstance) :
  instances_ok mZoneData mZoneInstanceData ->
  let r := LoadObject_ServerZoneInstance loaded definitionManager mZoneData
             mZoneInstanceData in
  instances_ok mZoneData r.2 /\
  (forall id inst, mZoneInstanceData !! id = Some inst -> r.2 !! id = Some inst) /\
  (r.1 = false -> r.2 = mZoneInstanceData).
Proof.
  intros Hok. cbv zeta. unfold LoadObject_ServerZoneInstance.
  destruct loaded as [inst|]; [|auto].
  destruct (match definitionManager with
            | Some zones => negb (bool_decide (GetLobbyID inst ∈ zones))
            | None => false
            end); [auto|].
  destruct (Nat.eqb_spec (length (GetZoneIDs inst)) (length (GetDynamicMapIDs inst)))
    as [Hlen|Hlen]; cbn [negb]; [|auto].
  destruct (forallb _ (zip _ _)) eqn:Hall; cbn [negb]; [|auto].
  case_bool_decide as Hdup; [auto|]. cbn [fst snd].
  assert (Hfree : mZoneInstanceData !! GetInstanceID inst = None).
  { destruct (mZoneInstanceData !! GetInstanceID inst) eqn:E;
      [exfalso; apply Hdup; eauto | reflexivity]. }
  split; [|split; [|discriminate]].
  - intros id inst' Hin. destruct (decide (id = GetInstanceID inst)) as [->|Hne].
    + rewrite lookup_insert_eq in Hin. injection Hin as <-.
      split; [reflexivity|]. split; [exact Hlen|].
      apply Forall_forall. intros ids Hids.
      rewrite forallb_forall in Hall. apply Hall, list_elem_of_In, Hids.
    + rewrite lookup_insert_ne in Hin by congruence. apply Hok, Hin.
  - intros id inst' Hin. rewrite lookup_insert_ne by congruence. exact Hin.
Qed.

Lemma exists_from_spec (dynamicMapIDs : list Z) (zoneID dynamicMapID : Z) :
  forall zoneIDs i,
    (forall k, (k < length zoneIDs)%nat -> is_Some (dynamicMapIDs !! (i + k)%nat)) ->
    exists found,
      exists_from zoneIDs i dynamicMapIDs zoneID dynamicMapID = Some found /\
      (found = true <->
       exists k, zoneIDs !! k = Some zoneID /\
                 (dynamicMapID = 0 \/ dynamicMapIDs !! (i + k)%nat = Some dynamicMapID)).
Proof.
  induction zoneIDs as [|z rest IH]; intros i Hrange.
  - exists false. split; [reflexivity|]. split; [discriminate|].
    intros (k & Hk & _). rewrite lookup_nil in Hk. discriminate.
  - assert (Hrest : forall k, (k < length rest)%nat ->
                              is_Some (dynamicMapIDs !! (S i + k)%nat)).
    { intros k Hk. replace (S i + k)%nat with (i + S k)%nat by lia.
      apply Hrange. cbn [length]. lia. }
    destruct (IH (S i) Hrest) as (found & Hrun & Hfound).
    assert (Hlater : found = true <->
                     exists k, rest !! k = Some zoneID /\
                               (dynamicMapID = 0 \/
                                dynamicMapIDs !! (i + S k)%nat = Some dynamicMapID)).
    { rewrite Hfound. split; intros (k & Hk & Hd); exists k; (split; [exact Hk|]);
        (replace (i + S k)%nat with (S i + k)%nat in * by lia); exact Hd. }
    cbn [exists_from].
    destruct (Z.eqb_spec z zoneID) as [->|Hz].
    + destruct (Z.eqb_spec dynamicMapID 0) as [Hd0|Hd0].
      * exists true. split; [reflexivity|]. split; [|reflexivity].
        intros _. exists 0%nat. split; [reflexivity | left; exact Hd0].
      * destruct (Hrange 0%nat ltac:(cbn [length]; lia)) as [d Hd].
        rewrite Nat.add_0_r in Hd. rewrite Hd.
        destruct (Z.eqb_spec d dynamicMapID) as [->|Hne].
        -- exists true. split; [reflexivity|]. split; [|reflexivity].
           intros _. exists 0%nat. rewrite Nat.add_0_r. split; [reflexivity | right; exact Hd].
        -- exists found. split; [exact Hrun|]. rewrite Hlater. split.
           ++ intros (k & Hk & Hdk). exists (S k). split; [exact Hk | exact Hdk].
           ++ intros ([|k] & Hk & Hdk).
              ** exfalso. rewrite Nat.add_0_r in Hdk. destruct Hdk as [?|Hdk]; congruence.
              ** exists k. split; [exact Hk | exact Hdk].
    + exists found. split; [exact Hrun|]. rewrite Hlater. split.
      * intros (k & Hk & Hdk). exists (S k). split; [exact Hk | exact Hdk].
      * intros ([|k] & Hk & Hdk).
        -- cbn in Hk. congruence.
        -- exists k. split; [exact Hk | exact Hdk].
Qed.

(** On instances that were loaded, [ExistsInInstance] never asks for a
    dynamic map ID the instance does not have.  It answers true exactly
    when the instance is stored and names the zone at some position, with
    that dynamic map ID at the same position unless the ID asked for is 0;
    and then the zone is loaded, with that dynamic map ID. *)
Theorem ExistsInInstance_loaded (mZoneData : gmap Z (gset Z))
    (mZoneInstanceData : gmap Z ServerZoneInstance)
    (instanceID zoneID dynamicMapID : Z) :
  instances_ok mZoneData mZoneInstanceData ->
  exists found,
    ExistsInInstance instanceID zoneID dynamicMapID mZoneInstanceData = Some found /\
    (found = true <->
     exists inst k,
       mZoneInstanceData !! instanceID = Some inst /\
       GetZoneIDs inst !! k = Some zoneID /\
       (dynamicMapID = 0 \/ GetDynamicMapIDs inst !! k = Some dynamicMapID)) /\
    (found = true ->
     exists maps, mZoneData !! zoneID = Some maps /\
                  (dynamicMapID <> 0 -> dynamicMapID ∈ maps)).
Proof.
  intros Hok. unfold ExistsInInstance.
  destruct (mZoneInstanceData !! instanceID) as [inst|] eqn:Hinst.
  - destruct (Hok _ _ Hinst) as (_ & Hlen & Hzones).
    destruct (exists_from_spec (GetDynamicMapIDs inst) zoneID dynamicMapID
                (GetZoneIDs inst) 0) as (found & Hrun & Hfound).
    { intros k Hk. apply lookup_lt_is_Some_2. cbn [Nat.add]. lia. }
    cbn [Nat.add] in Hfound.
    exists found. split; [exact Hrun|]. split.
    + rewrite Hfound. split.
      * intros (k & Hk & Hd). exists inst, k. auto.
      * intros (inst' & k & [= <-] & Hk & Hd). exists k. auto.
    + intros Htrue. apply Hfound in Htrue as (k & Hk & Hd).
      destruct (lookup_lt_is_Some_2 (GetDynamicMapIDs inst) k) as [d' Hd'].
      { rewrite <- Hlen. eapply lookup_lt_Some, Hk. }
      rewrite Forall_forall in Hzones.
      assert (Hpair : (zoneID, d') ∈ zip (GetZoneIDs inst) (GetDynamicMapIDs inst)).
      { apply (list_elem_of_lookup_2 _ k). apply lookup_zip_with_Some.
        exists zoneID, d'. auto. }
      specialize (Hzones _ Hpair). cbn [fst snd] in Hzones.
      unfold zone_loaded in Hzones.
      destruct (mZoneData !! zoneID) as [maps|]; [|discriminate].
      exists maps. split; [reflexivity|]. intros Hnz.
      destruct Hd as [?|Hd]; [contradiction|].
      apply bool_decide_eq_true in Hzones. congruence.
  - exists false. split; [reflexivity|]. split; [|discriminate].
    split; [discriminate|]. intros (inst & k & [=] & _).
Qed.

End ZoneInstances.

(** The first instance loaded. *)
Lemma LoadObject_ServerZoneInstance_sound_witness :
  let r := ServerDataManager.LoadObject_ServerZoneInstance (Some Samples.zone_instance)
             None Samples.loaded_zones ∅ in
  ServerDataManager.instances_ok Samples.loaded_zones r.2 /\
  (forall id inst, (∅ : gmap Z ServerDataManager.ServerZoneInstance) !! id = Some inst ->
                   r.2 !! id = Some inst) /\
  (r.1 = false -> r.2 = ∅).
Proof.
  apply (LoadObject_ServerZoneInstance_sound (Some Samples.zone_instance) None
           Samples.loaded_zones ∅).
  apply instances_ok_empty.
Defined.

(** Asking the store that holds it for zone 5 with dynamic map 1. *)
Lemma ExistsInInstance_loaded_witness :
  let stored := (ServerDataManager.LoadObject_ServerZoneInstance
                   (Some Samples.zone_instance) None Samples.loaded_zones ∅).2 in
  exists found,
    ServerDataManager.ExistsInInstance 3 5 1 stored = Some found /\
    (found = true <->
     exists inst k,
       stored !! 3 = Some inst /\
       ServerDataManager.GetZoneIDs inst !! k = Some 5 /\
       (1 = 0 \/ ServerDataManager.GetDynamicMapIDs inst !! k = Some 1)) /\
    (found = true ->
     exists maps, Samples.loaded_zones !! 5 = Some maps /\ (1 <> 0 -> 1 ∈ maps)).
Proof.
  apply (ExistsInInstance_loaded Samples.loaded_zones).
  intros id inst Hin.
  change ((ServerDataManager.LoadObject_ServerZoneInstance (Some Samples.zone_instance) None
             Samples.loaded_zones ∅).2) with (<[3 := Samples.zone_instance]> (∅ : gmap Z _)) in Hin.
  destruct (decide (id = 3)) as [->|Hne].
  - rewrite lookup_insert_eq in Hin. injection Hin as <-.
    split; [reflexivity|]. split; [reflexivity|].
    repeat constructor.
  - rewrite lookup_insert_ne, lookup_empty in Hin by congruence. discriminate.
Defined.

(** ** Waiting for a whole frame *)

Section Framing.
Context `{Constants} `{EncryptedConnection.CryptoOps}.
Import Packet EncryptedConnection.
#[local] Existing Instance M_ret.
#[local] Existing Instance M_bind.

(** On an encrypted connection [ParsePacket] does not touch a frame that
    is not whole.  With fewer than the eight bytes of the two sizes in hand
    it asks for the bytes missing to eight and leaves the packet alone; with
    the sizes in hand but less than the padded size behind them, it asks for
    exactly the bytes missing and leaves the cursor behind the sizes.
    Nothing is decrypted and no message is queued; only when the request is
    refused does the connection fail. *)
Theorem ParsePacket_waits (p : ReadOnlyPacket) (c : Connection) :
  mStatus c = STATUS_ENCRYPTED ->
  mPosition p = 0 -> 0 <= mSize p <= MAX_PACKET_SIZE ->
  let paddedSize := be32 (byte_at p 0) (byte_at p 1) (byte_at p 2) (byte_at p 3) in
  let missing := if mSize p <? 8 then 8 - mSize p else paddedSize + 8 - mSize p in
  mSize p < 8 \/ mSize p < paddedSize + 8 ->
  let asked := (RequestPacket missing (p, c)).1.2 in
  ParsePacket (p, c)
  = ((mkPacket (if mSize p <? 8 then 0 else 8) (mSize p) (mData p),
      if mRequestOk c then asked
      else SocketError "Failed to request more data." asked),
     Ok tt) /\
  mRequested asked = mRequested c ++ [missing] /\
  mMessageQueue asked = mMessageQueue c /\
  mStatus asked = STATUS_ENCRYPTED.
Proof.
  intros Hstatus Hpos Hsize. cbv zeta. intros Hshort.
  pose proof MAX_PACKET_SIZE_range as Hrange.
  split; [|split; [|split]]; [|reflexivity|reflexivity|exact Hstatus].
  destruct p as [pos size data]. cbn [mPosition mSize mData] in *. subst pos.
  unfold ParsePacket. rewrite bind_get_conn.
  rewrite bool_decide_eq_true_2 by exact Hstatus.
  rewrite bind_get_packet. unfold Size. cbn [mSize].
  destruct (Z.ltb_spec size 8) as [Hlt|Hge].
  - destruct (Z.gtb_spec (2 * 4) size) as [_|]; [|lia].
    change (2 * 4) with 8.
    unfold mbind at 1, M_bind at 1, RequestPacket. cbn [fst snd mRequestOk].
    destruct (mRequestOk c); reflexivity.
  - destruct (Z.gtb_spec (2 * 4) size) as [|_]; [lia|].
    assert (Hfirst := ReadU32Big_inside 0 size data).
    assert (Hsecond := ReadU32Big_inside (0 + 4) size data).
    rewrite (bind_on_packet _ _ _ _ _ _ (Hfirst ltac:(lia) ltac:(lia) ltac:(lia))).
    rewrite (bind_on_packet _ _ _ _ _ _ (Hsecond ltac:(lia) ltac:(lia) ltac:(lia))).
    clear Hfirst Hsecond.
    rewrite bind_get_packet. unfold Size. cbn [mSize].
    change (byte_at (mkPacket 0 size data)) with (byte_at (mkPacket 0 size data)).
    set (paddedSize := be32 _ _ _ _) in *.
    destruct Hshort as [|Hshort]; [lia|].
    change (2 * 4) with 8.
    destruct (Z.gtb_spec (paddedSize + 8) size) as [_|]; [|lia].
    change (0 + 4 + 4) with 8.
    unfold mbind at 1, M_bind at 1, RequestPacket. cbn [fst snd mRequestOk].
    destruct (mRequestOk c); reflexivity.
Qed.

End Framing.

Section FramingWitness.
Import Packet EncryptedConnection.
#[local] Existing Instance libcomp_constants.
#[local] Existing Instance Samples.crypto.

(** The sizes of a frame of sixteen bytes, and nothing behind them yet. *)
Lemma ParsePacket_waits_witness :
  let p := of_bytes (u32be 16 ++ u32be 15) in
  let c := Samples.encrypted_connection in
  exists asked,
    ParsePacket (p, c) = ((mkPacket 8 8 (mData p), asked), Ok tt) /\
    mRequested asked = mRequested c ++ [16] /\
    mMessageQueue asked = mMessageQueue c /\
    mStatus asked = STATUS_ENCRYPTED.
Proof.
  cbv zeta.
  assert (Hsize : 0 <= mSize (of_bytes (u32be 16 ++ u32be 15)) <= MAX_PACKET_SIZE)
    by (vm_compute; split; congruence).
  destruct (ParsePacket_waits (of_bytes (u32be 16 ++ u32be 15))
              Samples.encrypted_connection eq_refl eq_refl Hsize)
    as (Hrun & Hreq & Hq & Hs).
  - right. vm_compute. reflexivity.
  - eexists. split; [exact Hrun|]. split; [exact Hreq|]. split; [exact Hq | exact Hs].
Defined.

End FramingWitness.
